(** * reindex_trends: the trend-to-video matching pipeline

    A shallow embedding of the TypeScript sources [ingest.ts], [matcher.ts]
    (the command-line matcher), [server.ts] (the Express handler
    [/api/match-selected] with its helpers, and the handlers of the trends
    and of the recommendations), [youtube.ts], [trends.ts] and [db.ts],
    followed by the properties of the pipeline proved over it.

    Conventions of the embedding.
    - JavaScript strings are [string]s; [chunkText], which only cuts its
      argument, is written over the list of code units of any alphabet.
    - JavaScript numbers that carry scores and similarities are
      rationals [Q]; the sums and the quotient that the code computes on
      them are rounded to the nearest double ([Js.add], [Js.div]), and
      the comparisons of the sorts, which depend on the sign of a
      difference only, are exact.  Counters and indices are [Z] or
      [nat].
    - A statement of better-sqlite3 throws, and writes nothing, when a
      parameter cannot be bound or a constraint of the table fails.
    - Code that may throw returns a [result]; [try]/[catch] is [try_catch].
    - Reads and writes of the database, console output, the event stream of
      the HTTP response and the requests sent to the chat model are threaded
      through a state-and-error monad [M] over a [World].
    - External services ([generateEmbedding], [cosineSimilarity], the chat
      completions, [JSON.parse], [JSON.stringify], [jsonrepair], the
      requests to the YouTube Data API) are deterministic oracles, the
      fields of the class
      [Providers]; the file system, the parsers of the input files, the
      batch of embeddings, the feed and the clock are the fields of the
      class [Services]. *)

From Stdlib Require Import Ascii String.
From Stdlib Require Import ZArith QArith Qround.
From Stdlib Require Import Reals Lqa Lra.
From Stdlib Require Import List Arith Lia Bool.
From Stdlib Require Import Permutation Sorted.
From Stdlib Require Import DecimalString.
From Stdlib Require DecimalPos DecimalZ.
Import ListNotations.

Close Scope Q_scope.
Close Scope R_scope.
Set Implicit Arguments.
Set Warnings "-register-all".
Open Scope string_scope.
Open Scope list_scope.
Open Scope nat_scope.

(* ================================================================== *)
(** * Part I: the embedding                                           *)
(* ================================================================== *)

(** ** JavaScript values and library functions used by the sources *)

Module Js.

(** The outcome of code that may throw; [Throw] carries the [message] of
    the thrown [Error]. *)
Inductive result (A : Type) : Type :=
| Ok (a : A)
| Throw (message : string).

Arguments Ok {A} a.
Arguments Throw {A} message.

(** [String.prototype.indexOf(c)] for a one-character needle: the index
    of the first occurrence, -1 when there is none. *)
Fixpoint indexOf_from (c : ascii) (s : string) (i : Z) : Z :=
  match s with
  | EmptyString => (-1)%Z
  | String a s' => if Ascii.eqb a c then i else indexOf_from c s' (i + 1)%Z
  end.

Definition indexOf (s : string) (c : ascii) : Z := indexOf_from c s 0%Z.

(** [String.prototype.lastIndexOf(c)]: the index of the last occurrence,
    -1 when there is none. *)
Fixpoint lastIndexOf_from (c : ascii) (s : string) (i last : Z) : Z :=
  match s with
  | EmptyString => last
  | String a s' =>
      lastIndexOf_from c s' (i + 1)%Z (if Ascii.eqb a c then i else last)
  end.

Definition lastIndexOf (s : string) (c : ascii) : Z :=
  lastIndexOf_from c s 0%Z (-1)%Z.

(** [s.substring(a, b)] for [0 <= a <= b]; indices beyond the end are
    clamped by [String.substring]. *)
Definition substring (s : string) (a b : Z) : string :=
  String.substring (Z.to_nat a) (Z.to_nat b - Z.to_nat a) s.

(** [s.substring(a)]. *)
Definition substring_from (s : string) (a : Z) : string :=
  String.substring (Z.to_nat a) (String.length s - Z.to_nat a) s.

(** [String.prototype.includes]. *)
Fixpoint includes (s needle : string) : bool :=
  String.prefix needle s
  || match s with
     | EmptyString => false
     | String _ s' => includes s' needle
     end.

(** [String.prototype.toLowerCase] on the letters A-Z; other code units
    are left as they are. *)
Definition lower_ascii (c : ascii) : ascii :=
  if (Ascii.leb "A" c && Ascii.leb c "Z")%bool
  then ascii_of_nat (nat_of_ascii c + 32)
  else c.

Fixpoint toLowerCase (s : string) : string :=
  match s with
  | EmptyString => EmptyString
  | String c s' => String (lower_ascii c) (toLowerCase s')
  end.

(** The values [JSON.parse] produces, and [undefined], which reading a
    missing property gives. *)
Inductive JValue : Type :=
| JUndefined
| JNull
| JBool (b : bool)
| JNum (q : Q)
| JStr (s : string)
| JArr (items : list JValue)
| JObj (fields : list (string * JValue)).

Fixpoint assoc (k : string) (fields : list (string * JValue)) : JValue :=
  match fields with
  | [] => JUndefined
  | (k', v) :: rest => if String.eqb k' k then v else assoc k rest
  end.

(** Property read [v.k]: a [TypeError] on [null] and [undefined],
    [undefined] on every value that has no such property. *)
Definition get_prop (v : JValue) (k : string) : result JValue :=
  match v with
  | JUndefined => Throw "Cannot read properties of undefined"
  | JNull => Throw "Cannot read properties of null"
  | JObj fields => Ok (assoc k fields)
  | _ => Ok JUndefined
  end.

(** [typeof v === 'number'] and [typeof v === 'boolean']. *)
Definition typeof_number (v : JValue) : bool :=
  match v with JNum _ => true | _ => false end.

Definition typeof_boolean (v : JValue) : bool :=
  match v with JBool _ => true | _ => false end.

(** The number, or the boolean, that a value of that type holds. *)
Definition as_number (v : JValue) : Q :=
  match v with JNum q => q | _ => 0%Q end.

Definition as_boolean (v : JValue) : bool :=
  match v with JBool b => b | _ => false end.

(** Numbers.  A JavaScript number is an IEEE 754 double; the embedding
    carries the rational that a finite double denotes.  [round64 q] is
    the double nearest to [q], with ties going to the even mantissa: 53
    bits of mantissa, and multiples of [2^-1074] below the normal range.
    Overflow to infinity is not modelled: the numbers added and divided
    here are similarities and their sums. *)
Definition pow2 (e : Z) : Q :=
  match e with
  | Z0 => 1
  | Zpos p => inject_Z (Zpos (2 ^ p))
  | Zneg p => 1 # (2 ^ p)
  end.

(** The integer nearest to [q >= 0], the even one of two that are
    equally near. *)
Definition nearest_even (q : Q) : Z :=
  let f := Qfloor q in
  match Qcompare (q - inject_Z f) (1 # 2) with
  | Lt => f
  | Gt => (f + 1)%Z
  | Eq => if Z.even f then f else (f + 1)%Z
  end.

(** The exponent [e] with [2^e <= q < 2^(e+1)], for [q > 0]. *)
Definition log2_floor (q : Q) : Z :=
  let e := (Z.log2 (Qnum q) - Z.log2 (Zpos (Qden q)))%Z in
  if Qle_bool (pow2 e) q then e else (e - 1)%Z.

Definition round64_pos (q : Q) : Q :=
  let e := Z.max (log2_floor q - 52) (-1074) in
  Qred (inject_Z (nearest_even (q / pow2 e)) * pow2 e).

Definition round64 (q : Q) : Q :=
  match Qcompare q 0 with
  | Eq => 0
  | Gt => round64_pos q
  | Lt => Qred (- round64_pos (- q))
  end.

(** [a + b] and [a / b] on numbers. *)
Definition add (a b : Q) : Q := round64 (a + b).

Definition div (a b : Q) : Q := round64 (a / b).

(** [Array.prototype.sort(cmp)]: the sort is stable, and [cmp x y <= 0]
    keeps [x] before [y].  Insertion from the right gives that order. *)
Section Sort.

Variable A : Type.
Variable cmp : A -> A -> Q.

Fixpoint sort_insert (x : A) (l : list A) : list A :=
  match l with
  | [] => [x]
  | y :: l' =>
      if Qle_bool (cmp x y) 0 then x :: y :: l' else y :: sort_insert x l'
  end.

Definition sort (l : list A) : list A := fold_right sort_insert [] l.

End Sort.

(** [Array.prototype.slice(0, n)]. *)
Definition slice0 {A : Type} (n : nat) (l : list A) : list A := firstn n l.

(** A [Map] with string keys: entries are kept in the order in which
    their keys were first set. *)
Module Map.

Section Ops.

Variable V : Type.

Definition t := list (string * V).

Fixpoint get (k : string) (m : t) : option V :=
  match m with
  | [] => None
  | (k', v) :: rest => if String.eqb k' k then Some v else get k rest
  end.

Definition has (k : string) (m : t) : bool :=
  match get k m with Some _ => true | None => false end.

Fixpoint set (k : string) (v : V) (m : t) : t :=
  match m with
  | [] => [(k, v)]
  | (k', v') :: rest =>
      if String.eqb k' k then (k', v) :: rest else (k', v') :: set k v rest
  end.

Definition entries (m : t) : list (string * V) := m.

End Ops.

End Map.

End Js.

Import Js.

(** ** types.ts *)

Record Video := {
  video_id : string;
  title_current : string;
  transcript_full : string;
  transcript_intro : string;
  published_at : string;
  url : string
}.

Definition Embedding := list Q.

Record VideoChunk := {
  chunk_video_id : string;
  chunk_id : Z;
  chunk_text : string;
  embedding : Embedding
}.

Record Trend := {
  trend_id : string;
  title : string;
  summary : string;
  keywords : string;
  source : string;
  created_at : string
}.

(** The four fields that are checked after parsing are typed; the three
    text-bearing fields are carried as they were parsed. *)
Record LLMEvaluation := {
  semantic_relevance : Q;
  intro_support : Q;
  honesty_risk : Q;
  allowed : bool;
  titles : JValue;
  thumbnails : JValue;
  notes : JValue
}.

Record Recommendation := {
  rec_trend_id : string;
  rec_video_id : string;
  rec_semantic_relevance : Q;
  rec_intro_support : Q;
  rec_honesty_risk : Q;
  rec_titles : string;
  rec_thumbnails : string;
  rec_notes : JValue
}.

(** youtube.ts declares the suggestion with two fields more than
    types.ts; the values that [getYouTubeTitleSuggestions] returns have
    all six. *)
Record YouTubeVideoSuggestion := {
  yt_title : string;
  yt_views : Z;
  yt_channelTitle : string;
  yt_videoId : string;
  yt_thumbnailUrl : string;
  yt_publishedAt : string
}.

(** A value of type [Recommendation] as the orchestrators build it from
    an evaluation.  [titles] and [thumbnails] come from
    [JSON.stringify], which gives [undefined] for a value that is
    [undefined] ([None] here), and [notes] is the value that the answer
    of the model held under that name. *)
Record NewRecommendation := {
  new_trend_id : string;
  new_video_id : string;
  new_semantic_relevance : Q;
  new_intro_support : Q;
  new_honesty_risk : Q;
  new_titles : option string;
  new_thumbnails : option string;
  new_notes : JValue
}.

(** ** ingest.ts *)

Module Ingest.

Definition CHUNK_SIZE : nat := 1000.
Definition CHUNK_OVERLAP : nat := 150.

Section Chunking.

Context {char : Type}.

(** [text.substring(a, b)] on the list of code units: both indices are
    clamped to the length and swapped when they come in the wrong order. *)
Definition substring (s : list char) (a b : nat) : list char :=
  let a' := Nat.min a (length s) in
  let b' := Nat.min b (length s) in
  firstn (Nat.max a' b' - Nat.min a' b') (skipn (Nat.min a' b') s).

(** The [while] loop of [chunkText], for a window of [size] code units
    that moves by [size - overlap].  [fuel] bounds the number of
    iterations; the loop answers [None] when it is exhausted. *)
Fixpoint chunkText_loop (size overlap fuel : nat) (text : list char)
         (start : nat) (chunks : list (list char))
  : option (list (list char)) :=
  match fuel with
  | O => None
  | S fuel' =>
      if start <? length text then
        let end_ := Nat.min (start + size) (length text) in
        chunkText_loop size overlap fuel' text
                       (start + (size - overlap))
                       (chunks ++ [substring text start end_])
      else Some chunks
  end.

Definition chunkText (text : list char) : option (list (list char)) :=
  chunkText_loop CHUNK_SIZE CHUNK_OVERLAP (S (length text)) text 0 [].

End Chunking.

End Ingest.

(** ** The world the pipeline runs in *)

(** db.ts: the four tables of the SQLite file. *)
Record Database := {
  videos : list Video;
  video_chunks : list VideoChunk;
  trends : list Trend;
  recommendations : list Recommendation
}.

Inductive LogArg : Type :=
| LStr (s : string)
| LNum (n : Z)
| LQ (q : Q).

(** A line written to the console: the fixed text of the call and the
    values interpolated into it. *)
Inductive LogLine : Type :=
| console_log (text : string) (args : list LogArg)
| console_error (text : string) (args : list LogArg)
| console_warn (text : string) (args : list LogArg).

(** One entry of [matchedVideos] in the server's result. *)
Record MatchResult := {
  mr_trend : string;
  mr_video : string;
  mr_video_intro : string;
  mr_scores : Q * Q * Q;
  mr_packaging : JValue * JValue * JValue
}.

Record TrendRecommendations := {
  tr_trend : Trend;
  tr_youtubeSuggestions : list YouTubeVideoSuggestion;
  tr_matchedVideos : list MatchResult
}.

Inductive YoutubeNote : Type :=
| YtFetching
| YtFound (count : nat)
| YtUnavailable
| YtApiError.

(** What the handler writes to the HTTP response: the events of the
    stream ([sendEvent]) and the one JSON answer with status 400. *)
Inductive Event : Type :=
| EvStart (selected : nat)
| EvTrend (trend_title : string)
| EvYoutube (note : YoutubeNote)
| EvCandidates (count : nat)
| EvAccepted (video_title : string) (scores : Q * Q * Q)
| EvRejected (video_title : string)
| EvComplete (totalEvaluations accepted rejected : Z)
             (results : list TrendRecommendations)
| EvError (error : string)
| Status400 (error : string).

(** A request sent to the chat model: the trend, the video and the
    excerpts its prompt is built from. *)
Record ChatRequest := {
  req_trend : Trend;
  req_video : Video;
  req_chunks : list string
}.

(** [chat_requests] are the requests that the evaluations have sent to
    the chat model, and [topic_requests] the headlines for which
    youtube.ts has asked the chat model for a search query. *)
Record World := {
  db : Database;
  console : list LogLine;
  response : list Event;
  chat_requests : list ChatRequest;
  topic_requests : list string
}.

(** The answer to a request sent with [fetch]: one that is not [ok],
    with its status and what [await response.text()] gives, or what
    [await response.json()] gives. *)
Inductive ApiResponse (A : Type) : Type :=
| NotOk (status : nat) (text : result string)
| Json (data : result A).

Arguments NotOk {A} status text.
Arguments Json {A} data.

(** The external services.  [chat_completion] is the [content] of the
    first choice of the completion for the prompt built from its three
    arguments ([None] when that content is [null]); it throws on a
    transport-level failure.  [JSON_stringify] is [JSON.stringify] on a
    value that is not [undefined].

    [sqlite_bind v] is what better-sqlite3 does with a number, an array
    or an object that [stmt.run] is handed for a column of type TEXT:
    the text that the column holds afterwards, or the error that the
    statement throws.

    The two keys are [process.env.YOUTUBE_API_KEY || ''] and
    [process.env.OPENAI_API_KEY || ''].  [openai_client key] is
    [new OpenAI({ apiKey: key })], which may throw; [topic_completion]
    is the [content] of the first choice of the completion that
    youtube.ts requests for a headline.  [published_after] is
    [fourteenDaysAgo.toLocaleDateString()].  [fetch_search q n] is the
    request to the search endpoint of the YouTube Data API for the query
    [q] with [maxResults = n], and [fetch_stats ids] the request to its
    videos endpoint for the identifiers [ids], joined by commas; either
    throws when [fetch] rejects.  The answer of the search is read as
    the identifiers [item.id.videoId] of its [items] ([None] when it has
    no [items]), the answer of the videos endpoint as the suggestions
    that the callback of [statsData.items.map] makes of its items. *)
Class Providers := {
  generateEmbedding : string -> result Embedding;
  cosineSimilarity : Embedding -> Embedding -> Q;
  chat_completion : Trend -> Video -> list string -> result (option string);
  JSON_parse : string -> result JValue;
  JSON_stringify : JValue -> string;
  jsonrepair : string -> result string;
  sqlite_bind : JValue -> result string;
  YOUTUBE_API_KEY : string;
  OPENAI_API_KEY : string;
  openai_client : string -> result unit;
  topic_completion : string -> result (option string);
  published_after : string;
  fetch_search : string -> nat
                 -> result (ApiResponse (option (list string)));
  fetch_stats : string
                -> result (ApiResponse (list YouTubeVideoSuggestion))
}.

(** ** The state-and-error monad *)

Definition M (A : Type) : Type := World -> result A * World.

Definition ret {A : Type} (a : A) : M A := fun w => (Ok a, w).

Definition bind {A B : Type} (m : M A) (f : A -> M B) : M B :=
  fun w =>
    match m w with
    | (Ok a, w') => f a w'
    | (Throw e, w') => (Throw e, w')
    end.

Definition lift {A : Type} (r : result A) : M A := fun w => (r, w).

(** [try { m } catch (error) { handler error }]: what [m] did to the
    world before it threw stays done. *)
Definition try_catch {A : Type} (m : M A) (handler : string -> M A) : M A :=
  fun w =>
    match m w with
    | (Ok a, w') => (Ok a, w')
    | (Throw e, w') => handler e w'
    end.

Declare Scope monad_scope.
Delimit Scope monad_scope with monad.
Notation "x <- m ;; k" := (bind m (fun x => k))
  (at level 61, m at next level, right associativity) : monad_scope.
Notation "m ;;; k" := (bind m (fun _ => k))
  (at level 61, right associativity) : monad_scope.
Open Scope monad_scope.

(** [for (const x of l) body], with the variables the loop updates passed
    from one iteration to the next. *)
Fixpoint for_each {A S : Type} (l : list A) (body : A -> S -> M S) (s : S)
  : M S :=
  match l with
  | [] => ret s
  | x :: l' => s' <- body x s ;; for_each l' body s'
  end.

Definition log (text : string) (args : list LogArg) : M unit :=
  fun w => (Ok tt, {| db := db w;
                      console := console w ++ [console_log text args];
                      response := response w;
                      chat_requests := chat_requests w;
                      topic_requests := topic_requests w |}).

Definition log_error (text : string) (args : list LogArg) : M unit :=
  fun w => (Ok tt, {| db := db w;
                      console := console w ++ [console_error text args];
                      response := response w;
                      chat_requests := chat_requests w;
                      topic_requests := topic_requests w |}).

Definition log_warn (text : string) (args : list LogArg) : M unit :=
  fun w => (Ok tt, {| db := db w;
                      console := console w ++ [console_warn text args];
                      response := response w;
                      chat_requests := chat_requests w;
                      topic_requests := topic_requests w |}).

Definition sendEvent (e : Event) : M unit :=
  fun w => (Ok tt, {| db := db w;
                      console := console w;
                      response := response w ++ [e];
                      chat_requests := chat_requests w;
                      topic_requests := topic_requests w |}).

(** [openai.chat.completions.create] followed by the read of
    [response.choices[0].message.content]: the request is recorded, and
    the oracle answers. *)
Definition create_chat_completion `{Providers}
           (trend : Trend) (video : Video) (topChunks : list string)
  : M (option string) :=
  fun w =>
    (chat_completion trend video topChunks,
     {| db := db w;
        console := console w;
        response := response w;
        chat_requests := chat_requests w ++
                         [{| req_trend := trend; req_video := video;
                             req_chunks := topChunks |}];
        topic_requests := topic_requests w |}).

(** The [openai.chat.completions.create] of youtube.ts, followed by the
    read of [response.choices[0].message.content]. *)
Definition create_topic_completion `{Providers} (trendTitle : string)
  : M (option string) :=
  fun w =>
    (topic_completion trendTitle,
     {| db := db w;
        console := console w;
        response := response w;
        chat_requests := chat_requests w;
        topic_requests := topic_requests w ++ [trendTitle] |}).

(** ** db.ts: the methods of class [DB] *)

Module DB.

Definition DB_PATH : string := "reindexer.db".

(** [new DB()]. *)
Definition new : M unit := log "Database path: " [LStr DB_PATH].

Definition read {A : Type} (f : Database -> A) : M A :=
  fun w => (Ok (f (db w)), w).

Definition write (f : Database -> Database) : M unit :=
  fun w => (Ok tt, {| db := f (db w);
                      console := console w;
                      response := response w;
                      chat_requests := chat_requests w;
                      topic_requests := topic_requests w |}).

Definition same_key (a b : Recommendation) : bool :=
  String.eqb (rec_trend_id a) (rec_trend_id b)
  && String.eqb (rec_video_id a) (rec_video_id b).

(** [INSERT OR REPLACE] under the primary key [(trend_id, video_id)]:
    a row with the same key is deleted, the new row is added. *)
Definition insert_or_replace (rec : Recommendation)
           (rows : list Recommendation) : list Recommendation :=
  filter (fun r => negb (same_key r rec)) rows ++ [rec].

(** What [stmt.run] binds to a parameter: [None] is NULL, which stands
    for [null] and for [undefined] alike.  A string is bound as it is, a
    boolean is refused, and what becomes of another value is left to
    [sqlite_bind]. *)
Definition bind_parameter `{Providers} (v : JValue)
  : result (option string) :=
  match v with
  | JUndefined | JNull => Ok None
  | JStr s => Ok (Some s)
  | JBool _ =>
      Throw "SQLite3 can only bind numbers, strings, bigints, buffers, and null"
  | JNum _ | JArr _ | JObj _ =>
      match sqlite_bind v with
      | Ok s => Ok (Some s)
      | Throw e => Throw e
      end
  end.

(** The constraint NOT NULL of a column. *)
Definition not_null (column : string) (v : option string) : result string :=
  match v with
  | Some s => Ok s
  | None => Throw ("NOT NULL constraint failed: recommendations." ++ column)
  end.

(** The two foreign keys of the table of recommendations, which
    better-sqlite3 enforces. *)
Definition references_exist (trend_id_ video_id_ : string) (d : Database)
  : bool :=
  existsb (fun t => String.eqb (trend_id t) trend_id_) (trends d)
  && existsb (fun v => String.eqb (video_id v) video_id_) (videos d).

(** [insertRecommendation]: the parameters are bound, the row is checked
    against the constraints of the table ([titles], [thumbnails] and
    [notes] are NOT NULL) and written; the statement throws, and writes
    nothing, when a value cannot be bound or a constraint fails. *)
Definition insertRecommendation `{Providers} (rec : NewRecommendation)
  : M unit :=
  bound <- lift (bind_parameter (new_notes rec)) ;;
  titles_ <- lift (not_null "titles" (new_titles rec)) ;;
  thumbnails_ <- lift (not_null "thumbnails" (new_thumbnails rec)) ;;
  notes_ <- lift (not_null "notes" bound) ;;
  d <- read (fun d => d) ;;
  if references_exist (new_trend_id rec) (new_video_id rec) d then
    write (fun d =>
             {| videos := videos d;
                video_chunks := video_chunks d;
                trends := trends d;
                recommendations :=
                  insert_or_replace
                    {| rec_trend_id := new_trend_id rec;
                       rec_video_id := new_video_id rec;
                       rec_semantic_relevance := new_semantic_relevance rec;
                       rec_intro_support := new_intro_support rec;
                       rec_honesty_risk := new_honesty_risk rec;
                       rec_titles := titles_;
                       rec_thumbnails := thumbnails_;
                       rec_notes := JStr notes_ |}
                    (recommendations d) |})
  else lift (Throw "FOREIGN KEY constraint failed").

Definition getAllVideos : M (list Video) := read videos.

(** [SELECT * FROM trends ORDER BY created_at DESC]. *)
Definition getAllTrends : M (list Trend) :=
  read (fun d =>
          Js.sort (fun a b => if String.leb (created_at b) (created_at a)
                              then 0%Q else 1%Q)
                  (trends d)).

Definition getTrend (id : string) : M (option Trend) :=
  read (fun d => find (fun t => String.eqb (trend_id t) id) (trends d)).

Definition getAllChunks : M (list VideoChunk) := read video_chunks.

Definition clearRecommendations : M unit :=
  write (fun d => {| videos := videos d;
                     video_chunks := video_chunks d;
                     trends := trends d;
                     recommendations := [] |}).

Definition close : M unit := ret tt.

End DB.

(** ** Candidate retrieval: the code shared by matcher.ts and server.ts *)

Record ChunkScore := {
  cs_video_id : string;
  cs_chunk_text : string;
  similarity : Q
}.

Record ScoredChunk := {
  text : string;
  score : Q
}.

Record VideoData := {
  scores : list Q;
  chunks : list ScoredChunk
}.

Record CandidateVideo := {
  video : Video;
  avgSimilarity : Q;
  topChunks : list string
}.

Section Candidates.

Context `{Providers}.

(** The loop that scores every chunk against the trend. *)
Definition score_chunks (trendEmbedding : Embedding)
           (allChunks : list VideoChunk) : list ChunkScore :=
  fold_left
    (fun chunkScores chunk =>
       let chunkEmbedding := embedding chunk in
       let similarity := cosineSimilarity trendEmbedding chunkEmbedding in
       chunkScores ++ [{| cs_video_id := chunk_video_id chunk;
                          cs_chunk_text := chunk_text chunk;
                          similarity := similarity |}])
    allChunks [].

(** One iteration of the loop that groups the scores by video. *)
Definition aggregate_step (videoScores : Map.t VideoData)
           (score : ChunkScore) : Map.t VideoData :=
  let videoScores :=
    if negb (Map.has (cs_video_id score) videoScores)
    then Map.set (cs_video_id score) {| scores := []; chunks := [] |}
                 videoScores
    else videoScores in
  match Map.get (cs_video_id score) videoScores with
  | Some videoData =>
      Map.set (cs_video_id score)
              {| scores := scores videoData ++ [similarity score];
                 chunks := chunks videoData ++
                           [{| text := cs_chunk_text score;
                               score := similarity score |}] |}
              videoScores
  | None => videoScores
  end.

Definition aggregate (chunkScores : list ChunkScore) : Map.t VideoData :=
  fold_left aggregate_step chunkScores [].

(** [data.scores.reduce((a, b) => a + b, 0) / data.scores.length], in
    the arithmetic of doubles: every sum and the quotient are
    rounded. *)
Definition average (scores : list Q) : Q :=
  Js.div (fold_left Js.add scores 0%Q)
         (inject_Z (Z.of_nat (length scores))).

(** One iteration of the loop over the entries of the map; a video that is
    not in [allVideos] is passed over ([continue]). *)
Definition candidate_step (allVideos : list Video)
           (candidates : list CandidateVideo) (entry : string * VideoData)
  : list CandidateVideo :=
  let '(video_id_, data) := entry in
  match find (fun v => String.eqb (video_id v) video_id_) allVideos with
  | None => candidates
  | Some video =>
      let avgSimilarity := average (scores data) in
      let topChunks :=
        map text
            (slice0 5 (Js.sort (fun a b => score b - score a)%Q
                               (chunks data))) in
      candidates ++ [{| video := video;
                        avgSimilarity := avgSimilarity;
                        topChunks := topChunks |}]
  end.

Definition build_candidates (allVideos : list Video)
           (videoScores : Map.t VideoData) : list CandidateVideo :=
  fold_left (candidate_step allVideos) (Map.entries videoScores) [].

Definition sort_candidates (candidates : list CandidateVideo)
  : list CandidateVideo :=
  Js.sort (fun a b => avgSimilarity b - avgSimilarity a)%Q candidates.

End Candidates.

(** The value both variants return when an evaluation fails. *)
Definition conservative_rejection (notes : string) : LLMEvaluation :=
  {| semantic_relevance := 0;
     intro_support := 0;
     honesty_risk := 1.0;
     allowed := false;
     titles := JArr [];
     thumbnails := JArr [];
     notes := JStr notes |}.

(** [JSON.parse(content) as LLMEvaluation] followed by the structure
    check.  Reading a property of [null] throws; otherwise the check
    throws unless the three scores are numbers and [allowed] is a
    boolean, and the value is returned as the evaluation. *)
Definition validate (evaluation : JValue) : result LLMEvaluation :=
  match get_prop evaluation "semantic_relevance" with
  | Throw e => Throw e
  | Ok _ =>
      let field k := match get_prop evaluation k with
                     | Ok v => v
                     | Throw _ => JUndefined
                     end in
      if negb (typeof_number (field "semantic_relevance"))
         || negb (typeof_number (field "intro_support"))
         || negb (typeof_number (field "honesty_risk"))
         || negb (typeof_boolean (field "allowed"))
      then Throw "Invalid LLM response structure"
      else Ok {| semantic_relevance := as_number (field "semantic_relevance");
                 intro_support := as_number (field "intro_support");
                 honesty_risk := as_number (field "honesty_risk");
                 allowed := as_boolean (field "allowed");
                 titles := field "titles";
                 thumbnails := field "thumbnails";
                 notes := field "notes" |}
  end.

(** [response.choices[0].message.content || '{}']. *)
Definition content_or_default (content : option string) : string :=
  match content with
  | None => "{}"
  | Some s => if String.eqb s "" then "{}" else s
  end.

(** [JSON.stringify(v)]: [undefined] ([None]) for [undefined], a text
    for every other value that [JSON.parse] can give. *)
Definition stringify `{Providers} (v : JValue) : option string :=
  match v with
  | JUndefined => None
  | _ => Some (JSON_stringify v)
  end.

(** ** More of the string library: trends.ts, ingest.ts and the handlers

    A string is a sequence of code units below 256, read as the code
    points U+0000 to U+00FF. *)

Module Text.

(** The class [\s] of a regular expression, which is also the set of
    code units that [trim] strips: tab, line feed, vertical tab, form
    feed, carriage return, space and the no-break space. *)
Definition is_space (c : ascii) : bool :=
  let n := nat_of_ascii c in
  ((9 <=? n) && (n <=? 13)) || (n =? 32) || (n =? 160).

(** The class [[a-z0-9]]. *)
Definition is_lower_alnum (c : ascii) : bool :=
  let n := nat_of_ascii c in
  ((97 <=? n) && (n <=? 122)) || ((48 <=? n) && (n <=? 57)).

(** [String.prototype.toLowerCase]: the letters A-Z and the capital
    letters of Latin-1 (U+00C0 to U+00DE without the multiplication
    sign) move up by 32. *)
Definition lower_unit (c : ascii) : ascii :=
  let n := nat_of_ascii c in
  if ((65 <=? n) && (n <=? 90))
     || ((192 <=? n) && (n <=? 222) && negb (n =? 215))
  then ascii_of_nat (n + 32)
  else c.

Fixpoint map_units (f : ascii -> ascii) (s : string) : string :=
  match s with
  | EmptyString => EmptyString
  | String c s' => String (f c) (map_units f s')
  end.

Definition toLowerCase (s : string) : string := map_units lower_unit s.

(** [String.prototype.trim]. *)
Fixpoint trimStart (s : string) : string :=
  match s with
  | EmptyString => EmptyString
  | String c s' => if is_space c then trimStart s' else s
  end.

Fixpoint trimEnd (s : string) : string :=
  match s with
  | EmptyString => EmptyString
  | String c s' =>
      match trimEnd s' with
      | EmptyString => if is_space c then EmptyString
                       else String c EmptyString
      | t => String c t
      end
  end.

Definition trim (s : string) : string := trimEnd (trimStart s).

(** [s.split(/\s+/)]: the pieces between the runs of white space.  A
    string that begins (ends) with white space has the empty string as
    its first (last) piece, and the empty string has the one piece
    [""]. *)
Fixpoint split_ws (s : string) : list string :=
  match s with
  | EmptyString => [EmptyString]
  | String c s' =>
      if is_space c then
        match s' with
        | String c' _ => if is_space c' then split_ws s'
                         else EmptyString :: split_ws s'
        | EmptyString => EmptyString :: split_ws s'
        end
      else
        match split_ws s' with
        | w :: ws => String c w :: ws
        | [] => [String c EmptyString]
        end
  end.

(** [Array.prototype.join]. *)
Definition join (sep : string) (l : list string) : string :=
  String.concat sep l.

(** [s.replace(/[^a-z0-9\s]/g, ' ')]. *)
Definition blank_other (s : string) : string :=
  map_units (fun c => if is_lower_alnum c || is_space c then c else " "%char)
            s.

(** [s.replace(/[^a-z0-9]+/g, '-')]: every maximal run of code units
    outside [[a-z0-9]] becomes one hyphen; [in_run] tells that the
    hyphen of the current run has been written. *)
Fixpoint dash_runs (s : string) (in_run : bool) : string :=
  match s with
  | EmptyString => EmptyString
  | String c s' =>
      if is_lower_alnum c then String c (dash_runs s' false)
      else if in_run then dash_runs s' true
           else String "-" (dash_runs s' true)
  end.

(** [String.prototype.endsWith]. *)
Definition endsWith (s suffix : string) : bool :=
  (String.length suffix <=? String.length s)
  && String.eqb (String.substring (String.length s - String.length suffix)
                                  (String.length suffix) s)
                suffix.

(** The decimal text of an integer, as a template literal writes it. *)
Definition decimal (n : Z) : string := NilZero.string_of_int (Z.to_int n).

End Text.

(** ** matcher.ts: the command-line matcher *)

Module Matcher.

Definition TOP_CANDIDATES_PER_TREND : nat := 3.
Definition TOP_CHUNKS_FOR_LLM : nat := 3.

Definition MIN_SEMANTIC_RELEVANCE : Q := 0.65.
Definition MIN_INTRO_SUPPORT : Q := 0.65.
Definition MAX_HONESTY_RISK : Q := 0.30.

Section WithProviders.

Context `{Providers}.

Definition extractBroaderThemes (trend : Trend) : string :=
  let title := toLowerCase (title trend) in
  let summary_ := toLowerCase (summary trend) in
  let combined := (title ++ " " ++ summary_)%string in
  let themes : list string := [] in
  let themes :=
    if includes combined "ai" || includes combined "artificial intelligence"
       || includes combined "chatgpt" || includes combined "machine learning"
    then themes ++
         ["artificial intelligence, AI technology, automation, tech innovation"]
    else themes in
  let themes :=
    if includes combined "budget" || includes combined "tax"
       || includes combined "income tax" || includes combined "fiscal"
    then themes ++
         ["taxation, financial planning, income tax, savings, money management"]
    else themes in
  let themes :=
    if includes combined "job" || includes combined "layoff"
       || includes combined "career" || includes combined "employment"
    then themes ++ ["careers, employment, job market, professional growth"]
    else themes in
  let themes :=
    if includes combined "stock" || includes combined "market"
       || includes combined "investment" || includes combined "trading"
    then themes ++
         ["investing, stock market, wealth building, financial markets"]
    else themes in
  if 0 <? length themes
  then (summary trend ++ ". Related themes: "
        ++ String.concat ", " themes)%string
  else summary trend.

Definition getCandidateVideos (trend : Trend) (allVideos : list Video)
  : M (list CandidateVideo) :=
  let enrichedQuery := extractBroaderThemes trend in
  trendEmbedding <- lift (generateEmbedding enrichedQuery) ;;
  allChunks <- DB.getAllChunks ;;
  let chunkScores := score_chunks trendEmbedding allChunks in
  let videoScores := aggregate chunkScores in
  let candidates := build_candidates allVideos videoScores in
  let candidates := sort_candidates candidates in
  ret (slice0 TOP_CANDIDATES_PER_TREND candidates).

Definition evaluateWithLLM (trend : Trend) (video : Video)
           (topChunks : list string) : M LLMEvaluation :=
  try_catch
    (response_content <- create_chat_completion trend video topChunks ;;
     let content := content_or_default response_content in
     evaluation <- lift (JSON_parse content) ;;
     lift (validate evaluation))
    (fun error =>
       log_error "LLM evaluation failed:" [LStr error] ;;;
       ret (conservative_rejection "Evaluation failed")).

(** The acceptance rules of STEP 3. *)
Definition accepted (evaluation : LLMEvaluation) : bool :=
  allowed evaluation
  && Qle_bool MIN_SEMANTIC_RELEVANCE (semantic_relevance evaluation)
  && Qle_bool MIN_INTRO_SUPPORT (intro_support evaluation)
  && Qle_bool (honesty_risk evaluation) MAX_HONESTY_RISK.

Definition make_recommendation (trend : Trend) (candidate : CandidateVideo)
           (evaluation : LLMEvaluation) : NewRecommendation :=
  {| new_trend_id := trend_id trend;
     new_video_id := video_id (video candidate);
     new_semantic_relevance := semantic_relevance evaluation;
     new_intro_support := intro_support evaluation;
     new_honesty_risk := honesty_risk evaluation;
     new_titles := stringify (titles evaluation);
     new_thumbnails := stringify (thumbnails evaluation);
     new_notes := notes evaluation |}.

(** The body of the loop over the candidates of a trend; the pair is
    [(totalEvaluations, acceptedCount)]. *)
Definition process_candidate (trend : Trend) (candidate : CandidateVideo)
           (counters : Z * Z) : M (Z * Z) :=
  let '(totalEvaluations, acceptedCount) := counters in
  let totalEvaluations := (totalEvaluations + 1)%Z in
  let topChunks := slice0 TOP_CHUNKS_FOR_LLM (topChunks candidate) in
  evaluation <- evaluateWithLLM trend (video candidate) topChunks ;;
  if accepted evaluation then
    let acceptedCount := (acceptedCount + 1)%Z in
    let recommendation := make_recommendation trend candidate evaluation in
    DB.insertRecommendation recommendation ;;;
    log "ACCEPTED: " [LStr (title_current (video candidate))] ;;;
    log "Relevance, Intro, Risk: "
        [LQ (semantic_relevance evaluation);
         LQ (intro_support evaluation);
         LQ (honesty_risk evaluation)] ;;;
    ret (totalEvaluations, acceptedCount)
  else
    log "REJECTED: " [LStr (title_current (video candidate))] ;;;
    ret (totalEvaluations, acceptedCount).

(** The body of the loop over the trends. *)
Definition process_trend (videos : list Video) (trend : Trend)
           (counters : Z * Z) : M (Z * Z) :=
  log "Trend: " [LStr (title trend)] ;;;
  candidates <- getCandidateVideos trend videos ;;
  log "Found candidate videos via vector search: "
      [LNum (Z.of_nat (length candidates))] ;;;
  counters <- for_each candidates (process_candidate trend) counters ;;
  log "" [] ;;;
  ret counters.

Definition matchTrendsToVideos : M unit :=
  log "Starting trend-to-video matching..." [] ;;;
  DB.new ;;;
  trends <- DB.getAllTrends ;;
  videos <- DB.getAllVideos ;;
  if length trends =? 0 then
    log "No trends found. Run npm run trends first." [] ;;;
    DB.close
  else if length videos =? 0 then
    log "No videos found. Run npm run ingest first." [] ;;;
    DB.close
  else
    log "Processing trends x videos pool: "
        [LNum (Z.of_nat (length trends)); LNum (Z.of_nat (length videos))] ;;;
    DB.clearRecommendations ;;;
    counters <- for_each trends (process_trend videos) (0%Z, 0%Z) ;;
    let '(totalEvaluations, acceptedCount) := counters in
    DB.close ;;;
    log "Summary:" [] ;;;
    log "Total LLM evaluations: " [LNum totalEvaluations] ;;;
    log "Accepted: " [LNum acceptedCount] ;;;
    log "Rejected: " [LNum (totalEvaluations - acceptedCount)] ;;;
    log "Matching complete. Results saved to database." [].

End WithProviders.

End Matcher.

(** ** youtube.ts: the title suggestions of a trend *)

Module YouTube.

(** The code unit is a hyphen or a bar. *)
Definition is_separator (c : ascii) : bool :=
  Ascii.eqb c "-" || Ascii.eqb c "|".

(** The regular expression [\s*[-|]\s*] matches at the start of [s]. *)
Fixpoint at_separator (s : string) : bool :=
  match s with
  | EmptyString => false
  | String c s' => is_separator c || (Text.is_space c && at_separator s')
  end.

(** [s.split(/\s*[-|]\s*/)[0]]: the text before the first hyphen or
    bar, without the white space that stands before it. *)
Fixpoint first_piece (s : string) : string :=
  match s with
  | EmptyString => EmptyString
  | String c s' =>
      if at_separator s then EmptyString else String c (first_piece s')
  end.

(** The search query taken from the headline when the model cannot be
    asked. *)
Definition fallback_topic (trendTitle : string) : string :=
  Text.join " " (slice0 4 (Text.split_ws (first_piece trendTitle))).

Section WithProviders.

Context `{Providers}.

Definition extractMainTopicWithAI (trendTitle openaiKey : string)
  : M string :=
  try_catch
    (lift (openai_client openaiKey) ;;;
     content <- create_topic_completion trendTitle ;;
     let keyword :=
       match content with
       | Some c => if String.eqb (Text.trim c) "" then trendTitle
                   else Text.trim c
       | None => trendTitle
       end in
     ret keyword)
    (fun error =>
       log_error "Error extracting topic with AI:" [LStr error] ;;;
       ret (fallback_topic trendTitle)).

Definition getYouTubeTitleSuggestions (query youtubeApiKey
                                        openaiApiKey : string)
           (maxResults : nat) : M (list YouTubeVideoSuggestion) :=
  try_catch
    (if String.eqb youtubeApiKey ""
        || String.eqb youtubeApiKey "your_youtube_api_key_here"
     then
       log_warn
         "YouTube API key not configured - skipping YouTube suggestions"
         [] ;;;
       ret []
     else
       searchQuery <- extractMainTopicWithAI query openaiApiKey ;;
       log "AI-powered YouTube Query: " [LStr query; LStr searchQuery] ;;;
       log "Filtering videos published after: " [LStr published_after] ;;;
       searchResponse <- lift (fetch_search searchQuery (maxResults * 2)) ;;
       match searchResponse with
       | NotOk status text =>
           errorText <- lift text ;;
           log_error "YouTube API Error: "
                     [LNum (Z.of_nat status); LStr errorText] ;;;
           log_error "   Query:" [LStr searchQuery] ;;;
           log_error
             "   Check: https://console.cloud.google.com/apis/credentials"
             [] ;;;
           ret []
       | Json data =>
           items <- lift data ;;
           log "YouTube Search: Found results: "
               [LStr searchQuery;
                LNum (Z.of_nat (match items with
                                | Some l => length l
                                | None => 0
                                end))] ;;;
           match items with
           | None | Some [] =>
               log_warn "No YouTube results found for query: "
                        [LStr searchQuery] ;;;
               ret []
           | Some ids =>
               let videoIds := Text.join "," ids in
               log "Fetching stats for videos: "
                   [LNum (Z.of_nat (length ids))] ;;;
               statsResponse <- lift (fetch_stats videoIds) ;;
               match statsResponse with
               | NotOk _ text =>
                   errorText <- lift text ;;
                   log_error "YouTube API stats error:" [LStr errorText] ;;;
                   ret []
               | Json data =>
                   suggestions <- lift data ;;
                   let suggestions :=
                     Js.sort (fun a b => inject_Z (yt_views b)
                                         - inject_Z (yt_views a))%Q
                             suggestions in
                   let topSuggestions := slice0 maxResults suggestions in
                   log "Returning YouTube suggestions: "
                       [LNum (Z.of_nat (length topSuggestions));
                        match topSuggestions with
                        | top :: _ => LNum (yt_views top)
                        | [] => LStr "undefined"
                        end] ;;;
                   ret topSuggestions
               end
           end
       end)
    (fun error =>
       log_error "Error fetching YouTube suggestions:" [LStr error] ;;;
       ret []).

End WithProviders.

End YouTube.

(** ** server.ts: the handler of POST /api/match-selected and its helpers *)

Module Server.

Definition TOP_CANDIDATES_PER_TREND : nat := 3.
Definition TOP_CHUNKS_FOR_LLM : nat := 3.
Definition MIN_SEMANTIC_RELEVANCE : Q := 0.65.
Definition MIN_INTRO_SUPPORT : Q := 0.65.
Definition MAX_HONESTY_RISK : Q := 0.30.

Section WithProviders.

Context `{Providers}.

Definition extractBroaderThemes (trend : Trend) : string :=
  let title := toLowerCase (title trend) in
  let summary_ := toLowerCase (summary trend) in
  let combined := (title ++ " " ++ summary_)%string in
  let themes : list string := [] in
  let themes :=
    if includes combined "ai" || includes combined "artificial intelligence"
       || includes combined "chatgpt" || includes combined "machine learning"
    then themes ++
         ["artificial intelligence, AI technology, automation, tech innovation, digital transformation"]
    else themes in
  let themes :=
    if includes combined "budget" || includes combined "tax"
       || includes combined "income tax" || includes combined "fiscal"
    then themes ++
         ["taxation, financial planning, income tax, savings, money management, personal finance"]
    else themes in
  let themes :=
    if includes combined "job" || includes combined "layoff"
       || includes combined "career" || includes combined "employment"
    then themes ++
         ["careers, employment, job market, professional growth, work opportunities"]
    else themes in
  let themes :=
    if includes combined "stock" || includes combined "market"
       || includes combined "investment" || includes combined "trading"
    then themes ++
         ["investing, stock market, wealth building, financial markets, trading"]
    else themes in
  let themes :=
    if includes combined "real estate" || includes combined "property"
       || includes combined "housing" || includes combined "home"
    then themes ++
         ["real estate, property investment, housing market, home ownership"]
    else themes in
  if 0 <? length themes
  then (summary trend ++ ". Related themes: "
        ++ String.concat ", " themes)%string
  else summary trend.

Definition getCandidateVideos (trend : Trend) (allVideos : list Video)
  : M (list CandidateVideo) :=
  let enrichedQuery := extractBroaderThemes trend in
  trendEmbedding <- lift (generateEmbedding enrichedQuery) ;;
  allChunks <- DB.getAllChunks ;;
  log "Vector Search Debug:" [] ;;;
  log "Total videos in DB: " [LNum (Z.of_nat (length allVideos))] ;;;
  log "Total chunks in DB: " [LNum (Z.of_nat (length allChunks))] ;;;
  log "Trend query: " [LStr (Js.substring (title trend) 0 80)] ;;;
  if length allChunks =? 0 then
    log_error "ERROR: No video chunks found in database!" [] ;;;
    log_error
      "This means ingestion didn't complete or database is empty." [] ;;;
    ret []
  else
    let chunkScores := score_chunks trendEmbedding allChunks in
    let videoScores := aggregate chunkScores in
    let candidates := build_candidates allVideos videoScores in
    let candidates := sort_candidates candidates in
    log "Found total video candidates: "
        [LNum (Z.of_nat (length candidates))] ;;;
    (if 0 <? length candidates then
       log "Top 3 similarity scores: "
           (map (fun c => LQ (avgSimilarity c)) (slice0 3 candidates))
     else ret tt) ;;;
    let topCandidates := slice0 TOP_CANDIDATES_PER_TREND candidates in
    log "Returning top candidates for LLM evaluation: "
        [LNum (Z.of_nat (length topCandidates))] ;;;
    ret topCandidates.

(** The text handed to the second [JSON.parse]: what precedes the first
    opening brace and what follows the last closing brace is cut off. *)
Definition brace_cleanup (content : string) : string :=
  let fixedContent := content in
  let firstBrace := indexOf fixedContent "{" in
  let fixedContent :=
    if (0 <? firstBrace)%Z then substring_from fixedContent firstBrace
    else fixedContent in
  let lastBrace := lastIndexOf fixedContent "}" in
  if ((0 <? lastBrace)%Z
      && (lastBrace <? Z.of_nat (String.length fixedContent) - 1)%Z)%bool
  then Js.substring fixedContent 0 (lastBrace + 1)
  else fixedContent.

(** The parsing of the model's answer.  [inl] is the parsed value that
    goes on to the structure check, [inr] the evaluation returned at
    once when every attempt has failed. *)
Definition parse_with_repair (content : string)
  : M (JValue + LLMEvaluation) :=
  match JSON_parse content with
  | Ok evaluation => ret (inl evaluation)
  | Throw parseError =>
      log_error "JSON Parse Error:" [LStr parseError] ;;;
      log_error "Raw LLM response (first 500 chars):"
                [LStr (Js.substring content 0 500)] ;;;
      let fixedContent := brace_cleanup content in
      match JSON_parse fixedContent with
      | Ok evaluation =>
          log "Successfully parsed JSON after brace cleanup" [] ;;;
          ret (inl evaluation)
      | Throw _secondError =>
          match
            match jsonrepair content with
            | Ok fixedContent => JSON_parse fixedContent
            | Throw e => Throw e
            end
          with
          | Ok evaluation =>
              log "Successfully parsed JSON after jsonrepair" [] ;;;
              ret (inl evaluation)
          | Throw _thirdError =>
              log_error
                "All JSON repair attempts failed - rejecting this candidate"
                [] ;;;
              ret (inr (conservative_rejection
                          ("JSON parse failed: " ++ parseError)%string))
          end
      end
  end.

Definition evaluateWithLLM (trend : Trend) (video : Video)
           (topChunks : list string) : M LLMEvaluation :=
  try_catch
    (response_content <- create_chat_completion trend video topChunks ;;
     let content := content_or_default response_content in
     parsed <- parse_with_repair content ;;
     match parsed with
     | inr rejection => ret rejection
     | inl evaluation => lift (validate evaluation)
     end)
    (fun error =>
       log_error "OpenAI API Error:" [LStr error] ;;;
       log_error "Status:" [LStr "unknown"] ;;;
       (if (negb (String.eqb error "") && includes error "JSON")%bool
        then log_error
               "This is a JSON parsing error. The LLM generated malformed JSON."
               []
        else log_error "Check your OPENAI_API_KEY in .env file" []) ;;;
       ret (conservative_rejection
              ("Evaluation failed: "
               ++ (if String.eqb error "" then "OpenAI API error"
                   else error))%string)).

Definition accepted (evaluation : LLMEvaluation) : bool :=
  allowed evaluation
  && Qle_bool MIN_SEMANTIC_RELEVANCE (semantic_relevance evaluation)
  && Qle_bool MIN_INTRO_SUPPORT (intro_support evaluation)
  && Qle_bool (honesty_risk evaluation) MAX_HONESTY_RISK.

Definition make_recommendation (trend : Trend) (candidate : CandidateVideo)
           (evaluation : LLMEvaluation) : NewRecommendation :=
  {| new_trend_id := trend_id trend;
     new_video_id := video_id (video candidate);
     new_semantic_relevance := semantic_relevance evaluation;
     new_intro_support := intro_support evaluation;
     new_honesty_risk := honesty_risk evaluation;
     new_titles := stringify (titles evaluation);
     new_thumbnails := stringify (thumbnails evaluation);
     new_notes := notes evaluation |}.

Definition make_result (trend : Trend) (candidate : CandidateVideo)
           (evaluation : LLMEvaluation) : MatchResult :=
  {| mr_trend := title trend;
     mr_video := title_current (video candidate);
     mr_video_intro := transcript_intro (video candidate);
     mr_scores := (semantic_relevance evaluation,
                   intro_support evaluation,
                   honesty_risk evaluation);
     mr_packaging := (titles evaluation,
                      thumbnails evaluation,
                      notes evaluation) |}.

(** The variables the two loops of the handler update. *)
Record Counters := {
  totalEvaluations : Z;
  acceptedCount : Z;
  trendResults : list TrendRecommendations
}.

(** The body of the loop over the candidates; the state is the two
    counters and the [matchedVideos] of the trend. *)
Definition process_candidate (trend : Trend) (candidate : CandidateVideo)
           (st : Z * Z * list MatchResult) : M (Z * Z * list MatchResult) :=
  let '(totalEvaluations, acceptedCount, matchedVideos) := st in
  let totalEvaluations := (totalEvaluations + 1)%Z in
  let topChunks := slice0 TOP_CHUNKS_FOR_LLM (topChunks candidate) in
  evaluation <- evaluateWithLLM trend (video candidate) topChunks ;;
  if accepted evaluation then
    let acceptedCount := (acceptedCount + 1)%Z in
    let recommendation := make_recommendation trend candidate evaluation in
    DB.insertRecommendation recommendation ;;;
    let result := make_result trend candidate evaluation in
    let matchedVideos := matchedVideos ++ [result] in
    sendEvent (EvAccepted (title_current (video candidate))
                          (mr_scores result)) ;;;
    ret (totalEvaluations, acceptedCount, matchedVideos)
  else
    sendEvent (EvRejected (title_current (video candidate))) ;;;
    ret (totalEvaluations, acceptedCount, matchedVideos).

(** The YouTube lookup of a trend, with its own [try]/[catch]. *)
Definition fetch_youtube (trend : Trend) : M (list YouTubeVideoSuggestion) :=
  sendEvent (EvYoutube YtFetching) ;;;
  try_catch
    (youtubeSuggestions <- YouTube.getYouTubeTitleSuggestions
                             (title trend) YOUTUBE_API_KEY OPENAI_API_KEY
                             10 ;;
     (if 0 <? length youtubeSuggestions
      then sendEvent (EvYoutube (YtFound (length youtubeSuggestions)))
      else sendEvent (EvYoutube YtUnavailable)) ;;;
     ret youtubeSuggestions)
    (fun error =>
       log_error "YouTube API error:" [LStr error] ;;;
       sendEvent (EvYoutube YtApiError) ;;;
       ret []).

(** The body of the loop over the selected identifiers. *)
Definition process_trend (allVideos : list Video) (trendId : string)
           (st : Counters) : M Counters :=
  trend <- DB.getTrend trendId ;;
  match trend with
  | None => ret st
  | Some trend =>
      sendEvent (EvTrend (title trend)) ;;;
      youtubeSuggestions <- fetch_youtube trend ;;
      candidates <- getCandidateVideos trend allVideos ;;
      sendEvent (EvCandidates (length candidates)) ;;;
      inner <- for_each candidates (process_candidate trend)
                        (totalEvaluations st, acceptedCount st, []) ;;
      let '(totalEvaluations, acceptedCount, matchedVideos) := inner in
      ret {| totalEvaluations := totalEvaluations;
             acceptedCount := acceptedCount;
             trendResults :=
               trendResults st ++
               [{| tr_trend := trend;
                   tr_youtubeSuggestions := youtubeSuggestions;
                   tr_matchedVideos := matchedVideos |}] |}
  end.

(** The handler; [trendIds] is the field of the request body, [None]
    when it is missing. *)
Definition match_selected (trendIds : option (list string)) : M unit :=
  try_catch
    (match trendIds with
     | None => sendEvent (Status400 "No trends selected")
     | Some [] => sendEvent (Status400 "No trends selected")
     | Some trendIds =>
         DB.new ;;;
         allVideos <- DB.getAllVideos ;;
         DB.clearRecommendations ;;;
         sendEvent (EvStart (length trendIds)) ;;;
         st <- for_each trendIds (process_trend allVideos)
                        {| totalEvaluations := 0;
                           acceptedCount := 0;
                           trendResults := [] |} ;;
         DB.close ;;;
         sendEvent (EvComplete (totalEvaluations st)
                               (acceptedCount st)
                               (totalEvaluations st - acceptedCount st)
                               (trendResults st))
     end)
    (fun error => sendEvent (EvError error)).

End WithProviders.

End Server.

(** ** embeddings.ts: the similarity of two vectors *)

Module Embeddings.

(** Modelled from the spec: the module [src/embeddings.ts], which defines
    [cosineSimilarity], is not among the sources; only its call sites in
    [getCandidateVideos] are.  This is the dot product of section 4.1,
    over the real numbers. *)
Fixpoint dot (a b : list R) : R :=
  match a, b with
  | x :: a', y :: b' => (x * y + dot a' b')%R
  | _, _ => 0%R
  end.

(** Modelled from the spec: the magnitude of a vector (section 4.1). *)
Definition magnitude (a : list R) : R := sqrt (dot a a).

(** Modelled from the spec: "dot product divided by the product of
    magnitudes; defined as 0 if either vector has zero magnitude"
    (section 4.1).  The pipeline itself takes the similarity it ranks by
    from [Providers], as a rational; nothing it does depends on how the
    similarity is computed. *)
Definition cosineSimilarity (a b : list R) : R :=
  if Req_dec_T (magnitude a) 0 then 0%R
  else if Req_dec_T (magnitude b) 0 then 0%R
  else (dot a b / (magnitude a * magnitude b))%R.

End Embeddings.

(** ** Notions used in the statements *)

(** The window of a text that starts at the [i]-th multiple of [step]. *)
Definition window {char : Type} (size step : nat) (text : list char)
           (i : nat) : list char :=
  firstn size (skipn (i * step) text).

(** Number of windows needed to reach the end of a text of length [n]. *)
Definition windows_count (step n : nat) : nat := (n + step - 1) / step.

(** [a] may stand before [b] in a list ordered by decreasing [key]. *)
Definition descending {A : Type} (key : A -> Q) (a b : A) : Prop :=
  (key b <= key a)%Q.

(** The keys of a list in the order of their first occurrence. *)
Fixpoint distinct (l : list string) : list string :=
  match l with
  | [] => []
  | k :: l' => k :: filter (fun k' => negb (String.eqb k' k)) (distinct l')
  end.

(** The scored chunks that belong to the video [k]. *)
Definition chunks_of (k : string) (chunkScores : list ChunkScore)
  : list ChunkScore :=
  filter (fun s => String.eqb (cs_video_id s) k) chunkScores.

Definition scored (s : ChunkScore) : ScoredChunk :=
  {| text := cs_chunk_text s; score := similarity s |}.

(** The group of the video [k]: its scores and its chunks, in the order
    of the chunk store. *)
Definition group_of (k : string) (chunkScores : list ChunkScore)
  : VideoData :=
  {| scores := map similarity (chunks_of k chunkScores);
     chunks := map scored (chunks_of k chunkScores) |}.

Definition extend (d g : VideoData) : VideoData :=
  {| scores := scores d ++ scores g; chunks := chunks d ++ chunks g |}.

(** The candidate built from the group [data] of the video [k], when
    that video is in [allVideos]. *)
Definition candidate_of (allVideos : list Video) (k : string)
           (data : VideoData) : option CandidateVideo :=
  match find (fun v => String.eqb (video_id v) k) allVideos with
  | None => None
  | Some v =>
      Some {| video := v;
              avgSimilarity := average (scores data);
              topChunks :=
                map text (slice0 5 (Js.sort (fun a b => score b - score a)%Q
                                            (chunks data))) |}
  end.

(** What [getCandidateVideos] computes once the embedding of the trend
    and the chunk store are at hand: the [n] best candidates. *)
Definition ranked_candidates `{Providers} (n : nat)
           (trendEmbedding : Embedding) (allChunks : list VideoChunk)
           (allVideos : list Video) : list CandidateVideo :=
  slice0 n (sort_candidates
              (build_candidates allVideos
                 (aggregate (score_chunks trendEmbedding allChunks)))).

(** The chunk of the store as it is scored against the trend. *)
Definition score_chunk `{Providers} (trendEmbedding : Embedding)
           (chunk : VideoChunk) : ChunkScore :=
  {| cs_video_id := chunk_video_id chunk;
     cs_chunk_text := chunk_text chunk;
     similarity := cosineSimilarity trendEmbedding (embedding chunk) |}.

(** The request that the evaluation of a candidate sends to the model. *)
Definition chat_request (trend : Trend) (video : Video)
           (topChunks : list string) : ChatRequest :=
  {| req_trend := trend; req_video := video; req_chunks := topChunks |}.

(** The repair cascade in the words of the specification: an ordered
    list of parsing strategies, each of which gives a parsed value or
    fails, tried in order until the first success. *)
Definition result_to_option {A : Type} (r : result A) : option A :=
  match r with Ok a => Some a | Throw _ => None end.

Definition parse_strategies `{Providers} : list (string -> option JValue) :=
  [ fun content => result_to_option (JSON_parse content);
    fun content => result_to_option (JSON_parse (Server.brace_cleanup content));
    fun content =>
      match jsonrepair content with
      | Ok repaired => result_to_option (JSON_parse repaired)
      | Throw _ => None
      end ].

Fixpoint first_success {A B : Type} (strategies : list (A -> option B))
         (a : A) : option B :=
  match strategies with
  | [] => None
  | f :: rest =>
      match f a with
      | Some b => Some b
      | None => first_success rest a
      end
  end.

(** An evaluation is the rejection sentinel when its scores, its flag
    and its two lists are those of [conservative_rejection]. *)
Definition is_rejection (e : LLMEvaluation) : Prop :=
  exists reason : string, e = conservative_rejection reason.

(** The four conditions of the acceptance gate. *)
Definition gate_conditions (e : LLMEvaluation) : Prop :=
  allowed e = true
  /\ (0.65 <= semantic_relevance e)%Q
  /\ (0.65 <= intro_support e)%Q
  /\ (honesty_risk e <= 0.30)%Q.

(** What a run of a computation leaves untouched, and what it adds: the
    response is as it was, [requests] were sent to the chat model for
    evaluations and none for a search query, and lines were written to
    the console. *)
Definition frame (w w' : World) (requests : list ChatRequest) : Prop :=
  response w' = response w
  /\ chat_requests w' = chat_requests w ++ requests
  /\ topic_requests w' = topic_requests w
  /\ exists logs, console w' = console w ++ logs.

(** The message of the error that the first [JSON.parse] threw. *)
Definition parse_error `{Providers} (content : string) : string :=
  match JSON_parse content with
  | Throw message => message
  | Ok _ => ""
  end.

(** The note written by the outer [catch] of the server variant. *)
Definition evaluation_failed (message : string) : string :=
  ("Evaluation failed: "
   ++ (if String.eqb message "" then "OpenAI API error" else message))%string.

(** The code unit [c] occurs in [s]. *)
Fixpoint occurs (c : ascii) (s : string) : bool :=
  match s with
  | EmptyString => false
  | String a s' => Ascii.eqb a c || occurs c s'
  end.

(** ** Reasoning about computations in [M] *)

(** From a world that satisfies [P], the computation ends in a world that
    satisfies [Q] with its result when it returns, and in a world that
    satisfies [E] when it throws. *)
Definition hoare {A : Type} (P : World -> Prop) (m : M A)
           (Q : A -> World -> Prop) (E : World -> Prop) : Prop :=
  forall w, P w ->
            match m w with
            | (Ok a, w') => Q a w'
            | (Throw _, w') => E w'
            end.

(** The result of the computation and the database it leaves depend on
    the database it starts from, and on nothing else in the world. *)
Definition db_det {A : Type} (m : M A) : Prop :=
  forall w1 w2, db w1 = db w2 ->
                fst (m w1) = fst (m w2) /\ db (snd (m w1)) = db (snd (m w2)).

(** Two databases hold the same corpus: videos, chunks and trends. *)
Definition same_corpus (d d' : Database) : Prop :=
  videos d' = videos d
  /\ video_chunks d' = video_chunks d
  /\ trends d' = trends d.

(** The key of a row of the recommendations table. *)
Definition rec_key (r : Recommendation) : string * string :=
  (rec_trend_id r, rec_video_id r).

(** Every recommendation refers to a trend and to a video of the
    database (the two foreign keys of the table). *)
Definition referential_integrity (d : Database) : Prop :=
  forall r, In r (recommendations d) ->
            (exists t, In t (trends d) /\ trend_id t = rec_trend_id r)
            /\ (exists v, In v (videos d) /\ video_id v = rec_video_id r).

(** The database after [insertRecommendation]. *)
Definition db_insert (rec : Recommendation) (d : Database) : Database :=
  {| videos := videos d;
     video_chunks := video_chunks d;
     trends := trends d;
     recommendations := DB.insert_or_replace rec (recommendations d) |}.

(** The row that [insertRecommendation] makes of its argument, or the
    error of the binding and of the constraints NOT NULL. *)
Definition bound_row `{Providers} (rec : NewRecommendation)
  : result Recommendation :=
  match DB.bind_parameter (new_notes rec) with
  | Throw e => Throw e
  | Ok bound =>
      match DB.not_null "titles" (new_titles rec) with
      | Throw e => Throw e
      | Ok titles_ =>
          match DB.not_null "thumbnails" (new_thumbnails rec) with
          | Throw e => Throw e
          | Ok thumbnails_ =>
              match DB.not_null "notes" bound with
              | Throw e => Throw e
              | Ok notes_ =>
                  Ok {| rec_trend_id := new_trend_id rec;
                        rec_video_id := new_video_id rec;
                        rec_semantic_relevance := new_semantic_relevance rec;
                        rec_intro_support := new_intro_support rec;
                        rec_honesty_risk := new_honesty_risk rec;
                        rec_titles := titles_;
                        rec_thumbnails := thumbnails_;
                        rec_notes := JStr notes_ |}
              end
          end
      end
  end.

(** The database that [insertRecommendation] leaves when it returns,
    or the error that it throws. *)
Definition insert_outcome `{Providers} (rec : NewRecommendation)
           (d : Database) : result Database :=
  match bound_row rec with
  | Throw e => Throw e
  | Ok row =>
      if DB.references_exist (new_trend_id rec) (new_video_id rec) d
      then Ok (db_insert row d)
      else Throw "FOREIGN KEY constraint failed"
  end.

(** What the body of the loop over the candidates does to the database
    once the evaluation [e] is at hand, [insert] being its
    [insertRecommendation] for [e]. *)
Definition verdict_outcome (accepted : bool) (insert : result Database)
           (d : Database) : result Database :=
  if accepted then insert else Ok d.

(** The database after [clearRecommendations]. *)
Definition db_clear (d : Database) : Database :=
  {| videos := videos d;
     video_chunks := video_chunks d;
     trends := trends d;
     recommendations := [] |}.

(** The world with another database. *)
Definition with_db (w : World) (d : Database) : World :=
  {| db := d;
     console := console w;
     response := response w;
     chat_requests := chat_requests w;
     topic_requests := topic_requests w |}.

(** The world [w'] comes after [w]: the response and the console have
    only grown. *)
Definition grows (w w' : World) : Prop :=
  (exists evs, response w' = response w ++ evs)
  /\ (exists logs, console w' = console w ++ logs).

(** A computation is silent when it leaves the database and the list of
    requests sent to the model as they are. *)
Definition silent {A : Type} (m : M A) : Prop :=
  forall w, db (snd (m w)) = db w
            /\ chat_requests (snd (m w)) = chat_requests w
            /\ grows w (snd (m w)).

(** A property of worlds that silent steps cannot break. *)
Definition stable (P : World -> Prop) : Prop :=
  forall w w', P w -> db w' = db w -> chat_requests w' = chat_requests w ->
               grows w w' -> P w'.

(** The counters of a run that started in [w0]: the accepted count is
    between 0 and the number of evaluations, which is the number of
    requests sent to the model since [w0]. *)
Definition counters_ok (w0 : World) (total acc : Z) (w : World) : Prop :=
  (0 <= acc <= total)%Z
  /\ Z.of_nat (List.length (chat_requests w))
     = (Z.of_nat (List.length (chat_requests w0)) + total)%Z
  /\ (exists reqs, chat_requests w = chat_requests w0 ++ reqs)
  /\ grows w0 w.

(** The invariant of the loops of the command-line matcher, on the pair
    of its counters. *)
Definition counters_inv (w0 : World) (c : Z * Z) (w : World) : Prop :=
  counters_ok w0 (fst c) (snd c) w.

(** The same for the loop over the candidates in the server. *)
Definition counters_inv3 (w0 : World) (c : Z * Z * list MatchResult)
           (w : World) : Prop :=
  counters_ok w0 (fst (fst c)) (snd (fst c)) w.

(** The same for the loop over the selected trends in the server. *)
Definition counters_inv_server (w0 : World) (st : Server.Counters)
           (w : World) : Prop :=
  counters_ok w0 (Server.totalEvaluations st) (Server.acceptedCount st) w.

(** The five lines that end the console output of a completed run of
    the command-line matcher. *)
Definition summary_lines (total acc rejected : Z) : list LogLine :=
  [console_log "Summary:" [];
   console_log "Total LLM evaluations: " [LNum total];
   console_log "Accepted: " [LNum acc];
   console_log "Rejected: " [LNum rejected];
   console_log "Matching complete. Results saved to database." []].

(** The invariant of the recommendations table during a run over the
    corpus of [d0]: the corpus is that of [d0], every row refers to a
    trend and a video of the corpus, and no two rows have the same
    key. *)
Definition db_inv (d0 : Database) (w : World) : Prop :=
  same_corpus d0 (db w)
  /\ referential_integrity (db w)
  /\ NoDup (map rec_key (recommendations (db w))).

(** The world in which the command-line matcher enters its loop over
    the trends: the console has the three opening lines and the table of
    recommendations is empty. *)
Definition matcher_loop_start (w : World) (n_trends n_videos : nat) : World :=
  {| db := db_clear (db w);
     console := console w
                ++ [console_log "Starting trend-to-video matching..." [];
                    console_log "Database path: " [LStr DB.DB_PATH];
                    console_log "Processing trends x videos pool: "
                                [LNum (Z.of_nat n_trends);
                                 LNum (Z.of_nat n_videos)]];
     response := response w;
     chat_requests := chat_requests w;
     topic_requests := topic_requests w |}.

(** The part of [matchTrendsToVideos] that follows
    [clearRecommendations]: the loop over the trends and the summary. *)
Definition matcher_loop `{Providers} (trends_ : list Trend)
           (videos_ : list Video) : M unit :=
  counters <- for_each trends_ (Matcher.process_trend videos_)
                       (0%Z, 0%Z) ;;
  let '(totalEvaluations, acceptedCount) := counters in
  DB.close ;;;
  log "Summary:" [] ;;;
  log "Total LLM evaluations: " [LNum totalEvaluations] ;;;
  log "Accepted: " [LNum acceptedCount] ;;;
  log "Rejected: " [LNum (totalEvaluations - acceptedCount)] ;;;
  log "Matching complete. Results saved to database." [].

(** The trends as [getAllTrends] returns them. *)
Definition all_trends (d : Database) : list Trend :=
  Js.sort (fun a b => if String.leb (created_at b) (created_at a)
                      then 0%Q else 1%Q)
          (trends d).

(** The world in which the handler of the server enters its loop over
    the selected trends, and the part of the handler that follows
    [clearRecommendations]. *)
Definition server_loop_start (w : World) : World :=
  {| db := db_clear (db w);
     console := console w ++ [console_log "Database path: " [LStr DB.DB_PATH]];
     response := response w;
     chat_requests := chat_requests w;
     topic_requests := topic_requests w |}.

Definition server_loop `{Providers} (allVideos : list Video)
           (trendIds : list string) : M unit :=
  sendEvent (EvStart (List.length trendIds)) ;;;
  st <- for_each trendIds (Server.process_trend allVideos)
                 {| Server.totalEvaluations := 0;
                    Server.acceptedCount := 0;
                    Server.trendResults := [] |} ;;
  DB.close ;;;
  sendEvent (EvComplete (Server.totalEvaluations st)
                        (Server.acceptedCount st)
                        (Server.totalEvaluations st - Server.acceptedCount st)
                        (Server.trendResults st)).

(** The chunk belongs to a video of the table. *)
Definition known_video (allVideos : list Video) (k : string) : bool :=
  existsb (fun v => String.eqb (video_id v) k) allVideos.

(** The lines the retrieval of the server writes when the chunk store is
    empty. *)
Definition empty_store_lines (trend : Trend) (allVideos : list Video)
  : list LogLine :=
  [console_log "Vector Search Debug:" [];
   console_log "Total videos in DB: "
               [LNum (Z.of_nat (List.length allVideos))];
   console_log "Total chunks in DB: " [LNum 0];
   console_log "Trend query: " [LStr (Js.substring (title trend) 0 80)];
   console_error "ERROR: No video chunks found in database!" [];
   console_error
     "This means ingestion didn't complete or database is empty." []].

(** The world with more lines on the console. *)
Definition with_console (w : World) (lines : list LogLine) : World :=
  {| db := db w;
     console := console w ++ lines;
     response := response w;
     chat_requests := chat_requests w;
     topic_requests := topic_requests w |}.

(** A computation that does nothing but write to the console. *)
Definition console_only {A : Type} (m : M A) : Prop :=
  forall w, exists logs, snd (m w) = with_console w logs.

(** ** A concrete corpus and concrete services

    The end-to-end scenario of the specification: a store with chunks of
    the videos V1 and V2, one trend, and a model whose answer depends on
    the video it is asked about. *)

Module Scenario.

Definition dq : string := String (ascii_of_nat 34) EmptyString.

Definition quoted (s : string) : string := (dq ++ s ++ dq)%string.

(** The answer of the specification's scenario, as JSON text. *)
Definition accept_json : string :=
  ("{" ++ quoted "semantic_relevance" ++ ":0.8,"
       ++ quoted "intro_support" ++ ":0.8,"
       ++ quoted "honesty_risk" ++ ":0.1,"
       ++ quoted "allowed" ++ ":true,"
       ++ quoted "titles" ++ ":[" ++ quoted "A" ++ "],"
       ++ quoted "thumbnails" ++ ":[" ++ quoted "B" ++ "],"
       ++ quoted "notes" ++ ":" ++ quoted "ok" ++ "}")%string.

Definition accept_value : JValue :=
  JObj [("semantic_relevance", JNum 0.8);
        ("intro_support", JNum 0.8);
        ("honesty_risk", JNum 0.1);
        ("allowed", JBool true);
        ("titles", JArr [JStr "A"]);
        ("thumbnails", JArr [JStr "B"]);
        ("notes", JStr "ok")].

(** The same answer wrapped in prose. *)
Definition wrapped_json : string :=
  ("Here is the evaluation: " ++ accept_json ++ " Hope this helps.")%string.

(** The same answer cut in the middle of its last string. *)
Definition truncated_json : string :=
  ("{" ++ quoted "semantic_relevance" ++ ":0.8,"
       ++ quoted "intro_support" ++ ":0.8,"
       ++ quoted "honesty_risk" ++ ":0.1,"
       ++ quoted "allowed" ++ ":true,"
       ++ quoted "titles" ++ ":[" ++ quoted "A" ++ "],"
       ++ quoted "thumbnails" ++ ":[" ++ quoted "B" ++ "],"
       ++ quoted "notes" ++ ":" ++ dq ++ "ok")%string.

(** An answer that passes the acceptance gate and has no notes. *)
Definition no_notes_json : string :=
  ("{" ++ quoted "semantic_relevance" ++ ":0.8,"
       ++ quoted "intro_support" ++ ":0.8,"
       ++ quoted "honesty_risk" ++ ":0.1,"
       ++ quoted "allowed" ++ ":true,"
       ++ quoted "titles" ++ ":[" ++ quoted "A" ++ "],"
       ++ quoted "thumbnails" ++ ":[" ++ quoted "B" ++ "]}")%string.

Definition no_notes_value : JValue :=
  JObj [("semantic_relevance", JNum 0.8);
        ("intro_support", JNum 0.8);
        ("honesty_risk", JNum 0.1);
        ("allowed", JBool true);
        ("titles", JArr [JStr "A"]);
        ("thumbnails", JArr [JStr "B"])].

(** [JSON.parse] on the texts of the scenario. *)
Definition parse (s : string) : result JValue :=
  if String.eqb s accept_json then Ok accept_value
  else if String.eqb s no_notes_json then Ok no_notes_value
  else if String.eqb s "{}" then Ok (JObj [])
  else if String.eqb s "null" then Ok JNull
  else Throw "Unexpected token in JSON".

(** [jsonrepair] on the texts of the scenario: it closes the string and
    the object of the truncated answer. *)
Definition repair (s : string) : result string :=
  if String.eqb s truncated_json then Ok accept_json
  else if String.eqb s accept_json then Ok accept_json
  else if String.eqb s "{}" then Ok "{}"
  else Throw "Unexpected character".

(** [JSON.stringify] on lists of strings. *)
Definition stringify (v : JValue) : string :=
  match v with
  | JArr items =>
      ("[" ++ String.concat ","
                (map (fun item => match item with
                                  | JStr s => quoted s
                                  | _ => "null"
                                  end) items)
           ++ "]")%string
  | JStr s => quoted s
  | _ => "null"
  end.

Definition dot_Q (a b : Embedding) : Q :=
  fold_left Qplus (map (fun p => fst p * snd p)%Q (combine a b)) 0%Q.

(** The model accepts V1, answers with an empty object for V2, wraps its
    answer in prose for V3, is cut short for V4, leaves the notes out
    for V5 and cannot be reached for any other video. *)
Definition chat (trend : Trend) (video : Video) (topChunks : list string)
  : result (option string) :=
  if String.eqb (video_id video) "V1" then Ok (Some accept_json)
  else if String.eqb (video_id video) "V2" then Ok (Some "{}")
  else if String.eqb (video_id video) "V3" then Ok (Some wrapped_json)
  else if String.eqb (video_id video) "V4" then Ok (Some truncated_json)
  else if String.eqb (video_id video) "V5" then Ok (Some no_notes_json)
  else Throw "Request timed out".

(** A suggestion of the YouTube lookup. *)
Definition suggestion : YouTubeVideoSuggestion :=
  {| yt_title := "Layoffs explained"; yt_views := 120000;
     yt_channelTitle := "Money Talks"; yt_videoId := "yt1";
     yt_thumbnailUrl := "https://i.ytimg.com/vi/yt1/mqdefault.jpg";
     yt_publishedAt := "2026-01-01T00:00:00Z" |}.

(** A second suggestion, with fewer views. *)
Definition suggestion_small : YouTubeVideoSuggestion :=
  {| yt_title := "Job cuts this week"; yt_views := 500;
     yt_channelTitle := "Daily Brief"; yt_videoId := "yt2";
     yt_thumbnailUrl := "";
     yt_publishedAt := "2026-01-02T00:00:00Z" |}.

(** The search finds two videos, and the videos endpoint lists the one
    with fewer views first. *)
Definition search (query : string) (maxResults : nat)
  : result (ApiResponse (option (list string))) :=
  Ok (Json (Ok (Some ["yt2"; "yt1"]))).

Definition stats (ids : string)
  : result (ApiResponse (list YouTubeVideoSuggestion)) :=
  Ok (Json (Ok [suggestion_small; suggestion])).

(** No answer of the scenario has a number, an array or an object as
    its note. *)
Definition bind_other (v : JValue) : result string :=
  Throw "Too few parameter values were provided".

(** No key of the YouTube Data API is configured. *)
Definition providers : Providers :=
  {| generateEmbedding := fun _ => Ok [1%Q];
     cosineSimilarity := dot_Q;
     chat_completion := chat;
     JSON_parse := parse;
     JSON_stringify := stringify;
     jsonrepair := repair;
     sqlite_bind := bind_other;
     YOUTUBE_API_KEY := "";
     OPENAI_API_KEY := "sk-test";
     openai_client := fun _ => Ok tt;
     topic_completion := fun _ => Ok (Some " AI layoffs ");
     published_after := "12/18/2025";
     fetch_search := search;
     fetch_stats := stats |}.

(** The embedding provider is down. *)
Definition providers_offline : Providers :=
  {| generateEmbedding := fun _ => Throw "Connection error";
     cosineSimilarity := dot_Q;
     chat_completion := chat;
     JSON_parse := parse;
     JSON_stringify := stringify;
     jsonrepair := repair;
     sqlite_bind := bind_other;
     YOUTUBE_API_KEY := "";
     OPENAI_API_KEY := "sk-test";
     openai_client := fun _ => Ok tt;
     topic_completion := fun _ => Ok (Some " AI layoffs ");
     published_after := "12/18/2025";
     fetch_search := search;
     fetch_stats := stats |}.

(** A key of the YouTube Data API is configured. *)
Definition providers_with_youtube : Providers :=
  {| generateEmbedding := fun _ => Ok [1%Q];
     cosineSimilarity := dot_Q;
     chat_completion := chat;
     JSON_parse := parse;
     JSON_stringify := stringify;
     jsonrepair := repair;
     sqlite_bind := bind_other;
     YOUTUBE_API_KEY := "yt-key";
     OPENAI_API_KEY := "sk-test";
     openai_client := fun _ => Ok tt;
     topic_completion := fun _ => Ok (Some " AI layoffs ");
     published_after := "12/18/2025";
     fetch_search := search;
     fetch_stats := stats |}.

Definition mk_video (id title_ : string) : Video :=
  {| video_id := id; title_current := title_;
     transcript_full := "transcript"; transcript_intro := "intro";
     published_at := "2024-06-25"; url := "" |}.

Definition V1 : Video := mk_video "V1" "Is an MBA worth it".
Definition V2 : Video := mk_video "V2" "Salary and CTC".
Definition V3 : Video := mk_video "V3" "Index funds".
Definition V4 : Video := mk_video "V4" "Renting or buying".
Definition V5 : Video := mk_video "V5" "Notice periods".

Definition mk_chunk (id : string) (n : Z) (txt : string) (e : Q)
  : VideoChunk :=
  {| chunk_video_id := id; chunk_id := n; chunk_text := txt;
     embedding := [e] |}.

Definition T1 : Trend :=
  {| trend_id := "T1"; title := "AI layoffs"; summary := "Layoffs in tech";
     keywords := "layoffs"; source := "google_news";
     created_at := "2026-01-01" |}.

(** V1 has two chunks (similarities 1 and 0.8, mean 0.9), V2 one chunk
    (0.3); one chunk belongs to a video that is not in the table. *)
Definition corpus : Database :=
  {| videos := [V1; V2];
     video_chunks := [mk_chunk "V1" 0 "v1 first" 1;
                      mk_chunk "V2" 0 "v2 first" 0.3;
                      mk_chunk "gone" 0 "orphan" 1;
                      mk_chunk "V1" 1 "v1 second" 0.8];
     trends := [T1];
     recommendations := [] |}.

(** The corpus before any ingestion: a video and a trend, no chunk. *)
Definition corpus_without_chunks : Database :=
  {| videos := [V1];
     video_chunks := [];
     trends := [T1];
     recommendations := [] |}.

(** A corpus whose best candidate is V5. *)
Definition corpus_no_notes : Database :=
  {| videos := [V1; V5];
     video_chunks := [mk_chunk "V5" 0 "v5 first" 1;
                      mk_chunk "V1" 0 "v1 first" 0.8];
     trends := [T1];
     recommendations := [] |}.

Definition world (d : Database) : World :=
  {| db := d; console := []; response := []; chat_requests := [];
     topic_requests := [] |}.

Definition candidate (v : Video) : CandidateVideo :=
  {| video := v; avgSimilarity := 0.9; topChunks := ["a"; "b"; "c"; "d"] |}.

End Scenario.

(** ** The services of the ingestion and of the trend feed *)

(** A row of the CSV file as [csv-parse] returns it under
    [columns: true]: the values of the row under the names of the
    header. *)
Definition CsvRecord : Type := list (string * string).

(** An item of the RSS feed; a field is [None] when the item has no such
    element. *)
Record FeedItem := {
  item_title : option string;
  item_contentSnippet : option string;
  item_content : option string
}.

(** [parse_videos] is [JSON.parse(rawData) as Video[]]: the file is
    taken to hold what the cast says.  [fround] is the conversion of a
    number to 32-bit precision that [Float32Array] performs.  The clock
    is read while the [k]-th element of the input at hand is processed:
    [Date_now k] is [Date.now()] and [Date_toISOString k] is
    [new Date().toISOString()]. *)
Class Services := {
  readFileSync : string -> result string;
  csv_parse : string -> result (list CsvRecord);
  parse_videos : string -> result (list Video);
  generateEmbeddings : list string -> result (list Embedding);
  fround : Q -> Q;
  parseURL : string -> result (list FeedItem);
  Date_now : nat -> Z;
  Date_toISOString : nat -> string
}.

(** ** db.ts: the other methods of class [DB], and the two statements
    that trends.ts and server.ts run on the connection *)

Module Table.

(** [INSERT OR REPLACE] under a primary key: the rows that have the key
    of the new row are deleted, the new row is added. *)
Definition insert_or_replace {A : Type} (same_key : A -> A -> bool)
           (row : A) (rows : list A) : list A :=
  filter (fun r => negb (same_key r row)) rows ++ [row].

Definition same_video (a b : Video) : bool :=
  String.eqb (video_id a) (video_id b).

Definition same_chunk (a b : VideoChunk) : bool :=
  String.eqb (chunk_video_id a) (chunk_video_id b)
  && Z.eqb (chunk_id a) (chunk_id b).

Definition same_trend (a b : Trend) : bool :=
  String.eqb (trend_id a) (trend_id b).

(** The column [url] gets [video.url || '']; a video without [url] has
    the empty string there already. *)
Definition insertVideo (video : Video) : M unit :=
  DB.write (fun d => {| videos := insert_or_replace same_video video
                                                    (videos d);
                        video_chunks := video_chunks d;
                        trends := trends d;
                        recommendations := recommendations d |}).

Definition insertTrend (trend : Trend) : M unit :=
  DB.write (fun d => {| videos := videos d;
                        video_chunks := video_chunks d;
                        trends := insert_or_replace same_trend trend
                                                    (trends d);
                        recommendations := recommendations d |}).

Definition getVideo (id : string) : M (option Video) :=
  DB.read (fun d => find (fun v => String.eqb (video_id v) id) (videos d)).

(** [SELECT chunk_text FROM video_chunks WHERE video_id = ? ORDER BY
    chunk_id]. *)
Definition getChunksForVideo (id : string) : M (list string) :=
  DB.read (fun d =>
             map chunk_text
                 (Js.sort (fun a b => inject_Z (chunk_id a - chunk_id b))
                          (filter (fun c => String.eqb (chunk_video_id c) id)
                                  (video_chunks d)))).

(** [ORDER BY semantic_relevance DESC, intro_support DESC]. *)
Definition by_scores (a b : Recommendation) : Q :=
  if Qeq_bool (rec_semantic_relevance a) (rec_semantic_relevance b)
  then (rec_intro_support b - rec_intro_support a)%Q
  else (rec_semantic_relevance b - rec_semantic_relevance a)%Q.

Definition getAllRecommendations : M (list Recommendation) :=
  DB.read (fun d => Js.sort by_scores (recommendations d)).

(** [db.db.prepare('DELETE FROM trends').run()]. *)
Definition delete_trends : M unit :=
  DB.write (fun d => {| videos := videos d;
                        video_chunks := video_chunks d;
                        trends := [];
                        recommendations := recommendations d |}).

Section WithServices.

Context `{Services}.

(** The embedding is written as the bytes of a [Float32Array]. *)
Definition insertVideoChunk (chunk : VideoChunk) : M unit :=
  let embeddingBlob := map fround (embedding chunk) in
  DB.write (fun d => {| videos := videos d;
                        video_chunks :=
                          insert_or_replace
                            same_chunk
                            {| chunk_video_id := chunk_video_id chunk;
                               chunk_id := chunk_id chunk;
                               chunk_text := chunk_text chunk;
                               embedding := embeddingBlob |}
                            (video_chunks d);
                        trends := trends d;
                        recommendations := recommendations d |}).

End WithServices.

End Table.

(** ** trends.ts *)

Module Trends.

Definition RSS_FEEDS : list string :=
  ["https://news.google.com/rss?hl=en-IN&gl=IN&ceid=IN:en"].

Definition MAX_TRENDS : nat := 20.

(** [now] is the value of [Date.now()]. *)
Definition generateTrendId (now : Z) (title_ : string) : string :=
  let normalized := Text.dash_runs (Text.toLowerCase title_) false in
  ("trend_" ++ Js.substring normalized 0 50 ++ "_" ++ Text.decimal now)%string.

Definition stopWords : list string :=
  ["a"; "an"; "the"; "in"; "on"; "at"; "to"; "for"; "of"; "with";
   "is"; "are"; "was"; "were"; "be"; "been"; "being";
   "this"; "that"; "these"; "those"; "and"; "or"; "but"].

Definition extractKeywords (title_ : string) : string :=
  let words :=
    filter (fun w => (3 <? String.length w)
                     && negb (existsb (String.eqb w) stopWords))
           (Text.split_ws (Text.blank_other (Text.toLowerCase title_))) in
  Text.join ", " (slice0 10 words).

(** [a || b] for a string that may be missing. *)
Definition or_else (a : option string) (b : string) : string :=
  match a with
  | Some s => if String.eqb s "" then b else s
  | None => b
  end.

Section WithServices.

Context `{Services}.

(** The loop over the items of a feed; [k] is the position of the item
    at hand, and the state is the pair of [trends] and [seenTitles]. *)
Fixpoint items_loop (items : list FeedItem) (k : nat)
         (st : list Trend * list string) : M (list Trend * list string) :=
  match items with
  | [] => ret st
  | item :: rest =>
      let '(trends_, seenTitles) := st in
      if MAX_TRENDS <=? length trends_ then ret st
      else
        let title_ := or_else (item_title item) "" in
        let normalizedTitle := Text.trim (Text.toLowerCase title_) in
        if String.eqb title_ ""
           || existsb (String.eqb normalizedTitle) seenTitles
        then items_loop rest (S k) st
        else
          let seenTitles := seenTitles ++ [normalizedTitle] in
          let trend :=
            {| trend_id := generateTrendId (Date_now k) title_;
               title := title_;
               summary := or_else (item_contentSnippet item)
                                  (or_else (item_content item) title_);
               keywords := extractKeywords title_;
               source := "google_news";
               created_at := Date_toISOString k |} in
          let trends_ := trends_ ++ [trend] in
          Table.insertTrend trend ;;;
          log "fetched: " [LStr (title trend)] ;;;
          items_loop rest (S k) (trends_, seenTitles)
  end.

(** The loop over the feeds, each in its own [try]/[catch]. *)
Fixpoint feeds_loop (feeds : list string) (st : list Trend * list string)
  : M (list Trend * list string) :=
  match feeds with
  | [] => ret st
  | feedUrl :: rest =>
      r <- try_catch
             (items <- lift (parseURL feedUrl) ;;
              st' <- items_loop items 0 st ;;
              ret (st', MAX_TRENDS <=? length (fst st')))
             (fun error =>
                log_error "Failed to fetch from" [LStr feedUrl; LStr error] ;;;
                ret (st, false)) ;;
      let '(st', stop) := r in
      if stop then ret st' else feeds_loop rest st'
  end.

Definition fetchTrends : M (list Trend) :=
  log "Fetching trending topics from Google News..." [] ;;;
  DB.new ;;;
  DB.clearRecommendations ;;;
  Table.delete_trends ;;;
  st <- feeds_loop RSS_FEEDS ([], []) ;;
  DB.close ;;;
  log "Fetched unique trending topics: "
      [LNum (Z.of_nat (length (fst st)))] ;;;
  ret (fst st).

End WithServices.

End Trends.

(** ** ingest.ts: [ingestVideos] *)

Module Ingestion.

Definition INTRO_WORDS : nat := 200.

(** [rec.column || '']. *)
Fixpoint field (rec : CsvRecord) (column : string) : string :=
  match rec with
  | [] => ""
  | (k, v) :: rest => if String.eqb k column then v else field rest column
  end.

(** [chunkText] at a string. *)
Definition chunkText (text_ : string) : list string :=
  match Ingest.chunkText (list_ascii_of_string text_) with
  | Some chunks_ => map string_of_list_ascii chunks_
  | None => []
  end.

(** [l.map(f)] with the position of each element at hand. *)
Fixpoint map_from {A B : Type} (f : nat -> A -> B) (k : nat) (l : list A)
  : list B :=
  match l with
  | [] => []
  | x :: l' => f k x :: map_from f (S k) l'
  end.

Section WithServices.

Context `{Services}.

(** The video of a row of the CSV file.  The field [content_type] that
    the source adds is not a column of the table and is left out. *)
Definition video_of_record (k : nat) (rec : CsvRecord) : Video :=
  {| video_id := field rec "video_id";
     title_current := field rec "title";
     transcript_full := field rec "transcript";
     transcript_intro := "";
     published_at := (if String.eqb (field rec "published_at") ""
                      then Date_toISOString k
                      else field rec "published_at");
     url := field rec "url" |}.

Definition videos_of_records (records : list CsvRecord) : list Video :=
  filter (fun v => negb (String.eqb (video_id v) "")
                   && negb (String.eqb (transcript_full v) ""))
         (map_from video_of_record 0 records).

(** The loop that writes the chunks of a video with their embeddings. *)
Definition insert_chunks (video : Video) (chunks_ : list string)
           (embeddings : list Embedding) : M unit :=
  for_each (seq 0 (length chunks_))
           (fun i _ =>
              let chunk := {| chunk_video_id := video_id video;
                              chunk_id := Z.of_nat i;
                              chunk_text := nth i chunks_ "";
                              embedding := nth i embeddings [] |} in
              Table.insertVideoChunk chunk)
           tt.

(** The body of the loop over the videos of the file; the pair is
    [(processedCount, skippedCount)]. *)
Definition ingest_video (forceReprocess : bool)
           (existingVideoIds : list string) (video : Video)
           (counts : Z * Z) : M (Z * Z) :=
  let '(processedCount, skippedCount) := counts in
  if negb forceReprocess
     && existsb (String.eqb (video_id video)) existingVideoIds
  then
    let skippedCount := (skippedCount + 1)%Z in
    log "Skipping (already exists): "
        [LStr (video_id video); LStr (title_current video)] ;;;
    ret (processedCount, skippedCount)
  else
    let processedCount := (processedCount + 1)%Z in
    log "Processing: " [LStr (video_id video); LStr (title_current video)] ;;;
    let words := Text.split_ws (transcript_full video) in
    let introWords := slice0 INTRO_WORDS words in
    let introText := Text.join " " introWords in
    let videoWithIntro :=
      {| video_id := video_id video;
         title_current := title_current video;
         transcript_full := transcript_full video;
         transcript_intro := introText;
         published_at := published_at video;
         url := (if String.eqb (url video) ""
                 then ("https://youtube.com/watch?v=" ++ video_id video)%string
                 else url video) |} in
    Table.insertVideo videoWithIntro ;;;
    let chunks_ :=
      filter (fun c => 0 <? String.length (Text.trim c))
             (chunkText (transcript_full video)) in
    if length chunks_ =? 0 then
      log "Skipping - no valid chunks (empty transcript)" [] ;;;
      ret (processedCount, skippedCount)
    else
      log "Created chunks: " [LNum (Z.of_nat (length chunks_))] ;;;
      log "Generating embeddings..." [] ;;;
      embeddings <- lift (generateEmbeddings chunks_) ;;
      insert_chunks video chunks_ embeddings ;;;
      log "Completed" [] ;;;
      ret (processedCount, skippedCount).

Definition ingestVideos (inputPath : string) (forceReprocess : bool)
  : M unit :=
  log "Loading videos from " [LStr inputPath] ;;;
  rawData <- lift (readFileSync inputPath) ;;
  videos_ <- (if Text.endsWith inputPath ".csv"
              then records <- lift (csv_parse rawData) ;;
                   ret (videos_of_records records)
              else lift (parse_videos rawData)) ;;
  log "Found videos: " [LNum (Z.of_nat (length videos_))] ;;;
  DB.new ;;;
  existingVideos <- DB.getAllVideos ;;
  let existingVideoIds := map video_id existingVideos in
  counts <- for_each videos_ (ingest_video forceReprocess existingVideoIds)
                     (0%Z, 0%Z) ;;
  let '(processedCount, skippedCount) := counts in
  DB.close ;;;
  log "Ingestion complete!" [] ;;;
  log "Total videos in file: " [LNum (Z.of_nat (length videos_))] ;;;
  log "Newly processed: " [LNum processedCount] ;;;
  log "Skipped (already exist): " [LNum skippedCount].

End WithServices.

End Ingestion.

(** ** server.ts: the other handlers *)

(** One entry of the answer of GET /api/recommendations. *)
Record RecommendationOutput := {
  ro_trend : option Trend;
  ro_video : option Video;
  ro_scores : Q * Q * Q;
  ro_packaging : JValue * JValue * JValue
}.

(** What a handler passes to [res.json]: an error with its status, or
    the data of an answer with [success: true]. *)
Inductive Reply : Type :=
| ReplyError (status : nat) (error : string)
| ReplyTrend (trend : Trend)
| ReplyTrends (all : list Trend)
| ReplyRecommendations (output : list RecommendationOutput).

Module Api.

(** The conversion of a value to a boolean in a condition. *)
Definition truthy (v : JValue) : bool :=
  match v with
  | JUndefined | JNull => false
  | JBool b => b
  | JNum q => negb (Qeq_bool q 0)
  | JStr s => negb (String.eqb s "")
  | JArr _ | JObj _ => true
  end.

(** The call [v.trim()], where [name] is the variable that holds [v]:
    only a string has the method. *)
Definition call_trim (name : string) (v : JValue) : result string :=
  match v with
  | JStr s => Ok (Text.trim s)
  | JUndefined => Throw "Cannot read properties of undefined"
  | JNull => Throw "Cannot read properties of null"
  | _ => Throw (name ++ ".trim is not a function")%string
  end.

(** [l.map(f)] for an [f] that reads the database and may throw. *)
Fixpoint map_M {A B : Type} (f : A -> M B) (l : list A) : M (list B) :=
  match l with
  | [] => ret []
  | x :: l' => y <- f x ;; ys <- map_M f l' ;; ret (y :: ys)
  end.

Section WithProviders.

Context `{Providers}.

(** GET /api/recommendations. *)
Definition get_recommendations : M Reply :=
  try_catch
    (DB.new ;;;
     recommendations_ <- Table.getAllRecommendations ;;
     output <- map_M
                 (fun rec =>
                    trend <- DB.getTrend (rec_trend_id rec) ;;
                    video_ <- Table.getVideo (rec_video_id rec) ;;
                    titles_ <- lift (JSON_parse (rec_titles rec)) ;;
                    thumbnails_ <- lift (JSON_parse (rec_thumbnails rec)) ;;
                    ret {| ro_trend := trend;
                           ro_video := video_;
                           ro_scores := (rec_semantic_relevance rec,
                                         rec_intro_support rec,
                                         rec_honesty_risk rec);
                           ro_packaging := (titles_, thumbnails_,
                                            rec_notes rec) |})
                 recommendations_ ;;
     DB.close ;;;
     ret (ReplyRecommendations output))
    (fun error => ret (ReplyError 500 error)).

End WithProviders.

Section WithServices.

Context `{Services}.

(** POST /api/fetch-trends. *)
Definition fetch_trends : M Reply :=
  try_catch
    (Trends.fetchTrends ;;;
     DB.new ;;;
     trends_ <- DB.getAllTrends ;;
     DB.close ;;;
     ret (ReplyTrends trends_))
    (fun error => ret (ReplyError 500 error)).

(** POST /api/add-manual-trend; [body] is [req.body]. *)
Definition add_manual_trend (body : JValue) : M Reply :=
  try_catch
    (title_ <- lift (get_prop body "title") ;;
     description <- lift (get_prop body "description") ;;
     invalid <- (if negb (truthy title_) then ret true
                 else trimmed <- lift (call_trim "title" title_) ;;
                      ret (String.eqb trimmed "")) ;;
     if invalid : bool then ret (ReplyError 400 "Title is required")
     else
       match title_ with
       | JStr t =>
           summary_ <- (if truthy description then
                          d <- lift (call_trim "description" description) ;;
                          ret (if negb (String.eqb d "") then d
                               else Text.trim t)
                        else ret (Text.trim t)) ;;
           let trend :=
             {| trend_id := Trends.generateTrendId (Date_now 0) t;
                title := Text.trim t;
                summary := summary_;
                keywords := Trends.extractKeywords t;
                source := "manual";
                created_at := Date_toISOString 0 |} in
           DB.new ;;;
           Table.insertTrend trend ;;;
           DB.close ;;;
           ret (ReplyTrend trend)
       | _ => lift (Throw "title.toLowerCase is not a function")
       end)
    (fun error => ret (ReplyError 500 error)).

End WithServices.

End Api.

(** ** Notions used in the statements about the rest of the code *)

(** Every code unit of [s] passes the test [p]. *)
Fixpoint all_units (p : ascii -> bool) (s : string) : bool :=
  match s with
  | EmptyString => true
  | String c s' => p c && all_units p s'
  end.

(** The code unit is a hyphen. *)
Definition is_hyphen (c : ascii) : bool := Ascii.eqb c "-".

(** No two hyphens of [s] are adjacent. *)
Fixpoint single_hyphens (s : string) : bool :=
  match s with
  | String a ((String b _) as s') =>
      negb (is_hyphen a && is_hyphen b) && single_hyphens s'
  | _ => true
  end.

(** The form of a title under which [fetchTrends] looks for
    duplicates. *)
Definition normalized_title (title_ : string) : string :=
  Text.trim (Text.toLowerCase title_).

(** What holds of the state of the loops of [fetchTrends] in a run that
    started from the database [d0]: [trends_] and [seenTitles] are the
    two variables of the loops. *)
Definition feed_state (d0 : Database) (st : list Trend * list string)
           (w : World) : Prop :=
  let '(trends_, seenTitles) := st in
  videos (db w) = videos d0
  /\ video_chunks (db w) = video_chunks d0
  /\ recommendations (db w) = []
  /\ (forall t, In t (trends (db w)) -> In t trends_)
  /\ NoDup (map trend_id (trends (db w)))
  /\ length trends_ <= Trends.MAX_TRENDS
  /\ seenTitles = map (fun t => normalized_title (title t)) trends_
  /\ NoDup seenTitles
  /\ Forall (fun t => title t <> ""
                      /\ source t = "google_news"
                      /\ keywords t = Trends.extractKeywords (title t))
            trends_.

(** The rows of the chunk table and of the video table under the
    identifier [id]. *)
Definition chunk_rows (id : string) (d : Database) : list VideoChunk :=
  filter (fun c => String.eqb (chunk_video_id c) id) (video_chunks d).

Definition video_rows (id : string) (d : Database) : list Video :=
  filter (fun v => String.eqb (video_id v) id) (videos d).

(** Every chunk belongs to a video of the table (the foreign key of the
    chunk table). *)
Definition chunk_integrity (d : Database) : Prop :=
  forall c, In c (video_chunks d) ->
            exists v, In v (videos d) /\ video_id v = chunk_video_id c.

(** The database after [insertVideo], [insertTrend] and
    [insertVideoChunk]. *)
Definition db_insert_video (v : Video) (d : Database) : Database :=
  {| videos := Table.insert_or_replace Table.same_video v (videos d);
     video_chunks := video_chunks d;
     trends := trends d;
     recommendations := recommendations d |}.

Definition db_insert_trend (t : Trend) (d : Database) : Database :=
  {| videos := videos d;
     video_chunks := video_chunks d;
     trends := Table.insert_or_replace Table.same_trend t (trends d);
     recommendations := recommendations d |}.

Definition db_insert_chunk (c : VideoChunk) (d : Database) : Database :=
  {| videos := videos d;
     video_chunks := Table.insert_or_replace Table.same_chunk c
                                             (video_chunks d);
     trends := trends d;
     recommendations := recommendations d |}.

(** The number of the chunk lies outside the numbers from [a] to
    [a + n - 1]. *)
Definition outside (a n : nat) (c : VideoChunk) : bool :=
  negb ((Z.of_nat a <=? chunk_id c)%Z && (chunk_id c <? Z.of_nat (a + n))%Z).

Section IngestionNotions.

Context `{Services}.

(** The videos of the input file, as [ingestVideos] reads them. *)
Definition file_videos (inputPath : string) : result (list Video) :=
  match readFileSync inputPath with
  | Throw e => Throw e
  | Ok rawData =>
      if Text.endsWith inputPath ".csv" then
        match csv_parse rawData with
        | Throw e => Throw e
        | Ok records => Ok (Ingestion.videos_of_records records)
        end
      else parse_videos rawData
  end.

(** The video is passed over: it is in the table already and the run
    does not reprocess. *)
Definition passed_over (forceReprocess : bool)
           (existingVideoIds : list string) (video : Video) : bool :=
  negb forceReprocess && existsb (String.eqb (video_id video)) existingVideoIds.

(** The row that the run writes for a video. *)
Definition stored_video (video : Video) : Video :=
  {| video_id := video_id video;
     title_current := title_current video;
     transcript_full := transcript_full video;
     transcript_intro :=
       Text.join " " (slice0 Ingestion.INTRO_WORDS
                             (Text.split_ws (transcript_full video)));
     published_at := published_at video;
     url := (if String.eqb (url video) ""
             then ("https://youtube.com/watch?v=" ++ video_id video)%string
             else url video) |}.

(** The chunks of a video that are not blank. *)
Definition valid_chunks (video : Video) : list string :=
  filter (fun c => 0 <? String.length (Text.trim c))
         (Ingestion.chunkText (transcript_full video)).

(** The row of the [i]-th chunk. *)
Definition chunk_row (video : Video) (chunks_ : list string)
           (embeddings : list Embedding) (i : nat) : VideoChunk :=
  {| chunk_video_id := video_id video;
     chunk_id := Z.of_nat i;
     chunk_text := nth i chunks_ "";
     embedding := map fround (nth i embeddings []) |}.

(** The database after the body of the loop of [ingestVideos] has run
    for a video, whether it returned or threw. *)
Definition db_after_video (forceReprocess : bool)
           (existingVideoIds : list string) (video : Video) (d : Database)
  : Database :=
  if passed_over forceReprocess existingVideoIds video then d
  else
    let d1 := db_insert_video (stored_video video) d in
    match valid_chunks video with
    | [] => d1
    | chunks_ =>
        match generateEmbeddings chunks_ with
        | Throw _ => d1
        | Ok embeddings =>
            fold_left (fun d i =>
                         db_insert_chunk (chunk_row video chunks_ embeddings i)
                                         d)
                      (seq 0 (length chunks_)) d1
        end
    end.

(** The counters after the body has returned. *)
Definition counts_after_video (forceReprocess : bool)
           (existingVideoIds : list string) (video : Video) (counts : Z * Z)
  : Z * Z :=
  if passed_over forceReprocess existingVideoIds video
  then (fst counts, (snd counts + 1)%Z)
  else ((fst counts + 1)%Z, snd counts).

(** The part of [ingestVideos] that follows the reading of the file. *)
Definition ingest_loop (forceReprocess : bool) (videos_ : list Video)
  : M unit :=
  log "Found videos: " [LNum (Z.of_nat (length videos_))] ;;;
  DB.new ;;;
  existingVideos <- DB.getAllVideos ;;
  let existingVideoIds := map video_id existingVideos in
  counts <- for_each videos_
                     (Ingestion.ingest_video forceReprocess existingVideoIds)
                     (0%Z, 0%Z) ;;
  let '(processedCount, skippedCount) := counts in
  DB.close ;;;
  log "Ingestion complete!" [] ;;;
  log "Total videos in file: " [LNum (Z.of_nat (length videos_))] ;;;
  log "Newly processed: " [LNum processedCount] ;;;
  log "Skipped (already exist): " [LNum skippedCount].

End IngestionNotions.

(** The four lines that end the console output of a completed
    ingestion. *)
Definition ingestion_summary (total : nat) (processed skipped : Z)
  : list LogLine :=
  [console_log "Ingestion complete!" [];
   console_log "Total videos in file: " [LNum (Z.of_nat total)];
   console_log "Newly processed: " [LNum processed];
   console_log "Skipped (already exist): " [LNum skipped]].

(** The order of [getAllRecommendations]: [a] may stand before [b]. *)
Definition ranks_before (a b : Recommendation) : Prop :=
  (rec_semantic_relevance b < rec_semantic_relevance a)%Q
  \/ ((rec_semantic_relevance b == rec_semantic_relevance a)%Q
      /\ (rec_intro_support b <= rec_intro_support a)%Q).

(** The entry of the answer of GET /api/recommendations that belongs to
    the row [r]. *)
Definition output_of `{Providers} (d : Database) (r : Recommendation)
           (o : RecommendationOutput) : Prop :=
  ro_trend o = find (fun t => String.eqb (trend_id t) (rec_trend_id r))
                    (trends d)
  /\ ro_video o = find (fun v => String.eqb (video_id v) (rec_video_id r))
                       (videos d)
  /\ ro_scores o = (rec_semantic_relevance r, rec_intro_support r,
                    rec_honesty_risk r)
  /\ JSON_parse (rec_titles r) = Ok (fst (fst (ro_packaging o)))
  /\ JSON_parse (rec_thumbnails r) = Ok (snd (fst (ro_packaging o)))
  /\ snd (ro_packaging o) = rec_notes r.

(** From [w] to [w'], the count has gone up by [n] at most. *)
Definition spent (count : World -> nat) (n : nat) (w w' : World) : Prop :=
  count w' <= count w + n.

(** The number of requests sent to the model for an evaluation, and for
    a search query. *)
Definition evaluations (w : World) : nat := length (chat_requests w).

Definition topic_queries (w : World) : nat := length (topic_requests w).

(** A computation that asks the model for no search query. *)
Definition keeps_topics {A : Type} (m : M A) : Prop :=
  forall w, topic_requests (snd (m w)) = topic_requests w.

(** The scores of the row pass the acceptance gate. *)
Definition passes_gate (r : Recommendation) : Prop :=
  (0.65 <= rec_semantic_relevance r)%Q
  /\ (0.65 <= rec_intro_support r)%Q
  /\ (rec_honesty_risk r <= 0.30)%Q.

(** Every row of the table of recommendations passes the gate. *)
Definition rows_pass (w : World) : Prop :=
  forall r, In r (recommendations (db w)) -> passes_gate r.

(** The events that report the verdict on a candidate. *)
Definition is_accepted (e : Event) : bool :=
  match e with EvAccepted _ _ => true | _ => false end.

Definition is_rejected (e : Event) : bool :=
  match e with EvRejected _ => true | _ => false end.

Definition count_events (p : Event -> bool) (l : list Event) : Z :=
  Z.of_nat (length (filter p l)).

(** The number of matched videos in the results of a run. *)
Definition matched_total (results : list TrendRecommendations) : Z :=
  Z.of_nat (length (concat (map tr_matchedVideos results))).

(** The events written since [w0] hold [acc] verdicts of acceptance and
    [total - acc] verdicts of rejection. *)
Definition verdicts (w0 : World) (total acc : Z) (w : World) : Prop :=
  exists evs, response w = response w0 ++ evs
              /\ count_events is_accepted evs = acc
              /\ count_events is_rejected evs = (total - acc)%Z.

(** A computation that writes no verdict to the response. *)
Definition plain {A : Type} (m : M A) : Prop :=
  forall w, exists evs,
      response (snd (m w)) = response w ++ evs
      /\ Forall (fun e => is_accepted e = false /\ is_rejected e = false) evs.

(** The object that the handler of POST /api/add-manual-trend builds
    from the title [s] and the description [dv] of a request. *)
Definition manual_trend `{Services} (s : string) (dv : JValue) : Trend :=
  {| trend_id := Trends.generateTrendId (Date_now 0) s;
     title := Text.trim s;
     summary := match dv with
                | JStr d => if String.eqb (Text.trim d) ""
                            then Text.trim s else Text.trim d
                | _ => Text.trim s
                end;
     keywords := Trends.extractKeywords s;
     source := "manual";
     created_at := Date_toISOString 0 |}.

(** The row of the table of recommendations that stands for the
    evaluation [e] of the pair of [trend] and [candidate], [note] being
    the string that [e] carries as its notes: the two identifiers, the
    three scores and the packaging, titles and thumbnails as JSON
    text. *)
Definition stored_row `{Providers} (trend : Trend)
           (candidate : CandidateVideo) (e : LLMEvaluation) (note : string)
  : Recommendation :=
  {| rec_trend_id := trend_id trend;
     rec_video_id := video_id (video candidate);
     rec_semantic_relevance := semantic_relevance e;
     rec_intro_support := intro_support e;
     rec_honesty_risk := honesty_risk e;
     rec_titles := JSON_stringify (titles e);
     rec_thumbnails := JSON_stringify (thumbnails e);
     rec_notes := JStr note |}.

(** [row] has been persisted between the databases [d] and [d']: it is
    in the table, it is the only row of its pair of identifiers, the
    rows of the other pairs are those of [d], and the other tables are
    as they were. *)
Definition persisted (row : Recommendation) (d d' : Database) : Prop :=
  In row (recommendations d')
  /\ (forall r, In r (recommendations d') ->
                rec_trend_id r = rec_trend_id row ->
                rec_video_id r = rec_video_id row ->
                r = row)
  /\ (forall r, rec_trend_id r <> rec_trend_id row
                \/ rec_video_id r <> rec_video_id row ->
                (In r (recommendations d') <-> In r (recommendations d)))
  /\ videos d' = videos d
  /\ video_chunks d' = video_chunks d
  /\ trends d' = trends d.

(** ** A concrete input file and concrete services of the ingestion *)

Module Sample.

(** A video with a transcript of six words, and a video whose
    transcript is blank. *)
Definition S1 : Video :=
  {| video_id := "S1"; title_current := "Budget basics";
     transcript_full := "The budget  explained in plain words";
     transcript_intro := ""; published_at := "2025-02-01"; url := "" |}.

Definition S2 : Video :=
  {| video_id := "S2"; title_current := "Silent film";
     transcript_full := "   ";
     transcript_intro := ""; published_at := "2025-03-01";
     url := "https://example.org/s2" |}.

(** The two files of the sample. *)
Definition read (path : string) : result string :=
  if String.eqb path "videos.json" then Ok "json"
  else if String.eqb path "videos.csv" then Ok "csv"
  else Throw "ENOENT: no such file or directory".

(** The rows of the CSV file; the second has no identifier. *)
Definition records : list CsvRecord :=
  [[("video_id", "C1"); ("title", "Tax slabs");
    ("transcript", "New tax slabs from April"); ("published_at", "")];
   [("video_id", ""); ("title", "Untitled");
    ("transcript", "words"); ("published_at", "2025-01-01")]].

(** An embedding of two numbers for each text: its length and one
    half, both of which 32-bit precision represents exactly. *)
Definition embed (texts : list string) : result (list Embedding) :=
  Ok (map (fun t => [inject_Z (Z.of_nat (String.length t)); 0.5%Q]) texts).

Definition items : list FeedItem :=
  [{| item_title := Some "Sensex falls 800 points";
      item_contentSnippet := Some "Markets slide"; item_content := None |};
   {| item_title := Some "  SENSEX falls 800 points ";
      item_contentSnippet := None; item_content := None |};
   {| item_title := None;
      item_contentSnippet := Some "No title"; item_content := None |};
   {| item_title := Some "RBI keeps the repo rate";
      item_contentSnippet := None; item_content := Some "Policy" |}].

Definition services : Services :=
  {| readFileSync := read;
     csv_parse := fun _ => Ok records;
     parse_videos := fun _ => Ok [S1; S2];
     generateEmbeddings := embed;
     fround := fun q => q;
     parseURL := fun _ => Ok items;
     Date_now := fun k => (1767225600000 + Z.of_nat k)%Z;
     Date_toISOString := fun _ => "2026-01-01T00:00:00.000Z" |}.

(** The embedding provider refuses every request. *)
Definition services_rate_limited : Services :=
  {| readFileSync := read;
     csv_parse := fun _ => Ok records;
     parse_videos := fun _ => Ok [S1; S2];
     generateEmbeddings := fun _ => Throw "429 rate limit exceeded";
     fround := fun q => q;
     parseURL := fun _ => Ok items;
     Date_now := fun k => (1767225600000 + Z.of_nat k)%Z;
     Date_toISOString := fun _ => "2026-01-01T00:00:00.000Z" |}.

(** A chunk that an earlier, longer transcript of S1 left behind. *)
Definition stale : VideoChunk :=
  {| chunk_video_id := "S1"; chunk_id := 7; chunk_text := "an older cut";
     embedding := [12%Q; 0.5%Q] |}.

(** A store that holds S1 with that chunk. *)
Definition store : Database :=
  {| videos := [S1];
     video_chunks := [stale];
     trends := [Scenario.T1];
     recommendations := [] |}.

End Sample.

(* ================================================================== *)
(** * Part II: properties                                             *)
(* ================================================================== *)

(** ** Chunking *)

Section ChunkLoop.

Context {char : Type}.
Variables size overlap : nat.
Hypothesis overlap_lt_size : overlap < size.

Let step := size - overlap.

Lemma step_pos : 0 < step.
Proof. unfold step. lia. Qed.

Lemma substring_window (text : list char) (i : nat) :
  i * step <= length text ->
  Ingest.substring text (i * step) (Nat.min (i * step + size) (length text))
  = window size step text i.
Proof.
  intros Hi. unfold Ingest.substring, window.
  replace (Nat.min (i * step) (length text)) with (i * step) by lia.
  replace (Nat.min (Nat.min (i * step + size) (length text)) (length text))
    with (Nat.min (i * step + size) (length text)) by lia.
  replace (Nat.max (i * step) (Nat.min (i * step + size) (length text)))
    with (Nat.min (i * step + size) (length text)) by lia.
  replace (Nat.min (i * step) (Nat.min (i * step + size) (length text)))
    with (i * step) by lia.
  destruct (Nat.le_ge_cases (i * step + size) (length text)) as [H|H].
  - f_equal. lia.
  - replace (Nat.min (i * step + size) (length text) - i * step)
      with (length (skipn (i * step) text))
      by (rewrite length_skipn; lia).
    rewrite firstn_all.
    symmetry. apply firstn_all2. rewrite length_skipn. lia.
Qed.

Lemma windows_count_0 : windows_count step 0 = 0.
Proof.
  unfold windows_count. pose proof step_pos.
  apply Nat.div_small. lia.
Qed.

Lemma windows_count_bounds (n : nat) :
  0 < n ->
  (windows_count step n - 1) * step < n /\ n <= windows_count step n * step
  /\ 0 < windows_count step n.
Proof.
  intros Hn. unfold windows_count. pose proof step_pos as Hs.
  pose proof (Nat.div_mod_eq (n + step - 1) step) as E.
  pose proof (Nat.mod_upper_bound (n + step - 1) step ltac:(lia)) as B.
  set (q := (n + step - 1) / step) in *.
  set (r := (n + step - 1) mod step) in *.
  assert (0 < q) by (destruct q; [ nia | lia ]).
  repeat split; nia.
Qed.

(** The loop, started at the [k]-th multiple of the step with enough
    fuel, appends exactly the windows [k, k+1, ...] that start inside
    the text. *)
Lemma chunkText_loop_spec (text : list char) :
  forall fuel k chunks,
    k <= windows_count step (length text) ->
    windows_count step (length text) - k < fuel ->
    Ingest.chunkText_loop size overlap fuel text (k * step) chunks
    = Some (chunks ++ map (window size step text)
                          (seq k (windows_count step (length text) - k))).
Proof.
  pose proof step_pos as Hs.
  induction fuel as [|fuel IH]; intros k chunks Hk Hfuel; [ lia | ].
  cbn [Ingest.chunkText_loop].
  destruct (Nat.ltb_spec (k * step) (length text)) as [Hlt|Hge].
  - assert (0 < length text) as Hn by lia.
    destruct (windows_count_bounds Hn) as (A & B & C).
    set (n := windows_count step (length text)) in *.
    assert (k < n) as Hkn by nia.
    fold step.
    replace (k * step + step) with (S k * step) by lia.
    rewrite IH by lia.
    rewrite substring_window by lia.
    rewrite <- app_assoc. cbn [app].
    replace (n - k) with (S (n - S k)) by lia.
    reflexivity.
  - destruct (Nat.eq_dec (length text) 0) as [Z|NZ].
    + rewrite Z, windows_count_0. cbn. now rewrite app_nil_r.
    + destruct (@windows_count_bounds (length text)) as (A & B & C); [ lia | ].
      set (n := windows_count step (length text)) in *.
      assert (n <= k) by nia.
      replace (n - k) with 0 by lia. cbn. now rewrite app_nil_r.
Qed.

Lemma windows_count_le (n : nat) : windows_count step n <= n.
Proof.
  destruct n as [|n]; [ rewrite windows_count_0; lia | ].
  destruct (@windows_count_bounds (S n)) as (A & B & C); [ lia | ].
  pose proof step_pos. nia.
Qed.

(** The loop started at 0 with [S (length text)] iterations allowed
    always returns: its result is the list of all windows. *)
Lemma chunkText_loop_total (text : list char) :
  Ingest.chunkText_loop size overlap (S (length text)) text 0 []
  = Some (map (window size step text)
              (seq 0 (windows_count step (length text)))).
Proof.
  pose proof (windows_count_le (length text)).
  change 0 with (0 * step) at 1.
  rewrite chunkText_loop_spec by lia.
  now rewrite Nat.sub_0_r.
Qed.

Lemma window_length (text : list char) (i : nat) :
  length (window size step text i) = Nat.min size (length text - i * step).
Proof. unfold window. now rewrite length_firstn, length_skipn. Qed.

(** Two consecutive windows share the part of the first one that lies
    beyond the step. *)
Lemma window_overlap (text : list char) (i : nat) :
  skipn step (window size step text i)
  = firstn (length (window size step text i) - step)
           (window size step text (S i)).
Proof.
  rewrite window_length. unfold window.
  rewrite skipn_firstn_comm, skipn_skipn.
  replace (step + i * step) with (S i * step) by lia.
  rewrite firstn_firstn.
  destruct (Nat.le_ge_cases size (length text - i * step)) as [H|H].
  - f_equal. lia.
  - rewrite !firstn_all2; [ reflexivity | | ]; rewrite length_skipn; lia.
Qed.

(** Every code unit of the text is in the window of its quotient by the
    step, at the offset of its remainder. *)
Lemma window_covers (text : list char) (j : nat) :
  j < length text ->
  j / step < windows_count step (length text)
  /\ nth_error (window size step text (j / step)) (j mod step)
     = nth_error text j.
Proof.
  intros Hj. pose proof step_pos as Hs.
  pose proof (Nat.mod_upper_bound j step ltac:(lia)) as Hm.
  pose proof (Nat.div_mod_eq j step) as E.
  split.
  - destruct (@windows_count_bounds (length text)) as (A & B & C); [ lia | ].
    set (n := windows_count step (length text)) in *.
    set (q := j / step) in *.
    destruct (Nat.lt_ge_cases q n) as [L|G]; [ exact L | exfalso; nia ].
  - unfold window.
    rewrite nth_error_firstn.
    destruct (Nat.ltb_spec (j mod step) size) as [_|Hbad];
      [ | unfold step in *; lia ].
    rewrite nth_error_skipn. f_equal. lia.
Qed.

(** The shape of the list of windows: the bounds on the lengths. *)
Lemma window_shape (text : list char) (i : nat) :
  let n := windows_count step (length text) in
  0 < overlap -> 2 * overlap <= size ->
  i < n ->
  length (window size step text i) <= size
  /\ (S i < n -> step < length (window size step text i))
  /\ (S (S i) < n -> length (window size step text i) = size).
Proof.
  intros n Hov Hhalf Hi. rewrite window_length.
  assert (0 < length text) as Hn.
  { destruct (length text); [ | lia ].
    unfold n in Hi. rewrite windows_count_0 in Hi. lia. }
  destruct (windows_count_bounds Hn) as (A & B & C). fold n in A, B, C.
  pose proof step_pos as Hs.
  repeat split.
  - lia.
  - intros H1. assert (S i * step < length text) by nia.
    unfold step in *. lia.
  - intros H2. assert (S (S i) * step < length text) by nia.
    unfold step in *. lia.
Qed.

End ChunkLoop.

Lemma chunk_constants :
  Ingest.CHUNK_OVERLAP < Ingest.CHUNK_SIZE
  /\ 0 < Ingest.CHUNK_OVERLAP
  /\ 2 * Ingest.CHUNK_OVERLAP <= Ingest.CHUNK_SIZE
  /\ Ingest.CHUNK_SIZE - Ingest.CHUNK_OVERLAP = 850.
Proof.
  repeat split.
  - apply Nat.ltb_lt. vm_compute. reflexivity.
  - apply Nat.ltb_lt. vm_compute. reflexivity.
  - apply Nat.leb_le. vm_compute. reflexivity.
Qed.

Lemma nth_windows {char : Type} (size step : nat) (text : list char)
      (n i : nat) :
  i < n ->
  nth i (map (window size step text) (seq 0 n)) [] = window size step text i.
Proof.
  intros Hi.
  rewrite nth_indep with (d' := window size step text 0)
    by (now rewrite length_map, length_seq).
  rewrite map_nth, seq_nth by exact Hi. reflexivity.
Qed.

(** ** Sorting *)

Section SortFacts.

Variable A : Type.

Lemma In_firstn_list (n : nat) (l : list A) (x : A) :
  In x (firstn n l) -> In x l.
Proof.
  revert n. induction l as [|y l IH]; intros [|n]; cbn; try tauto.
  intros [E|Hx]; [ now left | right; eauto ].
Qed.

Lemma In_skipn_list (n : nat) (l : list A) (x : A) :
  In x (skipn n l) -> In x l.
Proof.
  revert n. induction l as [|y l IH]; intros [|n]; cbn; try tauto.
  intros Hx. right. eauto.
Qed.

Lemma sort_insert_perm (cmp : A -> A -> Q) (x : A) (l : list A) :
  Permutation (Js.sort_insert cmp x l) (x :: l).
Proof.
  induction l as [|y l IH]; cbn; [ reflexivity | ].
  destruct (Qle_bool (cmp x y) 0); [ reflexivity | ].
  rewrite IH. apply perm_swap.
Qed.

Lemma sort_perm (cmp : A -> A -> Q) (l : list A) :
  Permutation (Js.sort cmp l) l.
Proof.
  induction l as [|x l IH]; cbn; [ constructor | ].
  rewrite sort_insert_perm. now constructor.
Qed.

Lemma sort_length (cmp : A -> A -> Q) (l : list A) :
  length (Js.sort cmp l) = length l.
Proof. apply Permutation_length, sort_perm. Qed.

Lemma sort_In (cmp : A -> A -> Q) (l : list A) (x : A) :
  In x (Js.sort cmp l) <-> In x l.
Proof.
  split; apply Permutation_in; [ | symmetry ]; apply sort_perm.
Qed.

(** Sorting with the comparator [key b - key a] puts the larger keys
    first. *)
Variable key : A -> Q.


Lemma sort_insert_descending (x : A) (l : list A) :
  StronglySorted (descending key) l ->
  StronglySorted (descending key)
                 (Js.sort_insert (fun a b => key b - key a)%Q x l).
Proof.
  induction 1 as [|y l Hl IH Hy]; cbn.
  - repeat constructor.
  - destruct (Qle_bool (key y - key x) 0) eqn:E.
    + apply Qle_bool_iff in E.
      assert (Hyx : (descending key) x y) by (unfold descending; Lqa.lra).
      constructor; [ now constructor | ].
      constructor; [ exact Hyx | ].
      eapply Forall_impl; [ | exact Hy ].
      unfold descending in *. intros z Hz. Lqa.lra.
    + assert (Hxy : (descending key) y x).
      { unfold descending.
        destruct (Qlt_le_dec (key y) (key x)) as [L|G]; [ | exact G ].
        assert (Qle_bool (key y - key x) 0 = true)
          by (apply Qle_bool_iff; Lqa.lra).
        congruence. }
      constructor; [ exact IH | ].
      eapply Permutation_Forall; [ symmetry; apply sort_insert_perm | ].
      now constructor.
Qed.

Lemma sort_descending (l : list A) :
  StronglySorted (descending key) (Js.sort (fun a b => key b - key a)%Q l).
Proof.
  induction l as [|x l IH]; cbn; [ constructor | ].
  now apply sort_insert_descending.
Qed.

Lemma firstn_descending (n : nat) (l : list A) :
  StronglySorted (descending key) l -> StronglySorted (descending key) (firstn n l).
Proof.
  intros Hl. revert n.
  induction Hl as [|x l Hl IH Hx]; intros [|n]; cbn; try constructor.
  - apply IH.
  - rewrite Forall_forall in *. intros y Hy.
    apply Hx. eapply In_firstn_list. exact Hy.
Qed.

(** What is cut off by [slice(0, n)] after the sort has no larger key
    than anything that is kept. *)
Lemma firstn_descending_top (n : nat) (l : list A) (x y : A) :
  StronglySorted (descending key) l ->
  In x (firstn n l) -> In y (skipn n l) -> (descending key) x y.
Proof.
  intros Hl. revert n.
  induction Hl as [|z l Hl IH Hz]; intros [|n]; cbn; try tauto.
  intros [->|Hx] Hy.
  - rewrite Forall_forall in Hz. apply Hz.
    eapply In_skipn_list. exact Hy.
  - eapply IH; eassumption.
Qed.

End SortFacts.

(** ** The map of per-video groups *)

Section MapFacts.

Variable V : Type.

Lemma map_has_In (k : string) (m : Map.t V) :
  Map.has k m = true <-> In k (map fst m).
Proof.
  unfold Map.has.
  induction m as [|[k' v] m IH]; cbn.
  - split; [ discriminate | tauto ].
  - destruct (String.eqb_spec k' k) as [->|N].
    + split; auto.
    + rewrite IH. split; [ auto | intros [E|I]; [ congruence | exact I ] ].
Qed.

Lemma map_has_false (k : string) (m : Map.t V) :
  Map.has k m = false <-> ~ In k (map fst m).
Proof.
  rewrite <- map_has_In. destruct (Map.has k m); split; congruence.
Qed.

Lemma map_get_has (k : string) (m : Map.t V) :
  Map.has k m = true -> exists v, Map.get k m = Some v.
Proof.
  unfold Map.has. destruct (Map.get k m) as [v|]; [ eauto | discriminate ].
Qed.

Lemma map_set_new (k : string) (v : V) (m : Map.t V) :
  Map.has k m = false -> Map.set k v m = m ++ [(k, v)].
Proof.
  unfold Map.has.
  induction m as [|[k' v'] m IH]; cbn; [ reflexivity | ].
  destruct (String.eqb k' k); [ discriminate | ].
  intros Hk. now rewrite IH.
Qed.

Lemma map_get_new (k : string) (v : V) (m : Map.t V) :
  Map.has k m = false -> Map.get k (m ++ [(k, v)]) = Some v.
Proof.
  unfold Map.has.
  induction m as [|[k' v'] m IH]; cbn.
  - now rewrite String.eqb_refl.
  - destruct (String.eqb k' k); [ discriminate | exact IH ].
Qed.

Lemma map_set_last (k : string) (v v' : V) (m : Map.t V) :
  Map.has k m = false ->
  Map.set k v' (m ++ [(k, v)]) = m ++ [(k, v')].
Proof.
  unfold Map.has.
  induction m as [|[k' v0] m IH]; cbn.
  - now rewrite String.eqb_refl.
  - destruct (String.eqb k' k); [ discriminate | ].
    intros Hk. now rewrite IH.
Qed.

(** Setting a key that is present changes its entry and no other one. *)
Lemma map_set_present (k : string) (v d : V) (m : Map.t V) :
  NoDup (map fst m) ->
  Map.get k m = Some d ->
  Map.set k v m
  = map (fun e => if String.eqb (fst e) k then (fst e, v) else e) m.
Proof.
  induction m as [|[k' v'] m IH]; cbn; [ discriminate | ].
  intros Hnd Hget. inversion Hnd as [|? ? Hnotin Hnd']; subst.
  destruct (String.eqb_spec k' k) as [->|N].
  - f_equal. symmetry.
    rewrite <- (map_id m) at 2. apply map_ext_in.
    intros [k1 v1] Hin. cbn.
    destruct (String.eqb_spec k1 k) as [->|_]; [ | reflexivity ].
    exfalso. apply Hnotin.
    change k with (fst (k, v1)). now apply in_map.
  - f_equal. now apply IH.
Qed.

Lemma map_set_keys (k : string) (v d : V) (m : Map.t V) :
  Map.get k m = Some d -> map fst (Map.set k v m) = map fst m.
Proof.
  induction m as [|[k' v'] m IH]; cbn; [ discriminate | ].
  destruct (String.eqb_spec k' k) as [->|N]; cbn; [ reflexivity | ].
  intros Hget. now rewrite IH.
Qed.

End MapFacts.

Lemma filter_andb {A : Type} (p q : A -> bool) (l : list A) :
  filter (fun x => p x && q x)%bool l = filter p (filter q l).
Proof.
  induction l as [|x l IH]; cbn; [ reflexivity | ].
  destruct (q x) eqn:Eq, (p x) eqn:Ep; cbn; rewrite ?Ep, ?IH; reflexivity.
Qed.

Lemma distinct_filter (p : string -> bool) (l : list string) :
  distinct (filter p l) = filter p (distinct l).
Proof.
  induction l as [|k l IH]; cbn; [ reflexivity | ].
  destruct (p k) eqn:E; cbn; rewrite ?E, IH.
  - f_equal. clear. induction (distinct l) as [|x d IHd]; cbn; auto.
    destruct (p x) eqn:Ex; cbn;
      destruct (negb (String.eqb x k)) eqn:Ek; cbn;
      rewrite ?Ex, ?Ek, ?IHd; reflexivity.
  - clear IH. induction (distinct l) as [|x d IHd]; cbn; auto.
    destruct (String.eqb_spec x k) as [->|N]; cbn.
    + rewrite E. exact IHd.
    + destruct (p x); cbn; now rewrite IHd.
Qed.

Lemma distinct_In (l : list string) (k : string) :
  In k (distinct l) <-> In k l.
Proof.
  induction l as [|x l IH]; cbn; [ tauto | ].
  rewrite filter_In, IH.
  destruct (String.eqb_spec k x) as [->|N]; cbn.
  - split; auto.
  - split.
    + intros [E|[I _]]; [ congruence | auto ].
    + intros [E|I]; [ congruence | auto ].
Qed.

Lemma distinct_NoDup (l : list string) : NoDup (distinct l).
Proof.
  induction l as [|x l IH]; cbn; constructor.
  - rewrite filter_In. intros [_ E].
    now rewrite String.eqb_refl in E.
  - now apply NoDup_filter.
Qed.

Lemma extend_nil (d : VideoData) (k : string) : extend d (group_of k []) = d.
Proof. destruct d. unfold extend. cbn. now rewrite !app_nil_r. Qed.

Lemma group_of_cons_same (x : ChunkScore) (cs : list ChunkScore) :
  group_of (cs_video_id x) (x :: cs)
  = extend {| scores := [similarity x]; chunks := [scored x] |}
           (group_of (cs_video_id x) cs).
Proof.
  unfold group_of, chunks_of, extend. cbn.
  now rewrite String.eqb_refl.
Qed.

Lemma group_of_cons_other (k : string) (x : ChunkScore)
      (cs : list ChunkScore) :
  k <> cs_video_id x -> group_of k (x :: cs) = group_of k cs.
Proof.
  intros N. unfold group_of, chunks_of. cbn.
  destruct (String.eqb_spec (cs_video_id x) k); [ congruence | reflexivity ].
Qed.

Lemma extend_assoc (a b c : VideoData) :
  extend (extend a b) c = extend a (extend b c).
Proof. unfold extend. cbn. now rewrite !app_assoc. Qed.

Lemma aggregate_step_new (m : Map.t VideoData) (x : ChunkScore) :
  Map.has (cs_video_id x) m = false ->
  aggregate_step m x
  = m ++ [(cs_video_id x,
           {| scores := [similarity x]; chunks := [scored x] |})].
Proof.
  intros Hk. unfold aggregate_step. rewrite Hk. cbn [negb].
  rewrite map_set_new by exact Hk.
  rewrite map_get_new by exact Hk.
  rewrite map_set_last by exact Hk. reflexivity.
Qed.

Lemma aggregate_step_present (m : Map.t VideoData) (x : ChunkScore)
      (d : VideoData) :
  NoDup (map fst m) ->
  Map.get (cs_video_id x) m = Some d ->
  aggregate_step m x
  = map (fun e => if String.eqb (fst e) (cs_video_id x)
                  then (fst e,
                        extend d {| scores := [similarity x];
                                    chunks := [scored x] |})
                  else e) m.
Proof.
  intros Hnd Hget. unfold aggregate_step, Map.has.
  rewrite Hget. cbn [negb]. rewrite Hget.
  now apply map_set_present with (d := d).
Qed.

(** The grouping loop started from a map [m]: the groups of [m] are
    extended, and the videos that [m] does not know get a group each, in
    the order in which they first occur. *)
Lemma aggregate_loop_spec (cs : list ChunkScore) :
  forall m : Map.t VideoData,
    NoDup (map fst m) ->
    fold_left aggregate_step cs m
    = map (fun e => (fst e, extend (snd e) (group_of (fst e) cs))) m
      ++ map (fun k => (k, group_of k cs))
             (distinct (filter (fun k => negb (Map.has k m))
                               (map cs_video_id cs))).
Proof.
  induction cs as [|x cs IH]; intros m Hnd.
  - cbn. rewrite app_nil_r. rewrite <- (map_id m) at 1.
    apply map_ext. intros [k d]. cbn. now rewrite extend_nil.
  - cbn [fold_left map filter].
    destruct (Map.has (cs_video_id x) m) eqn:Hk.
    + destruct (map_get_has _ _ Hk) as [d Hget] || idtac.
      assert (Hkeys : map fst (aggregate_step m x) = map fst m).
      { unfold aggregate_step, Map.has. rewrite Hget. cbn [negb].
        rewrite Hget. eapply map_set_keys; eassumption. }
      assert (Hhas : forall k, Map.has k (aggregate_step m x) = Map.has k m).
      { intros k.
        destruct (Map.has k m) eqn:E.
        - apply map_has_In. rewrite Hkeys. now apply map_has_In.
        - apply map_has_false. rewrite Hkeys. now apply map_has_false. }
      rewrite IH by (now rewrite Hkeys).
      cbn [negb]. f_equal.
      * rewrite aggregate_step_present with (d := d); [ | exact Hnd | exact Hget ].
        rewrite map_map. apply map_ext_in.
        intros [k d0] Hin. cbn [fst snd].
        destruct (String.eqb_spec k (cs_video_id x)) as [->|N]; cbn [fst snd].
        -- assert (d0 = d) as ->.
           { clear - Hnd Hin Hget.
             induction m as [|[k1 v1] m IHm]; [ destruct Hin | ].
             cbn in Hget, Hnd. inversion Hnd as [|? ? Hnotin Hnd']; subst.
             destruct (String.eqb_spec k1 (cs_video_id x)) as [E|N].
             - destruct Hin as [E'|Hin]; [ congruence | ].
               exfalso. apply Hnotin. subst k1.
               change (cs_video_id x) with (fst (cs_video_id x, d0)).
               now apply in_map.
             - destruct Hin as [E'|Hin]; [ congruence | ].
               now apply IHm. }
           rewrite group_of_cons_same, extend_assoc. reflexivity.
        -- now rewrite group_of_cons_other.
      * erewrite filter_ext by (intros k; now rewrite Hhas).
        apply map_ext_in. intros k Hin.
        apply distinct_In, filter_In in Hin. destruct Hin as [_ Hin].
        rewrite group_of_cons_other; [ reflexivity | ].
        intros ->. rewrite Hk in Hin. discriminate.
    + rewrite aggregate_step_new by exact Hk.
      assert (Hnotin : ~ In (cs_video_id x) (map fst m))
        by (now apply map_has_false).
      rewrite IH.
      2:{ rewrite map_app. cbn. apply NoDup_app; [ exact Hnd | | ].
          - repeat constructor. intros [].
          - intros k Hin [E|[]]. subst k. contradiction. }
      cbn [negb distinct map].
      rewrite map_app. cbn [map fst snd]. rewrite <- app_assoc. cbn [app].
      f_equal.
      * apply map_ext_in. intros [k d0] Hin. cbn [fst snd].
        rewrite group_of_cons_other; [ reflexivity | ].
        intros ->. apply Hnotin.
        change (cs_video_id x) with (fst (cs_video_id x, d0)).
        now apply in_map.
      * rewrite group_of_cons_same.
        f_equal.
        erewrite filter_ext with (g := fun k =>
            (negb (String.eqb k (cs_video_id x)) && negb (Map.has k m))%bool).
        2:{ intros k. unfold Map.has at 1.
            destruct (Map.has k m) eqn:E.
            - destruct (map_get_has _ _ E) as [v Hv].
              assert (Map.get k (m ++ [(cs_video_id x,
                        {| scores := [similarity x];
                           chunks := [scored x] |})]) = Some v) as ->.
              { clear - Hv. induction m as [|[k1 v1] m IHm];
                  [ discriminate | ].
                cbn in *. destruct (String.eqb k1 k); auto. }
              cbn. now rewrite andb_false_r.
            - unfold Map.has in E.
              assert (Map.get k m = None) as Hnone
                  by (destruct (Map.get k m); [ discriminate | reflexivity ]).
              assert (forall e, Map.get k (m ++ [(cs_video_id x, e)])
                        = if String.eqb (cs_video_id x) k
                          then Some e else None) as ->.
              { clear - Hnone. intros e.
                induction m as [|[k1 v1] m IHm]; cbn in *.
                - reflexivity.
                - destruct (String.eqb k1 k); [ discriminate | auto ]. }
              rewrite String.eqb_sym.
              destruct (String.eqb k (cs_video_id x)); reflexivity. }
        rewrite filter_andb.
        rewrite distinct_filter.
        apply map_ext_in. intros k Hin.
        apply filter_In in Hin. destruct Hin as [_ Hin].
        rewrite group_of_cons_other; [ reflexivity | ].
        intros ->. now rewrite String.eqb_refl in Hin.
Qed.

(** ** Candidate retrieval *)

Section CandidateFacts.

Context `{Providers}.

Lemma score_chunks_map (emb : Embedding) (allChunks : list VideoChunk) :
  score_chunks emb allChunks = map (score_chunk emb) allChunks.
Proof.
  unfold score_chunks.
  enough (G : forall acc,
             fold_left
               (fun chunkScores chunk =>
                  let chunkEmbedding := embedding chunk in
                  let similarity := cosineSimilarity emb chunkEmbedding in
                  chunkScores ++ [{| cs_video_id := chunk_video_id chunk;
                                     cs_chunk_text := chunk_text chunk;
                                     similarity := similarity |}])
               allChunks acc
             = acc ++ map (score_chunk emb) allChunks)
    by (apply (G [])).
  induction allChunks as [|c l IH]; intros acc; cbn.
  - now rewrite app_nil_r.
  - rewrite IH, <- app_assoc. reflexivity.
Qed.

Lemma aggregate_spec (cs : list ChunkScore) :
  aggregate cs
  = map (fun k => (k, group_of k cs)) (distinct (map cs_video_id cs)).
Proof.
  unfold aggregate. rewrite aggregate_loop_spec by constructor.
  cbn [map app]. f_equal. f_equal.
  generalize (map cs_video_id cs). intros l.
  induction l as [|k l IH]; [ reflexivity | ].
  cbn [filter]. change (Map.has k []) with false. cbn [negb].
  now rewrite IH.
Qed.

(** A group is only ever created together with its first score. *)
Lemma aggregate_groups_nonempty (cs : list ChunkScore) (k : string)
      (data : VideoData) :
  In (k, data) (aggregate cs) ->
  data = group_of k cs /\ In k (map cs_video_id cs)
  /\ scores data <> [] /\ length (scores data) = length (chunks_of k cs).
Proof.
  rewrite aggregate_spec. intros Hin.
  apply in_map_iff in Hin. destruct Hin as (k' & E & Hk).
  inversion E; subst k' data; clear E.
  rewrite distinct_In in Hk.
  split; [ reflexivity | ]. split; [ exact Hk | ].
  cbn. rewrite length_map. split; [ | reflexivity ].
  apply in_map_iff in Hk. destruct Hk as (s & Es & Hs).
  assert (In s (chunks_of k cs)) as Hin.
  { unfold chunks_of. apply filter_In. split; [ exact Hs | ].
    rewrite Es. apply String.eqb_refl. }
  destruct (chunks_of k cs); [ destruct Hin | discriminate ].
Qed.

Lemma candidate_step_spec (allVideos : list Video)
      (acc : list CandidateVideo) (e : string * VideoData) :
  candidate_step allVideos acc e
  = acc ++ match candidate_of allVideos (fst e) (snd e) with
           | Some c => [c]
           | None => []
           end.
Proof.
  destruct e as [k data]. unfold candidate_step, candidate_of. cbn [fst snd].
  destruct (find _ allVideos); [ reflexivity | now rewrite app_nil_r ].
Qed.

Lemma build_candidates_spec (allVideos : list Video)
      (m : Map.t VideoData) :
  build_candidates allVideos m
  = flat_map (fun e => match candidate_of allVideos (fst e) (snd e) with
                       | Some c => [c]
                       | None => []
                       end) m.
Proof.
  unfold build_candidates, Map.entries.
  enough (G : forall acc,
             fold_left (candidate_step allVideos) m acc
             = acc ++ flat_map
                        (fun e => match candidate_of allVideos (fst e) (snd e)
                                  with Some c => [c] | None => [] end) m)
    by (apply (G [])).
  induction m as [|e m IH]; intros acc; cbn [fold_left flat_map].
  - now rewrite app_nil_r.
  - rewrite IH, candidate_step_spec, <- app_assoc. reflexivity.
Qed.

Lemma candidate_of_video (allVideos : list Video) (k : string)
      (data : VideoData) (c : CandidateVideo) :
  candidate_of allVideos k data = Some c ->
  In (video c) allVideos /\ video_id (video c) = k
  /\ avgSimilarity c = average (scores data)
  /\ topChunks c
     = map text (slice0 5 (Js.sort (fun a b => score b - score a)%Q
                                   (chunks data))).
Proof.
  unfold candidate_of.
  destruct (find _ allVideos) as [v|] eqn:F; [ | discriminate ].
  intros E. inversion E; subst c; clear E. cbn.
  apply find_some in F. destruct F as [Hin Hid].
  apply String.eqb_eq in Hid. auto.
Qed.

(** The candidates before the sort: one for each video of the store that
    is in [allVideos], in the order of first occurrence in the store. *)
Lemma In_build_candidates (allVideos : list Video) (cs : list ChunkScore)
      (c : CandidateVideo) :
  In c (build_candidates allVideos (aggregate cs))
  <-> exists k, In k (map cs_video_id cs)
                /\ candidate_of allVideos k (group_of k cs) = Some c.
Proof.
  rewrite build_candidates_spec, aggregate_spec, in_flat_map.
  split.
  - intros ([k data] & Hin & Hc). cbn [fst snd] in Hc.
    apply in_map_iff in Hin. destruct Hin as (k' & E & Hk).
    inversion E; subst k' data; clear E.
    exists k. split; [ now apply distinct_In | ].
    destruct (candidate_of allVideos k (group_of k cs));
      [ destruct Hc as [->|[]]; reflexivity | destruct Hc ].
  - intros (k & Hk & Hc).
    exists (k, group_of k cs). split.
    + apply in_map_iff. exists k. split; [ reflexivity | ].
      now apply distinct_In.
    + cbn [fst snd]. rewrite Hc. now left.
Qed.

Lemma build_candidates_NoDup (allVideos : list Video)
      (cs : list ChunkScore) :
  NoDup (map (fun c => video_id (video c))
             (build_candidates allVideos (aggregate cs))).
Proof.
  rewrite build_candidates_spec, aggregate_spec.
  pose proof (distinct_NoDup (map cs_video_id cs)) as Hnd.
  induction Hnd as [|k l Hk Hnd IH]; cbn; [ constructor | ].
  destruct (candidate_of allVideos k (group_of k cs)) as [c|] eqn:E;
    cbn; [ | exact IH ].
  constructor; [ | exact IH ].
  apply candidate_of_video in E. destruct E as (_ & Ek & _).
  rewrite Ek. intros Hin. apply Hk.
  apply in_map_iff in Hin. destruct Hin as (c' & Ec' & Hc').
  apply in_flat_map in Hc'. destruct Hc' as ([k' d'] & Hin' & Hc'').
  apply in_map_iff in Hin'. destruct Hin' as (k'' & E'' & Hk'').
  inversion E''; subst k'' d'; clear E''. cbn [fst snd] in Hc''.
  destruct (candidate_of allVideos k' (group_of k' cs)) as [c''|] eqn:E';
    [ | destruct Hc'' ].
  destruct Hc'' as [->|[]].
  apply candidate_of_video in E'. destruct E' as (_ & Ek' & _).
  congruence.
Qed.

End CandidateFacts.

(** ** Evaluation of one candidate *)

Section EvaluationFacts.

Context `{Providers}.

Lemma gate_iff_matcher (e : LLMEvaluation) :
  Matcher.accepted e = true <-> gate_conditions e.
Proof.
  unfold Matcher.accepted, gate_conditions.
  rewrite !andb_true_iff, !Qle_bool_iff.
  unfold Matcher.MIN_SEMANTIC_RELEVANCE, Matcher.MIN_INTRO_SUPPORT,
    Matcher.MAX_HONESTY_RISK.
  tauto.
Qed.

Lemma gate_iff_server (e : LLMEvaluation) :
  Server.accepted e = true <-> gate_conditions e.
Proof.
  unfold Server.accepted, gate_conditions.
  rewrite !andb_true_iff, !Qle_bool_iff.
  unfold Server.MIN_SEMANTIC_RELEVANCE, Server.MIN_INTRO_SUPPORT,
    Server.MAX_HONESTY_RISK.
  tauto.
Qed.

(** The command-line variant: one parse, and the sentinel on any
    failure. *)
Lemma matcher_evaluateWithLLM_run (trend : Trend) (video : Video)
      (topChunks : list string) (w : World) :
  exists (e : LLMEvaluation) (w' : World),
    Matcher.evaluateWithLLM trend video topChunks w = (Ok e, w')
    /\ db w' = db w
    /\ frame w w' [chat_request trend video topChunks]
    /\ e = match chat_completion trend video topChunks with
           | Throw _ => conservative_rejection "Evaluation failed"
           | Ok content =>
               match JSON_parse (content_or_default content) with
               | Throw _ => conservative_rejection "Evaluation failed"
               | Ok v =>
                   match validate v with
                   | Ok e => e
                   | Throw _ => conservative_rejection "Evaluation failed"
                   end
               end
           end.
Proof.
  unfold Matcher.evaluateWithLLM, try_catch, bind, create_chat_completion,
    lift, ret, log_error, frame, chat_request.
  destruct (chat_completion trend video topChunks) as [content|msg]; cbn.
  - destruct (JSON_parse (content_or_default content)) as [v|msg]; cbn.
    + destruct (validate v) as [e|msg]; cbn;
        eexists; eexists; repeat split; try reflexivity;
        eexists; try reflexivity; symmetry; apply app_nil_r.
    + eexists; eexists; repeat split; try reflexivity.
      eexists; reflexivity.
  - eexists; eexists; repeat split; try reflexivity.
    eexists; reflexivity.
Qed.

(** The note of the sentinel that the outer [catch] of the server
    variant returns. *)
Lemma server_evaluateWithLLM_run (trend : Trend) (video : Video)
      (topChunks : list string) (w : World) :
  exists (e : LLMEvaluation) (w' : World),
    Server.evaluateWithLLM trend video topChunks w = (Ok e, w')
    /\ db w' = db w
    /\ frame w w' [chat_request trend video topChunks]
    /\ e = match chat_completion trend video topChunks with
           | Throw msg => conservative_rejection (evaluation_failed msg)
           | Ok content =>
               match first_success parse_strategies
                                   (content_or_default content) with
               | None =>
                   conservative_rejection
                     ("JSON parse failed: "
                      ++ parse_error (content_or_default content))%string
               | Some v =>
                   match validate v with
                   | Ok e => e
                   | Throw msg =>
                       conservative_rejection (evaluation_failed msg)
                   end
               end
           end.
Proof.
  unfold Server.evaluateWithLLM, try_catch, bind, create_chat_completion,
    Server.parse_with_repair, parse_error, evaluation_failed,
    lift, ret, log_error, log, frame, chat_request.
  cbn [first_success parse_strategies result_to_option].
  destruct (chat_completion trend video topChunks) as [content|msg]; cbn.
  - destruct (JSON_parse (content_or_default content)) as [v|msg]; cbn.
    { destruct (validate v) as [e|msg']; cbn.
      - eexists; eexists; repeat split; try reflexivity.
        exists []. symmetry; apply app_nil_r.
      - destruct (negb (msg' =? "")%string && includes msg' "JSON"); cbn;
          eexists; eexists; repeat split; try reflexivity;
          rewrite <- !app_assoc; eexists; reflexivity. }
    destruct (JSON_parse (Server.brace_cleanup (content_or_default content)))
      as [v|msg2]; cbn.
    { destruct (validate v) as [e|msg']; cbn.
      - eexists; eexists; repeat split; try reflexivity.
        rewrite <- !app_assoc; eexists; reflexivity.
      - destruct (negb (msg' =? "")%string && includes msg' "JSON"); cbn;
          eexists; eexists; repeat split; try reflexivity;
          rewrite <- !app_assoc; eexists; reflexivity. }
    destruct (jsonrepair (content_or_default content)) as [fixed|msg3]; cbn.
    { destruct (JSON_parse fixed) as [v|msg4]; cbn.
      - destruct (validate v) as [e|msg']; cbn.
        + eexists; eexists; repeat split; try reflexivity.
          rewrite <- !app_assoc; eexists; reflexivity.
        + destruct (negb (msg' =? "")%string && includes msg' "JSON"); cbn;
            eexists; eexists; repeat split; try reflexivity;
            rewrite <- !app_assoc; eexists; reflexivity.
      - eexists; eexists; repeat split; try reflexivity.
        rewrite <- !app_assoc; eexists; reflexivity. }
    eexists; eexists; repeat split; try reflexivity.
    rewrite <- !app_assoc; eexists; reflexivity.
  - destruct (negb (msg =? "")%string && includes msg "JSON"); cbn;
      eexists; eexists; repeat split; try reflexivity;
      rewrite <- !app_assoc; eexists; reflexivity.
Qed.

End EvaluationFacts.

(** ** The brace cleanup of the repair cascade *)

Lemma indexOf_from_range (c : ascii) (s : string) (i : Z) :
  (0 <= i)%Z ->
  if occurs c s then (i <= indexOf_from c s i)%Z
  else indexOf_from c s i = (-1)%Z.
Proof.
  revert i. induction s as [|a s IH]; intros i Hi; cbn; [ reflexivity | ].
  destruct (Ascii.eqb a c); cbn; [ lia | ].
  specialize (IH (i + 1)%Z ltac:(lia)).
  destruct (occurs c s); lia.
Qed.

Lemma indexOf_absent (c : ascii) (s : string) :
  indexOf s c = (-1)%Z <-> occurs c s = false.
Proof.
  unfold indexOf. pose proof (@indexOf_from_range c s 0%Z ltac:(lia)) as R.
  destruct (occurs c s); split; intros; try reflexivity; try lia; congruence.
Qed.

Lemma indexOf_from_app (c : ascii) (pre rest : string) (i : Z) :
  occurs c pre = false ->
  indexOf_from c (pre ++ String c rest) i
  = (i + Z.of_nat (String.length pre))%Z.
Proof.
  revert i. induction pre as [|a pre IH]; intros i; cbn.
  - rewrite Ascii.eqb_refl. lia.
  - destruct (Ascii.eqb a c); cbn; [ discriminate | ].
    intros Habs. rewrite IH by exact Habs. lia.
Qed.

Lemma lastIndexOf_from_absent (c : ascii) (s : string) (i last : Z) :
  occurs c s = false -> lastIndexOf_from c s i last = last.
Proof.
  revert i last. induction s as [|a s IH]; intros i last; cbn;
    [ reflexivity | ].
  destruct (Ascii.eqb a c); cbn; [ discriminate | ].
  intros Habs. now apply IH.
Qed.

Lemma lastIndexOf_from_app (c : ascii) (s1 post : string) (i last : Z) :
  occurs c post = false ->
  lastIndexOf_from c (s1 ++ String c post) i last
  = (i + Z.of_nat (String.length s1))%Z.
Proof.
  intros Habs. revert i last.
  induction s1 as [|a s1 IH]; intros i last; cbn [append lastIndexOf_from].
  - rewrite Ascii.eqb_refl, lastIndexOf_from_absent by exact Habs.
    cbn. lia.
  - rewrite IH. cbn [String.length]. lia.
Qed.

Lemma substring_skip (s1 s2 : string) :
  String.substring (String.length s1) (String.length s2) (s1 ++ s2) = s2.
Proof.
  induction s1 as [|a s1 IH]; cbn.
  - induction s2 as [|b s2 IH2]; cbn; [ reflexivity | ].
    now rewrite IH2.
  - exact IH.
Qed.

Lemma substring_take (s1 s2 : string) :
  String.substring 0 (String.length s1) (s1 ++ s2) = s1.
Proof.
  induction s1 as [|a s1 IH]; cbn.
  - destruct s2; reflexivity.
  - now rewrite IH.
Qed.

Lemma string_length_app (s1 s2 : string) :
  String.length (s1 ++ s2) = String.length s1 + String.length s2.
Proof. induction s1 as [|a s1 IH]; cbn; [ reflexivity | now rewrite IH ]. Qed.

Lemma append_assoc (s1 s2 s3 : string) :
  ((s1 ++ s2) ++ s3 = s1 ++ (s2 ++ s3))%string.
Proof. induction s1 as [|a s1 IH]; cbn; [ reflexivity | now rewrite IH ]. Qed.

Lemma append_nil_r (s : string) : (s ++ "")%string = s.
Proof. induction s as [|a s IH]; cbn; [ reflexivity | now rewrite IH ]. Qed.

(** A JSON object wrapped in prose: when no opening brace precedes the
    object and no closing brace follows it, the cleanup returns the text
    from the first opening brace to the last closing brace. *)
Lemma brace_cleanup_wrapped (pre mid post : string) :
  indexOf pre "{" = (-1)%Z ->
  indexOf post "}" = (-1)%Z ->
  Server.brace_cleanup (pre ++ "{" ++ mid ++ "}" ++ post)%string
  = ("{" ++ mid ++ "}")%string.
Proof.
  intros Hpre Hpost.
  apply indexOf_absent in Hpre. apply indexOf_absent in Hpost.
  unfold Server.brace_cleanup.
  set (inner := ("{" ++ mid ++ "}" ++ post)%string).
  assert (Hfirst : indexOf (pre ++ inner) "{"
                   = Z.of_nat (String.length pre)).
  { unfold indexOf, inner. cbn [append].
    rewrite indexOf_from_app by exact Hpre. lia. }
  rewrite Hfirst.
  assert (Hfixed :
            (if (0 <? Z.of_nat (String.length pre))%Z
             then substring_from (pre ++ inner)
                                 (Z.of_nat (String.length pre))
             else (pre ++ inner)%string) = inner).
  { destruct pre as [|a pre]; [ reflexivity | ].
    replace (0 <? Z.of_nat (String.length (String a pre)))%Z with true
      by (symmetry; apply Z.ltb_lt; cbn [String.length]; lia).
    unfold substring_from. rewrite Nat2Z.id, string_length_app.
    replace (String.length (String a pre) + String.length inner
             - String.length (String a pre))
      with (String.length inner) by lia.
    apply substring_skip. }
  rewrite Hfixed.
  assert (Hlast : lastIndexOf inner "}"
                  = Z.of_nat (String.length ("{" ++ mid)%string)).
  { unfold lastIndexOf, inner.
    change ("{" ++ mid ++ "}" ++ post)%string
      with ("{" ++ mid ++ String "}" post)%string.
    replace ("{" ++ mid ++ String "}" post)%string
      with (("{" ++ mid) ++ String "}" post)%string by reflexivity.
    rewrite lastIndexOf_from_app by exact Hpost. lia. }
  rewrite Hlast.
  assert (Hinner : inner = (("{" ++ mid ++ "}") ++ post)%string).
  { unfold inner. cbn [append]. f_equal. now rewrite append_assoc. }
  assert (L1 : String.length ("{" ++ mid)%string = S (String.length mid))
    by reflexivity.
  assert (L2 : String.length inner
               = S (String.length mid) + 1 + String.length post).
  { unfold inner. cbn [append String.length].
    rewrite string_length_app. cbn [append String.length]. lia. }
  assert (L3 : String.length ("{" ++ mid ++ "}")%string
               = S (String.length mid) + 1).
  { cbn [append String.length]. rewrite string_length_app. cbn. lia. }
  rewrite L2, L1.
  destruct post as [|b post].
  - rewrite Hinner, append_nil_r.
    replace (Z.of_nat (S (String.length mid)) <?
             Z.of_nat (S (String.length mid) + 1 + String.length "") - 1)%Z
      with false by (symmetry; apply Z.ltb_ge; cbn [String.length]; lia).
    now rewrite andb_false_r.
  - replace (0 <? Z.of_nat (S (String.length mid)))%Z with true
      by (symmetry; apply Z.ltb_lt; lia).
    replace (Z.of_nat (S (String.length mid)) <?
             Z.of_nat (S (String.length mid) + 1
                       + String.length (String b post)) - 1)%Z
      with true by (symmetry; apply Z.ltb_lt; cbn [String.length]; lia).
    cbn [andb]. unfold Js.substring.
    replace (Z.to_nat (Z.of_nat (S (String.length mid)) + 1) - Z.to_nat 0)
      with (String.length ("{" ++ mid ++ "}")%string) by lia.
    change (Z.to_nat 0) with 0.
    rewrite Hinner. apply substring_take.
Qed.

(** ** Rules for computations in [M] *)

Lemma hoare_ret {A : Type} (P : World -> Prop) (a : A) (Q : A -> World -> Prop)
      (E : World -> Prop) :
  (forall w, P w -> Q a w) -> hoare P (ret a) Q E.
Proof. intros HQ w Hw. cbn. auto. Qed.

Lemma hoare_bind {A B : Type} (P : World -> Prop) (m : M A) (k : A -> M B)
      (R : A -> World -> Prop) (Q : B -> World -> Prop) (E : World -> Prop) :
  hoare P m R E ->
  (forall a, hoare (R a) (k a) Q E) ->
  hoare P (bind m k) Q E.
Proof.
  intros Hm Hk w Hw. unfold bind.
  specialize (Hm w Hw). destruct (m w) as [[a|e] w']; [ | exact Hm ].
  apply (Hk a w' Hm).
Qed.

Lemma hoare_conseq {A : Type} (P P' : World -> Prop) (m : M A)
      (Q Q' : A -> World -> Prop) (E E' : World -> Prop) :
  hoare P' m Q' E' ->
  (forall w, P w -> P' w) ->
  (forall a w, Q' a w -> Q a w) ->
  (forall w, E' w -> E w) ->
  hoare P m Q E.
Proof.
  intros Hm HP HQ HE w Hw. specialize (Hm w (HP w Hw)).
  destruct (m w) as [[a|e] w']; auto.
Qed.

Lemma hoare_assume {A : Type} (fact : Prop) (P : World -> Prop) (m : M A)
      (Q : A -> World -> Prop) (E : World -> Prop) :
  (fact -> hoare P m Q E) -> hoare (fun w => fact /\ P w) m Q E.
Proof. intros Hm w [Hf Hw]. now apply Hm. Qed.

Lemma hoare_for_each {A S : Type} (l : list A) (body : A -> S -> M S)
      (I : S -> World -> Prop) (E : World -> Prop) :
  (forall x s, In x l -> hoare (I s) (body x s) I E) ->
  forall s, hoare (I s) (for_each l body s) I E.
Proof.
  induction l as [|x l IH]; intros Hbody s; cbn [for_each].
  - apply hoare_ret. auto.
  - apply hoare_bind with (R := I).
    + apply Hbody. now left.
    + intros s'. apply IH. intros y s'' Hy. apply Hbody. now right.
Qed.

Lemma db_det_ret {A : Type} (a : A) : db_det (ret a).
Proof. intros w1 w2 E. cbn. auto. Qed.

Lemma db_det_lift {A : Type} (r : result A) : db_det (lift r).
Proof. intros w1 w2 E. cbn. auto. Qed.

Lemma db_det_bind {A B : Type} (m : M A) (k : A -> M B) :
  db_det m -> (forall a, db_det (k a)) -> db_det (bind m k).
Proof.
  intros Hm Hk w1 w2 E. unfold bind.
  destruct (Hm w1 w2 E) as [Hr Hd].
  destruct (m w1) as [[a1|e1] w1'], (m w2) as [[a2|e2] w2'];
    cbn in Hr, Hd; try discriminate.
  - inversion Hr; subst a2. apply Hk. exact Hd.
  - inversion Hr; subst e2. cbn. auto.
Qed.

Lemma db_det_try_catch {A : Type} (m : M A) (h : string -> M A) :
  db_det m -> (forall e, db_det (h e)) -> db_det (try_catch m h).
Proof.
  intros Hm Hh w1 w2 E. unfold try_catch.
  destruct (Hm w1 w2 E) as [Hr Hd].
  destruct (m w1) as [[a1|e1] w1'], (m w2) as [[a2|e2] w2'];
    cbn in Hr, Hd; try discriminate.
  - inversion Hr; subst a2. cbn. auto.
  - inversion Hr; subst e2. apply Hh. exact Hd.
Qed.

Lemma db_det_for_each {A S : Type} (l : list A) (body : A -> S -> M S) :
  (forall x s, db_det (body x s)) -> forall s, db_det (for_each l body s).
Proof.
  intros Hbody. induction l as [|x l IH]; intros s; cbn [for_each].
  - intros w1 w2 E. cbn. auto.
  - apply db_det_bind; auto.
Qed.

(** ** The steps of the two orchestrators *)

Section StepFacts.

Context `{Providers}.

Lemma db_det_log (text : string) (args : list LogArg) : db_det (log text args).
Proof. intros w1 w2 E. cbn. auto. Qed.

Lemma db_det_log_error (text : string) (args : list LogArg) :
  db_det (log_error text args).
Proof. intros w1 w2 E. cbn. auto. Qed.

Lemma db_det_sendEvent (e : Event) : db_det (sendEvent e).
Proof. intros w1 w2 E. cbn. auto. Qed.

Lemma db_det_chat (trend : Trend) (video : Video) (topChunks : list string) :
  db_det (create_chat_completion trend video topChunks).
Proof. intros w1 w2 E. cbn. auto. Qed.

Lemma db_det_read {A : Type} (f : Database -> A) : db_det (DB.read f).
Proof. intros w1 w2 E. cbn. rewrite E. auto. Qed.

Lemma db_det_write (f : Database -> Database) : db_det (DB.write f).
Proof. intros w1 w2 E. cbn. rewrite E. auto. Qed.

(** The retrieval of the command-line variant reads the chunk store and
    writes nothing. *)
Lemma matcher_getCandidateVideos_run (trend : Trend)
      (allVideos : list Video) (w : World) :
  Matcher.getCandidateVideos trend allVideos w
  = match generateEmbedding (Matcher.extractBroaderThemes trend) with
    | Throw e => (Throw e, w)
    | Ok emb =>
        (Ok (ranked_candidates Matcher.TOP_CANDIDATES_PER_TREND emb
                               (video_chunks (db w)) allVideos), w)
    end.
Proof.
  unfold Matcher.getCandidateVideos, bind, lift, ret, DB.getAllChunks,
    DB.read, ranked_candidates.
  destruct (generateEmbedding (Matcher.extractBroaderThemes trend));
    reflexivity.
Qed.

(** The retrieval of the server variant returns the same candidates and
    writes to the console only. *)
Lemma server_getCandidateVideos_run (trend : Trend)
      (allVideos : list Video) (w : World) :
  match generateEmbedding (Server.extractBroaderThemes trend) with
  | Throw e => Server.getCandidateVideos trend allVideos w = (Throw e, w)
  | Ok emb =>
      exists w',
        Server.getCandidateVideos trend allVideos w
        = (Ok (ranked_candidates Server.TOP_CANDIDATES_PER_TREND emb
                                 (video_chunks (db w)) allVideos), w')
        /\ db w' = db w /\ frame w w' []
        /\ (video_chunks (db w) = [] ->
            exists logs,
              console w' = console w ++ logs
              /\ In (console_error
                       "ERROR: No video chunks found in database!" []) logs)
  end.
Proof.
  unfold Server.getCandidateVideos, bind, lift, ret, DB.getAllChunks,
    DB.read, ranked_candidates, log, log_error, frame.
  destruct (generateEmbedding (Server.extractBroaderThemes trend)) as [emb|e];
    [ | reflexivity ].
  cbn.
  destruct (video_chunks (db w)) as [|c chunks] eqn:Ec; cbn.
  - eexists. split; [ reflexivity | ]. cbn.
    repeat split; try (now rewrite app_nil_r).
    + rewrite <- !app_assoc. eexists; reflexivity.
    + intros _. rewrite <- !app_assoc. eexists. split; [ reflexivity | ].
      cbn. tauto.
  - match goal with
    | |- context [ if ?b then _ else _ ] => destruct b
    end; cbn;
      (eexists; split; [ reflexivity | ]; cbn;
       repeat split; try (now rewrite app_nil_r);
       [ rewrite <- !app_assoc; eexists; reflexivity | discriminate ]).
Qed.

(** [insertRecommendation] writes the row or throws, and touches nothing
    but the table. *)
Lemma insertRecommendation_run (rec : NewRecommendation) (w : World) :
  DB.insertRecommendation rec w
  = match insert_outcome rec (db w) with
    | Ok d => (Ok tt, with_db w d)
    | Throw e => (Throw e, w)
    end.
Proof.
  unfold DB.insertRecommendation, insert_outcome, bound_row, bind, lift,
    DB.read, DB.write, with_db, db_insert.
  destruct (DB.bind_parameter (new_notes rec)) as [bound|e];
    [ | reflexivity ].
  destruct (DB.not_null "titles" (new_titles rec)) as [t|e];
    [ | reflexivity ].
  destruct (DB.not_null "thumbnails" (new_thumbnails rec)) as [th|e];
    [ | reflexivity ].
  destruct (DB.not_null "notes" bound) as [n|e]; [ | reflexivity ].
  destruct (DB.references_exist _ _ (db w)); reflexivity.
Qed.

Lemma bind_insertRecommendation {A : Type} (rec : NewRecommendation)
      (k : unit -> M A) (w : World) :
  bind (DB.insertRecommendation rec) k w
  = match insert_outcome rec (db w) with
    | Ok d => k tt (with_db w d)
    | Throw e => (Throw e, w)
    end.
Proof.
  unfold bind. rewrite insertRecommendation_run.
  destruct (insert_outcome rec (db w)); reflexivity.
Qed.

(** One candidate in the command-line variant: one request to the model;
    when the body returns, one more evaluation is counted and a row has
    been written exactly when the gate accepted; the body throws exactly
    when the gate accepts and the row cannot be stored, and has then
    written nothing. *)
Lemma matcher_process_candidate_run (trend : Trend)
      (candidate : CandidateVideo) (total acc : Z) (w : World) :
  exists (e : LLMEvaluation) (w1 w' : World),
    Matcher.evaluateWithLLM
      trend (video candidate)
      (slice0 Matcher.TOP_CHUNKS_FOR_LLM (topChunks candidate)) w
    = (Ok e, w1)
    /\ db w1 = db w
    /\ match verdict_outcome
               (Matcher.accepted e)
               (insert_outcome (Matcher.make_recommendation trend candidate e)
                               (db w))
               (db w)
       with
       | Ok d =>
           Matcher.process_candidate trend candidate (total, acc) w
           = (Ok ((total + 1)%Z,
                  if Matcher.accepted e then (acc + 1)%Z else acc), w')
           /\ db w' = d
       | Throw msg =>
           Matcher.process_candidate trend candidate (total, acc) w
           = (Throw msg, w')
           /\ db w' = db w
       end
    /\ frame w w' [chat_request trend (video candidate)
                     (slice0 Matcher.TOP_CHUNKS_FOR_LLM (topChunks candidate))].
Proof.
  destruct (matcher_evaluateWithLLM_run
              trend (video candidate)
              (slice0 Matcher.TOP_CHUNKS_FOR_LLM (topChunks candidate)) w)
    as (e & w1 & Hrun & Hdb & Hframe & _).
  exists e, w1.
  assert (Hpc : forall A (k : LLMEvaluation -> M A),
             bind (Matcher.evaluateWithLLM
                     trend (video candidate)
                     (slice0 Matcher.TOP_CHUNKS_FOR_LLM (topChunks candidate)))
                  k w
             = k e w1).
  { intros A k. unfold bind. now rewrite Hrun. }
  unfold Matcher.process_candidate. rewrite !Hpc. clear Hpc.
  destruct Hframe as (Hresp & Hreq & Htopic & logs & Hcon).
  unfold verdict_outcome.
  destruct (Matcher.accepted e).
  - rewrite !bind_insertRecommendation, <- Hdb.
    destruct (insert_outcome _ (db w1)) as [d|msg].
    + eexists. split; [ exact Hrun | ]. split; [ reflexivity | ].
      split; [ split; reflexivity | ].
      cbn. repeat split; try assumption.
      rewrite Hcon, <- !app_assoc. eexists; reflexivity.
    + exists w1. split; [ exact Hrun | ]. split; [ reflexivity | ].
      split; [ split; reflexivity | ].
      repeat split; try assumption. eexists; eassumption.
  - eexists. split; [ exact Hrun | ]. split; [ exact Hdb | ].
    split; [ split; [ reflexivity | exact Hdb ] | ].
    cbn. repeat split; try assumption.
    rewrite Hcon, <- !app_assoc. eexists; reflexivity.
Qed.

(** One candidate in the server variant; the event of the verdict is
    written when the body returns. *)
Lemma server_process_candidate_run (trend : Trend)
      (candidate : CandidateVideo) (total acc : Z)
      (matched : list MatchResult) (w : World) :
  exists (e : LLMEvaluation) (w1 w' : World),
    Server.evaluateWithLLM
      trend (video candidate)
      (slice0 Server.TOP_CHUNKS_FOR_LLM (topChunks candidate)) w
    = (Ok e, w1)
    /\ db w1 = db w
    /\ match verdict_outcome
               (Server.accepted e)
               (insert_outcome (Server.make_recommendation trend candidate e)
                               (db w))
               (db w)
       with
       | Ok d =>
           Server.process_candidate trend candidate (total, acc, matched) w
           = (Ok ((total + 1)%Z,
                  (if Server.accepted e then (acc + 1)%Z else acc),
                  (if Server.accepted e
                   then matched ++ [Server.make_result trend candidate e]
                   else matched)), w')
           /\ db w' = d
           /\ response w'
              = response w ++
                [if Server.accepted e
                 then EvAccepted (title_current (video candidate))
                                 (semantic_relevance e, intro_support e,
                                  honesty_risk e)
                 else EvRejected (title_current (video candidate))]
       | Throw msg =>
           Server.process_candidate trend candidate (total, acc, matched) w
           = (Throw msg, w')
           /\ db w' = db w
           /\ response w' = response w
       end
    /\ chat_requests w'
       = chat_requests w ++
         [chat_request trend (video candidate)
            (slice0 Server.TOP_CHUNKS_FOR_LLM (topChunks candidate))]
    /\ topic_requests w' = topic_requests w
    /\ exists logs, console w' = console w ++ logs.
Proof.
  destruct (server_evaluateWithLLM_run
              trend (video candidate)
              (slice0 Server.TOP_CHUNKS_FOR_LLM (topChunks candidate)) w)
    as (e & w1 & Hrun & Hdb & Hframe & _).
  exists e, w1.
  assert (Hpc : forall A (k : LLMEvaluation -> M A),
             bind (Server.evaluateWithLLM
                     trend (video candidate)
                     (slice0 Server.TOP_CHUNKS_FOR_LLM (topChunks candidate)))
                  k w
             = k e w1).
  { intros A k. unfold bind. now rewrite Hrun. }
  unfold Server.process_candidate. rewrite !Hpc. clear Hpc.
  destruct Hframe as (Hresp & Hreq & Htopic & logs & Hcon).
  unfold verdict_outcome.
  destruct (Server.accepted e).
  - rewrite !bind_insertRecommendation, <- Hdb.
    destruct (insert_outcome _ (db w1)) as [d|msg].
    + eexists. split; [ exact Hrun | ]. split; [ reflexivity | ].
      split; [ split; [ reflexivity | split; [ reflexivity | ] ] | ].
      * cbn. now rewrite Hresp.
      * cbn. repeat split; try assumption. eexists; eassumption.
    + exists w1. split; [ exact Hrun | ]. split; [ reflexivity | ].
      split; [ split; [ reflexivity | split; [ reflexivity | assumption ] ] | ].
      repeat split; try assumption. eexists; eassumption.
  - eexists. split; [ exact Hrun | ]. split; [ exact Hdb | ].
    split; [ split; [ reflexivity | split; [ exact Hdb | ] ] | ].
    + cbn. now rewrite Hresp.
    + cbn. repeat split; try assumption. eexists; eassumption.
Qed.

End StepFacts.

(** ** The ranking *)

Section RankingFacts.

Context `{Providers}.

Lemma NoDup_firstn {A : Type} (n : nat) (l : list A) :
  NoDup l -> NoDup (firstn n l).
Proof.
  intros Hl. revert n.
  induction Hl as [|x l Hx Hl IH]; intros [|n]; cbn; try constructor.
  - intros Hin. apply Hx. eapply In_firstn_list. exact Hin.
  - apply IH.
Qed.

Lemma ranked_candidates_unfold (n : nat) (emb : Embedding)
      (allChunks : list VideoChunk) (allVideos : list Video) :
  ranked_candidates n emb allChunks allVideos
  = firstn n (Js.sort (fun a b => avgSimilarity b - avgSimilarity a)%Q
                      (build_candidates
                         allVideos
                         (aggregate (map (score_chunk emb) allChunks)))).
Proof.
  unfold ranked_candidates, slice0, sort_candidates.
  now rewrite score_chunks_map.
Qed.

Lemma ranked_candidates_nil (n : nat) (emb : Embedding)
      (allVideos : list Video) :
  ranked_candidates n emb [] allVideos = [].
Proof. rewrite ranked_candidates_unfold. cbn. apply firstn_nil. Qed.

(** A candidate of the ranking: its video is known, and its score and
    its excerpts are computed from the chunks of that video alone. *)
Lemma ranked_candidate_spec (n : nat) (emb : Embedding)
      (allChunks : list VideoChunk) (allVideos : list Video)
      (c : CandidateVideo) :
  In c (ranked_candidates n emb allChunks allVideos) ->
  let mine := chunks_of (video_id (video c)) (map (score_chunk emb) allChunks)
  in
  In (video c) allVideos
  /\ mine <> []
  /\ avgSimilarity c = average (map similarity mine)
  /\ topChunks c
     = map text (firstn 5 (Js.sort (fun a b => score b - score a)%Q
                                   (map scored mine))).
Proof.
  rewrite ranked_candidates_unfold. intros Hin mine.
  apply In_firstn_list in Hin. rewrite sort_In in Hin.
  apply In_build_candidates in Hin. destruct Hin as (k & Hk & Hc).
  apply candidate_of_video in Hc. destruct Hc as (Hv & Hid & Havg & Htop).
  subst mine. rewrite Hid.
  split; [ exact Hv | ]. split; [ | split; assumption ].
  apply in_map_iff in Hk. destruct Hk as (s & Es & Hs).
  assert (In s (chunks_of k (map (score_chunk emb) allChunks))) as Hin.
  { unfold chunks_of. apply filter_In. split; [ exact Hs | ].
    rewrite Es. apply String.eqb_refl. }
  intros E. rewrite E in Hin. destruct Hin.
Qed.

(** A video of the table that owns a chunk is among the candidates
    unless [n] candidates with at least its average are. *)
Lemma ranked_candidates_top (n : nat) (emb : Embedding)
      (allChunks : list VideoChunk) (allVideos : list Video) (v : Video) :
  let scoredChunks := map (score_chunk emb) allChunks in
  let candidates := ranked_candidates n emb allChunks allVideos in
  In v allVideos ->
  chunks_of (video_id v) scoredChunks <> [] ->
  (exists c, In c candidates /\ video_id (video c) = video_id v)
  \/ (length candidates = n
      /\ forall c, In c candidates ->
                   (average (map similarity
                                 (chunks_of (video_id v) scoredChunks))
                    <= avgSimilarity c)%Q).
Proof.
  intros scoredChunks candidates Hv Hne.
  subst candidates. rewrite ranked_candidates_unfold. fold scoredChunks.
  set (all := build_candidates allVideos (aggregate scoredChunks)).
  set (sorted := Js.sort (fun a b => avgSimilarity b - avgSimilarity a)%Q all).
  assert (exists c0, In c0 all /\ video_id (video c0) = video_id v
                     /\ avgSimilarity c0
                        = average (map similarity
                                       (chunks_of (video_id v) scoredChunks)))
    as (c0 & Hc0 & Hid0 & Havg0).
  { destruct (find (fun v' => String.eqb (video_id v') (video_id v)) allVideos)
      as [v'|] eqn:F.
    2:{ exfalso. pose proof (find_none _ _ F v Hv) as Hf. cbn in Hf.
        now rewrite String.eqb_refl in Hf. }
    eexists. split; [ | split ].
    - apply In_build_candidates. exists (video_id v). split.
      + destruct (chunks_of (video_id v) scoredChunks) as [|s l] eqn:E;
          [ congruence | ].
        assert (In s (chunks_of (video_id v) scoredChunks)) as Hs
            by (rewrite E; now left).
        unfold chunks_of in Hs. apply filter_In in Hs.
        destruct Hs as [Hs Hk]. apply String.eqb_eq in Hk.
        rewrite <- Hk. now apply in_map.
      + unfold candidate_of. rewrite F. reflexivity.
    - cbn. apply find_some in F. destruct F as [_ F].
      now apply String.eqb_eq in F.
    - reflexivity. }
  assert (In c0 (firstn n sorted ++ skipn n sorted)) as Hsplit.
  { rewrite firstn_skipn. unfold sorted. now apply sort_In. }
  apply in_app_or in Hsplit. destruct Hsplit as [Hin|Hout].
  - left. exists c0. auto.
  - right. split.
    + rewrite length_firstn. apply Nat.min_l.
      destruct (Nat.le_gt_cases n (length sorted)) as [L|G]; [ exact L | ].
      rewrite skipn_all2 in Hout by lia. destruct Hout.
    + intros c Hc. rewrite <- Havg0.
      apply (firstn_descending_top (key := avgSimilarity) n
               (l := sorted)); try assumption.
      apply sort_descending.
Qed.

End RankingFacts.

(** ** Silent steps *)

Lemma grows_refl (w : World) : grows w w.
Proof. split; exists []; now rewrite app_nil_r. Qed.

Lemma grows_trans (w1 w2 w3 : World) :
  grows w1 w2 -> grows w2 w3 -> grows w1 w3.
Proof.
  intros [[e1 E1] [l1 L1]] [[e2 E2] [l2 L2]]. split.
  - exists (e1 ++ e2). rewrite E2, E1. now rewrite app_assoc.
  - exists (l1 ++ l2). rewrite L2, L1. now rewrite app_assoc.
Qed.

Lemma silent_ret {A : Type} (a : A) : silent (ret a).
Proof. intros w. cbn. auto using grows_refl. Qed.

Lemma silent_lift {A : Type} (r : result A) : silent (lift r).
Proof. intros w. cbn. auto using grows_refl. Qed.

Lemma silent_log (text : string) (args : list LogArg) :
  silent (log text args).
Proof.
  intros w. cbn. repeat split; [ exists []; now rewrite app_nil_r | ].
  eexists; reflexivity.
Qed.

Lemma silent_log_error (text : string) (args : list LogArg) :
  silent (log_error text args).
Proof.
  intros w. cbn. repeat split; [ exists []; now rewrite app_nil_r | ].
  eexists; reflexivity.
Qed.

Lemma silent_log_warn (text : string) (args : list LogArg) :
  silent (log_warn text args).
Proof.
  intros w. cbn. repeat split; [ exists []; now rewrite app_nil_r | ].
  eexists; reflexivity.
Qed.

Lemma silent_sendEvent (e : Event) : silent (sendEvent e).
Proof.
  intros w. cbn. repeat split; [ eexists; reflexivity | ].
  exists []; now rewrite app_nil_r.
Qed.

Lemma silent_read {A : Type} (f : Database -> A) : silent (DB.read f).
Proof. intros w. cbn. auto using grows_refl. Qed.

Lemma silent_bind {A B : Type} (m : M A) (k : A -> M B) :
  silent m -> (forall a, silent (k a)) -> silent (bind m k).
Proof.
  intros Hm Hk w. unfold bind.
  destruct (Hm w) as (D & R & G).
  destruct (m w) as [[a|e] w1]; cbn in *; [ | tauto ].
  destruct (Hk a w1) as (D' & R' & G').
  split; [ congruence | ]. split; [ congruence | ].
  eapply grows_trans; eassumption.
Qed.

Lemma silent_try_catch {A : Type} (m : M A) (h : string -> M A) :
  silent m -> (forall e, silent (h e)) -> silent (try_catch m h).
Proof.
  intros Hm Hh w. unfold try_catch.
  destruct (Hm w) as (D & R & G).
  destruct (m w) as [[a|e] w1]; cbn in *; [ tauto | ].
  destruct (Hh e w1) as (D' & R' & G').
  split; [ congruence | ]. split; [ congruence | ].
  eapply grows_trans; eassumption.
Qed.

Lemma hoare_silent {A : Type} (P : World -> Prop) (m : M A) :
  silent m -> stable P -> hoare P m (fun _ => P) P.
Proof.
  intros Hm HP w Hw. destruct (Hm w) as (D & R & G).
  destruct (m w) as [[a|e] w']; cbn in *; eapply HP; eassumption.
Qed.

Lemma hoare_silent_weak {A : Type} (P E : World -> Prop) (m : M A) :
  silent m -> stable P -> (forall w, P w -> E w) ->
  hoare P m (fun _ => P) E.
Proof.
  intros Hm HP HE w Hw. destruct (Hm w) as (D & R & G).
  destruct (m w) as [[a|e] w']; cbn in *; [ | apply HE ];
    eapply HP; eassumption.
Qed.

(** A silent step whose result is known to satisfy [R]. *)
Lemma hoare_silent_result {A : Type} (P : World -> Prop) (m : M A)
      (R : A -> Prop) :
  silent m -> stable P ->
  (forall w a, P w -> fst (m w) = Ok a -> R a) ->
  hoare P m (fun a w => R a /\ P w) P.
Proof.
  intros Hm HP HR w Hw. destruct (Hm w) as (D & Rq & G).
  specialize (HR w).
  destruct (m w) as [[a|e] w']; cbn in *.
  - split; [ now apply HR | eapply HP; eassumption ].
  - eapply HP; eassumption.
Qed.

Lemma stable_counters_ok (w0 : World) (total acc : Z) :
  stable (counters_ok w0 total acc).
Proof.
  intros w w' (Hc & Hn & [reqs Hr] & Hg) _ Hreq Hgrow.
  repeat split; try (apply Hc).
  - now rewrite Hreq.
  - exists reqs. now rewrite Hreq.
  - apply (grows_trans Hg Hgrow).
  - apply (grows_trans Hg Hgrow).
Qed.

Lemma with_console_nil (w : World) : with_console w [] = w.
Proof. destruct w. unfold with_console. cbn. now rewrite app_nil_r. Qed.

Lemma with_console_app (w : World) (l1 l2 : list LogLine) :
  with_console (with_console w l1) l2 = with_console w (l1 ++ l2).
Proof. unfold with_console. cbn. now rewrite app_assoc. Qed.

Lemma console_only_ret {A : Type} (a : A) : console_only (ret a).
Proof. intros w. exists []. cbn. now rewrite with_console_nil. Qed.

Lemma console_only_lift {A : Type} (r : result A) : console_only (lift r).
Proof. intros w. exists []. cbn. now rewrite with_console_nil. Qed.

Lemma console_only_log (text : string) (args : list LogArg) :
  console_only (log text args).
Proof. intros w. eexists. reflexivity. Qed.

Lemma console_only_log_error (text : string) (args : list LogArg) :
  console_only (log_error text args).
Proof. intros w. eexists. reflexivity. Qed.

Lemma console_only_log_warn (text : string) (args : list LogArg) :
  console_only (log_warn text args).
Proof. intros w. eexists. reflexivity. Qed.

Lemma console_only_bind {A B : Type} (m : M A) (k : A -> M B) :
  console_only m -> (forall a, console_only (k a)) ->
  console_only (bind m k).
Proof.
  intros Hm Hk w. unfold bind. destruct (Hm w) as [l1 H1].
  destruct (m w) as [[a|e] w1]; cbn [snd] in *; [ | eauto ].
  destruct (Hk a w1) as [l2 H2]. exists (l1 ++ l2).
  now rewrite H2, H1, with_console_app.
Qed.

(** The steps of a computation that is built from [bind], case
    distinctions and steps that [base] knows. *)
Ltac lookup_steps bind_lemma base :=
  repeat first
    [ apply bind_lemma; [ | intro ]
    | solve [ base ]
    | match goal with
      | |- context [ match ?x with _ => _ end ] => destruct x
      end ].

Section SilentSteps.

Context `{Providers}.

Lemma silent_matcher_getCandidateVideos (trend : Trend)
      (allVideos : list Video) :
  silent (Matcher.getCandidateVideos trend allVideos).
Proof.
  intros w. rewrite matcher_getCandidateVideos_run.
  destruct (generateEmbedding _); cbn; auto using grows_refl.
Qed.

Lemma silent_server_getCandidateVideos (trend : Trend)
      (allVideos : list Video) :
  silent (Server.getCandidateVideos trend allVideos).
Proof.
  intros w. pose proof (server_getCandidateVideos_run trend allVideos w) as R.
  destruct (generateEmbedding _).
  - destruct R as (w' & -> & D & (Hr & Hq & _ & Hl) & _). cbn.
    rewrite app_nil_r in Hq.
    repeat split; auto. exists []. now rewrite app_nil_r.
  - rewrite R. cbn. auto using grows_refl.
Qed.

Lemma silent_topic_completion (trendTitle : string) :
  silent (create_topic_completion trendTitle).
Proof. intros w. cbn. repeat split; exists []; now rewrite app_nil_r. Qed.

Lemma silent_extractMainTopicWithAI (trendTitle openaiKey : string) :
  silent (YouTube.extractMainTopicWithAI trendTitle openaiKey).
Proof.
  unfold YouTube.extractMainTopicWithAI.
  apply silent_try_catch.
  - apply silent_bind; [ apply silent_lift | intros _ ].
    apply silent_bind; [ apply silent_topic_completion | intros c ].
    apply silent_ret.
  - intros e.
    apply silent_bind; [ apply silent_log_error | intros _ ].
    apply silent_ret.
Qed.

Lemma silent_getYouTubeTitleSuggestions (query youtubeApiKey
                                         openaiApiKey : string)
      (maxResults : nat) :
  silent (YouTube.getYouTubeTitleSuggestions query youtubeApiKey
                                             openaiApiKey maxResults).
Proof.
  unfold YouTube.getYouTubeTitleSuggestions.
  apply silent_try_catch.
  - destruct (_ || _).
    + apply silent_bind; [ apply silent_log_warn | intros _ ].
      apply silent_ret.
    + apply silent_bind;
        [ apply silent_extractMainTopicWithAI | intros searchQuery ].
      lookup_steps @silent_bind
        ltac:(first [ apply silent_log | apply silent_log_error
                    | apply silent_log_warn | apply silent_lift
                    | apply silent_ret ]).
  - intros e.
    apply silent_bind; [ apply silent_log_error | intros _ ].
    apply silent_ret.
Qed.

(** The model is asked for a search query once at most, and the query
    is returned whether the model answers or not. *)
Lemma extractMainTopicWithAI_run (trendTitle openaiKey : string)
      (w : World) :
  exists (searchQuery : string) (logs : list LogLine)
         (topics : list string),
    YouTube.extractMainTopicWithAI trendTitle openaiKey w
    = (Ok searchQuery,
       {| db := db w;
          console := console w ++ logs;
          response := response w;
          chat_requests := chat_requests w;
          topic_requests := topic_requests w ++ topics |})
    /\ (topics = [] \/ topics = [trendTitle]).
Proof.
  unfold YouTube.extractMainTopicWithAI, try_catch, bind, lift,
    create_topic_completion, log_error, ret.
  destruct (openai_client openaiKey) as [[]|e0]; cbn.
  - destruct (topic_completion trendTitle) as [c|e1]; cbn.
    + eexists; exists []; exists [trendTitle].
      rewrite (app_nil_r (console w)). auto.
    + eexists; eexists; exists [trendTitle]. auto.
  - eexists; eexists; exists [].
    rewrite (app_nil_r (topic_requests w)). auto.
Qed.

Lemma silent_fetch_youtube (trend : Trend) :
  silent (Server.fetch_youtube trend).
Proof.
  unfold Server.fetch_youtube.
  apply silent_bind; [ apply silent_sendEvent | intros _ ].
  apply silent_try_catch.
  - apply silent_bind;
      [ apply silent_getYouTubeTitleSuggestions | intros ys ].
    apply silent_bind; [ | intros _; apply silent_ret ].
    destruct (0 <? length ys); apply silent_sendEvent.
  - intros e.
    apply silent_bind; [ apply silent_log_error | intros _ ].
    apply silent_bind; [ apply silent_sendEvent | intros _ ].
    apply silent_ret.
Qed.

(** The lookup never throws.  It writes to the console, and it asks the
    model for at most one search query: for none when no key of the
    YouTube Data API is configured. *)
Lemma getYouTubeTitleSuggestions_run (query youtubeApiKey
                                      openaiApiKey : string)
      (maxResults : nat) (w : World) :
  exists (ys : list YouTubeVideoSuggestion) (w' : World)
         (logs : list LogLine) (topics : list string),
    YouTube.getYouTubeTitleSuggestions query youtubeApiKey openaiApiKey
                                       maxResults w
    = (Ok ys, w')
    /\ w' = {| db := db w;
               console := console w ++ logs;
               response := response w;
               chat_requests := chat_requests w;
               topic_requests := topic_requests w ++ topics |}
    /\ (topics = [] \/ topics = [query])
    /\ (youtubeApiKey = "" \/ youtubeApiKey = "your_youtube_api_key_here"
        -> topics = [] /\ ys = []).
Proof.
  unfold YouTube.getYouTubeTitleSuggestions.
  destruct (String.eqb youtubeApiKey ""
            || String.eqb youtubeApiKey "your_youtube_api_key_here")
    eqn:Ekey.
  - cbn. eexists; eexists; eexists; exists []. split; [ reflexivity | ].
    rewrite (app_nil_r (topic_requests w)).
    split; [ reflexivity | auto ].
  - assert (Hkey : ~ (youtubeApiKey = ""
                      \/ youtubeApiKey = "your_youtube_api_key_here")).
    { apply orb_false_iff in Ekey. destruct Ekey as [E1 E2].
      apply String.eqb_neq in E1, E2. tauto. }
    unfold try_catch at 1. unfold bind at 1.
    destruct (extractMainTopicWithAI_run query openaiApiKey w)
      as (searchQuery & logs1 & topics & Hrun & Hc).
    rewrite Hrun.
    match goal with
    | |- context [ match ?rest ?w1 with _ => _ end ] =>
        assert (Hk : console_only rest);
        [ | destruct (Hk w1) as [logs2 H2];
            destruct (rest w1) as [[ys|e] w2]; cbn [snd] in H2; subst w2 ]
    end.
    { lookup_steps @console_only_bind
        ltac:(first [ apply console_only_log | apply console_only_log_error
                    | apply console_only_log_warn | apply console_only_lift
                    | apply console_only_ret ]). }
    + exists ys. eexists. exists (logs1 ++ logs2), topics.
      split; [ reflexivity | ].
      unfold with_console. cbn. rewrite <- app_assoc.
      split; [ reflexivity | ]. split; [ exact Hc | tauto ].
    + cbn. eexists. eexists. eexists. exists topics.
      split; [ reflexivity | ].
      rewrite <- !app_assoc.
      split; [ reflexivity | ]. split; [ exact Hc | tauto ].
Qed.

(** The lookup of a trend in the handler: the event that announces it
    and the event of its outcome, which is never that of an error. *)
Lemma fetch_youtube_run (trend : Trend) (w : World) :
  exists (ys : list YouTubeVideoSuggestion) (logs : list LogLine)
         (topics : list string),
    Server.fetch_youtube trend w
    = (Ok ys,
       {| db := db w;
          console := console w ++ logs;
          response := response w
                      ++ [EvYoutube YtFetching;
                          EvYoutube (if 0 <? length ys
                                     then YtFound (length ys)
                                     else YtUnavailable)];
          chat_requests := chat_requests w;
          topic_requests := topic_requests w ++ topics |})
    /\ (topics = [] \/ topics = [title trend])
    /\ (YOUTUBE_API_KEY = "" \/ YOUTUBE_API_KEY = "your_youtube_api_key_here"
        -> topics = [] /\ ys = []).
Proof.
  unfold Server.fetch_youtube, try_catch.
  unfold bind at 1. cbn [sendEvent].
  unfold bind at 1.
  match goal with
  | |- context [ YouTube.getYouTubeTitleSuggestions ?q ?a ?b ?n ?w0 ] =>
      destruct (getYouTubeTitleSuggestions_run q a b n w0)
        as (ys & w' & logs & topics & Hrun & -> & Htopics & Hkey);
      rewrite Hrun
  end.
  exists ys, logs, topics. split; [ | auto ].
  unfold bind, sendEvent, ret. cbn.
  destruct (length ys); cbn; rewrite <- !app_assoc; reflexivity.
Qed.

End SilentSteps.

(** ** The counters of a run *)

Section CounterFacts.

Context `{Providers}.

Ltac solve_grows :=
  let w := fresh "w" in
  let Hw := fresh "Hw" in
  intros w Hw; apply Hw.

Lemma counters_after_request (w0 w w' : World) (total acc acc' : Z)
      (req : ChatRequest) :
  counters_ok w0 total acc w ->
  chat_requests w' = chat_requests w ++ [req] ->
  grows w w' ->
  (acc <= acc' <= acc + 1)%Z ->
  counters_ok w0 (total + 1) acc' w'.
Proof.
  intros (Hc & Hn & [reqs Hr] & Hg) Hreq Hgrow Hacc.
  split; [ lia | ]. split; [ | split ].
  - rewrite Hreq, length_app. cbn [length]. lia.
  - exists (reqs ++ [req]). rewrite Hreq, Hr. now rewrite app_assoc.
  - eapply grows_trans; eassumption.
Qed.

Lemma matcher_process_candidate_counters (w0 : World) (trend : Trend)
      (candidate : CandidateVideo) (c : Z * Z) :
  hoare (counters_inv w0 c) (Matcher.process_candidate trend candidate c)
        (counters_inv w0) (grows w0).
Proof.
  destruct c as [total acc]. intros w Hw.
  destruct (matcher_process_candidate_run trend candidate total acc w)
    as (e & w1 & w' & _ & _ & Hm & Hresp & Hreq & _ & Hlogs).
  assert (Hg : grows w w').
  { split; [ exists []; now rewrite app_nil_r | exact Hlogs ]. }
  destruct (verdict_outcome _ _ _) as [d|msg]; destruct Hm as [Hrun _];
    rewrite Hrun.
  - unfold counters_inv in *. cbn [fst snd] in *.
    eapply counters_after_request; try eassumption.
    destruct (Matcher.accepted e); lia.
  - destruct Hw as (_ & _ & _ & Hg0). eapply grows_trans; eassumption.
Qed.

Lemma server_process_candidate_counters (w0 : World) (trend : Trend)
      (candidate : CandidateVideo) (c : Z * Z * list MatchResult) :
  hoare (counters_inv3 w0 c) (Server.process_candidate trend candidate c)
        (counters_inv3 w0) (grows w0).
Proof.
  destruct c as [[total acc] matched]. intros w Hw.
  destruct (server_process_candidate_run trend candidate total acc matched w)
    as (e & w1 & w' & _ & _ & Hm & Hreq & _ & Hlogs).
  destruct (verdict_outcome _ _ _) as [d|msg];
    destruct Hm as (Hrun & _ & Hresp); rewrite Hrun.
  - unfold counters_inv3 in *. cbn [fst snd] in *.
    eapply counters_after_request; try eassumption.
    + split; [ eexists; eassumption | exact Hlogs ].
    + destruct (Server.accepted e); lia.
  - destruct Hw as (_ & _ & _ & Hg0). eapply grows_trans; [ exact Hg0 | ].
    split; [ exists []; now rewrite app_nil_r | exact Hlogs ].
Qed.

Lemma matcher_process_trend_counters (w0 : World) (videos : list Video)
      (trend : Trend) (c : Z * Z) :
  hoare (counters_inv w0 c) (Matcher.process_trend videos trend c)
        (counters_inv w0) (grows w0).
Proof.
  unfold Matcher.process_trend.
  apply hoare_bind with (R := fun _ => counters_inv w0 c).
  { apply hoare_silent_weak;
      [ apply silent_log | apply stable_counters_ok | solve_grows ]. }
  intros _.
  apply hoare_bind with (R := fun _ => counters_inv w0 c).
  { apply hoare_silent_weak;
      [ apply silent_matcher_getCandidateVideos | apply stable_counters_ok | solve_grows ]. }
  intros candidates.
  apply hoare_bind with (R := fun _ => counters_inv w0 c).
  { apply hoare_silent_weak;
      [ apply silent_log | apply stable_counters_ok | solve_grows ]. }
  intros _.
  apply hoare_bind with (R := counters_inv w0).
  { apply hoare_for_each with (I := counters_inv w0) (E := grows w0).
    intros x s _. apply matcher_process_candidate_counters. }
  intros c'.
  apply hoare_bind with (R := fun _ => counters_inv w0 c').
  { apply hoare_silent_weak;
      [ apply silent_log | apply stable_counters_ok | solve_grows ]. }
  intros _. apply hoare_ret. auto.
Qed.

Lemma server_process_trend_counters (w0 : World) (allVideos : list Video)
      (trendId : string) (st : Server.Counters) :
  hoare (counters_inv_server w0 st) (Server.process_trend allVideos trendId st)
        (counters_inv_server w0) (grows w0).
Proof.
  unfold Server.process_trend.
  apply hoare_bind with (R := fun _ => counters_inv_server w0 st).
  { apply hoare_silent_weak;
      [ apply silent_read | apply stable_counters_ok | solve_grows ]. }
  intros [trend|]; [ | apply hoare_ret; auto ].
  apply hoare_bind with (R := fun _ => counters_inv_server w0 st).
  { apply hoare_silent_weak;
      [ apply silent_sendEvent | apply stable_counters_ok | solve_grows ]. }
  intros _.
  apply hoare_bind with (R := fun _ => counters_inv_server w0 st).
  { apply hoare_silent_weak;
      [ apply silent_fetch_youtube | apply stable_counters_ok | solve_grows ]. }
  intros youtubeSuggestions.
  apply hoare_bind with (R := fun _ => counters_inv_server w0 st).
  { apply hoare_silent_weak;
      [ apply silent_server_getCandidateVideos | apply stable_counters_ok | solve_grows ]. }
  intros candidates.
  apply hoare_bind with (R := fun _ => counters_inv_server w0 st).
  { apply hoare_silent_weak;
      [ apply silent_sendEvent | apply stable_counters_ok | solve_grows ]. }
  intros _.
  apply hoare_bind with (R := counters_inv3 w0).
  { change (counters_inv_server w0 st)
      with (counters_inv3 w0 (Server.totalEvaluations st,
                              Server.acceptedCount st,
                              @nil MatchResult)).
    apply hoare_for_each with (I := counters_inv3 w0) (E := grows w0).
    intros x s _. apply server_process_candidate_counters. }
  intros [[total acc] matched].
  apply hoare_ret. auto.
Qed.

End CounterFacts.

(** ** The summary of a run *)

Section SummaryFacts.

Context `{Providers}.

Lemma hoare_read {A : Type} (P E : World -> Prop) (f : Database -> A) :
  hoare P (DB.read f) (fun a w => a = f (db w) /\ P w) E.
Proof. intros w Hw. cbn. auto. Qed.

Lemma counters_ok_start (w0 : World) : counters_ok w0 0 0 w0.
Proof.
  split; [ lia | ]. split; [ lia | ]. split.
  - exists []. now rewrite app_nil_r.
  - apply grows_refl.
Qed.

Lemma sort_nil_inv {A : Type} (cmp : A -> A -> Q) (l : list A) :
  length (Js.sort cmp l) = 0 -> l = [].
Proof.
  rewrite sort_length. destruct l; [ reflexivity | discriminate ].
Qed.

(** The command-line matcher: a run that gets past the two early
    returns and is not aborted ends its console output with the summary,
    whose numbers obey the counter invariant. *)
Lemma matcher_summary (w0 : World) :
  match Matcher.matchTrendsToVideos w0 with
  | (Ok _, w') =>
      (trends (db w0) = [] \/ videos (db w0) = [])
      \/ exists logs total acc,
          console w' = console w0 ++ logs
                       ++ summary_lines total acc (total - acc)
          /\ (0 <= acc <= total)%Z
          /\ Z.of_nat (length (chat_requests w'))
             = (Z.of_nat (length (chat_requests w0)) + total)%Z
  | (Throw _, _) => True
  end.
Proof.
  set (P := fun w => counters_ok w0 0 0 w /\ db w = db w0).
  assert (HP : stable P).
  { intros w w' [Hc Hd] D R G. split.
    - eapply stable_counters_ok; eassumption.
    - congruence. }
  set (Q := fun w' =>
              (trends (db w0) = [] \/ videos (db w0) = [])
              \/ exists logs total acc,
                  console w' = console w0 ++ logs
                               ++ summary_lines total acc (total - acc)
                  /\ (0 <= acc <= total)%Z
                  /\ Z.of_nat (length (chat_requests w'))
                     = (Z.of_nat (length (chat_requests w0)) + total)%Z).
  enough (Hh : hoare P Matcher.matchTrendsToVideos (fun _ => Q)
                     (fun _ => True)).
  { specialize (Hh w0 (conj (counters_ok_start w0) eq_refl)).
    destruct (Matcher.matchTrendsToVideos w0) as [[u|e] w']; auto. }
  unfold Matcher.matchTrendsToVideos.
  apply hoare_bind with (R := fun _ => P).
  { apply hoare_silent_weak; [ apply silent_log | exact HP | auto ]. }
  intros _.
  apply hoare_bind with (R := fun _ => P).
  { apply hoare_silent_weak; [ apply silent_log | exact HP | auto ]. }
  intros _.
  apply hoare_bind
    with (R := fun a w => a = Js.sort
                               (fun a b => if String.leb (created_at b)
                                                         (created_at a)
                                           then 0%Q else 1%Q)
                               (trends (db w)) /\ P w).
  { apply hoare_read. }
  intros trends_.
  apply hoare_bind
    with (R := fun a w => (a = videos (db w)
                           /\ trends_ = Js.sort
                                (fun a b => if String.leb (created_at b)
                                                          (created_at a)
                                            then 0%Q else 1%Q)
                                (trends (db w))) /\ P w).
  { eapply hoare_conseq;
      [ apply (hoare_read
                 (fun w => trends_ = Js.sort
                              (fun a b => if String.leb (created_at b)
                                                        (created_at a)
                                          then 0%Q else 1%Q)
                              (trends (db w)) /\ P w)
                 (fun _ => True) videos)
      | auto | | auto ].
    cbn. intros a w (Ha & Ht & Hw). auto. }
  intros videos_.
  destruct (Nat.eqb_spec (length trends_) 0) as [Et|Nt].
  { intros w ((Hv & Ht) & Hc & Hd). cbn. left. left.
    rewrite <- Hd. rewrite Ht in Et. now apply sort_nil_inv in Et. }
  destruct (Nat.eqb_spec (length videos_) 0) as [Ev|Nv].
  { intros w ((Hv & Ht) & Hc & Hd). cbn. left. right.
    rewrite <- Hd, <- Hv. destruct videos_; [ reflexivity | discriminate ]. }
  apply hoare_bind with (R := fun _ w => counters_ok w0 0 0 w).
  { intros w (_ & Hc & _). cbn.
    eapply stable_counters_ok; [ exact Hc | reflexivity | reflexivity | ].
    split; [ exists []; now rewrite app_nil_r | eexists; reflexivity ]. }
  intros _.
  apply hoare_bind with (R := fun _ w => counters_ok w0 0 0 w).
  { intros w Hc. exact Hc. }
  intros _.
  apply hoare_bind with (R := counters_inv w0).
  { eapply hoare_conseq;
      [ apply hoare_for_each with (I := counters_inv w0) (E := grows w0)
      | | | ].
    - intros trend c _. apply matcher_process_trend_counters.
    - intros w Hw. exact Hw.
    - auto.
    - auto. }
  intros [total acc] w (Hc & Hn & _ & _ & [logs Hl]). cbn.
  right. exists logs, total, acc. cbn [fst snd] in *.
  split; [ | split; assumption ].
  rewrite Hl. unfold summary_lines. rewrite <- !app_assoc. reflexivity.
Qed.

(** The handler of the server ends its response with one of three
    events: the answer 400 when no trend is selected, an error event when
    the run is aborted, and otherwise the summary, whose numbers obey the
    counter invariant.  It never throws. *)
Lemma server_summary (trendIds : option (list string)) (w0 : World) :
  exists w' evs last,
    Server.match_selected trendIds w0 = (Ok tt, w')
    /\ response w' = response w0 ++ evs ++ [last]
    /\ match last with
       | EvComplete total acc rejected _ =>
           rejected = (total - acc)%Z
           /\ (0 <= acc <= total)%Z
           /\ Z.of_nat (length (chat_requests w'))
              = (Z.of_nat (length (chat_requests w0)) + total)%Z
       | EvError _ => True
       | Status400 _ => trendIds = None \/ trendIds = Some []
       | _ => False
       end.
Proof.
  unfold Server.match_selected, try_catch.
  destruct trendIds as [[|trendId trendIds]|].
  1, 3: (eexists; exists [], (Status400 "No trends selected"); cbn;
         split; [ reflexivity | split; [ reflexivity | auto ] ]).
  set (ids := trendId :: trendIds).
  set (body := bind DB.new _).
  assert (Hh : hoare (fun w => w = w0) body
                     (fun _ w' =>
                        exists evs total acc res,
                          response w' = response w0 ++ evs
                                        ++ [EvComplete total acc
                                                       (total - acc) res]
                          /\ (0 <= acc <= total)%Z
                          /\ Z.of_nat (length (chat_requests w'))
                             = (Z.of_nat (length (chat_requests w0))
                                + total)%Z)
                     (fun w' => grows w0 w')).
  { unfold body.
    apply hoare_bind with (R := fun _ w => counters_ok w0 0 0 w).
    { intros w ->. cbn.
      eapply stable_counters_ok;
        [ apply counters_ok_start | reflexivity | reflexivity | ].
      split; [ exists []; now rewrite app_nil_r | eexists; reflexivity ]. }
    intros _.
    apply hoare_bind with (R := fun _ w => counters_ok w0 0 0 w).
    { apply hoare_silent_weak;
        [ apply silent_read | apply stable_counters_ok | ].
      intros w Hw. apply Hw. }
    intros allVideos.
    apply hoare_bind with (R := fun _ w => counters_ok w0 0 0 w).
    { intros w Hc. exact Hc. }
    intros _.
    apply hoare_bind with (R := fun _ w => counters_ok w0 0 0 w).
    { apply hoare_silent_weak;
        [ apply silent_sendEvent | apply stable_counters_ok | ].
      intros w Hw. apply Hw. }
    intros _.
    apply hoare_bind with (R := fun st w => counters_inv_server w0 st w).
    { eapply hoare_conseq;
        [ apply hoare_for_each with (I := counters_inv_server w0)
                                    (E := grows w0)
        | | | ].
      - intros x s _. apply server_process_trend_counters.
      - intros w Hw. exact Hw.
      - auto.
      - cbn. auto. }
    intros st.
    apply hoare_bind with (R := fun _ w => counters_inv_server w0 st w).
    { intros w Hw. exact Hw. }
    intros _ w (Hc & Hn & _ & [evs He] & _). cbn.
    exists evs, (Server.totalEvaluations st), (Server.acceptedCount st),
      (Server.trendResults st).
    rewrite He, <- app_assoc. auto. }
  specialize (Hh w0 eq_refl).
  destruct (body w0) as [[u|e] w'].
  - destruct Hh as (evs & total & acc & res & Hr & Hc & Hn).
    destruct u.
    exists w', evs, (EvComplete total acc (total - acc) res).
    split; [ reflexivity | ]. split; [ exact Hr | ]. auto.
  - destruct Hh as [[evs He] _].
    eexists. exists evs, (EvError e). cbn.
    split; [ reflexivity | ]. split; [ | exact I ].
    rewrite He. now rewrite app_assoc.
Qed.

End SummaryFacts.

(** ** The recommendations table *)

Lemma same_key_iff (a b : Recommendation) :
  DB.same_key a b = true <-> rec_key a = rec_key b.
Proof.
  unfold DB.same_key, rec_key. rewrite andb_true_iff, !String.eqb_eq.
  split; [ intros [-> ->]; reflexivity | intros E; inversion E; auto ].
Qed.

Lemma insert_or_replace_In (rec r : Recommendation)
      (rows : list Recommendation) :
  In r (DB.insert_or_replace rec rows) -> r = rec \/ In r rows.
Proof.
  unfold DB.insert_or_replace. rewrite in_app_iff, filter_In. cbn.
  intros [[Hin _]|[E|[]]]; auto.
Qed.

Lemma insert_or_replace_NoDup (rec : Recommendation)
      (rows : list Recommendation) :
  NoDup (map rec_key rows) ->
  NoDup (map rec_key (DB.insert_or_replace rec rows)).
Proof.
  intros Hnd. unfold DB.insert_or_replace. rewrite map_app. cbn.
  apply NoDup_app.
  - induction rows as [|r rows IH]; cbn; [ constructor | ].
    inversion Hnd as [|? ? Hnotin Hnd']; subst.
    destruct (negb (DB.same_key r rec)); cbn; [ | now apply IH ].
    constructor; [ | now apply IH ].
    intros Hin. apply Hnotin.
    apply in_map_iff in Hin. destruct Hin as (r' & E & Hin).
    apply filter_In in Hin. destruct Hin as [Hin _].
    rewrite <- E. now apply in_map.
  - repeat constructor. intros [].
  - intros k Hin [E|[]]. subst k.
    apply in_map_iff in Hin. destruct Hin as (r & E & Hin).
    apply filter_In in Hin. destruct Hin as [_ Hneq].
    apply same_key_iff in E. rewrite E in Hneq. discriminate.
Qed.

Lemma stable_db_inv (d0 : Database) : stable (db_inv d0).
Proof.
  intros w w' Hw D _ _. unfold db_inv in *. now rewrite D.
Qed.

Lemma db_inv_insert (d0 : Database) (w w' : World)
      (rec : Recommendation) :
  db_inv d0 w ->
  db w' = db_insert rec (db w) ->
  (exists t, In t (trends d0) /\ trend_id t = rec_trend_id rec) ->
  (exists v, In v (videos d0) /\ video_id v = rec_video_id rec) ->
  db_inv d0 w'.
Proof.
  intros ((Hv & Hc & Ht) & Hri & Hnd) D Htrend Hvideo.
  unfold db_inv, same_corpus, referential_integrity. rewrite D. cbn.
  split; [ auto | ]. split.
  - intros r Hin. apply insert_or_replace_In in Hin.
    destruct Hin as [->|Hin].
    + rewrite Ht, Hv. auto.
    + apply (Hri r Hin).
  - now apply insert_or_replace_NoDup.
Qed.

Section TableFacts.

Context `{Providers}.

(** A row that has been bound carries the key and the scores of the
    value it was made of. *)
Lemma bound_row_fields (rec : NewRecommendation) (row : Recommendation) :
  bound_row rec = Ok row ->
  rec_trend_id row = new_trend_id rec
  /\ rec_video_id row = new_video_id rec
  /\ rec_semantic_relevance row = new_semantic_relevance rec
  /\ rec_intro_support row = new_intro_support rec
  /\ rec_honesty_risk row = new_honesty_risk rec
  /\ new_titles rec = Some (rec_titles row)
  /\ new_thumbnails rec = Some (rec_thumbnails row)
  /\ exists note, rec_notes row = JStr note
                  /\ DB.bind_parameter (new_notes rec) = Ok (Some note).
Proof.
  unfold bound_row.
  destruct (DB.bind_parameter (new_notes rec)) as [[note|]|e];
    try discriminate;
    destruct (new_titles rec) as [t|]; try discriminate;
    destruct (new_thumbnails rec) as [th|]; try discriminate.
  cbn. intros E. inversion E; subst row; clear E. cbn.
  repeat split. exists note. auto.
Qed.

(** When [insertRecommendation] returns, the row is written and its
    trend and its video are in their tables. *)
Lemma insert_outcome_Ok (rec : NewRecommendation) (d d' : Database) :
  insert_outcome rec d = Ok d' ->
  exists row,
    bound_row rec = Ok row
    /\ d' = db_insert row d
    /\ (exists t, In t (trends d) /\ trend_id t = rec_trend_id row)
    /\ (exists v, In v (videos d) /\ video_id v = rec_video_id row).
Proof.
  unfold insert_outcome.
  destruct (bound_row rec) as [row|e] eqn:Erow; [ | discriminate ].
  destruct (DB.references_exist _ _ d) eqn:Eref; [ | discriminate ].
  intros E. inversion E; subst d'; clear E.
  destruct (bound_row_fields _ Erow) as (Et & Ev & _).
  exists row. split; [ reflexivity | ]. split; [ reflexivity | ].
  unfold DB.references_exist in Eref. apply andb_true_iff in Eref.
  destruct Eref as [E1 E2].
  apply existsb_exists in E1. destruct E1 as (t & Ht & E1).
  apply existsb_exists in E2. destruct E2 as (v & Hv & E2).
  apply String.eqb_eq in E1, E2.
  split; [ exists t | exists v ]; split; congruence.
Qed.

Lemma matcher_process_candidate_db (d0 : Database) (trend : Trend)
      (candidate : CandidateVideo) (c : Z * Z) :
  In trend (trends d0) ->
  In (video candidate) (videos d0) ->
  hoare (db_inv d0) (Matcher.process_candidate trend candidate c)
        (fun _ => db_inv d0) (db_inv d0).
Proof.
  intros Ht Hv. destruct c as [total acc]. intros w Hw.
  destruct (matcher_process_candidate_run trend candidate total acc w)
    as (e & w1 & w' & _ & _ & Hm & _).
  unfold verdict_outcome in Hm.
  destruct (Matcher.accepted e).
  - destruct (insert_outcome _ (db w)) as [d|msg] eqn:Eo;
      destruct Hm as [Hrun Hd]; rewrite Hrun.
    + apply insert_outcome_Ok in Eo.
      destruct Eo as (row & Erow & -> & _).
      destruct (bound_row_fields _ Erow) as (Et & Ev & _).
      eapply db_inv_insert; [ exact Hw | exact Hd | | ];
        rewrite ?Et, ?Ev; cbn; eauto.
    + unfold db_inv in *. now rewrite Hd.
  - destruct Hm as [Hrun Hd]. rewrite Hrun.
    unfold db_inv in *. now rewrite Hd.
Qed.

Lemma server_process_candidate_db (d0 : Database) (trend : Trend)
      (candidate : CandidateVideo) (c : Z * Z * list MatchResult) :
  In trend (trends d0) ->
  In (video candidate) (videos d0) ->
  hoare (db_inv d0) (Server.process_candidate trend candidate c)
        (fun _ => db_inv d0) (db_inv d0).
Proof.
  intros Ht Hv. destruct c as [[total acc] matched]. intros w Hw.
  destruct (server_process_candidate_run trend candidate total acc matched w)
    as (e & w1 & w' & _ & _ & Hm & _).
  unfold verdict_outcome in Hm.
  destruct (Server.accepted e).
  - destruct (insert_outcome _ (db w)) as [d|msg] eqn:Eo;
      destruct Hm as (Hrun & Hd & _); rewrite Hrun.
    + apply insert_outcome_Ok in Eo.
      destruct Eo as (row & Erow & -> & _).
      destruct (bound_row_fields _ Erow) as (Et & Ev & _).
      eapply db_inv_insert; [ exact Hw | exact Hd | | ];
        rewrite ?Et, ?Ev; cbn; eauto.
    + unfold db_inv in *. now rewrite Hd.
  - destruct Hm as (Hrun & Hd & _). rewrite Hrun.
    unfold db_inv in *. now rewrite Hd.
Qed.

Lemma matcher_candidates_known (trend : Trend) (allVideos : list Video)
      (w : World) (candidates : list CandidateVideo) :
  fst (Matcher.getCandidateVideos trend allVideos w) = Ok candidates ->
  forall c, In c candidates -> In (video c) allVideos.
Proof.
  rewrite matcher_getCandidateVideos_run.
  destruct (generateEmbedding _) as [emb|e]; cbn [fst]; [ | discriminate ].
  intros E c Hc. inversion E; subst candidates.
  now apply ranked_candidate_spec in Hc.
Qed.

Lemma server_candidates_known (trend : Trend) (allVideos : list Video)
      (w : World) (candidates : list CandidateVideo) :
  fst (Server.getCandidateVideos trend allVideos w) = Ok candidates ->
  forall c, In c candidates -> In (video c) allVideos.
Proof.
  pose proof (server_getCandidateVideos_run trend allVideos w) as R.
  destruct (generateEmbedding _) as [emb|e].
  - destruct R as (w' & -> & _). cbn [fst].
    intros E c Hc. inversion E; subst candidates.
    now apply ranked_candidate_spec in Hc.
  - rewrite R. discriminate.
Qed.

Lemma matcher_process_trend_db (d0 : Database) (trend : Trend)
      (c : Z * Z) :
  In trend (trends d0) ->
  hoare (db_inv d0) (Matcher.process_trend (videos d0) trend c)
        (fun _ => db_inv d0) (db_inv d0).
Proof.
  intros Ht. unfold Matcher.process_trend.
  apply hoare_bind with (R := fun _ => db_inv d0).
  { apply hoare_silent; [ apply silent_log | apply stable_db_inv ]. }
  intros _.
  apply hoare_bind
    with (R := fun cs w => (forall c, In c cs -> In (video c) (videos d0))
                           /\ db_inv d0 w).
  { apply hoare_silent_result;
      [ apply silent_matcher_getCandidateVideos | apply stable_db_inv | ].
    intros w a _ E. eapply matcher_candidates_known. exact E. }
  intros candidates.
  apply hoare_bind
    with (R := fun _ w => (forall c, In c candidates ->
                                     In (video c) (videos d0))
                          /\ db_inv d0 w).
  { intros w [Hk Hw]. cbn. split; [ exact Hk | ].
    eapply stable_db_inv; [ exact Hw | reflexivity | reflexivity | ].
    apply (silent_log _ _ w). }
  intros _.
  apply hoare_bind with (R := fun _ => db_inv d0).
  { apply hoare_assume. intros Hk.
    apply hoare_for_each with (I := fun _ => db_inv d0) (E := db_inv d0).
    intros x s Hx. apply matcher_process_candidate_db; auto. }
  intros c'.
  apply hoare_bind with (R := fun _ => db_inv d0).
  { apply hoare_silent; [ apply silent_log | apply stable_db_inv ]. }
  intros _. apply hoare_ret. auto.
Qed.

Lemma server_process_trend_db (d0 : Database) (trendId : string)
      (st : Server.Counters) :
  hoare (db_inv d0) (Server.process_trend (videos d0) trendId st)
        (fun _ => db_inv d0) (db_inv d0).
Proof.
  unfold Server.process_trend.
  apply hoare_bind
    with (R := fun t w => (forall trend, t = Some trend ->
                                         In trend (trends d0))
                          /\ db_inv d0 w).
  { intros w Hw. cbn. split; [ | exact Hw ].
    intros trend E. apply find_some in E. destruct E as [E _].
    destruct Hw as ((_ & _ & Ht) & _). now rewrite <- Ht. }
  intros [trend|]; [ | apply hoare_ret; intros w [_ Hw]; exact Hw ].
  apply hoare_bind with (R := fun _ w => In trend (trends d0) /\ db_inv d0 w).
  { intros w [Hk Hw]. cbn. split; [ now apply Hk | ].
    eapply stable_db_inv; [ exact Hw | reflexivity | reflexivity | ].
    apply (silent_sendEvent _ w). }
  intros _. apply hoare_assume. intros Ht.
  apply hoare_bind with (R := fun _ => db_inv d0).
  { apply hoare_silent; [ apply silent_fetch_youtube | apply stable_db_inv ]. }
  intros youtubeSuggestions.
  apply hoare_bind
    with (R := fun cs w => (forall c, In c cs -> In (video c) (videos d0))
                           /\ db_inv d0 w).
  { apply hoare_silent_result;
      [ apply silent_server_getCandidateVideos | apply stable_db_inv | ].
    intros w a _ E. eapply server_candidates_known. exact E. }
  intros candidates.
  apply hoare_bind
    with (R := fun _ w => (forall c, In c candidates ->
                                     In (video c) (videos d0))
                          /\ db_inv d0 w).
  { intros w [Hk Hw]. cbn. split; [ exact Hk | ].
    eapply stable_db_inv; [ exact Hw | reflexivity | reflexivity | ].
    apply (silent_sendEvent _ w). }
  intros _.
  apply hoare_bind with (R := fun _ => db_inv d0).
  { apply hoare_assume. intros Hk.
    apply hoare_for_each with (I := fun _ => db_inv d0) (E := db_inv d0).
    intros x s Hx. apply server_process_candidate_db; auto. }
  intros [[total acc] matched].
  apply hoare_ret. auto.
Qed.

End TableFacts.

(** ** A run depends on the database only *)

Section Determinism.

Context `{Providers}.

Ltac db_det_tac :=
  repeat first
    [ apply db_det_ret | apply db_det_lift | apply db_det_log
    | apply db_det_log_error | apply db_det_sendEvent | apply db_det_chat
    | apply db_det_read | apply db_det_write
    | apply db_det_bind; [ | intros ? ]
    | apply db_det_try_catch; [ | intros ? ]
    | match goal with
      | |- db_det (if ?b then _ else _) => destruct b
      | |- db_det (match ?x with _ => _ end) => destruct x
      end ].

Lemma db_det_matcher_evaluate (trend : Trend) (video : Video)
      (topChunks : list string) :
  db_det (Matcher.evaluateWithLLM trend video topChunks).
Proof. unfold Matcher.evaluateWithLLM. db_det_tac. Qed.

Lemma db_det_server_evaluate (trend : Trend) (video : Video)
      (topChunks : list string) :
  db_det (Server.evaluateWithLLM trend video topChunks).
Proof.
  unfold Server.evaluateWithLLM, Server.parse_with_repair. db_det_tac.
Qed.

Lemma db_det_matcher_process_candidate (trend : Trend)
      (candidate : CandidateVideo) (c : Z * Z) :
  db_det (Matcher.process_candidate trend candidate c).
Proof.
  unfold Matcher.process_candidate. destruct c as [total acc].
  apply db_det_bind; [ apply db_det_matcher_evaluate | intros e ].
  unfold DB.insertRecommendation. db_det_tac.
Qed.

Lemma db_det_server_process_candidate (trend : Trend)
      (candidate : CandidateVideo) (c : Z * Z * list MatchResult) :
  db_det (Server.process_candidate trend candidate c).
Proof.
  unfold Server.process_candidate. destruct c as [[total acc] matched].
  apply db_det_bind; [ apply db_det_server_evaluate | intros e ].
  unfold DB.insertRecommendation. db_det_tac.
Qed.

Lemma db_det_matcher_getCandidateVideos (trend : Trend)
      (allVideos : list Video) :
  db_det (Matcher.getCandidateVideos trend allVideos).
Proof.
  unfold Matcher.getCandidateVideos, DB.getAllChunks. db_det_tac.
Qed.

Lemma db_det_server_getCandidateVideos (trend : Trend)
      (allVideos : list Video) :
  db_det (Server.getCandidateVideos trend allVideos).
Proof.
  unfold Server.getCandidateVideos, DB.getAllChunks. db_det_tac.
Qed.

Lemma db_det_matcher_process_trend (videos_ : list Video) (trend : Trend)
      (c : Z * Z) :
  db_det (Matcher.process_trend videos_ trend c).
Proof.
  unfold Matcher.process_trend.
  apply db_det_bind; [ apply db_det_log | intros _ ].
  apply db_det_bind;
    [ apply db_det_matcher_getCandidateVideos | intros candidates ].
  apply db_det_bind; [ apply db_det_log | intros _ ].
  apply db_det_bind;
    [ apply db_det_for_each; intros x s;
      apply db_det_matcher_process_candidate
    | intros c' ].
  db_det_tac.
Qed.

Lemma db_det_server_process_trend (allVideos : list Video)
      (trendId : string) (st : Server.Counters) :
  db_det (Server.process_trend allVideos trendId st).
Proof.
  unfold Server.process_trend, DB.getTrend.
  apply db_det_bind; [ apply db_det_read | intros [trend|] ];
    [ | apply db_det_ret ].
  apply db_det_bind; [ apply db_det_sendEvent | intros _ ].
  apply db_det_bind;
    [ unfold Server.fetch_youtube; db_det_tac | intros ys ].
  apply db_det_bind;
    [ apply db_det_server_getCandidateVideos | intros candidates ].
  apply db_det_bind; [ apply db_det_sendEvent | intros _ ].
  apply db_det_bind;
    [ apply db_det_for_each; intros x s;
      apply db_det_server_process_candidate
    | intros [[total acc] matched] ].
  apply db_det_ret.
Qed.

Lemma db_det_matcher_loop (trends_ : list Trend) (videos_ : list Video) :
  db_det (matcher_loop trends_ videos_).
Proof.
  unfold matcher_loop.
  apply db_det_bind;
    [ apply db_det_for_each; intros x s; apply db_det_matcher_process_trend
    | intros [total acc] ].
  unfold DB.close. db_det_tac.
Qed.

(** The command-line matcher, unfolded to its three outcomes. *)
Lemma matcher_run_unfold (w : World) :
  let ts := all_trends (db w) in
  let vs := videos (db w) in
  (trends (db w) = [] \/ videos (db w) = [] ->
   fst (Matcher.matchTrendsToVideos w) = Ok tt
   /\ db (snd (Matcher.matchTrendsToVideos w)) = db w
   /\ chat_requests (snd (Matcher.matchTrendsToVideos w)) = chat_requests w)
  /\ (trends (db w) <> [] -> videos (db w) <> [] ->
      Matcher.matchTrendsToVideos w
      = matcher_loop ts vs (matcher_loop_start w (length ts) (length vs))).
Proof.
  intros ts vs.
  assert (Hrun :
            Matcher.matchTrendsToVideos w
            = (if length ts =? 0 then
                 log "No trends found. Run npm run trends first." [] ;;;
                 DB.close
               else if length vs =? 0 then
                 log "No videos found. Run npm run ingest first." [] ;;;
                 DB.close
               else
                 log "Processing trends x videos pool: "
                     [LNum (Z.of_nat (length ts));
                      LNum (Z.of_nat (length vs))] ;;;
                 DB.clearRecommendations ;;;
                 matcher_loop ts vs)
                {| db := db w;
                   console :=
                     (console w
                      ++ [console_log "Starting trend-to-video matching..."
                                      []])
                     ++ [console_log "Database path: " [LStr DB.DB_PATH]];
                   response := response w;
                   chat_requests := chat_requests w;
                   topic_requests := topic_requests w |})
    by reflexivity.
  rewrite Hrun. clear Hrun.
  assert (Hts : length ts = 0 <-> trends (db w) = []).
  { unfold ts, all_trends. rewrite sort_length.
    destruct (trends (db w)); cbn; split; congruence. }
  assert (Hvs : length vs = 0 <-> videos (db w) = []).
  { unfold vs. destruct (videos (db w)); cbn; split; congruence. }
  destruct (Nat.eqb_spec (length ts) 0) as [Et|Nt].
  { split; [ intros _; cbn; auto | tauto ]. }
  destruct (Nat.eqb_spec (length vs) 0) as [Ev|Nv].
  { split; [ intros _; cbn; auto | tauto ]. }
  split; [ tauto | ].
  intros _ _.
  unfold bind at 1 2. cbn [log DB.clearRecommendations DB.write fst snd db
                           console response chat_requests].
  unfold matcher_loop_start. rewrite <- !app_assoc. reflexivity.
Qed.

End Determinism.

(** ** A run replaces the table *)

Lemma db_clear_same_corpus (d d' : Database) :
  same_corpus d d' -> db_clear d' = db_clear d.
Proof.
  intros (Hv & Hc & Ht). unfold db_clear. now rewrite Hv, Hc, Ht.
Qed.

Lemma db_clear_id (d : Database) :
  recommendations d = [] -> db_clear d = d.
Proof. destruct d. cbn. now intros ->. Qed.

Lemma same_corpus_refl (d : Database) : same_corpus d d.
Proof. repeat split. Qed.

Lemma integrity_empty (d : Database) :
  referential_integrity d ->
  trends d = [] \/ videos d = [] -> recommendations d = [].
Proof.
  intros Hri Hempty.
  destruct (recommendations d) as [|r rows] eqn:E; [ reflexivity | ].
  destruct (Hri r) as [(t & Ht & _) (v & Hv & _)]; [ rewrite E; now left | ].
  destruct Hempty as [E'|E']; rewrite E' in *; contradiction.
Qed.

Section ReplaceFacts.

Context `{Providers}.

Lemma matcher_loop_db (d0 : Database) (ts : list Trend) :
  (forall t, In t ts -> In t (trends d0)) ->
  hoare (db_inv d0) (matcher_loop ts (videos d0))
        (fun _ => db_inv d0) (db_inv d0).
Proof.
  intros Hts. unfold matcher_loop.
  apply hoare_bind with (R := fun _ => db_inv d0).
  { apply hoare_for_each with (I := fun _ => db_inv d0) (E := db_inv d0).
    intros t c Ht. apply matcher_process_trend_db. auto. }
  intros [total acc].
  apply hoare_silent; [ | apply stable_db_inv ].
  unfold DB.close.
  repeat (apply silent_bind; [ first [ apply silent_ret | apply silent_log ]
                             | intros _ ]).
  apply silent_log.
Qed.

Lemma server_loop_db (d0 : Database) (trendIds : list string) :
  hoare (db_inv d0) (server_loop (videos d0) trendIds)
        (fun _ => db_inv d0) (db_inv d0).
Proof.
  unfold server_loop.
  apply hoare_bind with (R := fun _ => db_inv d0).
  { apply hoare_silent; [ apply silent_sendEvent | apply stable_db_inv ]. }
  intros _.
  apply hoare_bind with (R := fun _ => db_inv d0).
  { apply hoare_for_each with (I := fun _ => db_inv d0) (E := db_inv d0).
    intros t c Ht. apply server_process_trend_db. }
  intros st.
  apply hoare_silent; [ | apply stable_db_inv ].
  unfold DB.close.
  apply silent_bind; [ apply silent_ret | intros _; apply silent_sendEvent ].
Qed.

Lemma db_inv_loop_start (w : World) (n m : nat) :
  db_inv (db w) (matcher_loop_start w n m)
  /\ db_inv (db w) (server_loop_start w).
Proof.
  split; unfold db_inv, same_corpus, referential_integrity; cbn;
    (split; [ auto | split; [ intros r [] | constructor ] ]).
Qed.

(** The server handler, unfolded at a selection that is not empty. *)
Lemma server_run_unfold (trendId : string) (trendIds : list string)
      (w : World) :
  Server.match_selected (Some (trendId :: trendIds)) w
  = try_catch (server_loop (videos (db w)) (trendId :: trendIds))
              (fun error => sendEvent (EvError error))
              (server_loop_start w).
Proof. reflexivity. Qed.

Lemma db_det_server_loop (allVideos : list Video) (trendIds : list string) :
  db_det (try_catch (server_loop allVideos trendIds)
                    (fun error => sendEvent (EvError error))).
Proof.
  apply db_det_try_catch; [ | intros e; apply db_det_sendEvent ].
  unfold server_loop, DB.close.
  apply db_det_bind; [ apply db_det_sendEvent | intros _ ].
  apply db_det_bind;
    [ apply db_det_for_each; intros x s; apply db_det_server_process_trend
    | intros st ].
  apply db_det_bind; [ apply db_det_ret | intros _; apply db_det_sendEvent ].
Qed.

(** A run of the command-line matcher over a corpus that has trends and
    videos: its outcome and the database it leaves are the same whatever
    the table held before, and the table it leaves satisfies the
    invariant. *)
Lemma matcher_run_replaces (w w' : World) :
  trends (db w) <> [] -> videos (db w) <> [] ->
  same_corpus (db w) (db w') ->
  fst (Matcher.matchTrendsToVideos w') = fst (Matcher.matchTrendsToVideos w)
  /\ db (snd (Matcher.matchTrendsToVideos w'))
     = db (snd (Matcher.matchTrendsToVideos w))
  /\ db_inv (db w) (snd (Matcher.matchTrendsToVideos w)).
Proof.
  intros Ht Hv Hc.
  destruct (matcher_run_unfold w) as [_ Hw]. specialize (Hw Ht Hv).
  destruct (matcher_run_unfold w') as [_ Hw'].
  pose proof Hc as (Hcv & Hcc & Hct).
  rewrite Hw' by congruence. rewrite Hw.
  unfold all_trends. rewrite Hcv, Hct.
  fold (all_trends (db w)).
  set (ts := all_trends (db w)). set (vs := videos (db w)).
  destruct (db_det_matcher_loop
              ts vs
              (matcher_loop_start w' (length ts) (length vs))
              (matcher_loop_start w (length ts) (length vs)))
    as [Hr Hd].
  { cbn. now apply db_clear_same_corpus. }
  split; [ exact Hr | ]. split; [ exact Hd | ].
  pose proof (@matcher_loop_db (db w) ts) as Hh.
  specialize (Hh ltac:(intros t Hin; unfold ts, all_trends in Hin;
                       now apply sort_In in Hin)).
  specialize (Hh (matcher_loop_start w (length ts) (length vs))
                 (proj1 (db_inv_loop_start w _ _))).
  fold vs in Hh.
  destruct (matcher_loop ts vs
                         (matcher_loop_start w (length ts) (length vs)))
    as [[u|e] w'']; exact Hh.
Qed.

(** The same for the handler of the server, at a selection that is not
    empty. *)
Lemma server_run_replaces (trendId : string) (trendIds : list string)
      (w w' : World) :
  same_corpus (db w) (db w') ->
  fst (Server.match_selected (Some (trendId :: trendIds)) w')
  = fst (Server.match_selected (Some (trendId :: trendIds)) w)
  /\ db (snd (Server.match_selected (Some (trendId :: trendIds)) w'))
     = db (snd (Server.match_selected (Some (trendId :: trendIds)) w))
  /\ db_inv (db w) (snd (Server.match_selected (Some (trendId :: trendIds)) w)).
Proof.
  intros Hc. pose proof Hc as (Hcv & Hcc & Hct).
  rewrite !server_run_unfold, Hcv.
  set (ids := trendId :: trendIds).
  destruct (@db_det_server_loop (videos (db w)) ids
              (server_loop_start w') (server_loop_start w)) as [Hr Hd].
  { cbn. now apply db_clear_same_corpus. }
  split; [ exact Hr | ]. split; [ exact Hd | ].
  pose proof (@server_loop_db (db w) ids (server_loop_start w)
                              (proj2 (db_inv_loop_start w 0 0))) as Hh.
  unfold try_catch.
  destruct (server_loop (videos (db w)) ids (server_loop_start w))
    as [[u|e] w'']; [ exact Hh | ].
  cbn. exact Hh.
Qed.

End ReplaceFacts.

(** ** Chunks without a video, and an empty chunk store *)

Section DropFacts.

Context `{Providers}.

Lemma find_known (allVideos : list Video) (k : string) :
  known_video allVideos k = false
  <-> find (fun v => String.eqb (video_id v) k) allVideos = None.
Proof.
  unfold known_video.
  induction allVideos as [|v l IH]; cbn; [ tauto | ].
  destruct (String.eqb (video_id v) k); cbn; [ | exact IH ].
  split; discriminate.
Qed.

Lemma chunks_of_filter_known (allVideos : list Video) (k : string)
      (cs : list ChunkScore) :
  known_video allVideos k = true ->
  chunks_of k (filter (fun s => known_video allVideos (cs_video_id s)) cs)
  = chunks_of k cs.
Proof.
  intros Hk. unfold chunks_of.
  induction cs as [|s cs IH]; cbn; [ reflexivity | ].
  destruct (String.eqb_spec (cs_video_id s) k) as [E|N].
  - rewrite E, Hk. cbn. rewrite E, String.eqb_refl. now rewrite IH.
  - destruct (known_video allVideos (cs_video_id s)); cbn; [ | exact IH ].
    destruct (String.eqb_spec (cs_video_id s) k); [ contradiction | exact IH ].
Qed.

Lemma score_chunks_filter (emb : Embedding) (allVideos : list Video)
      (allChunks : list VideoChunk) :
  map (score_chunk emb)
      (filter (fun c => known_video allVideos (chunk_video_id c)) allChunks)
  = filter (fun s => known_video allVideos (cs_video_id s))
           (map (score_chunk emb) allChunks).
Proof.
  induction allChunks as [|c l IH]; cbn; [ reflexivity | ].
  destruct (known_video allVideos (chunk_video_id c)); cbn; now rewrite IH.
Qed.

Lemma map_id_filter (allVideos : list Video) (cs : list ChunkScore) :
  map cs_video_id
      (filter (fun s => known_video allVideos (cs_video_id s)) cs)
  = filter (known_video allVideos) (map cs_video_id cs).
Proof.
  induction cs as [|s l IH]; cbn; [ reflexivity | ].
  destruct (known_video allVideos (cs_video_id s)); cbn; now rewrite IH.
Qed.

(** A chunk whose video is not in the table has no part in the
    candidates. *)
Lemma build_candidates_drop (allVideos : list Video)
      (cs : list ChunkScore) :
  build_candidates
    allVideos
    (aggregate (filter (fun s => known_video allVideos (cs_video_id s)) cs))
  = build_candidates allVideos (aggregate cs).
Proof.
  rewrite !build_candidates_spec, !aggregate_spec.
  rewrite map_id_filter, distinct_filter.
  set (cs' := filter (fun s => known_video allVideos (cs_video_id s)) cs).
  induction (distinct (map cs_video_id cs)) as [|k D IH]; cbn;
    [ reflexivity | ].
  destruct (known_video allVideos k) eqn:Hk; cbn.
  - rewrite IH. f_equal.
    unfold group_of, cs'. now rewrite chunks_of_filter_known.
  - rewrite IH. apply find_known in Hk.
    unfold candidate_of. now rewrite Hk.
Qed.

Lemma ranked_candidates_drop (n : nat) (emb : Embedding)
      (allChunks : list VideoChunk) (allVideos : list Video) :
  ranked_candidates
    n emb
    (filter (fun c => known_video allVideos (chunk_video_id c)) allChunks)
    allVideos
  = ranked_candidates n emb allChunks allVideos.
Proof.
  rewrite !ranked_candidates_unfold, score_chunks_filter.
  now rewrite build_candidates_drop.
Qed.

(** The retrieval of the server on an empty chunk store. *)
Lemma server_getCandidateVideos_empty (trend : Trend)
      (allVideos : list Video) (w : World) (emb : Embedding) :
  video_chunks (db w) = [] ->
  generateEmbedding (Server.extractBroaderThemes trend) = Ok emb ->
  Server.getCandidateVideos trend allVideos w
  = (Ok [], with_console w (empty_store_lines trend allVideos)).
Proof.
  intros Hc He.
  unfold Server.getCandidateVideos, bind, lift, DB.getAllChunks, DB.read.
  rewrite He, Hc. cbn.
  unfold with_console, empty_store_lines. rewrite <- !app_assoc. reflexivity.
Qed.

Lemma matcher_getCandidateVideos_empty (trend : Trend)
      (allVideos : list Video) (w : World) (emb : Embedding) :
  video_chunks (db w) = [] ->
  generateEmbedding (Matcher.extractBroaderThemes trend) = Ok emb ->
  Matcher.getCandidateVideos trend allVideos w = (Ok [], w).
Proof.
  intros Hc He. rewrite matcher_getCandidateVideos_run, He, Hc.
  now rewrite ranked_candidates_nil.
Qed.

(** A trend of the command-line matcher over an empty chunk store: no
    request to the model, the counters as they were. *)
Lemma matcher_process_trend_empty (videos_ : list Video) (trend : Trend)
      (c : Z * Z) (w : World) (emb : Embedding) :
  video_chunks (db w) = [] ->
  generateEmbedding (Matcher.extractBroaderThemes trend) = Ok emb ->
  Matcher.process_trend videos_ trend c w
  = (Ok c,
     with_console
       w [console_log "Trend: " [LStr (title trend)];
          console_log "Found candidate videos via vector search: " [LNum 0];
          console_log "" []]).
Proof.
  intros Hc He. unfold Matcher.process_trend, bind at 1 2.
  cbn [log fst snd].
  rewrite (@matcher_getCandidateVideos_empty trend videos_ _ emb)
    by assumption.
  cbn. unfold with_console. rewrite <- !app_assoc. reflexivity.
Qed.

(** A trend of the server over an empty chunk store: the [candidates]
    event reports zero candidates, no request goes to the model, and the
    counters stay as they were. *)
Lemma server_process_trend_empty (allVideos : list Video)
      (trendId : string) (trend : Trend) (st : Server.Counters)
      (w : World) (emb : Embedding) :
  video_chunks (db w) = [] ->
  find (fun t => String.eqb (trend_id t) trendId) (trends (db w))
  = Some trend ->
  generateEmbedding (Server.extractBroaderThemes trend) = Ok emb ->
  exists (note : YoutubeNote) (ys : list YouTubeVideoSuggestion)
         (w' : World),
    Server.process_trend allVideos trendId st w
    = (Ok {| Server.totalEvaluations := Server.totalEvaluations st;
             Server.acceptedCount := Server.acceptedCount st;
             Server.trendResults :=
               Server.trendResults st
               ++ [{| tr_trend := trend;
                      tr_youtubeSuggestions := ys;
                      tr_matchedVideos := [] |}] |}, w')
    /\ db w' = db w
    /\ chat_requests w' = chat_requests w
    /\ response w'
       = response w ++ [EvTrend (title trend); EvYoutube YtFetching;
                        EvYoutube note; EvCandidates 0]
    /\ exists logs, console w' = console w ++ logs.
Proof.
  intros Hc Hf He.
  unfold Server.process_trend, DB.getTrend, DB.read, bind at 1.
  rewrite Hf.
  unfold bind at 1. cbn [sendEvent fst snd].
  unfold bind at 1.
  match goal with
  | |- context [ Server.fetch_youtube trend ?w0 ] =>
      destruct (fetch_youtube_run trend w0)
        as (ys & logs & topics & Hyt & _)
  end.
  rewrite Hyt. cbn [db console response chat_requests topic_requests].
  unfold bind at 1.
  rewrite (@server_getCandidateVideos_empty trend allVideos _ emb)
    by assumption.
  cbn.
  eexists; exists ys. eexists. split; [ reflexivity | ]. cbn.
  repeat split.
  - now rewrite <- !app_assoc.
  - rewrite <- !app_assoc. eexists; reflexivity.
Qed.

End DropFacts.

(** ** The cosine of two vectors *)

Section CosineFacts.

Import Embeddings.

Local Open Scope R_scope.

Lemma dot_comm (a b : list R) : dot a b = dot b a.
Proof.
  revert b. induction a as [|x a IH]; intros [|y b]; cbn; try reflexivity.
  rewrite IH. ring.
Qed.

Lemma dot_self_nonneg (a : list R) : 0 <= dot a a.
Proof.
  induction a as [|x a IH]; cbn; [ lra | ].
  pose proof (Rle_0_sqr x) as Hx. unfold Rsqr in Hx. lra.
Qed.

(** The step of the inequality of Cauchy and Schwarz. *)
Lemma cauchy_schwarz_step (x y A B D : R) :
  0 <= A -> 0 <= B -> D * D <= A * B ->
  (x * y + D) * (x * y + D) <= (x * x + A) * (y * y + B).
Proof.
  intros HA HB HD.
  set (T := x * x * B + y * y * A - 2 * (x * y * D)).
  set (S := x * x * B + y * y * A + 2 * (x * y * D)).
  assert (Hsum : 0 <= T + S).
  { unfold T, S.
    pose proof (Rle_0_sqr x) as Hx. pose proof (Rle_0_sqr y) as Hy.
    unfold Rsqr in Hx, Hy.
    pose proof (Rmult_le_pos _ _ Hx HB). pose proof (Rmult_le_pos _ _ Hy HA).
    lra. }
  assert (Hprod : 0 <= T * S).
  { unfold T, S.
    replace ((x * x * B + y * y * A - 2 * (x * y * D))
             * (x * x * B + y * y * A + 2 * (x * y * D)))
      with ((x * x * B - y * y * A) * (x * x * B - y * y * A)
            + 4 * ((x * y) * (x * y)) * (A * B - D * D)) by ring.
    pose proof (Rle_0_sqr (x * x * B - y * y * A)) as H1.
    pose proof (Rle_0_sqr (x * y)) as H2. unfold Rsqr in H1, H2.
    assert (0 <= 4 * (x * y * (x * y)) * (A * B - D * D)).
    { apply Rmult_le_pos; lra. }
    lra. }
  assert (HT : 0 <= T).
  { destruct (Rle_lt_dec 0 T) as [L|G]; [ exact L | ].
    assert (0 < S) by lra.
    assert (T * S < 0).
    { replace (T * S) with (- ((- T) * S)) by ring.
      assert (0 < (- T) * S) by (apply Rmult_lt_0_compat; lra). lra. }
    lra. }
  unfold T in HT.
  replace ((x * y + D) * (x * y + D))
    with (x * x * (y * y) + 2 * (x * y * D) + D * D) by ring.
  replace ((x * x + A) * (y * y + B))
    with (x * x * (y * y) + x * x * B + y * y * A + A * B) by ring.
  lra.
Qed.

Lemma cauchy_schwarz (a b : list R) :
  dot a b * dot a b <= dot a a * dot b b.
Proof.
  revert b. induction a as [|x a IH]; intros [|y b]; cbn.
  - lra.
  - pose proof (dot_self_nonneg (y :: b)) as Hb. cbn in Hb.
    rewrite !Rmult_0_l. lra.
  - pose proof (dot_self_nonneg (x :: a)) as Ha. cbn in Ha.
    rewrite !Rmult_0_l, Rmult_0_r. lra.
  - apply cauchy_schwarz_step; auto using dot_self_nonneg.
Qed.

Lemma magnitude_nonneg (a : list R) : 0 <= magnitude a.
Proof. apply sqrt_pos. Qed.

Lemma magnitude_sqr (a : list R) : magnitude a * magnitude a = dot a a.
Proof. apply sqrt_sqrt, dot_self_nonneg. Qed.

Lemma magnitude_zero (a : list R) :
  magnitude a = 0 <-> Forall (fun x => x = 0) a.
Proof.
  split.
  - intros Hm. apply sqrt_eq_0 in Hm; [ | apply dot_self_nonneg ].
    induction a as [|x a IH]; constructor.
    + cbn in Hm. pose proof (dot_self_nonneg a) as Ha.
      pose proof (Rle_0_sqr x) as Hx. unfold Rsqr in Hx.
      assert (x * x = 0) by lra.
      destruct (Rmult_integral _ _ H); assumption.
    + apply IH. cbn in Hm. pose proof (dot_self_nonneg a) as Ha.
      pose proof (Rle_0_sqr x) as Hx. unfold Rsqr in Hx. lra.
  - intros Hz. unfold magnitude.
    replace (dot a a) with 0; [ apply sqrt_0 | ].
    induction Hz as [|x a Hx Hz IH]; cbn; [ reflexivity | ].
    rewrite <- IH, Hx. ring.
Qed.

(** The dot product is bounded by the product of the magnitudes. *)
Lemma dot_bound (a b : list R) :
  - (magnitude a * magnitude b) <= dot a b <= magnitude a * magnitude b.
Proof.
  pose proof (cauchy_schwarz a b) as Hcs.
  rewrite <- (magnitude_sqr a), <- (magnitude_sqr b) in Hcs.
  pose proof (magnitude_nonneg a) as Ha.
  pose proof (magnitude_nonneg b) as Hb.
  set (m := magnitude a * magnitude b).
  assert (Hm : 0 <= m) by (apply Rmult_le_pos; assumption).
  assert (Hsq : dot a b * dot a b <= m * m).
  { unfold m.
    replace (magnitude a * magnitude b * (magnitude a * magnitude b))
      with (magnitude a * magnitude a * (magnitude b * magnitude b)) by ring.
    exact Hcs. }
  split.
  - destruct (Rle_lt_dec (- m) (dot a b)) as [L|G]; [ exact L | ].
    assert (m * m < dot a b * dot a b).
    { replace (dot a b * dot a b) with ((- dot a b) * (- dot a b)) by ring.
      assert (m < - dot a b) by lra.
      apply Rle_lt_trans with (m * (- dot a b)).
      - apply Rmult_le_compat_l; lra.
      - apply Rmult_lt_compat_r; lra. }
    lra.
  - destruct (Rle_lt_dec (dot a b) m) as [L|G]; [ exact L | ].
    assert (m * m < dot a b * dot a b).
    { apply Rle_lt_trans with (m * dot a b).
      - apply Rmult_le_compat_l; lra.
      - apply Rmult_lt_compat_r; lra. }
    lra.
Qed.

Lemma cosine_nonzero (a b : list R) :
  magnitude a <> 0 -> magnitude b <> 0 ->
  cosineSimilarity a b = dot a b / (magnitude a * magnitude b).
Proof.
  intros Ha Hb. unfold cosineSimilarity.
  destruct (Req_dec_T (magnitude a) 0); [ contradiction | ].
  destruct (Req_dec_T (magnitude b) 0); [ contradiction | reflexivity ].
Qed.

Lemma cosine_zero (a b : list R) :
  magnitude a = 0 \/ magnitude b = 0 -> cosineSimilarity a b = 0.
Proof.
  intros Hz. unfold cosineSimilarity.
  destruct (Req_dec_T (magnitude a) 0); [ reflexivity | ].
  destruct (Req_dec_T (magnitude b) 0); [ reflexivity | ].
  destruct Hz; contradiction.
Qed.

Lemma cosine_range (a b : list R) : -1 <= cosineSimilarity a b <= 1.
Proof.
  destruct (Req_dec_T (magnitude a) 0) as [Za|Na];
    [ rewrite cosine_zero by auto; lra | ].
  destruct (Req_dec_T (magnitude b) 0) as [Zb|Nb];
    [ rewrite cosine_zero by auto; lra | ].
  rewrite cosine_nonzero by assumption.
  pose proof (dot_bound a b) as [Hlo Hhi].
  pose proof (magnitude_nonneg a) as Ha.
  pose proof (magnitude_nonneg b) as Hb.
  set (m := magnitude a * magnitude b) in *.
  assert (Hm : 0 < m) by (apply Rmult_lt_0_compat; lra).
  split.
  - apply Rmult_le_reg_r with m; [ exact Hm | ].
    unfold Rdiv. rewrite Rmult_assoc, Rinv_l by lra. lra.
  - apply Rmult_le_reg_r with m; [ exact Hm | ].
    unfold Rdiv. rewrite Rmult_assoc, Rinv_l by lra. lra.
Qed.

Lemma cosine_sym (a b : list R) : cosineSimilarity a b = cosineSimilarity b a.
Proof.
  unfold cosineSimilarity.
  destruct (Req_dec_T (magnitude a) 0), (Req_dec_T (magnitude b) 0);
    try reflexivity.
  rewrite dot_comm. f_equal. ring.
Qed.

Lemma cosine_self (a : list R) : magnitude a <> 0 -> cosineSimilarity a a = 1.
Proof.
  intros Ha. rewrite cosine_nonzero by assumption.
  rewrite <- magnitude_sqr. field. exact Ha.
Qed.

Lemma cosine_orthogonal (a b : list R) :
  dot a b = 0 -> cosineSimilarity a b = 0.
Proof.
  intros Hd. unfold cosineSimilarity.
  destruct (Req_dec_T (magnitude a) 0); [ reflexivity | ].
  destruct (Req_dec_T (magnitude b) 0); [ reflexivity | ].
  rewrite Hd. unfold Rdiv. ring.
Qed.

End CosineFacts.

(* ================================================================== *)
(** * Part III: the claims                                            *)
(* ================================================================== *)

(** C1.  An answer that passes the gate and cannot be stored.  The
    model answers for V5 with relevance 0.8, intro support 0.8, risk
    0.1, [allowed] true, titles and thumbnails, and no notes.  The
    structure check lets the answer through, since it looks at the three
    scores and at [allowed] only, and all four conditions of the gate
    hold.  The column [notes] of the table is NOT NULL, so
    [insertRecommendation] throws: the body of the loop does not
    return, no row is written and no verdict is reported.  The run of
    the command-line matcher is aborted before its summary and before
    the next candidate, V1, whose answer would have been accepted, is
    evaluated; the handler of the server ends its response with an
    [error] event in place of the [complete] event. *)
Theorem accepted_answer_without_notes :
  let w := Scenario.world Scenario.corpus_no_notes in
  let c := {| video := Scenario.V5; avgSimilarity := 1;
              topChunks := ["v5 first"] |} in
  let failure := "NOT NULL constraint failed: recommendations.notes" in
  (exists (e : LLMEvaluation) (w1 : World),
      @Matcher.evaluateWithLLM Scenario.providers Scenario.T1 Scenario.V5
                               ["v5 first"] w = (Ok e, w1)
      /\ gate_conditions e
      /\ Matcher.accepted e = true
      /\ Server.accepted e = true
      /\ notes e = JUndefined)
  /\ (exists w',
         @Matcher.process_candidate Scenario.providers Scenario.T1 c
                                    (0, 0)%Z w
         = (Throw failure, w')
         /\ recommendations (db w') = [])
  /\ (exists w',
         @Server.process_candidate Scenario.providers Scenario.T1 c
                                   (0, 0, [])%Z w
         = (Throw failure, w')
         /\ recommendations (db w') = []
         /\ response w' = [])
  /\ (exists w',
         @Matcher.matchTrendsToVideos Scenario.providers w
         = (Throw failure, w')
         /\ recommendations (db w') = []
         /\ map req_video (chat_requests w') = [Scenario.V5])
  /\ (exists w',
         @Server.match_selected Scenario.providers (Some ["T1"]) w
         = (Ok tt, w')
         /\ recommendations (db w') = []
         /\ response w'
            = [EvStart 1; EvTrend "AI layoffs"; EvYoutube YtFetching;
               EvYoutube YtUnavailable; EvCandidates 2; EvError failure]
         /\ map req_video (chat_requests w') = [Scenario.V5]).
Proof.
  intros w c failure.
  split; [ | split; [ | split; [ | split ] ] ].
  - eexists. eexists. split; [ vm_compute; reflexivity | ].
    split; [ | repeat split ].
    unfold gate_conditions. cbn.
    repeat split; unfold Qle; cbn; lia.
  - eexists. split; [ vm_compute; reflexivity | reflexivity ].
  - eexists. split; [ vm_compute; reflexivity | split; reflexivity ].
  - eexists. split; [ vm_compute; reflexivity | split; reflexivity ].
  - eexists. split; [ vm_compute; reflexivity | repeat split ].
Qed.



(** C2.  The command-line variant has no repair cascade.  The model
    answers for V3 with the accepted evaluation wrapped in prose, and
    for V4 with the same evaluation cut in the middle of its last
    string.  The server variant recovers both: the second strategy
    parses the first answer cut down to its braces, the third parses
    the second answer repaired, and the evaluation returned is the one
    the model gave.  The command-line variant parses each answer once
    and returns the sentinel for both. *)
Theorem command_line_variant_parses_once :
  let w := Scenario.world Scenario.corpus in
  let given := {| semantic_relevance := 0.8;
                  intro_support := 0.8;
                  honesty_risk := 0.1;
                  allowed := true;
                  titles := JArr [JStr "A"];
                  thumbnails := JArr [JStr "B"];
                  notes := JStr "ok" |} in
  (@JSON_parse Scenario.providers Scenario.wrapped_json
   = Throw "Unexpected token in JSON"
   /\ @JSON_parse Scenario.providers
                  (Server.brace_cleanup Scenario.wrapped_json)
      = Ok Scenario.accept_value
   /\ validate Scenario.accept_value = Ok given
   /\ fst (@Server.evaluateWithLLM Scenario.providers Scenario.T1
                                   Scenario.V3 [] w) = Ok given
   /\ fst (@Matcher.evaluateWithLLM Scenario.providers Scenario.T1
                                    Scenario.V3 [] w)
      = Ok (conservative_rejection "Evaluation failed"))
  /\ (@JSON_parse Scenario.providers Scenario.truncated_json
      = Throw "Unexpected token in JSON"
      /\ @JSON_parse Scenario.providers
                     (Server.brace_cleanup Scenario.truncated_json)
         = Throw "Unexpected token in JSON"
      /\ @jsonrepair Scenario.providers Scenario.truncated_json
         = Ok Scenario.accept_json
      /\ fst (@Server.evaluateWithLLM Scenario.providers Scenario.T1
                                      Scenario.V4 [] w) = Ok given
      /\ fst (@Matcher.evaluateWithLLM Scenario.providers Scenario.T1
                                       Scenario.V4 [] w)
         = Ok (conservative_rejection "Evaluation failed")).
Proof.
  intros w given. repeat split; vm_compute; reflexivity.
Qed.

(** C4.  The candidate retriever.  Given the embedding of the trend,
    both variants of [getCandidateVideos] return the same list: at most
    three candidates, ordered by decreasing aggregate score, one per
    video.  The video of a candidate is in the video table; its
    aggregate score is the mean of the similarities of the chunks it
    owns, and of no other, as the arithmetic of doubles computes it: the
    similarities are added in the order of the chunk store, every sum
    is rounded, and the sum divided by their number is rounded; its
    excerpts are the texts of the first five of these chunks in a
    ranking by decreasing similarity.  A video of the table that owns a
    chunk and is not a candidate is preceded by three candidates whose
    scores are at least its mean.  When a candidate is evaluated, the
    request to the model carries the first three of its excerpts. *)
Theorem candidate_retrieval `{Providers} (emb : Embedding)
        (allChunks : list VideoChunk) (allVideos : list Video) :
  let scoredChunks := map (score_chunk emb) allChunks in
  let candidates := ranked_candidates 3 emb allChunks allVideos in
  (forall trend w,
      generateEmbedding (Matcher.extractBroaderThemes trend) = Ok emb ->
      video_chunks (db w) = allChunks ->
      Matcher.getCandidateVideos trend allVideos w = (Ok candidates, w))
  /\ (forall trend w,
         generateEmbedding (Server.extractBroaderThemes trend) = Ok emb ->
         video_chunks (db w) = allChunks ->
         fst (Server.getCandidateVideos trend allVideos w) = Ok candidates)
  /\ length candidates <= 3
  /\ StronglySorted (descending avgSimilarity) candidates
  /\ NoDup (map (fun c => video_id (video c)) candidates)
  /\ (forall c, In c candidates ->
        let mine := chunks_of (video_id (video c)) scoredChunks in
        In (video c) allVideos
        /\ mine <> []
        /\ avgSimilarity c
           = Js.div (fold_left Js.add (map similarity mine) 0%Q)
                    (inject_Z (Z.of_nat (length mine)))
        /\ exists ranked : list ScoredChunk,
            Permutation ranked (map scored mine)
            /\ StronglySorted (descending score) ranked
            /\ topChunks c = map text (firstn 5 ranked))
  /\ (forall v, In v allVideos ->
        chunks_of (video_id v) scoredChunks <> [] ->
        (exists c, In c candidates /\ video_id (video c) = video_id v)
        \/ (length candidates = 3
            /\ forall c, In c candidates ->
                  (average (map similarity
                                (chunks_of (video_id v) scoredChunks))
                   <= avgSimilarity c)%Q))
  /\ (forall trend c total acc matched w,
        chat_requests (snd (Matcher.process_candidate trend c (total, acc) w))
        = chat_requests w
          ++ [chat_request trend (video c) (firstn 3 (topChunks c))]
        /\ chat_requests
             (snd (Server.process_candidate trend c (total, acc, matched) w))
           = chat_requests w
             ++ [chat_request trend (video c) (firstn 3 (topChunks c))]).
Proof.
  intros scoredChunks candidates.
  split.
  { intros trend w Eemb Echunks.
    rewrite matcher_getCandidateVideos_run, Eemb, Echunks. reflexivity. }
  split.
  { intros trend w Eemb Echunks.
    pose proof (server_getCandidateVideos_run trend allVideos w) as R.
    rewrite Eemb in R. destruct R as (w' & R & _).
    rewrite R, Echunks. reflexivity. }
  split.
  { subst candidates. rewrite ranked_candidates_unfold, length_firstn. lia. }
  split.
  { subst candidates. rewrite ranked_candidates_unfold.
    apply firstn_descending, sort_descending. }
  split.
  { subst candidates. rewrite ranked_candidates_unfold.
    rewrite <- firstn_map. apply NoDup_firstn.
    eapply Permutation_NoDup.
    - apply Permutation_map. symmetry. apply sort_perm.
    - apply build_candidates_NoDup. }
  split.
  { intros c Hc mine.
    destruct (ranked_candidate_spec _ _ _ _ _ Hc)
      as (Hv & Hne & Havg & Htop).
    fold scoredChunks in Hne, Havg, Htop. fold mine in Hne, Havg, Htop.
    split; [ exact Hv | ]. split; [ exact Hne | ]. split.
    - rewrite Havg. unfold average. now rewrite length_map.
    - exists (Js.sort (fun a b => score b - score a)%Q (map scored mine)).
      split; [ apply sort_perm | ].
      split; [ apply sort_descending | exact Htop ]. }
  split.
  { intros v Hv Hne. now apply ranked_candidates_top. }
  intros trend c total acc matched w. split.
  - destruct (matcher_process_candidate_run trend c total acc w)
      as (e & w1 & w' & _ & _ & Hm & _ & Hreq & _).
    destruct (verdict_outcome _ _ _); destruct Hm as [Hrun _];
      rewrite Hrun; exact Hreq.
  - destruct (server_process_candidate_run trend c total acc matched w)
      as (e & w1 & w' & _ & _ & Hm & Hreq & _).
    destruct (verdict_outcome _ _ _); destruct Hm as [Hrun _];
      rewrite Hrun; exact Hreq.
Qed.

(** C5.  The counters.  A run of the command-line matcher that gets
    past its two early returns and is not aborted ends its console
    output with the summary lines, and a run of the server handler that
    is not aborted ends its response with the [complete] event.  In both
    the rejected count is the difference of the number of evaluations
    and the accepted count, the accepted count lies between 0 and the
    number of evaluations, accepted plus rejected is the number of
    evaluations, and the number of evaluations is the number of requests
    sent to the model for an evaluation during the run.  Each iteration
    of the loop over the candidates sends one such request, whether it
    returns or throws; an iteration that returns has added one to the
    number of evaluations and at most one to the accepted count.  An
    iteration returns unless its evaluation is accepted and the
    insertion of the recommendation throws; the iteration then throws
    the same error, and its run has no summary. *)
Theorem counter_invariant `{Providers} (w0 : World)
        (trendIds : option (list string)) :
  match Matcher.matchTrendsToVideos w0 with
  | (Ok _, w') =>
      (trends (db w0) = [] \/ videos (db w0) = [])
      \/ exists logs total acc rejected,
          console w' = console w0 ++ logs
                       ++ summary_lines total acc rejected
          /\ rejected = (total - acc)%Z
          /\ (acc + rejected = total)%Z
          /\ (0 <= acc <= total)%Z
          /\ Z.of_nat (length (chat_requests w'))
             = (Z.of_nat (length (chat_requests w0)) + total)%Z
  | (Throw _, _) => True
  end
  /\ (exists w' evs last,
         Server.match_selected trendIds w0 = (Ok tt, w')
         /\ response w' = response w0 ++ evs ++ [last]
         /\ match last with
            | EvComplete total acc rejected _ =>
                rejected = (total - acc)%Z
                /\ (acc + rejected = total)%Z
                /\ (0 <= acc <= total)%Z
                /\ Z.of_nat (length (chat_requests w'))
                   = (Z.of_nat (length (chat_requests w0)) + total)%Z
            | EvError _ => True
            | Status400 _ => trendIds = None \/ trendIds = Some []
            | _ => False
            end)
  /\ (forall trend candidate total acc matched w,
         (forall total' acc' w',
             Matcher.process_candidate trend candidate (total, acc) w
             = (Ok (total', acc'), w') ->
             total' = (total + 1)%Z /\ (acc <= acc' <= acc + 1)%Z)
         /\ (forall total' acc' matched' w',
                Server.process_candidate trend candidate
                                         (total, acc, matched) w
                = (Ok (total', acc', matched'), w') ->
                total' = (total + 1)%Z /\ (acc <= acc' <= acc + 1)%Z)
         /\ length (chat_requests
                      (snd (Matcher.process_candidate trend candidate
                                                      (total, acc) w)))
            = S (length (chat_requests w))
         /\ length (chat_requests
                      (snd (Server.process_candidate trend candidate
                                                     (total, acc, matched)
                                                     w)))
            = S (length (chat_requests w))
         /\ (exists e w1,
                Matcher.evaluateWithLLM
                  trend (video candidate)
                  (slice0 Matcher.TOP_CHUNKS_FOR_LLM (topChunks candidate)) w
                = (Ok e, w1)
                /\ ((exists w',
                        Matcher.process_candidate trend candidate
                                                  (total, acc) w
                        = (Ok ((total + 1)%Z,
                               if Matcher.accepted e then (acc + 1)%Z
                               else acc), w'))
                    \/ (Matcher.accepted e = true
                        /\ exists msg w',
                            insert_outcome
                              (Matcher.make_recommendation trend candidate e)
                              (db w) = Throw msg
                            /\ Matcher.process_candidate trend candidate
                                                         (total, acc) w
                               = (Throw msg, w'))))
         /\ (exists e w1,
                Server.evaluateWithLLM
                  trend (video candidate)
                  (slice0 Server.TOP_CHUNKS_FOR_LLM (topChunks candidate)) w
                = (Ok e, w1)
                /\ ((exists w',
                        Server.process_candidate trend candidate
                                                 (total, acc, matched) w
                        = (Ok ((total + 1)%Z,
                               (if Server.accepted e then (acc + 1)%Z
                                else acc),
                               (if Server.accepted e
                                then matched
                                     ++ [Server.make_result trend candidate e]
                                else matched)), w'))
                    \/ (Server.accepted e = true
                        /\ exists msg w',
                            insert_outcome
                              (Server.make_recommendation trend candidate e)
                              (db w) = Throw msg
                            /\ Server.process_candidate
                                 trend candidate (total, acc, matched) w
                               = (Throw msg, w'))))).
Proof.
  split; [ | split ].
  - pose proof (matcher_summary w0) as S.
    destruct (Matcher.matchTrendsToVideos w0) as [[u|e] w']; [ | exact I ].
    destruct S as [S|(logs & total & acc & Hl & Hc & Hn)]; [ now left | ].
    right. exists logs, total, acc, (total - acc)%Z.
    repeat split; try assumption; lia.
  - destruct (server_summary trendIds w0) as (w' & evs & last & R & E & L).
    exists w', evs, last. split; [ exact R | ]. split; [ exact E | ].
    destruct last; try exact L.
    destruct L as (L1 & L2 & L3). repeat split; try assumption; lia.
  - intros trend candidate total acc matched w.
    destruct (matcher_process_candidate_run trend candidate total acc w)
      as (e & w1 & w' & Hev & _ & Hm & _ & Hreq & _).
    destruct (server_process_candidate_run trend candidate total acc
                                           matched w)
      as (e2 & w2 & w2' & Hev2 & _ & Hs & Hreq2 & _).
    split; [ | split; [ | split; [ | split; [ | split ] ] ] ];
      [ | | | |
        exists e, w1; split; [ exact Hev | ]; unfold verdict_outcome in Hm;
        destruct (Matcher.accepted e) eqn:Ea;
        [ destruct (insert_outcome
                      (Matcher.make_recommendation trend candidate e) (db w))
            as [d|msg] eqn:Eo;
          destruct Hm as [Hrun _];
          [ left; exists w'; exact Hrun
          | right; split; [ reflexivity | ]; exists msg, w'; auto ]
        | destruct Hm as [Hrun _]; left; exists w'; exact Hrun ]
      | exists e2, w2; split; [ exact Hev2 | ];
        unfold verdict_outcome in Hs;
        destruct (Server.accepted e2) eqn:Ea;
        [ destruct (insert_outcome
                      (Server.make_recommendation trend candidate e2) (db w))
            as [d|msg] eqn:Eo;
          destruct Hs as [Hrun _];
          [ left; exists w2'; exact Hrun
          | right; split; [ reflexivity | ]; exists msg, w2'; auto ]
        | destruct Hs as [Hrun _]; left; exists w2'; exact Hrun ] ].
    + intros total' acc' w'' Hrun.
      destruct (verdict_outcome _ _ _); destruct Hm as [Hrun' _];
        rewrite Hrun' in Hrun; [ | discriminate ].
      inversion Hrun; subst. split; [ reflexivity | ].
      destruct (Matcher.accepted e); lia.
    + intros total' acc' matched' w'' Hrun.
      destruct (verdict_outcome (Server.accepted e2) _ _);
        destruct Hs as [Hrun' _];
        rewrite Hrun' in Hrun; [ | discriminate ].
      inversion Hrun; subst. split; [ reflexivity | ].
      destruct (Server.accepted e2); lia.
    + destruct (verdict_outcome _ _ _); destruct Hm as [Hrun' _];
        rewrite Hrun'; cbn [snd]; rewrite Hreq, length_app; cbn; lia.
    + destruct (verdict_outcome (Server.accepted e2) _ _);
        destruct Hs as [Hrun' _];
        rewrite Hrun'; cbn [snd]; rewrite Hreq2, length_app; cbn; lia.
Qed.

(** C6.  The snapshot.  Let the command-line matcher run twice in
    succession on a database whose recommendations refer to trends and
    videos that exist (the foreign keys of the table); the services
    answer the same question in the same way.  The first run leaves the
    corpus as it was; the second run has the outcome of the first and
    leaves the table as the first left it; that table is what the run
    writes when it starts from an empty table, it has no two rows with
    the same key and all its rows refer to the corpus.  When the corpus
    has trends and videos, the table a run leaves does not depend on
    what the table held before: the run clears it before the first
    trend.  The handler of the server has the same properties at every
    selection that is not empty. *)
Theorem snapshot_idempotence `{Providers} (w : World) :
  referential_integrity (db w) ->
  let w1 := snd (Matcher.matchTrendsToVideos w) in
  let w2 := snd (Matcher.matchTrendsToVideos w1) in
  same_corpus (db w) (db w1)
  /\ fst (Matcher.matchTrendsToVideos w1) = fst (Matcher.matchTrendsToVideos w)
  /\ db w2 = db w1
  /\ db w2
     = db (snd (Matcher.matchTrendsToVideos (with_db w1 (db_clear (db w1)))))
  /\ NoDup (map rec_key (recommendations (db w2)))
  /\ referential_integrity (db w2)
  /\ (trends (db w) <> [] -> videos (db w) <> [] ->
      forall w', same_corpus (db w) (db w') ->
                 db (snd (Matcher.matchTrendsToVideos w')) = db w1)
  /\ (forall trendId trendIds,
         let handler := Server.match_selected (Some (trendId :: trendIds)) in
         let s1 := snd (handler w) in
         let s2 := snd (handler s1) in
         same_corpus (db w) (db s1)
         /\ fst (handler s1) = fst (handler w)
         /\ db s2 = db s1
         /\ NoDup (map rec_key (recommendations (db s2)))
         /\ referential_integrity (db s2)
         /\ (forall w', same_corpus (db w) (db w') ->
                        db (snd (handler w')) = db s1)).
Proof.
  intros Hri w1 w2.
  assert (Hserver :
            forall trendId trendIds,
              let handler := Server.match_selected
                               (Some (trendId :: trendIds)) in
              let s1 := snd (handler w) in
              let s2 := snd (handler s1) in
              same_corpus (db w) (db s1)
              /\ fst (handler s1) = fst (handler w)
              /\ db s2 = db s1
              /\ NoDup (map rec_key (recommendations (db s2)))
              /\ referential_integrity (db s2)
              /\ (forall w', same_corpus (db w) (db w') ->
                             db (snd (handler w')) = db s1)).
  { intros trendId trendIds handler s1 s2.
    destruct (@server_run_replaces _ trendId trendIds w w (same_corpus_refl _))
      as (_ & _ & Hinv).
    fold handler in Hinv. fold s1 in Hinv.
    destruct Hinv as (Hc & Hri1 & Hnd1).
    destruct (@server_run_replaces _ trendId trendIds w s1 Hc) as (Hr & Hd & _).
    fold handler in Hr, Hd. fold s2 in Hd. fold s1 in Hd.
    split; [ exact Hc | ]. split; [ exact Hr | ]. split; [ exact Hd | ].
    rewrite Hd. split; [ exact Hnd1 | ]. split; [ exact Hri1 | ].
    intros w' Hc'.
    now destruct (@server_run_replaces _ trendId trendIds w w' Hc')
      as (_ & Hd' & _). }
  destruct (trends (db w)) as [|t ts] eqn:Et.
  2: destruct (videos (db w)) as [|v vs] eqn:Ev.
  - (* no trend: both runs return at once *)
    destruct (matcher_run_unfold w) as [Hearly _].
    destruct (Hearly (or_introl Et)) as (Hr1 & Hd1 & _).
    fold w1 in Hd1.
    assert (Hrec : recommendations (db w) = [])
      by (apply integrity_empty; auto).
    destruct (matcher_run_unfold w1) as [Hearly1 _].
    destruct Hearly1 as (Hr2 & Hd2 & _); [ left; now rewrite Hd1 | ].
    fold w2 in Hd2.
    destruct (matcher_run_unfold (with_db w1 (db_clear (db w1))))
      as [Hearly2 _].
    destruct Hearly2 as (_ & Hd3 & _); [ left; cbn; now rewrite Hd1 | ].
    cbn [with_db db] in Hd3.
    split; [ rewrite Hd1; apply same_corpus_refl | ].
    split; [ congruence | ]. split; [ exact Hd2 | ].
    split; [ rewrite Hd3, Hd2, Hd1; symmetry; now apply db_clear_id | ].
    rewrite Hd2, Hd1. rewrite Hrec.
    split; [ constructor | ]. split; [ exact Hri | ].
    split; [ congruence | exact Hserver ].
  - (* no video: both runs return at once *)
    destruct (matcher_run_unfold w) as [Hearly _].
    destruct (Hearly (or_intror Ev)) as (Hr1 & Hd1 & _).
    fold w1 in Hd1.
    assert (Hrec : recommendations (db w) = [])
      by (apply integrity_empty; auto).
    destruct (matcher_run_unfold w1) as [Hearly1 _].
    destruct Hearly1 as (Hr2 & Hd2 & _); [ right; now rewrite Hd1 | ].
    fold w2 in Hd2.
    destruct (matcher_run_unfold (with_db w1 (db_clear (db w1))))
      as [Hearly2 _].
    destruct Hearly2 as (_ & Hd3 & _); [ right; cbn; now rewrite Hd1 | ].
    cbn [with_db db] in Hd3.
    split; [ rewrite Hd1; apply same_corpus_refl | ].
    split; [ congruence | ]. split; [ exact Hd2 | ].
    split; [ rewrite Hd3, Hd2, Hd1; symmetry; now apply db_clear_id | ].
    rewrite Hd2, Hd1. rewrite Hrec.
    split; [ constructor | ]. split; [ exact Hri | ].
    split; [ congruence | exact Hserver ].
  - (* trends and videos: each run clears the table and fills it *)
    assert (Ht : trends (db w) <> []) by (rewrite Et; discriminate).
    assert (Hv : videos (db w) <> []) by (rewrite Ev; discriminate).
    rewrite <- Et, <- Ev.
    destruct (@matcher_run_replaces _ w w Ht Hv (same_corpus_refl _))
      as (_ & _ & Hinv).
    fold w1 in Hinv. destruct Hinv as (Hc & Hri1 & Hnd1).
    destruct (@matcher_run_replaces _ w w1 Ht Hv Hc) as (Hr & Hd & _).
    fold w2 in Hd. fold w1 in Hd.
    assert (Hc' : same_corpus (db w) (db (with_db w1 (db_clear (db w1)))))
      by (destruct Hc as (A & B & C); repeat split; cbn; assumption).
    destruct (@matcher_run_replaces _ w (with_db w1 (db_clear (db w1))) Ht Hv Hc')
      as (_ & Hd' & _).
    fold w1 in Hd'.
    split; [ exact Hc | ]. split; [ exact Hr | ]. split; [ exact Hd | ].
    split; [ now rewrite Hd, Hd' | ].
    rewrite Hd. split; [ exact Hnd1 | ]. split; [ exact Hri1 | ].
    split; [ | exact Hserver ].
    intros _ _ w' Hcw.
    now destruct (@matcher_run_replaces _ w w' Ht Hv Hcw) as (_ & Hdw & _).
Qed.

(** The hypothesis of C6 holds in the scenario of the specification, and
    there the second run leaves the one recommendation of the first. *)
Lemma snapshot_idempotence_witness :
  let w := Scenario.world Scenario.corpus in
  let w1 := snd (@Matcher.matchTrendsToVideos Scenario.providers w) in
  let w2 := snd (@Matcher.matchTrendsToVideos Scenario.providers w1) in
  referential_integrity (db w)
  /\ db w2 = db w1
  /\ map rec_key (recommendations (db w2)) = [("T1", "V1")].
Proof.
  intros w w1 w2.
  assert (Hri : referential_integrity (db w)) by (intros r []).
  split; [ exact Hri | ].
  split.
  - exact (proj1 (proj2 (proj2
             (@snapshot_idempotence Scenario.providers w Hri)))).
  - vm_compute. reflexivity.
Defined.

(** C7.  The empty chunk store.  When [getAllChunks] returns no chunk,
    [getCandidateVideos] returns the empty list in both variants (it can
    only throw what the embedding request throws, before the store is
    read); in the server the [candidates] event of the trend reports
    zero candidates; no request goes to the model and the counters stay
    as they were.  Whatever the store holds, a group of scores is never
    empty, so the division of the mean is never by zero. *)
Theorem empty_corpus_safety `{Providers} (trend : Trend)
        (allVideos : list Video) (w : World) :
  video_chunks (db w) = [] ->
  (forall emb,
      generateEmbedding (Matcher.extractBroaderThemes trend) = Ok emb ->
      Matcher.getCandidateVideos trend allVideos w = (Ok [], w)
      /\ forall c,
          Matcher.process_trend allVideos trend c w
          = (Ok c,
             with_console
               w [console_log "Trend: " [LStr (title trend)];
                  console_log "Found candidate videos via vector search: "
                              [LNum 0];
                  console_log "" []]))
  /\ (forall emb,
         generateEmbedding (Server.extractBroaderThemes trend) = Ok emb ->
         Server.getCandidateVideos trend allVideos w
         = (Ok [], with_console w (empty_store_lines trend allVideos))
         /\ forall trendId st,
             find (fun t => String.eqb (trend_id t) trendId) (trends (db w))
             = Some trend ->
             exists note ys w',
               Server.process_trend allVideos trendId st w
               = (Ok {| Server.totalEvaluations := Server.totalEvaluations st;
                        Server.acceptedCount := Server.acceptedCount st;
                        Server.trendResults :=
                          Server.trendResults st
                          ++ [{| tr_trend := trend;
                                 tr_youtubeSuggestions := ys;
                                 tr_matchedVideos := [] |}] |}, w')
               /\ chat_requests w' = chat_requests w
               /\ response w'
                  = response w ++ [EvTrend (title trend);
                                   EvYoutube YtFetching;
                                   EvYoutube note; EvCandidates 0])
  /\ (forall e,
         (generateEmbedding (Matcher.extractBroaderThemes trend) = Throw e ->
          Matcher.getCandidateVideos trend allVideos w = (Throw e, w))
         /\ (generateEmbedding (Server.extractBroaderThemes trend) = Throw e ->
             Server.getCandidateVideos trend allVideos w = (Throw e, w)))
  /\ (forall (chunkScores : list ChunkScore) k data,
         In (k, data) (aggregate chunkScores) ->
         scores data <> []
         /\ ~ (inject_Z (Z.of_nat (length (scores data))) == 0)%Q).
Proof.
  intros Hc. split; [ | split; [ | split ] ].
  - intros emb He. split.
    + now apply matcher_getCandidateVideos_empty with (emb := emb).
    + intros c. now apply matcher_process_trend_empty with (emb := emb).
  - intros emb He. split.
    + now apply server_getCandidateVideos_empty with (emb := emb).
    + intros trendId st Hf.
      destruct (@server_process_trend_empty _ allVideos trendId trend st w
                                            emb Hc Hf He)
        as (note & ys & w' & Hrun & _ & Hreq & Hresp & _).
      exists note, ys, w'. auto.
  - intros e. split; intros He.
    + now rewrite matcher_getCandidateVideos_run, He.
    + pose proof (server_getCandidateVideos_run trend allVideos w) as R.
      now rewrite He in R.
  - intros cs k data Hin.
    apply aggregate_groups_nonempty in Hin.
    destruct Hin as (_ & _ & Hne & _). split; [ exact Hne | ].
    destruct (scores data); [ congruence | ].
    unfold Qeq. cbn. lia.
Qed.

(** The hypothesis of C7 holds in the corpus without chunks, and there
    the retrieval of the server returns no candidate. *)
Lemma empty_corpus_safety_witness :
  let w := Scenario.world Scenario.corpus_without_chunks in
  video_chunks (db w) = []
  /\ fst (@Server.getCandidateVideos Scenario.providers Scenario.T1
                                     [Scenario.V1] w) = Ok [].
Proof.
  intros w. split; [ reflexivity | ].
  destruct (@empty_corpus_safety Scenario.providers Scenario.T1
                                 [Scenario.V1] w eq_refl)
    as (_ & Hserver & _).
  destruct (Hserver [1%Q] eq_refl) as [Hrun _].
  rewrite Hrun. reflexivity.
Defined.

(** C8, as amended.  After a run of the server handler at a selection
    that is not empty, and after a run of the command-line matcher that
    gets past its early returns, every row of the recommendations table
    refers to a trend and to a video of the corpus (a run that returns
    early leaves the table as it was).  A chunk whose video is not in the
    video table has no part in the candidates: the ranking is the one of
    the store without such chunks, and the video of every candidate is
    in the table.  A selected identifier that has no trend is passed
    over: the counters, the database, the response and the console are
    left as they were, and the loop goes on with the remaining
    identifiers. *)
Theorem referential_integrity_kept `{Providers} (w : World) :
  (forall trendId trendIds,
      referential_integrity
        (db (snd (Server.match_selected (Some (trendId :: trendIds)) w))))
  /\ ((trends (db w) = [] \/ videos (db w) = []) /\
      db (snd (Matcher.matchTrendsToVideos w)) = db w
      \/ referential_integrity (db (snd (Matcher.matchTrendsToVideos w))))
  /\ (forall n emb allChunks allVideos,
         ranked_candidates
           n emb
           (filter (fun c => known_video allVideos (chunk_video_id c))
                   allChunks)
           allVideos
         = ranked_candidates n emb allChunks allVideos
         /\ forall c, In c (ranked_candidates n emb allChunks allVideos) ->
                      In (video c) allVideos)
  /\ (forall allVideos trendId st rest,
         find (fun t => String.eqb (trend_id t) trendId) (trends (db w))
         = None ->
         Server.process_trend allVideos trendId st w = (Ok st, w)
         /\ for_each (trendId :: rest) (Server.process_trend allVideos) st w
            = for_each rest (Server.process_trend allVideos) st w).
Proof.
  split; [ | split; [ | split ] ].
  - intros trendId trendIds.
    destruct (@server_run_replaces _ trendId trendIds w w
                                   (same_corpus_refl _))
      as (_ & _ & _ & Hri & _).
    exact Hri.
  - destruct (trends (db w)) as [|t ts] eqn:Et.
    2: destruct (videos (db w)) as [|v vs] eqn:Ev.
    + left. split; [ now left | ].
      destruct (matcher_run_unfold w) as [Hearly _].
      now destruct (Hearly (or_introl Et)) as (_ & Hd & _).
    + left. split; [ now right | ].
      destruct (matcher_run_unfold w) as [Hearly _].
      now destruct (Hearly (or_intror Ev)) as (_ & Hd & _).
    + right.
      assert (Ht : trends (db w) <> []) by (rewrite Et; discriminate).
      assert (Hv : videos (db w) <> []) by (rewrite Ev; discriminate).
      destruct (@matcher_run_replaces _ w w Ht Hv (same_corpus_refl _))
        as (_ & _ & _ & Hri & _).
      exact Hri.
  - intros n emb allChunks allVideos. split.
    + apply ranked_candidates_drop.
    + intros c Hc. now apply ranked_candidate_spec in Hc.
  - intros allVideos trendId st rest Hf.
    assert (Hskip : Server.process_trend allVideos trendId st w = (Ok st, w)).
    { unfold Server.process_trend, DB.getTrend, DB.read, bind.
      now rewrite Hf. }
    split; [ exact Hskip | ].
    cbn [for_each]. unfold bind at 1. now rewrite Hskip.
Qed.

(** C8, as stated, fails on its log: an identifier without a trend is
    passed over without a line on the console.  In the scenario, the
    selection of the one identifier [ghost] leaves on the console the
    line of the database constructor and nothing else, and the response
    holds the [start] and the [complete] event only. *)
Lemma skipped_trend_is_not_logged :
  ~ (forall (P : Providers) allVideos trendId st w,
        find (fun t => String.eqb (trend_id t) trendId) (trends (db w))
        = None ->
        console (snd (Server.process_trend allVideos trendId st w))
        <> console w)
  /\ (let w' := snd (@Server.match_selected
                       Scenario.providers (Some ["ghost"])
                       (Scenario.world Scenario.corpus)) in
      console w' = [console_log "Database path: " [LStr DB.DB_PATH]]
      /\ response w' = [EvStart 1; EvComplete 0 0 0 []]).
Proof.
  split.
  - intros Hclaim.
    apply (Hclaim Scenario.providers [Scenario.V1] "ghost"
                  {| Server.totalEvaluations := 0;
                     Server.acceptedCount := 0;
                     Server.trendResults := [] |}
                  (Scenario.world Scenario.corpus));
      vm_compute; reflexivity.
  - vm_compute. split; reflexivity.
Qed.

(** C9.  The contract of the cosine similarity, over the real numbers.
    For two vectors of the same length, the similarity is the dot
    product divided by the product of the magnitudes when neither
    magnitude is zero, and 0 when either is; it lies between -1 and 1;
    it is symmetric; it is 1 for a vector and itself when the vector is
    not the zero vector (its magnitude is zero exactly when all its
    components are); it is 0 for orthogonal vectors. *)
Theorem cosine_similarity_contract (a b : list R) :
  length a = length b ->
  (Embeddings.magnitude a <> 0 -> Embeddings.magnitude b <> 0 ->
   Embeddings.cosineSimilarity a b
   = Embeddings.dot a b / (Embeddings.magnitude a * Embeddings.magnitude b))%R
  /\ (-1 <= Embeddings.cosineSimilarity a b <= 1)%R
  /\ (Embeddings.magnitude a = 0 \/ Embeddings.magnitude b = 0 ->
      Embeddings.cosineSimilarity a b = 0)%R
  /\ Embeddings.cosineSimilarity a b = Embeddings.cosineSimilarity b a
  /\ (Embeddings.magnitude a <> 0 -> Embeddings.cosineSimilarity a a = 1)%R
  /\ (Embeddings.magnitude a = 0 <-> Forall (fun x => x = 0) a)%R
  /\ (Embeddings.dot a b = 0 -> Embeddings.cosineSimilarity a b = 0)%R.
Proof.
  intros _.
  split; [ apply cosine_nonzero | ].
  split; [ apply cosine_range | ].
  split; [ apply cosine_zero | ].
  split; [ apply cosine_sym | ].
  split; [ apply cosine_self | ].
  split; [ apply magnitude_zero | apply cosine_orthogonal ].
Qed.

(** Two orthogonal unit vectors of length two: the hypothesis of C9
    holds and their similarity is 0. *)
Lemma cosine_similarity_contract_witness :
  length [1%R; 0%R] = length [0%R; 1%R]
  /\ Embeddings.cosineSimilarity [1%R; 0%R] [0%R; 1%R] = 0%R.
Proof.
  split; [ reflexivity | ].
  apply (cosine_similarity_contract [1%R; 0%R] [0%R; 1%R] eq_refl).
  cbn. Lra.lra.
Defined.

(** C10, as amended.  For every text, [chunkText] returns (the loop runs
    once per window, its start advancing by 1000 - 150 = 850 each time);
    chunk [i] is the text from [850 i] on, cut at 1000 code units, so no
    chunk is longer than 1000; a chunk followed by at least two more has
    exactly 1000 code units and one followed by at least one more has
    more than 850; consecutive chunks share the tail of the first beyond
    its 850th code unit, which is 150 code units when two more chunks
    follow and between 1 and 150 otherwise; every code unit of the text
    is in the chunk of its quotient by 850; the empty text gives no
    chunk. *)
Theorem chunkText_windows (char : Type) (text : list char) :
  let step := Ingest.CHUNK_SIZE - Ingest.CHUNK_OVERLAP in
  exists chunks : list (list char),
    Ingest.chunkText text = Some chunks
    /\ step = 850
    /\ length chunks = windows_count step (length text)
    /\ (forall i, i < length chunks ->
          nth i chunks [] =
          Ingest.substring text (i * step)
                           (Nat.min (i * step + Ingest.CHUNK_SIZE)
                                    (length text)))
    /\ (forall i, i < length chunks ->
          length (nth i chunks []) <= Ingest.CHUNK_SIZE)
    /\ (forall i, S i < length chunks -> step < length (nth i chunks []))
    /\ (forall i, S (S i) < length chunks ->
          length (nth i chunks []) = Ingest.CHUNK_SIZE)
    /\ (forall i, S i < length chunks ->
          skipn step (nth i chunks [])
          = firstn (length (nth i chunks []) - step) (nth (S i) chunks [])
          /\ 0 < length (nth i chunks []) - step <= Ingest.CHUNK_OVERLAP)
    /\ (forall i, S (S i) < length chunks ->
          length (nth i chunks []) - step = Ingest.CHUNK_OVERLAP)
    /\ (forall j, j < length text ->
          j / step < length chunks
          /\ nth_error (nth (j / step) chunks []) (j mod step)
             = nth_error text j)
    /\ (text = [] -> chunks = []).
Proof.
  intros step. subst step.
  destruct chunk_constants as (Hlt & Hpos & Hhalf & H850).
  set (step := Ingest.CHUNK_SIZE - Ingest.CHUNK_OVERLAP) in *.
  set (n := windows_count step (length text)).
  exists (map (window Ingest.CHUNK_SIZE step text) (seq 0 n)).
  assert (Hlen : length (map (window Ingest.CHUNK_SIZE step text) (seq 0 n))
                 = n) by (now rewrite length_map, length_seq).
  rewrite Hlen.
  pose proof (step_pos Hlt) as Hs.
  pose proof (windows_count_0 Hlt) as W0.
  pose proof (@windows_count_bounds _ _ Hlt (length text)) as WB.
  pose proof (fun i => @window_shape char _ _ Hlt text i Hpos Hhalf) as Hshape.
  pose proof (@window_covers char _ _ Hlt text) as Hcov.
  pose proof (@window_overlap char _ _ Hlt text) as Hover.
  pose proof (@substring_window char _ _ Hlt text) as Hsub.
  pose proof (@chunkText_loop_total char _ _ Hlt text) as Htot.
  cbv zeta in Hshape.
  change (Ingest.CHUNK_SIZE - Ingest.CHUNK_OVERLAP) with step
    in Hs, W0, WB, Hshape, Hcov, Hover, Hsub, Htot.
  fold n in WB, Hshape, Hcov, Htot.
  split; [ exact Htot | ].
  split; [ exact H850 | ].
  split; [ reflexivity | ].
  split.
  { intros i Hi. rewrite nth_windows by exact Hi.
    symmetry. apply Hsub.
    destruct (Nat.eq_dec (length text) 0) as [E|NE].
    - unfold n in Hi. rewrite E, W0 in Hi. lia.
    - destruct WB as (A & B & C); [ lia | ]. nia. }
  split.
  { intros i Hi. rewrite nth_windows by exact Hi. now apply Hshape. }
  split.
  { intros i Hi. rewrite nth_windows by lia. apply Hshape; lia. }
  split.
  { intros i Hi. rewrite nth_windows by lia. apply Hshape; lia. }
  split.
  { intros i Hi. rewrite !nth_windows by lia.
    split; [ apply Hover | ].
    destruct (Hshape i) as (A & B & _); [ lia | ].
    specialize (B Hi). unfold step in *. lia. }
  split.
  { intros i Hi. rewrite nth_windows by lia.
    destruct (Hshape i) as (_ & _ & C); [ lia | ].
    rewrite (C Hi). unfold step. lia. }
  split.
  { intros j Hj.
    destruct (Hcov j Hj) as (A & B).
    split; [ exact A | ].
    rewrite nth_windows by exact A. exact B. }
  intros ->. unfold n. cbn [length]. rewrite W0. reflexivity.
Qed.

(** C10, as stated, fails: a text of 900 code units is cut into a chunk
    of 900 and a chunk of 50, so the chunk before the last one has fewer
    than 1000 code units, and the two chunks share 50 code units, not
    150. *)
Lemma chunkText_partial_chunk_before_last :
  ~ (forall (text : list ascii) (chunks : list (list ascii)) (i : nat),
        Ingest.chunkText text = Some chunks ->
        S i < length chunks ->
        length (nth i chunks []) = Ingest.CHUNK_SIZE)
  /\ (exists c0 c1 : list ascii,
         Ingest.chunkText (repeat "a"%char 900) = Some [c0; c1]
         /\ length c0 = 900 /\ length c1 = 50
         /\ skipn 850 c0 = c1).
Proof.
  assert (E : Ingest.chunkText (repeat "a"%char 900)
              = Some [repeat "a"%char 900; repeat "a"%char 50])
    by (vm_compute; reflexivity).
  split.
  - intros H.
    specialize (H _ _ 0 E ltac:(cbn; lia)).
    cbn [nth] in H. rewrite repeat_length in H.
    apply (f_equal (Nat.eqb 900)) in H. vm_compute in H. discriminate H.
  - exists (repeat "a"%char 900), (repeat "a"%char 50).
    split; [ exact E | ].
    repeat split; vm_compute; reflexivity.
Qed.

(* ================================================================== *)
(** * Part IV: the pipeline on the scenario                           *)
(* ================================================================== *)

Section ScenarioRuns.

Let P : Providers := Scenario.providers.
Let w0 : World := Scenario.world Scenario.corpus.

(** Sums and quotients of doubles: 0.1 + 0.2 is the double above 0.3,
    and a third of 0.1 + 0.2 + 0.3 is the double above 0.2. *)
Example scenario_numbers :
  let d := Js.round64 in
  d 0.1%Q = (3602879701896397 # 36028797018963968)%Q
  /\ Js.add (d 0.1%Q) (d 0.2%Q) = (1351079888211149 # 4503599627370496)%Q
  /\ (d 0.3%Q < Js.add (d 0.1%Q) (d 0.2%Q))%Q
  /\ average [d 0.1%Q; d 0.2%Q; d 0.3%Q]
     = (7205759403792795 # 36028797018963968)%Q
  /\ (d 0.2%Q < average [d 0.1%Q; d 0.2%Q; d 0.3%Q])%Q
  /\ average [d 0.2%Q] = d 0.2%Q
  /\ d (9007199254740993 # 1)%Q = (9007199254740992 # 1)%Q.
Proof. vm_compute. repeat split; reflexivity. Qed.

(** The retrieval ranks V1 (mean 0.9 of the similarities 1 and 0.8)
    before V2 (0.3) and passes over the chunk of the video that is not
    in the table. *)
Example scenario_ranking :
  @Matcher.getCandidateVideos P Scenario.T1 [Scenario.V1; Scenario.V2] w0
  = (Ok [ {| video := Scenario.V1;
             avgSimilarity := Js.round64 0.9%Q;
             topChunks := ["v1 first"; "v1 second"] |};
          {| video := Scenario.V2;
             avgSimilarity := Js.round64 0.3%Q;
             topChunks := ["v2 first"] |} ], w0).
Proof. vm_compute. reflexivity. Qed.

(** A video with the similarities 0.1, 0.2 and 0.3 is ranked before a
    video with the one similarity 0.2: its mean, as doubles give it, is
    the double above 0.2. *)
Example scenario_rounded_mean :
  let d := Js.round64 in
  let chunks_ := [Scenario.mk_chunk "V2" 0 "a" (d 0.2%Q);
                  Scenario.mk_chunk "V1" 0 "b" (d 0.1%Q);
                  Scenario.mk_chunk "V1" 1 "c" (d 0.2%Q);
                  Scenario.mk_chunk "V1" 2 "d" (d 0.3%Q)] in
  map (fun c => (video_id (video c), avgSimilarity c))
      (@ranked_candidates P 3 [1%Q] chunks_ [Scenario.V1; Scenario.V2])
  = [("V1", (7205759403792795 # 36028797018963968)%Q);
     ("V2", (3602879701896397 # 18014398509481984)%Q)].
Proof. vm_compute. reflexivity. Qed.

(** The matcher accepts V1 and rejects V2, whose answer fails the
    structure check: one row, and the summary 2 / 1 / 1. *)
Example scenario_matcher_run :
  let w' := snd (@Matcher.matchTrendsToVideos P w0) in
  map rec_key (recommendations (db w')) = [("T1", "V1")]
  /\ length (chat_requests w') = 2
  /\ skipn 10 (console w') = summary_lines 2 1 1.
Proof. vm_compute. repeat split; reflexivity. Qed.

(** The events of the handler for a selection with an identifier that
    has no trend. *)
Example scenario_server_run :
  map (fun e => match e with
                | EvComplete t a r _ => EvComplete t a r []
                | _ => e
                end)
      (response (snd (@Server.match_selected P (Some ["ghost"; "T1"]) w0)))
  = [EvStart 2; EvTrend "AI layoffs"; EvYoutube YtFetching;
     EvYoutube YtUnavailable; EvCandidates 2;
     EvAccepted "Is an MBA worth it" (0.8%Q, 0.8%Q, 0.1%Q);
     EvRejected "Salary and CTC"; EvComplete 2 1 1 []].
Proof. vm_compute. reflexivity. Qed.

(** With a key of the YouTube Data API, the lookup of the trend asks the
    model for a search query before the candidates are evaluated. *)
Example scenario_youtube :
  let w' := snd (@Server.match_selected Scenario.providers_with_youtube
                   (Some ["T1"]) w0) in
  topic_requests w' = ["AI layoffs"]
  /\ length (chat_requests w') = 2
  /\ firstn 4 (response w')
     = [EvStart 1; EvTrend "AI layoffs"; EvYoutube YtFetching;
        EvYoutube (YtFound 2)]
  /\ firstn 3 (console w')
     = [console_log "Database path: " [LStr DB.DB_PATH];
        console_log "AI-powered YouTube Query: "
                    [LStr "AI layoffs"; LStr "AI layoffs"];
        console_log "Filtering videos published after: "
                    [LStr "12/18/2025"]]
  /\ YouTube.fallback_topic "Sensex falls 800 points - what next | Mint"
     = "Sensex falls 800 points".
Proof. vm_compute. repeat split; reflexivity. Qed.

(** The cascade of the server: an answer wrapped in prose is cut down to
    its braces, a truncated answer is repaired, and a provider that
    cannot be reached gives the sentinel. *)
Example scenario_cascade :
  let accepted_evaluation :=
    {| semantic_relevance := 0.8%Q; intro_support := 0.8%Q;
       honesty_risk := 0.1%Q; allowed := true;
       titles := JArr [JStr "A"]; thumbnails := JArr [JStr "B"];
       notes := JStr "ok" |} in
  Server.brace_cleanup Scenario.wrapped_json = Scenario.accept_json
  /\ fst (@Server.evaluateWithLLM P Scenario.T1 Scenario.V3 [] w0)
     = Ok accepted_evaluation
  /\ fst (@Server.evaluateWithLLM P Scenario.T1 Scenario.V4 [] w0)
     = Ok accepted_evaluation
  /\ fst (@Server.evaluateWithLLM P Scenario.T1
                                  (Scenario.mk_video "V9" "Unknown") [] w0)
     = Ok (conservative_rejection "Evaluation failed: Request timed out")
  /\ fst (@Matcher.evaluateWithLLM P Scenario.T1 Scenario.V4 [] w0)
     = Ok (conservative_rejection "Evaluation failed").
Proof. vm_compute. repeat split; reflexivity. Qed.

(** With the embedding provider down, the retrieval throws in both
    variants, the matcher is aborted and the handler answers with an
    error event. *)
Example scenario_offline :
  @Matcher.getCandidateVideos Scenario.providers_offline
                              Scenario.T1 [Scenario.V1] w0
  = (Throw "Connection error", w0)
  /\ fst (@Matcher.matchTrendsToVideos Scenario.providers_offline w0)
     = Throw "Connection error"
  /\ response (snd (@Server.match_selected Scenario.providers_offline
                      (Some ["T1"]) w0))
     = [EvStart 1; EvTrend "AI layoffs"; EvYoutube YtFetching;
        EvYoutube YtUnavailable; EvError "Connection error"].
Proof. vm_compute. repeat split; reflexivity. Qed.

(** Texts of 1800 and of 2000 code units. *)
Example scenario_chunk_lengths :
  option_map (map (@length nat)) (Ingest.chunkText (repeat 0 1800))
  = Some [1000; 950; 100]
  /\ option_map (map (@length nat)) (Ingest.chunkText (repeat 0 2000))
     = Some [1000; 1000; 300].
Proof. split; vm_compute; reflexivity. Qed.

End ScenarioRuns.

(* ================================================================== *)
(** * Part V: the rest of the code                                    *)
(* ================================================================== *)

(** ** Tables under a primary key *)

Section TableRows.

Variables (A K : Type) (key : A -> K) (same : A -> A -> bool).
Hypothesis same_spec : forall a b, same a b = true <-> key a = key b.

Lemma table_insert_In (row x : A) (rows : list A) :
  In x (Table.insert_or_replace same row rows)
  <-> x = row \/ (In x rows /\ key x <> key row).
Proof.
  unfold Table.insert_or_replace. rewrite in_app_iff, filter_In. cbn.
  rewrite negb_true_iff. split.
  - intros [[Hin Hk]|[E|[]]]; [ right | left; now symmetry ].
    split; [ exact Hin | ]. intros E. apply same_spec in E. congruence.
  - intros [->|[Hin Hk]]; [ right; now left | left ].
    split; [ exact Hin | ].
    destruct (same x row) eqn:E; [ | reflexivity ].
    apply same_spec in E. contradiction.
Qed.

Lemma table_insert_keys (row : A) (rows : list A) (k : K) :
  In k (map key (Table.insert_or_replace same row rows))
  <-> k = key row \/ In k (map key rows).
Proof.
  rewrite !in_map_iff. split.
  - intros (x & <- & Hx). apply table_insert_In in Hx.
    destruct Hx as [->|[Hx _]]; [ now left | right; eauto ].
  - intros [->|(x & <- & Hx)].
    + exists row. split; [ reflexivity | ]. apply table_insert_In. now left.
    + destruct (same x row) eqn:E.
      * apply same_spec in E. exists row. split; [ now symmetry | ].
        apply table_insert_In. now left.
      * exists x. split; [ reflexivity | ]. apply table_insert_In. right.
        split; [ exact Hx | ]. intros Ek. apply same_spec in Ek. congruence.
Qed.

Lemma table_insert_NoDup (row : A) (rows : list A) :
  NoDup (map key rows) ->
  NoDup (map key (Table.insert_or_replace same row rows)).
Proof.
  intros Hnd. unfold Table.insert_or_replace. rewrite map_app. cbn.
  apply NoDup_app.
  - induction rows as [|r rows IH]; cbn; [ constructor | ].
    inversion Hnd as [|? ? Hnotin Hnd']; subst.
    destruct (negb (same r row)); cbn; [ | now apply IH ].
    constructor; [ | now apply IH ].
    intros Hin. apply Hnotin.
    apply in_map_iff in Hin. destruct Hin as (r' & E & Hin).
    apply filter_In in Hin. destruct Hin as [Hin _].
    rewrite <- E. now apply in_map.
  - repeat constructor. intros [].
  - intros k Hin [E|[]]. subst k.
    apply in_map_iff in Hin. destruct Hin as (r & E & Hin).
    apply filter_In in Hin. destruct Hin as [_ Hneq].
    apply same_spec in E. rewrite E in Hneq. discriminate.
Qed.

Lemma table_insert_length (row : A) (rows : list A) :
  length (Table.insert_or_replace same row rows) <= S (length rows).
Proof.
  unfold Table.insert_or_replace. rewrite length_app. cbn.
  pose proof (filter_length_le (fun r => negb (same r row)) rows). lia.
Qed.

(** A selection of rows by a test that the new row fails, and that
    every row it replaces fails, is as it was. *)
Lemma table_insert_filter_other (p : A -> bool) (row : A) (rows : list A) :
  p row = false ->
  (forall x, same x row = true -> p x = false) ->
  filter p (Table.insert_or_replace same row rows) = filter p rows.
Proof.
  intros Hrow Hsame. unfold Table.insert_or_replace.
  rewrite filter_app. cbn. rewrite Hrow, app_nil_r.
  induction rows as [|r rows IH]; cbn; [ reflexivity | ].
  destruct (same r row) eqn:E; cbn.
  - rewrite (Hsame r E). exact IH.
  - destruct (p r); [ now rewrite IH | exact IH ].
Qed.

End TableRows.

Section TableLookups.

Variables (A : Type) (key : A -> string).

Let same (a b : A) : bool := String.eqb (key a) (key b).

Lemma find_insert_same (row : A) (rows : list A) :
  find (fun r => String.eqb (key r) (key row))
       (Table.insert_or_replace same row rows) = Some row.
Proof.
  unfold Table.insert_or_replace.
  induction rows as [|r rows IH]; cbn.
  - now rewrite String.eqb_refl.
  - unfold same at 1. destruct (String.eqb (key r) (key row)) eqn:E; cbn.
    + exact IH.
    + rewrite E. exact IH.
Qed.

Lemma find_insert_other (row : A) (rows : list A) (k : string) :
  k <> key row ->
  find (fun r => String.eqb (key r) k)
       (Table.insert_or_replace same row rows)
  = find (fun r => String.eqb (key r) k) rows.
Proof.
  intros Hk. unfold Table.insert_or_replace.
  induction rows as [|r rows IH]; cbn.
  - destruct (String.eqb_spec (key row) k); [ congruence | reflexivity ].
  - unfold same at 1. destruct (String.eqb_spec (key r) (key row)) as [E|E]; cbn.
    + destruct (String.eqb_spec (key r) k); [ congruence | exact IH ].
    + destruct (String.eqb (key r) k); [ reflexivity | exact IH ].
Qed.

End TableLookups.

(** ** Strings *)

Lemma all_units_app (p : ascii -> bool) (s1 s2 : string) :
  all_units p (s1 ++ s2) = all_units p s1 && all_units p s2.
Proof.
  induction s1 as [|c s1 IH]; cbn; [ reflexivity | ].
  now rewrite IH, andb_assoc.
Qed.

Lemma all_units_impl (p q : ascii -> bool) (s : string) :
  (forall c, p c = true -> q c = true) ->
  all_units p s = true -> all_units q s = true.
Proof.
  intros Hpq. induction s as [|c s IH]; cbn; [ reflexivity | ].
  rewrite !andb_true_iff. intros [Hc Hs]. auto.
Qed.

Lemma all_units_map (p : ascii -> bool) (f : ascii -> ascii) (s : string) :
  (forall c, p (f c) = true) -> all_units p (Text.map_units f s) = true.
Proof.
  intros Hf. induction s as [|c s IH]; cbn; [ reflexivity | ].
  now rewrite Hf, IH.
Qed.

Lemma map_units_id (p : ascii -> bool) (f : ascii -> ascii) (s : string) :
  (forall c, p c = true -> f c = c) ->
  all_units p s = true -> Text.map_units f s = s.
Proof.
  intros Hf. induction s as [|c s IH]; cbn; [ reflexivity | ].
  rewrite andb_true_iff. intros [Hc Hs]. now rewrite Hf, IH.
Qed.

Lemma map_units_length (f : ascii -> ascii) (s : string) :
  String.length (Text.map_units f s) = String.length s.
Proof. induction s as [|c s IH]; cbn; congruence. Qed.

(** The pieces of [split] hold the code units of the string that are
    not white space. *)
Lemma split_ws_nonempty (s : string) : Text.split_ws s <> [].
Proof.
  induction s as [|c s IH]; cbn; [ discriminate | ].
  destruct (Text.is_space c).
  - destruct s as [|c' s']; [ discriminate | ].
    destruct (Text.is_space c'); [ exact IH | discriminate ].
  - destruct (Text.split_ws s); [ contradiction | discriminate ].
Qed.

Lemma split_ws_units (q : ascii -> bool) (s : string) :
  all_units (fun c => Text.is_space c || q c) s = true ->
  Forall (fun w => all_units (fun c => negb (Text.is_space c) && q c) w = true)
         (Text.split_ws s).
Proof.
  induction s as [|c s IH]; cbn [all_units Text.split_ws].
  - intros _. repeat constructor.
  - rewrite andb_true_iff. intros [Hc Hs]. specialize (IH Hs).
    destruct (Text.is_space c) eqn:Ec.
    + destruct s as [|c' s']; [ repeat constructor | ].
      destruct (Text.is_space c'); [ exact IH | ].
      constructor; [ reflexivity | exact IH ].
    + pose proof (split_ws_nonempty s) as Hne.
      destruct (Text.split_ws s) as [|w ws]; [ contradiction | ].
      inversion IH as [|? ? Hw Hws]; subst.
      constructor; [ | exact Hws ].
      cbn. rewrite Ec, Hw. cbn in Hc. now rewrite Hc.
Qed.

Lemma blank_other_units (s : string) :
  all_units (fun c => Text.is_space c || Text.is_lower_alnum c)
            (Text.blank_other s) = true.
Proof.
  apply all_units_map. intros c.
  destruct (Text.is_lower_alnum c) eqn:Ea; cbn.
  - rewrite Ea. apply orb_true_r.
  - destruct (Text.is_space c) eqn:Es; [ now rewrite Es | reflexivity ].
Qed.

(** ** trends.ts: keywords and identifiers *)

Lemma lower_unit_fixed (c : ascii) :
  Text.is_lower_alnum c || Text.is_space c || Ascii.eqb c "," = true ->
  Text.lower_unit c = c.
Proof.
  destruct c as [[] [] [] [] [] [] [] []]; vm_compute;
    (reflexivity || discriminate).
Qed.

Lemma alnum_not_space (c : ascii) :
  Text.is_lower_alnum c = true -> Text.is_space c = false.
Proof.
  destruct c as [[] [] [] [] [] [] [] []]; vm_compute;
    (reflexivity || discriminate).
Qed.

Lemma map_units_app (f : ascii -> ascii) (s1 s2 : string) :
  Text.map_units f (s1 ++ s2)
  = (Text.map_units f s1 ++ Text.map_units f s2)%string.
Proof. induction s1 as [|c s1 IH]; cbn; [ reflexivity | now rewrite IH ]. Qed.

Lemma Forall_firstn {A : Type} (P : A -> Prop) (n : nat) (l : list A) :
  Forall P l -> Forall P (firstn n l).
Proof.
  intros Hl. revert n. induction Hl as [|x l Hx Hl IH]; intros [|n]; cbn;
    constructor; auto.
Qed.

(** A word without white space is the one piece of its split. *)
Lemma split_ws_word (w : string) :
  all_units (fun c => negb (Text.is_space c)) w = true ->
  Text.split_ws w = [w].
Proof.
  induction w as [|c w IH]; cbn; [ reflexivity | ].
  rewrite andb_true_iff, negb_true_iff. intros [Hc Hw].
  now rewrite Hc, IH.
Qed.

(** The split of a word, two units of white space and a text that begins
    with a word. *)
Lemma split_ws_cons (w s : string) (c : ascii) :
  all_units (fun c => negb (Text.is_space c)) w = true ->
  Text.is_space c = false ->
  Text.split_ws (w ++ "  " ++ String c s) = w :: Text.split_ws (String c s).
Proof.
  intros Hw Hc. induction w as [|a w IH].
  - cbn [append Text.split_ws].
    change (Text.is_space " ") with true. cbn iota. now rewrite Hc.
  - cbn [all_units] in Hw. rewrite andb_true_iff, negb_true_iff in Hw.
    destruct Hw as [Ha Hw].
    change (String a w ++ "  " ++ String c s)%string
      with (String a (w ++ "  " ++ String c s)).
    cbn [Text.split_ws]. rewrite Ha, (IH Hw). reflexivity.
Qed.

Lemma split_ws_join (ws : list string) :
  ws <> [] ->
  Forall (fun w => w <> "" /\
                   all_units (fun c => negb (Text.is_space c)) w = true) ws ->
  Text.split_ws (Text.join "  " ws) = ws.
Proof.
  intros Hne Hws. induction Hws as [|w ws [Hw Hsp] Hws IH]; [ contradiction | ].
  destruct ws as [|w' ws'].
  - cbn. now apply split_ws_word.
  - change (Text.join "  " (w :: w' :: ws'))
      with (w ++ "  " ++ Text.join "  " (w' :: ws'))%string.
    assert (Hj : exists c s, Text.join "  " (w' :: ws') = String c s
                             /\ Text.is_space c = false).
    { inversion Hws as [|? ? [Hw' Hsp'] _]; subst.
      destruct w' as [|c s]; [ contradiction | ].
      cbn in Hsp'. rewrite andb_true_iff, negb_true_iff in Hsp'.
      destruct ws'; cbn; eexists; eexists; split; try reflexivity; tauto. }
    destruct Hj as (c & s & Ej & Hc). rewrite Ej.
    rewrite split_ws_cons by assumption.
    rewrite <- Ej, IH by discriminate. reflexivity.
Qed.

Lemma blank_other_join (ws : list string) :
  Forall (fun w => all_units Text.is_lower_alnum w = true) ws ->
  Text.blank_other (Text.join ", " ws) = Text.join "  " ws.
Proof.
  assert (Hword : forall w, all_units Text.is_lower_alnum w = true ->
                            Text.blank_other w = w).
  { intros w Hw. unfold Text.blank_other.
    apply map_units_id with (p := Text.is_lower_alnum); [ | exact Hw ].
    intros c Hc. now rewrite Hc. }
  induction 1 as [|w ws Hw Hws IH]; [ reflexivity | ].
  destruct ws as [|w' ws'].
  - cbn. now apply Hword.
  - change (Text.join ", " (w :: w' :: ws'))
      with (w ++ ", " ++ Text.join ", " (w' :: ws'))%string.
    assert (Happ : forall s1 s2, Text.blank_other (s1 ++ s2)
                                 = (Text.blank_other s1
                                    ++ Text.blank_other s2)%string)
      by (intros; apply map_units_app).
    rewrite !Happ, (Hword w Hw), IH. reflexivity.
Qed.

Lemma lower_join (ws : list string) :
  Forall (fun w => all_units Text.is_lower_alnum w = true) ws ->
  Text.toLowerCase (Text.join ", " ws) = Text.join ", " ws.
Proof.
  intros Hws. unfold Text.toLowerCase.
  apply map_units_id
    with (p := fun c => Text.is_lower_alnum c || Text.is_space c
                        || Ascii.eqb c ",");
    [ apply lower_unit_fixed | ].
  induction Hws as [|w ws Hw Hws IH]; [ reflexivity | ].
  assert (Hw' : all_units (fun c => Text.is_lower_alnum c || Text.is_space c
                                    || Ascii.eqb c ",") w = true).
  { eapply all_units_impl; [ | exact Hw ]. intros c ->. reflexivity. }
  destruct ws as [|w' ws']; [ exact Hw' | ].
  change (Text.join ", " (w :: w' :: ws'))
    with (w ++ ", " ++ Text.join ", " (w' :: ws'))%string.
  rewrite !all_units_app, Hw', IH. reflexivity.
Qed.

(** The words that [extractKeywords] keeps. *)
Lemma keywords_kept (title_ : string) :
  Forall (fun w => 3 < String.length w
                   /\ all_units Text.is_lower_alnum w = true
                   /\ existsb (String.eqb w) Trends.stopWords = false)
         (filter (fun w => (3 <? String.length w)
                           && negb (existsb (String.eqb w) Trends.stopWords))
                 (Text.split_ws
                    (Text.blank_other (Text.toLowerCase title_)))).
Proof.
  apply Forall_forall. intros w Hw. apply filter_In in Hw.
  destruct Hw as [Hin Hkeep].
  rewrite andb_true_iff, negb_true_iff, Nat.ltb_lt in Hkeep.
  destruct Hkeep as [Hlen Hstop]. repeat split; try assumption.
  pose proof (@split_ws_units Text.is_lower_alnum _
                              (blank_other_units (Text.toLowerCase title_)))
    as Hall.
  rewrite Forall_forall in Hall. specialize (Hall w Hin).
  eapply all_units_impl; [ | exact Hall ].
  intros c Hc. apply andb_true_iff in Hc. tauto.
Qed.

Lemma filter_all {A : Type} (p : A -> bool) (l : list A) :
  Forall (fun x => p x = true) l -> filter p l = l.
Proof.
  induction 1 as [|x l Hx Hl IH]; cbn; [ reflexivity | ].
  now rewrite Hx, IH.
Qed.

(** X1.  extractKeywords.  The keywords of a title are at most ten words,
    joined by a comma and a space; each word has more than three code
    units, all of them lower-case letters or digits, and is not a stop
    word.  The keywords of a text of keywords are that text. *)
Theorem extractKeywords_words (title_ : string) :
  (exists words : list string,
      Trends.extractKeywords title_ = Text.join ", " words
      /\ length words <= 10
      /\ Forall (fun w => 3 < String.length w
                          /\ all_units Text.is_lower_alnum w = true
                          /\ ~ In w Trends.stopWords) words)
  /\ Trends.extractKeywords (Trends.extractKeywords title_)
     = Trends.extractKeywords title_.
Proof.
  pose proof (keywords_kept title_) as Hkept.
  unfold Trends.extractKeywords at 1 3 4.
  set (kept := filter _ (Text.split_ws
                           (Text.blank_other (Text.toLowerCase title_))))
    in *.
  set (words := slice0 10 kept).
  assert (Hwords : Forall (fun w => 3 < String.length w
                                    /\ all_units Text.is_lower_alnum w = true
                                    /\ existsb (String.eqb w) Trends.stopWords
                                       = false) words)
    by (apply Forall_firstn; exact Hkept).
  assert (Hlen : length words <= 10)
    by (unfold words, slice0; rewrite length_firstn; lia).
  split.
  - exists words. repeat split; try assumption.
    eapply Forall_impl; [ | exact Hwords ].
    intros w (H1 & H2 & H3). repeat split; try assumption.
    intros Hin.
    assert (existsb (String.eqb w) Trends.stopWords = true); [ | congruence ].
    apply existsb_exists. exists w. split; [ exact Hin | apply String.eqb_refl ].
  - destruct words as [|w0 ws0] eqn:Ew; [ vm_compute; reflexivity | ].
    rewrite <- Ew in *. unfold Trends.extractKeywords.
    rewrite lower_join, blank_other_join, split_ws_join.
    + rewrite filter_all.
      * unfold slice0. now rewrite firstn_all2.
      * eapply Forall_impl; [ | exact Hwords ].
        intros w (H1 & H2 & H3). rewrite H3.
        apply Nat.ltb_lt in H1. now rewrite H1.
    + rewrite Ew. discriminate.
    + eapply Forall_impl; [ | exact Hwords ].
      intros w (H1 & H2 & H3). split.
      * intros ->. cbn in H1. lia.
      * eapply all_units_impl; [ | exact H2 ].
        intros c Hc. now rewrite (alnum_not_space c Hc).
    + eapply Forall_impl; [ | exact Hwords ]. intros w H. apply H.
    + eapply Forall_impl; [ | exact Hwords ]. intros w H. apply H.
Qed.

Lemma decimal_inj (n1 n2 : Z) : Text.decimal n1 = Text.decimal n2 -> n1 = n2.
Proof.
  unfold Text.decimal. intros E.
  assert (Hnn : forall n, Z.to_int n <> Decimal.Pos Decimal.Nil
                          /\ Z.to_int n <> Decimal.Neg Decimal.Nil).
  { intros [|p|p]; cbn; split; try discriminate;
      intros Hp; inversion Hp as [Hp'];
      now apply DecimalPos.Unsigned.to_uint_nonnil in Hp'. }
  apply DecimalZ.to_int_inj.
  destruct (Hnn n1) as [A1 B1], (Hnn n2) as [A2 B2].
  pose proof (NilZero.isi (Z.to_int n1) A1 B1) as I1.
  pose proof (NilZero.isi (Z.to_int n2) A2 B2) as I2.
  rewrite E in I1. congruence.
Qed.

Lemma append_inj_l (p s1 s2 : string) :
  (p ++ s1)%string = (p ++ s2)%string -> s1 = s2.
Proof.
  induction p as [|c p IH]; cbn; [ auto | ].
  intros E. inversion E. auto.
Qed.

Lemma dash_runs_units (s : string) (in_run : bool) :
  all_units (fun c => Text.is_lower_alnum c || is_hyphen c)
            (Text.dash_runs s in_run) = true.
Proof.
  revert in_run. induction s as [|c s IH]; intros b; cbn; [ reflexivity | ].
  destruct (Text.is_lower_alnum c) eqn:Ec; cbn.
  - now rewrite Ec, IH.
  - destruct b; [ apply IH | ]. cbn. apply IH.
Qed.

(** In a run, the text that [dash_runs] writes next does not begin with
    a hyphen; and it never writes two hyphens in a row. *)
Lemma dash_runs_single (s : string) (in_run : bool) :
  single_hyphens (Text.dash_runs s in_run) = true
  /\ (in_run = true ->
      match Text.dash_runs s in_run with
      | String a _ => is_hyphen a = false
      | EmptyString => True
      end).
Proof.
  revert in_run. induction s as [|c s IH]; intros b; cbn; [ auto | ].
  destruct (Text.is_lower_alnum c) eqn:Ec.
  - destruct (IH false) as [Hs _]. split.
    + cbn [single_hyphens]. destruct (Text.dash_runs s false) eqn:Ed;
        [ reflexivity | ].
      rewrite Hs.
      assert (is_hyphen c = false) as ->; [ | reflexivity ].
      clear - Ec. destruct c as [[] [] [] [] [] [] [] []];
        vm_compute in *; (reflexivity || discriminate).
    + intros _. clear - Ec. destruct c as [[] [] [] [] [] [] [] []];
        vm_compute in *; (reflexivity || discriminate).
  - destruct b.
    + apply IH.
    + destruct (IH true) as [Hs Hh]. split; [ | discriminate ].
      cbn [single_hyphens]. destruct (Text.dash_runs s true) eqn:Ed;
        [ reflexivity | ].
      rewrite Hs, (Hh eq_refl). reflexivity.
Qed.

Lemma substring_0_units (p : ascii -> bool) (n : nat) (s : string) :
  all_units p s = true -> all_units p (String.substring 0 n s) = true.
Proof.
  revert n. induction s as [|c s IH]; intros [|n]; cbn; try reflexivity.
  rewrite !andb_true_iff. intros [Hc Hs]. auto.
Qed.

Lemma substring_0_single (n : nat) (s : string) :
  single_hyphens s = true -> single_hyphens (String.substring 0 n s) = true.
Proof.
  revert n. induction s as [|a s IH]; intros [|n]; try reflexivity.
  cbn [String.substring]. intros Hs.
  destruct s as [|b s']; [ destruct n; reflexivity | ].
  cbn [single_hyphens] in Hs. apply andb_true_iff in Hs.
  destruct Hs as [Hab Hs]. specialize (IH n Hs).
  destruct n as [|n]; [ reflexivity | ].
  cbn [String.substring] in *.
  change (negb (is_hyphen a && is_hyphen b)
          && single_hyphens (String b (String.substring 0 n s')) = true).
  now rewrite Hab, IH.
Qed.

Lemma substring_0_length (n : nat) (s : string) :
  String.length (String.substring 0 n s) <= n.
Proof.
  revert n. induction s as [|c s IH]; intros [|n]; cbn; try lia.
  specialize (IH n). lia.
Qed.

(** X2.  generateTrendId.  The identifier is [trend_], a slug, an underscore
    and the time in decimal; the slug has at most 50 code units, each a
    lower-case letter, a digit or a hyphen, and no two hyphens in a row.
    For one title, the identifiers made at two different times are
    different. *)
Theorem generateTrendId_format (now : Z) (title_ : string) :
  (exists slug : string,
      Trends.generateTrendId now title_
      = ("trend_" ++ slug ++ "_" ++ Text.decimal now)%string
      /\ String.length slug <= 50
      /\ all_units (fun c => Text.is_lower_alnum c || is_hyphen c) slug = true
      /\ single_hyphens slug = true)
  /\ (forall now', Trends.generateTrendId now' title_
                   = Trends.generateTrendId now title_ -> now' = now).
Proof.
  unfold Trends.generateTrendId, Js.substring. cbn [Z.to_nat Nat.sub].
  set (normalized := Text.dash_runs (Text.toLowerCase title_) false).
  change (Pos.to_nat 50 - 0) with 50.
  split.
  - exists (String.substring 0 50 normalized). split; [ reflexivity | ].
    split; [ apply substring_0_length | ].
    split; [ apply substring_0_units, dash_runs_units | ].
    apply substring_0_single, dash_runs_single.
  - intros now' E.
    apply append_inj_l, append_inj_l, append_inj_l in E.
    now apply decimal_inj.
Qed.

(** ** trends.ts: [fetchTrends] *)

Lemma same_trend_spec (a b : Trend) :
  Table.same_trend a b = true <-> trend_id a = trend_id b.
Proof. apply String.eqb_eq. Qed.

Lemma same_video_spec (a b : Video) :
  Table.same_video a b = true <-> video_id a = video_id b.
Proof. apply String.eqb_eq. Qed.

Lemma same_chunk_spec (a b : VideoChunk) :
  Table.same_chunk a b = true
  <-> (chunk_video_id a, chunk_id a) = (chunk_video_id b, chunk_id b).
Proof.
  unfold Table.same_chunk. rewrite andb_true_iff, String.eqb_eq, Z.eqb_eq.
  split; [ intros [-> ->]; reflexivity | intros E; inversion E; auto ].
Qed.

Lemma existsb_eqb_In (x : string) (l : list string) :
  existsb (String.eqb x) l = true <-> In x l.
Proof.
  rewrite existsb_exists. split.
  - intros (y & Hy & E). apply String.eqb_eq in E. now subst.
  - intros Hx. exists x. split; [ exact Hx | apply String.eqb_refl ].
Qed.

Section FeedFacts.

Context `{Services}.

(** The loop over the items of a feed keeps [feed_state], returns, and
    writes no error to the console. *)
Lemma items_loop_state (d0 : Database) (items : list FeedItem) :
  forall k st w,
    feed_state d0 st w ->
    exists st' w',
      Trends.items_loop items k st w = (Ok st', w')
      /\ feed_state d0 st' w'
      /\ response w' = response w
      /\ chat_requests w' = chat_requests w
      /\ exists logs, console w' = console w ++ logs.
Proof.
  assert (Hstay : forall st w, feed_state d0 st w ->
            exists st' w',
              (@Ok (list Trend * list string) st, w) = (Ok st', w')
              /\ feed_state d0 st' w'
              /\ response w' = response w
              /\ chat_requests w' = chat_requests w
              /\ exists logs, console w' = console w ++ logs).
  { intros st w Hst. exists st, w.
    split; [ reflexivity | ]. split; [ exact Hst | ].
    split; [ reflexivity | ]. split; [ reflexivity | ].
    exists []. now rewrite app_nil_r. }
  induction items as [|item rest IH]; intros k [trends_ seen] w Hst.
  - cbn [Trends.items_loop]. unfold ret. now apply Hstay.
  - cbn [Trends.items_loop].
    destruct (Trends.MAX_TRENDS <=? length trends_) eqn:Emax.
    { unfold ret. now apply Hstay. }
    set (title_ := Trends.or_else (item_title item) "").
    destruct (String.eqb title_ ""
              || existsb (String.eqb
                            (Text.trim (Text.toLowerCase title_))) seen)
             eqn:Eskip.
    { apply IH. exact Hst. }
    apply orb_false_iff in Eskip. destruct Eskip as [Ene Eseen].
    set (trend := {| trend_id := Trends.generateTrendId (Date_now k) title_;
                     title := title_;
                     summary := Trends.or_else
                                  (item_contentSnippet item)
                                  (Trends.or_else (item_content item) title_);
                     keywords := Trends.extractKeywords title_;
                     source := "google_news";
                     created_at := Date_toISOString k |}).
    unfold bind, Table.insertTrend, DB.write, log. cbn [fst snd].
    match goal with
    | |- context [ Trends.items_loop rest (S k) ?st' ?w' ] =>
        destruct (IH (S k) st' w')
          as (st2 & w2 & Hrun & Hst2 & Hr & Hq & logs & Hl)
    end.
    + destruct Hst
        as (Hv & Hc & Hrec & Hsub & Hnd & Hlen & Hseen & Hnds & Hall).
      unfold feed_state. cbn [db videos video_chunks trends recommendations].
      split; [ exact Hv | ]. split; [ exact Hc | ]. split; [ exact Hrec | ].
      split.
      { intros t Ht. apply in_or_app.
        apply (table_insert_In trend_id Table.same_trend same_trend_spec)
          in Ht.
        destruct Ht as [->|[Ht _]]; [ right; now left | left; auto ]. }
      split.
      { now apply (table_insert_NoDup trend_id Table.same_trend
                                      same_trend_spec). }
      split.
      { rewrite length_app. cbn [length]. apply Nat.leb_gt in Emax. lia. }
      split.
      { rewrite map_app, Hseen. reflexivity. }
      split.
      { apply NoDup_app; [ exact Hnds | repeat constructor; intros [] | ].
        intros x Hx [<-|[]].
        apply existsb_eqb_In in Hx. congruence. }
      apply Forall_app. split; [ exact Hall | ].
      constructor; [ | constructor ]. cbn [title source keywords trend].
      split; [ | split; reflexivity ].
      intros E. rewrite E in Ene. discriminate.
    + exists st2, w2. rewrite Hrun.
      split; [ reflexivity | ]. split; [ exact Hst2 | ].
      split; [ exact Hr | ]. split; [ exact Hq | ].
      cbn [console] in Hl. rewrite <- app_assoc in Hl. eexists. exact Hl.
Qed.

(** The loop over the feeds keeps [feed_state] and returns; when every
    feed fails, it leaves its state and the database as they were. *)
Lemma feeds_loop_state (d0 : Database) (feeds : list string) :
  forall st w,
    feed_state d0 st w ->
    exists st' w',
      Trends.feeds_loop feeds st w = (Ok st', w')
      /\ feed_state d0 st' w'
      /\ response w' = response w
      /\ chat_requests w' = chat_requests w
      /\ ((forall url, In url feeds -> exists e, parseURL url = Throw e) ->
          st' = st /\ db w' = db w).
Proof.
  induction feeds as [|feedUrl rest IH]; intros st w Hst.
  - exists st, w. cbn [Trends.feeds_loop]. unfold ret. repeat split; auto.
  - cbn [Trends.feeds_loop]. unfold bind at 1, try_catch, bind at 1, lift.
    destruct (parseURL feedUrl) as [items|e] eqn:Eparse.
    + destruct (@items_loop_state d0 items 0 st w Hst)
        as (st1 & w1 & Hrun & Hst1 & Hr1 & Hq1 & _).
      unfold bind at 1. rewrite Hrun. cbn [ret].
      destruct (Trends.MAX_TRENDS <=? length (fst st1)).
      * exists st1, w1. split; [ reflexivity | ]. split; [ exact Hst1 | ].
        split; [ exact Hr1 | ]. split; [ exact Hq1 | ].
        intros Hfail. destruct (Hfail feedUrl (or_introl eq_refl)) as [e Ee].
        congruence.
      * destruct (IH st1 w1 Hst1) as (st2 & w2 & Hrun2 & Hst2 & Hr2 & Hq2 & _).
        exists st2, w2. split; [ exact Hrun2 | ]. split; [ exact Hst2 | ].
        split; [ congruence | ]. split; [ congruence | ].
        intros Hfail. destruct (Hfail feedUrl (or_introl eq_refl)) as [e Ee].
        congruence.
    + unfold bind at 1, log_error, ret. cbn [fst snd].
      match goal with
      | |- context [ Trends.feeds_loop rest st ?w1 ] =>
          destruct (IH st w1) as (st2 & w2 & Hrun2 & Hst2 & Hr2 & Hq2 & Hf2)
      end.
      { destruct st as [trends_ seen]. exact Hst. }
      exists st2, w2. split; [ exact Hrun2 | ]. split; [ exact Hst2 | ].
      split; [ exact Hr2 | ]. split; [ exact Hq2 | ].
      intros Hfail. apply Hf2. intros url Hurl. apply Hfail. now right.
Qed.

(** [fetchTrends] as a whole. *)
Lemma fetchTrends_run (w : World) :
  exists st w',
    Trends.fetchTrends w = (Ok (fst st), w')
    /\ feed_state (db w) st w'
    /\ response w' = response w
    /\ chat_requests w' = chat_requests w
    /\ ((forall url, In url Trends.RSS_FEEDS ->
                     exists e, parseURL url = Throw e) ->
        fst st = [] /\ trends (db w') = []).
Proof.
  unfold Trends.fetchTrends, bind at 1 2 3 4, log, DB.new, log,
    DB.clearRecommendations, Table.delete_trends, DB.write.
  cbn [fst snd db console response chat_requests].
  match goal with
  | |- exists st w', ?m ?w0 = _ /\ _ => set (ws := w0)
  end.
  destruct (@feeds_loop_state (db w) Trends.RSS_FEEDS ([], []) ws)
    as (st & w1 & Hrun & Hst & Hr & Hq & Hfail).
  { unfold feed_state, ws. cbn [db videos video_chunks trends recommendations
                                length map].
    repeat split; auto; try constructor. unfold Trends.MAX_TRENDS. lia. }
  exists st. unfold bind at 1. rewrite Hrun.
  unfold bind, DB.close, ret, log. cbn [fst snd].
  eexists. split; [ reflexivity | ].
  split; [ destruct st as [trends_ seen]; exact Hst | ].
  split; [ exact Hr | ]. split; [ exact Hq | ].
  intros Hall. destruct (Hfail Hall) as [-> Hdb].
  cbn [db]. rewrite Hdb. auto.
Qed.

End FeedFacts.

(** X3.  fetchTrends and the database.  [fetchTrends] never throws.  It
    leaves the videos and the chunks as they were and the table of
    recommendations empty, so that no recommendation refers to a trend
    that is gone; the trends table then holds rows of this fetch only,
    at most [MAX_TRENDS] of them, no two with the same identifier.  The
    handler of POST /api/fetch-trends answers with these rows. *)
Theorem fetchTrends_replaces_trends `{Services} (w : World) :
  exists (fetched : list Trend) (w' : World),
    Trends.fetchTrends w = (Ok fetched, w')
    /\ videos (db w') = videos (db w)
    /\ video_chunks (db w') = video_chunks (db w)
    /\ recommendations (db w') = []
    /\ referential_integrity (db w')
    /\ (forall t, In t (trends (db w')) -> In t fetched)
    /\ NoDup (map trend_id (trends (db w')))
    /\ length (trends (db w')) <= Trends.MAX_TRENDS
    /\ exists (all : list Trend) (w'' : World),
        Api.fetch_trends w = (Ok (ReplyTrends all), w'')
        /\ db w'' = db w'
        /\ Permutation all (trends (db w')).
Proof.
  destruct (fetchTrends_run w)
    as ([fetched seen] & w' & Hrun & Hst & _ & _ & _).
  destruct Hst as (Hv & Hc & Hrec & Hsub & Hnd & Hlen & _ & _ & _).
  exists fetched, w'. cbn [fst] in Hrun.
  split; [ exact Hrun | ]. split; [ exact Hv | ]. split; [ exact Hc | ].
  split; [ exact Hrec | ].
  split; [ intros r Hr; rewrite Hrec in Hr; destruct Hr | ].
  split; [ exact Hsub | ]. split; [ exact Hnd | ].
  split.
  - transitivity (length fetched); [ | exact Hlen ].
    apply NoDup_incl_length; [ | exact Hsub ].
    eapply NoDup_map_inv. exact Hnd.
  - unfold Api.fetch_trends, try_catch, bind at 1. rewrite Hrun.
    unfold bind, DB.new, log, DB.getAllTrends, DB.read, DB.close, ret.
    cbn [fst snd db]. eexists. eexists. split; [ reflexivity | ].
    split; [ reflexivity | ]. apply sort_perm.
Qed.

(** X4.  fetchTrends and the list it returns.  The list has at most
    [MAX_TRENDS] trends; no two of their titles are the same after
    lower-casing and trimming; every trend has a title that is not
    empty, the source [google_news] and the keywords of its title.  When
    every feed fails, the list is empty and so is the trends table. *)
Theorem fetchTrends_unique_titles `{Services} (w : World) :
  exists (fetched : list Trend) (w' : World),
    Trends.fetchTrends w = (Ok fetched, w')
    /\ length fetched <= Trends.MAX_TRENDS
    /\ NoDup (map (fun t => normalized_title (title t)) fetched)
    /\ Forall (fun t => title t <> ""
                        /\ source t = "google_news"
                        /\ keywords t = Trends.extractKeywords (title t))
              fetched
    /\ ((forall url, In url Trends.RSS_FEEDS ->
                     exists e, parseURL url = Throw e) ->
        fetched = [] /\ trends (db w') = []).
Proof.
  destruct (fetchTrends_run w)
    as ([fetched seen] & w' & Hrun & Hst & _ & _ & Hfail).
  destruct Hst as (_ & _ & _ & _ & _ & Hlen & Hseen & Hnds & Hall).
  exists fetched, w'. cbn [fst] in *.
  split; [ exact Hrun | ]. split; [ exact Hlen | ].
  split; [ now rewrite <- Hseen | ]. split; [ exact Hall | exact Hfail ].
Qed.

(** ** ingest.ts: [ingestVideos] *)

Lemma with_db_id (w : World) : with_db w (db w) = w.
Proof. destruct w; reflexivity. Qed.

(** ** Loops *)

(** A property of the database that every iteration keeps holds after
    the loop, whether the loop returns or throws. *)
Lemma for_each_db_inv {A S : Type} (l : list A) (body : A -> S -> M S)
      (f : A -> Database -> Database) (Inv : Database -> Prop) :
  (forall x s w, In x l -> db (snd (body x s w)) = f x (db w)) ->
  (forall x d, In x l -> Inv d -> Inv (f x d)) ->
  forall s w, Inv (db w) -> Inv (db (snd (for_each l body s w))).
Proof.
  induction l as [|x l IH]; intros Hbody Hf s w Hw; cbn [for_each].
  - exact Hw.
  - unfold bind. pose proof (Hbody x s w (or_introl eq_refl)) as Hx.
    destruct (body x s w) as [[s1|e] w1]; cbn [snd] in *.
    + apply IH.
      * intros y s' w' Hy. apply Hbody. now right.
      * intros y d Hy. apply Hf. now right.
      * rewrite Hx. apply Hf; [ now left | exact Hw ].
    + rewrite Hx. apply Hf; [ now left | exact Hw ].
Qed.

(** The variables of a loop that returns are those of its iterations,
    applied in order. *)
Lemma for_each_value {A S : Type} (l : list A) (body : A -> S -> M S)
      (g : A -> S -> S) :
  (forall x s w s', In x l -> fst (body x s w) = Ok s' -> s' = g x s) ->
  forall s w s' w',
    for_each l body s w = (Ok s', w') ->
    s' = fold_left (fun s x => g x s) l s.
Proof.
  induction l as [|x l IH]; intros Hbody s w s' w'; cbn [for_each fold_left].
  - unfold ret. intros E. now inversion E.
  - unfold bind. pose proof (Hbody x s w) as Hx.
    destruct (body x s w) as [[s1|e] w1]; [ | discriminate ].
    intros E. rewrite <- (Hx s1 (or_introl eq_refl) eq_refl).
    eapply IH; [ | exact E ].
    intros y s0 w0 s0' Hy. apply Hbody. now right.
Qed.

(** A loop over two lists in a row that returns has returned from the
    first. *)
Lemma for_each_app_ok {A S : Type} (l1 l2 : list A) (body : A -> S -> M S)
      (s : S) (w : World) (s' : S) (w' : World) :
  for_each (l1 ++ l2) body s w = (Ok s', w') ->
  exists s1 w1,
    for_each l1 body s w = (Ok s1, w1)
    /\ for_each l2 body s1 w1 = (Ok s', w').
Proof.
  revert s w. induction l1 as [|x l1 IH]; intros s w; cbn [app for_each].
  - intros E. exists s, w. split; [ reflexivity | exact E ].
  - unfold bind. destruct (body x s w) as [[s1|e] w1]; [ | discriminate ].
    apply IH.
Qed.

(** What the iterations leave untouched, the loop leaves untouched. *)
Lemma for_each_quiet {A S : Type} (l : list A) (body : A -> S -> M S) :
  (forall x s w, In x l ->
      response (snd (body x s w)) = response w
      /\ chat_requests (snd (body x s w)) = chat_requests w
      /\ exists logs, console (snd (body x s w)) = console w ++ logs) ->
  forall s w,
    response (snd (for_each l body s w)) = response w
    /\ chat_requests (snd (for_each l body s w)) = chat_requests w
    /\ exists logs, console (snd (for_each l body s w)) = console w ++ logs.
Proof.
  induction l as [|x l IH]; intros Hbody s w; cbn [for_each].
  - cbn. repeat split. exists []. now rewrite app_nil_r.
  - unfold bind. destruct (Hbody x s w (or_introl eq_refl))
      as (Hr & Hq & logs & Hl).
    destruct (body x s w) as [[s1|e] w1]; cbn [snd] in *.
    + destruct (IH (fun y s0 w0 Hy => Hbody y s0 w0 (or_intror Hy)) s1 w1)
        as (Hr' & Hq' & logs' & Hl').
      split; [ congruence | ]. split; [ congruence | ].
      exists (logs ++ logs'). rewrite Hl', Hl. now rewrite app_assoc.
    + repeat split; try assumption. now exists logs.
Qed.

Section IngestionFacts.

Context `{Services}.

(** The loop that writes the chunks of a video returns, and changes
    nothing but the chunk table. *)
Lemma insert_chunks_loop (video : Video) (chunks_ : list string)
      (embeddings : list Embedding) (l : list nat) (w : World) :
  for_each l
           (fun i (_ : unit) =>
              Table.insertVideoChunk
                {| chunk_video_id := video_id video;
                   chunk_id := Z.of_nat i;
                   chunk_text := nth i chunks_ "";
                   embedding := nth i embeddings [] |})
           tt w
  = (Ok tt,
     with_db w (fold_left
                  (fun d i =>
                     db_insert_chunk (chunk_row video chunks_ embeddings i) d)
                  l (db w))).
Proof.
  revert w. induction l as [|i l IH]; intros w; cbn [for_each fold_left].
  - unfold ret. now rewrite with_db_id.
  - unfold bind, Table.insertVideoChunk, DB.write. cbn [fst snd].
    rewrite IH. reflexivity.
Qed.

(** One video of the file. *)
Lemma ingest_video_run (forceReprocess : bool)
      (existingVideoIds : list string) (video : Video) (counts : Z * Z)
      (w : World) :
  let r := Ingestion.ingest_video forceReprocess existingVideoIds video
                                  counts w in
  db (snd r) = db_after_video forceReprocess existingVideoIds video (db w)
  /\ response (snd r) = response w
  /\ chat_requests (snd r) = chat_requests w
  /\ (exists logs, console (snd r) = console w ++ logs)
  /\ fst r
     = (if passed_over forceReprocess existingVideoIds video
        then Ok (counts_after_video forceReprocess existingVideoIds video
                                    counts)
        else
          match valid_chunks video with
          | [] => Ok (counts_after_video forceReprocess existingVideoIds
                                         video counts)
          | chunks_ =>
              match generateEmbeddings chunks_ with
              | Throw e => Throw e
              | Ok _ => Ok (counts_after_video forceReprocess
                                               existingVideoIds video counts)
              end
          end).
Proof.
  destruct counts as [p s].
  unfold Ingestion.ingest_video, db_after_video, counts_after_video,
    passed_over.
  destruct (negb forceReprocess
            && existsb (String.eqb (video_id video)) existingVideoIds).
  - cbn. repeat split. eexists; reflexivity.
  - fold (stored_video video). fold (valid_chunks video).
    destruct (valid_chunks video) as [|c0 cs] eqn:Ev.
    + cbn. repeat split. rewrite <- !app_assoc. eexists; reflexivity.
    + cbn [length Nat.eqb].
      unfold bind, log, Table.insertVideo, DB.write, lift, ret,
        Ingestion.insert_chunks.
      cbn [fst snd].
      destruct (generateEmbeddings (c0 :: cs)) as [embs|e].
      * rewrite insert_chunks_loop.
        cbn. repeat split. rewrite <- !app_assoc. eexists; reflexivity.
      * cbn. repeat split. rewrite <- !app_assoc. eexists; reflexivity.
Qed.

(** The rows written for the chunks of a video. *)
Lemma insert_rows_tables (video : Video) (chunks_ : list string)
      (embeddings : list Embedding) (l : list nat) (d : Database) :
  let d' := fold_left
              (fun d i =>
                 db_insert_chunk (chunk_row video chunks_ embeddings i) d)
              l d in
  videos d' = videos d
  /\ trends d' = trends d
  /\ recommendations d' = recommendations d
  /\ (forall c, In c (video_chunks d') ->
                In c (video_chunks d)
                \/ exists i, In i l
                             /\ c = chunk_row video chunks_ embeddings i)
  /\ (forall id, id <> video_id video -> chunk_rows id d' = chunk_rows id d).
Proof.
  revert d. induction l as [|i l IH]; intros d; cbn [fold_left].
  - cbn. repeat split; auto.
  - destruct (IH (db_insert_chunk (chunk_row video chunks_ embeddings i) d))
      as (Hv & Ht & Hr & Hc & Ho).
    cbn zeta. split; [ exact Hv | ]. split; [ exact Ht | ].
    split; [ exact Hr | ]. split.
    + intros c Hin. destruct (Hc c Hin) as [Hold|(j & Hj & ->)].
      * cbn in Hold.
        apply (table_insert_In (fun c => (chunk_video_id c, chunk_id c))
                               Table.same_chunk same_chunk_spec) in Hold.
        destruct Hold as [->|[Hold _]]; [ right | now left ].
        exists i. split; [ now left | reflexivity ].
      * right. exists j. split; [ now right | reflexivity ].
    + intros id Hid. rewrite (Ho id Hid). unfold chunk_rows. cbn.
      apply table_insert_filter_other.
      * cbn. now apply String.eqb_neq, not_eq_sym.
      * intros x Hx. apply same_chunk_spec in Hx. inversion Hx as [[E1 E2]].
        rewrite E1. cbn. now apply String.eqb_neq, not_eq_sym.
Qed.

(** A video of the file changes no row under another identifier, and
    no trend or recommendation; a video that is passed over changes
    nothing. *)
Lemma db_after_video_other (forceReprocess : bool)
      (existingVideoIds : list string) (video : Video) (d : Database) :
  let d' := db_after_video forceReprocess existingVideoIds video d in
  trends d' = trends d
  /\ recommendations d' = recommendations d
  /\ (forall id, id <> video_id video ->
                 video_rows id d' = video_rows id d
                 /\ chunk_rows id d' = chunk_rows id d)
  /\ (passed_over forceReprocess existingVideoIds video = true -> d' = d).
Proof.
  unfold db_after_video.
  destruct (passed_over forceReprocess existingVideoIds video);
    [ cbn; auto | ].
  assert (Hvid : forall id, id <> video_id video ->
                   video_rows id (db_insert_video (stored_video video) d)
                   = video_rows id d).
  { intros id Hid. unfold video_rows. cbn.
    apply table_insert_filter_other.
    - cbn. now apply String.eqb_neq, not_eq_sym.
    - intros x Hx. apply same_video_spec in Hx. rewrite Hx. cbn.
      now apply String.eqb_neq, not_eq_sym. }
  assert (Hd1 : let d' := db_insert_video (stored_video video) d in
                trends d' = trends d
                /\ recommendations d' = recommendations d
                /\ (forall id, id <> video_id video ->
                               video_rows id d' = video_rows id d
                               /\ chunk_rows id d' = chunk_rows id d)
                /\ (false = true -> d' = d)).
  { cbn zeta. split; [ reflexivity | ]. split; [ reflexivity | ].
    split; [ | discriminate ]. intros id Hid. split; [ now apply Hvid | ].
    reflexivity. }
  destruct (valid_chunks video) as [|c0 cs]; [ exact Hd1 | ].
  destruct (generateEmbeddings (c0 :: cs)) as [embs|e]; [ | exact Hd1 ].
  destruct (insert_rows_tables video (c0 :: cs) embs
                               (seq 0 (length (c0 :: cs)))
                               (db_insert_video (stored_video video) d))
    as (Hv & Ht & Hr & _ & Ho).
  cbn zeta. split; [ exact Ht | ]. split; [ exact Hr | ].
  split; [ | discriminate ].
  intros id Hid. split.
  - unfold video_rows at 1. rewrite Hv. now apply Hvid.
  - now rewrite (Ho id Hid).
Qed.

(** The identifiers of the video table only grow, and the video at hand
    is in the table once it has been processed. *)
Lemma db_after_video_ids (forceReprocess : bool)
      (existingVideoIds : list string) (video : Video) (d : Database) :
  let d' := db_after_video forceReprocess existingVideoIds video d in
  (forall id, In id (map video_id (videos d)) ->
              In id (map video_id (videos d')))
  /\ (passed_over forceReprocess existingVideoIds video = false ->
      In (video_id video) (map video_id (videos d')))
  /\ (forall id, In id (map video_id (videos d')) ->
                 id = video_id video \/ In id (map video_id (videos d))).
Proof.
  unfold db_after_video.
  destruct (passed_over forceReprocess existingVideoIds video);
    [ cbn; repeat split; auto; discriminate | ].
  assert (Hins : forall id,
             In id (map video_id
                        (videos (db_insert_video (stored_video video) d)))
             <-> id = video_id video \/ In id (map video_id (videos d))).
  { intros id. cbn [videos db_insert_video].
    rewrite (table_insert_keys video_id Table.same_video same_video_spec).
    reflexivity. }
  assert (Hsame : forall d', videos d'
                             = videos (db_insert_video (stored_video video) d)
                             ->
            (forall id, In id (map video_id (videos d)) ->
                        In id (map video_id (videos d')))
            /\ (false = false -> In (video_id video) (map video_id (videos d')))
            /\ (forall id, In id (map video_id (videos d')) ->
                           id = video_id video
                           \/ In id (map video_id (videos d)))).
  { intros d' ->. split; [ | split ].
    - intros id Hid. apply Hins. now right.
    - intros _. apply Hins. now left.
    - intros id Hid. now apply Hins. }
  destruct (valid_chunks video) as [|c0 cs]; [ now apply Hsame | ].
  destruct (generateEmbeddings (c0 :: cs)) as [embs|e]; [ | now apply Hsame ].
  apply Hsame. apply insert_rows_tables.
Qed.

(** The run: the file is read, then the loop runs. *)
Lemma ingestVideos_unfold (inputPath : string) (forceReprocess : bool)
      (w : World) :
  Ingestion.ingestVideos inputPath forceReprocess w
  = match file_videos inputPath with
    | Throw e =>
        (Throw e,
         with_console w [console_log "Loading videos from " [LStr inputPath]])
    | Ok videos_ =>
        ingest_loop forceReprocess videos_
                    (with_console
                       w [console_log "Loading videos from " [LStr inputPath]])
    end.
Proof.
  unfold Ingestion.ingestVideos, file_videos, ingest_loop.
  unfold bind at 1 2, log at 1, lift at 1. cbn [fst snd].
  fold (with_console w [console_log "Loading videos from " [LStr inputPath]]).
  destruct (readFileSync inputPath) as [rawData|e]; [ | reflexivity ].
  unfold bind at 1.
  destruct (Text.endsWith inputPath ".csv").
  - unfold bind at 1, lift.
    destruct (csv_parse rawData) as [records|e]; reflexivity.
  - unfold lift. destruct (parse_videos rawData) as [vs|e]; reflexivity.
Qed.

Lemma ingest_loop_run (forceReprocess : bool) (videos_ : list Video)
      (w : World) :
  ingest_loop forceReprocess videos_ w
  = match for_each videos_
                   (Ingestion.ingest_video forceReprocess
                                           (map video_id (videos (db w))))
                   (0%Z, 0%Z)
                   (with_console
                      w [console_log "Found videos: "
                                     [LNum (Z.of_nat (length videos_))];
                         console_log "Database path: " [LStr DB.DB_PATH]])
    with
    | (Ok (p, s), w2) =>
        (Ok tt, with_console w2 (ingestion_summary (length videos_) p s))
    | (Throw e, w2) => (Throw e, w2)
    end.
Proof.
  unfold ingest_loop.
  unfold bind at 1 2 3 4, log at 1, DB.new, log at 1, DB.getAllVideos,
    DB.read.
  cbn [fst snd db console].
  match goal with
  | |- match for_each _ _ _ ?wa with _ => _ end
       = match for_each _ _ _ ?wb with _ => _ end =>
      replace wa with wb
        by (unfold with_console; now rewrite <- app_assoc)
  end.
  destruct (for_each _ _ _ _) as [[[p s]|e] w2]; [ | reflexivity ].
  unfold bind, DB.close, ret, log, with_console, ingestion_summary.
  cbn [fst snd db console response chat_requests].
  now rewrite <- !app_assoc.
Qed.

End IngestionFacts.

Section IngestionRuns.

Context `{Services}.

(** What the loop over the videos leaves untouched. *)
Lemma ingest_videos_quiet (forceReprocess : bool) (existing : list string)
      (videos_ : list Video) (c : Z * Z) (w : World) :
  let r := for_each videos_ (Ingestion.ingest_video forceReprocess existing)
                    c w in
  response (snd r) = response w
  /\ chat_requests (snd r) = chat_requests w
  /\ exists logs, console (snd r) = console w ++ logs.
Proof.
  apply for_each_quiet. intros x s w0 _.
  destruct (ingest_video_run forceReprocess existing x s w0)
    as (_ & Hr & Hq & Hl & _).
  auto.
Qed.

(** The database after a run is the database after its loop. *)
Lemma ingestVideos_db (inputPath : string) (forceReprocess : bool)
      (w : World) :
  match file_videos inputPath with
  | Throw _ =>
      db (snd (Ingestion.ingestVideos inputPath forceReprocess w)) = db w
  | Ok videos_ =>
      exists w1,
        db w1 = db w
        /\ response w1 = response w
        /\ chat_requests w1 = chat_requests w
        /\ (exists logs, console w1 = console w ++ logs)
        /\ let r := for_each videos_
                             (Ingestion.ingest_video
                                forceReprocess
                                (map video_id (videos (db w))))
                             (0%Z, 0%Z) w1 in
           db (snd (Ingestion.ingestVideos inputPath forceReprocess w))
           = db (snd r)
           /\ fst (Ingestion.ingestVideos inputPath forceReprocess w)
              = match fst r with
                | Ok _ => Ok tt
                | Throw e => Throw e
                end
           /\ (forall p s,
                  fst r = Ok (p, s) ->
                  console (snd (Ingestion.ingestVideos inputPath
                                                       forceReprocess w))
                  = console (snd r)
                    ++ ingestion_summary (length videos_) p s)
  end.
Proof.
  rewrite ingestVideos_unfold.
  destruct (file_videos inputPath) as [videos_|e]; [ | reflexivity ].
  rewrite ingest_loop_run.
  set (w0 := with_console
               w [console_log "Loading videos from " [LStr inputPath]]).
  change (db w0) with (db w).
  set (w1 := with_console
               w0 [console_log "Found videos: "
                               [LNum (Z.of_nat (length videos_))];
                   console_log "Database path: " [LStr DB.DB_PATH]]).
  exists w1.
  split; [ reflexivity | ]. split; [ reflexivity | ].
  split; [ reflexivity | ].
  split.
  { unfold w1, w0, with_console. cbn [console]. rewrite <- app_assoc.
    eexists; reflexivity. }
  cbn zeta.
  destruct (for_each _ _ _ w1) as [[[p s]|e] w2]; cbn [fst snd].
  - split; [ reflexivity | ]. split; [ reflexivity | ].
    intros p' s' E. inversion E; subst. reflexivity.
  - split; [ reflexivity | ]. split; [ reflexivity | ]. discriminate.
Qed.

Lemma counts_fold (forceReprocess : bool) (existing : list string)
      (videos_ : list Video) (p s : Z) :
  fold_left (fun c x => counts_after_video forceReprocess existing x c)
            videos_ (p, s)
  = ((p + Z.of_nat (length videos_)
      - Z.of_nat (length (filter (passed_over forceReprocess existing)
                                 videos_)))%Z,
     (s + Z.of_nat (length (filter (passed_over forceReprocess existing)
                                   videos_)))%Z).
Proof.
  revert p s. induction videos_ as [|x l IH]; intros p s; cbn [fold_left].
  - cbn. f_equal; lia.
  - unfold counts_after_video at 2. cbn [filter].
    destruct (passed_over forceReprocess existing x); cbn [fst snd];
      rewrite IH; cbn [length]; f_equal; lia.
Qed.

End IngestionRuns.

(** X5.  ingestVideos, the counters.  A run that returns has read the videos
    of the file and ends its console output with the four lines of the
    summary: the number of videos in the file, the number processed and
    the number passed over.  The videos passed over are those of the
    file whose identifier was in the table when the run began, and none
    when the run reprocesses; processed plus passed over is the number
    of videos in the file. *)
Theorem ingestion_counts `{Services} (inputPath : string)
        (forceReprocess : bool) (w w' : World) :
  Ingestion.ingestVideos inputPath forceReprocess w = (Ok tt, w') ->
  exists (videos_ : list Video) (logs : list LogLine)
         (processed skipped : Z),
    file_videos inputPath = Ok videos_
    /\ console w' = console w ++ logs
                    ++ ingestion_summary (length videos_) processed skipped
    /\ skipped
       = Z.of_nat (length (filter (fun v =>
                                     negb forceReprocess
                                     && existsb (String.eqb (video_id v))
                                                (map video_id
                                                     (videos (db w))))
                                  videos_))
    /\ (processed + skipped = Z.of_nat (length videos_))%Z
    /\ (0 <= processed)%Z
    /\ (forceReprocess = true -> skipped = 0%Z).
Proof.
  intros Hrun. pose proof (ingestVideos_db inputPath forceReprocess w) as R.
  destruct (file_videos inputPath) as [videos_|e] eqn:Efile.
  - destruct R as (w1 & _ & _ & _ & [logs1 Hl1] & Hdb & Hfst & Hcon).
    rewrite Hrun in Hfst, Hcon. cbn [fst snd] in Hfst, Hcon.
    set (existing := map video_id (videos (db w))) in *.
    destruct (for_each videos_ _ _ w1) as [[[p s]|e] w2] eqn:Eloop;
      cbn [fst snd] in *; [ | discriminate ].
    specialize (Hcon p s eq_refl).
    destruct (ingest_videos_quiet forceReprocess existing videos_
                                  (0%Z, 0%Z) w1) as (_ & _ & logs2 & Hl2).
    rewrite Eloop in Hl2. cbn [snd] in Hl2.
    assert (Hval : (p, s) = fold_left
                              (fun c x => counts_after_video
                                            forceReprocess existing x c)
                              videos_ (0%Z, 0%Z)).
    { eapply for_each_value; [ | exact Eloop ].
      intros x c w0 c' _ E.
      destruct (ingest_video_run forceReprocess existing x c w0)
        as (_ & _ & _ & _ & Hres).
      rewrite E in Hres.
      destruct (passed_over forceReprocess existing x);
        [ now inversion Hres | ].
      destruct (valid_chunks x); [ now inversion Hres | ].
      destruct (generateEmbeddings (s0 :: l));
        [ now inversion Hres | discriminate ]. }
    rewrite counts_fold in Hval. inversion Hval; subst p s.
    exists videos_, (logs1 ++ logs2). eexists. eexists.
    split; [ reflexivity | ].
    split; [ rewrite Hcon, Hl2, Hl1, <- !app_assoc; reflexivity | ].
    split; [ reflexivity | ].
    pose proof (filter_length_le (passed_over forceReprocess existing)
                                 videos_) as Hle.
    split; [ lia | ]. split; [ lia | ].
    intros ->. unfold passed_over. cbn [negb andb].
    clear. induction videos_; cbn; auto.
  - rewrite ingestVideos_unfold, Efile in Hrun. discriminate.
Qed.

Section IngestionInvariants.

Context `{Services}.

(** A property of the database that the processing of every video of
    the file keeps holds after the run, whether it returns or throws. *)
Lemma ingestVideos_inv (inputPath : string) (forceReprocess : bool)
      (w : World) (Inv : Database -> Prop) :
  Inv (db w) ->
  (forall videos_ x d,
      file_videos inputPath = Ok videos_ -> In x videos_ -> Inv d ->
      Inv (db_after_video forceReprocess (map video_id (videos (db w))) x d))
  ->
  Inv (db (snd (Ingestion.ingestVideos inputPath forceReprocess w))).
Proof.
  intros Hw Hstep.
  pose proof (ingestVideos_db inputPath forceReprocess w) as R.
  destruct (file_videos inputPath) as [videos_|e] eqn:Efile;
    [ | now rewrite R ].
  destruct R as (w1 & Hdb1 & _ & _ & _ & Hdb & _). rewrite Hdb.
  apply for_each_db_inv
    with (f := db_after_video forceReprocess (map video_id (videos (db w)))).
  - intros x s w0 _. apply ingest_video_run.
  - intros x d Hx Hd. now apply (Hstep videos_).
  - now rewrite Hdb1.
Qed.

(** The processing of a video keeps the foreign key of the chunk
    table. *)
Lemma db_after_video_integrity (forceReprocess : bool)
      (existing : list string) (video : Video) (d : Database) :
  chunk_integrity d ->
  chunk_integrity (db_after_video forceReprocess existing video d).
Proof.
  intros Hd.
  pose proof (db_after_video_ids forceReprocess existing video d)
    as (Hgrow & Hnew & _).
  revert Hgrow Hnew. unfold db_after_video.
  destruct (passed_over forceReprocess existing video); [ auto | ].
  intros Hgrow Hnew. specialize (Hnew eq_refl).
  assert (Hold : forall c d', In c (video_chunks d) ->
                   (forall id, In id (map video_id (videos d)) ->
                               In id (map video_id (videos d'))) ->
                   exists v, In v (videos d')
                             /\ video_id v = chunk_video_id c).
  { intros c d' Hc Hg. destruct (Hd c Hc) as (v & Hv & E).
    assert (Hin : In (chunk_video_id c) (map video_id (videos d')))
      by (apply Hg; rewrite <- E; now apply in_map).
    apply in_map_iff in Hin. destruct Hin as (v' & E' & Hv'). eauto. }
  destruct (valid_chunks video) as [|c0 cs].
  { intros c Hc. now apply Hold. }
  destruct (generateEmbeddings (c0 :: cs)) as [embs|e].
  2: { intros c Hc. now apply Hold. }
  intros c Hc.
  destruct (insert_rows_tables video (c0 :: cs) embs
                               (seq 0 (length (c0 :: cs)))
                               (db_insert_video (stored_video video) d))
    as (_ & _ & _ & Hrows & _).
  destruct (Hrows c Hc) as [Hc'|(i & _ & ->)].
  - now apply Hold.
  - cbn [chunk_row chunk_video_id].
    apply in_map_iff in Hnew. destruct Hnew as (v & E & Hv). eauto.
Qed.

(** A run writes to the console only, beside the database. *)
Lemma ingestVideos_quiet (inputPath : string) (forceReprocess : bool)
      (w : World) :
  response (snd (Ingestion.ingestVideos inputPath forceReprocess w))
  = response w
  /\ chat_requests (snd (Ingestion.ingestVideos inputPath forceReprocess w))
     = chat_requests w.
Proof.
  rewrite ingestVideos_unfold.
  destruct (file_videos inputPath) as [videos_|e]; [ | auto ].
  rewrite ingest_loop_run.
  set (w0 := with_console
               w [console_log "Loading videos from " [LStr inputPath]]).
  set (w1 := with_console w0 _).
  destruct (ingest_videos_quiet forceReprocess
                                (map video_id (videos (db w0)))
                                videos_ (0%Z, 0%Z) w1) as (Hr1 & Hq1 & _).
  destruct (for_each videos_ _ _ w1) as [[[p s]|e] w2];
    cbn [fst snd] in *; cbn [with_console response chat_requests];
    rewrite ?Hr1, ?Hq1; auto.
Qed.

(** A run that does not reprocess leaves the rows of the videos that
    were in the table as they were; any run leaves the trends and the
    recommendations. *)
Lemma ingestVideos_keeps_rows (inputPath : string) (forceReprocess : bool)
      (w : World) :
  let w' := snd (Ingestion.ingestVideos inputPath forceReprocess w) in
  trends (db w') = trends (db w)
  /\ recommendations (db w') = recommendations (db w)
  /\ (forceReprocess = false ->
      forall id, In id (map video_id (videos (db w))) ->
                 video_rows id (db w') = video_rows id (db w)
                 /\ chunk_rows id (db w') = chunk_rows id (db w)).
Proof.
  cbn zeta.
  apply ingestVideos_inv
    with (Inv := fun d =>
                   trends d = trends (db w)
                   /\ recommendations d = recommendations (db w)
                   /\ (forceReprocess = false ->
                       forall id, In id (map video_id (videos (db w))) ->
                                  video_rows id d = video_rows id (db w)
                                  /\ chunk_rows id d = chunk_rows id (db w)));
    [ auto | ].
  intros videos_ x d _ _ (Ht & Hr & Hrows).
  destruct (db_after_video_other
              forceReprocess (map video_id (videos (db w))) x d)
    as (Ht' & Hr' & Hother & Hpass).
  split; [ congruence | ]. split; [ congruence | ].
  intros Hforce id Hid.
  destruct (passed_over forceReprocess (map video_id (videos (db w))) x)
           eqn:Ep.
  - rewrite (Hpass eq_refl). now apply Hrows.
  - assert (Hne : id <> video_id x).
    { intros ->. unfold passed_over in Ep. rewrite Hforce in Ep.
      cbn [negb andb] in Ep.
      apply existsb_eqb_In in Hid. congruence. }
    destruct (Hother id Hne) as [-> ->]. now apply Hrows.
Qed.

End IngestionInvariants.

(** X6.  ingestVideos and the rows that exist.  A run, whether it returns or
    throws, leaves the trends, the recommendations, the response and the
    requests to the model as they were.  A run that does not reprocess
    leaves every video that was in the table, and the chunks of that
    video, as they were. *)
Theorem ingestion_keeps_existing `{Services} (inputPath : string)
        (forceReprocess : bool) (w : World) :
  let w' := snd (Ingestion.ingestVideos inputPath forceReprocess w) in
  trends (db w') = trends (db w)
  /\ recommendations (db w') = recommendations (db w)
  /\ response w' = response w
  /\ chat_requests w' = chat_requests w
  /\ (forceReprocess = false ->
      forall id, In id (map video_id (videos (db w))) ->
                 video_rows id (db w') = video_rows id (db w)
                 /\ chunk_rows id (db w') = chunk_rows id (db w)).
Proof.
  destruct (ingestVideos_keeps_rows inputPath forceReprocess w)
    as (Ht & Hr & Hrows).
  destruct (ingestVideos_quiet inputPath forceReprocess w) as [Hresp Hreq].
  cbn zeta. auto.
Qed.

(** X7.  ingestVideos and the foreign key of the chunk table.  When every
    chunk of the table belongs to a video of the table before a run, the
    same holds after it, whether the run returns or throws and whether
    or not it reprocesses: the row of a video is written before its
    chunks. *)
Theorem ingestion_chunk_integrity `{Services} (inputPath : string)
        (forceReprocess : bool) (w : World) :
  chunk_integrity (db w) ->
  chunk_integrity
    (db (snd (Ingestion.ingestVideos inputPath forceReprocess w))).
Proof.
  intros Hw. apply ingestVideos_inv; [ exact Hw | ].
  intros videos_ x d _ _ Hd. now apply db_after_video_integrity.
Qed.

(** ** The chunks that a run writes *)

Lemma string_of_list_length (l : list ascii) :
  String.length (string_of_list_ascii l) = length l.
Proof. induction l as [|c l IH]; cbn; congruence. Qed.

(** [chunkText] at a string: the windows of the text, none longer than
    [CHUNK_SIZE]. *)
Lemma chunkText_string (text_ : string) :
  Ingestion.chunkText text_
  = map (fun i => string_of_list_ascii
                    (window Ingest.CHUNK_SIZE
                            (Ingest.CHUNK_SIZE - Ingest.CHUNK_OVERLAP)
                            (list_ascii_of_string text_) i))
        (seq 0 (windows_count (Ingest.CHUNK_SIZE - Ingest.CHUNK_OVERLAP)
                              (length (list_ascii_of_string text_)))).
Proof.
  unfold Ingestion.chunkText, Ingest.chunkText.
  rewrite chunkText_loop_total by apply chunk_constants.
  now rewrite map_map.
Qed.

Lemma chunkText_string_length (text_ c : string) :
  In c (Ingestion.chunkText text_) -> String.length c <= Ingest.CHUNK_SIZE.
Proof.
  rewrite chunkText_string, in_map_iff. intros (i & <- & _).
  rewrite string_of_list_length, window_length. apply Nat.le_min_l.
Qed.

Section ChunkRows.

Context `{Services}.

Lemma valid_chunks_spec (video : Video) (c : string) :
  In c (valid_chunks video) ->
  Text.trim c <> "" /\ String.length c <= Ingest.CHUNK_SIZE.
Proof.
  unfold valid_chunks. rewrite filter_In. intros [Hin Hlen]. split.
  - intros E. rewrite E in Hlen. discriminate.
  - eapply chunkText_string_length. exact Hin.
Qed.

(** The chunk rows after the processing of a video: those that were
    there, and rows of the chunks of that video that are not blank. *)
Lemma db_after_video_chunks (forceReprocess : bool)
      (existing : list string) (video : Video) (d : Database)
      (c : VideoChunk) :
  In c (video_chunks (db_after_video forceReprocess existing video d)) ->
  In c (video_chunks d)
  \/ (chunk_video_id c = video_id video
      /\ (0 <= chunk_id c < Z.of_nat (length (valid_chunks video)))%Z
      /\ nth (Z.to_nat (chunk_id c)) (valid_chunks video) "" = chunk_text c
      /\ exists e, embedding c = map fround e).
Proof.
  unfold db_after_video.
  destruct (passed_over forceReprocess existing video); [ auto | ].
  destruct (valid_chunks video) as [|c0 cs] eqn:Ev; [ auto | ].
  destruct (generateEmbeddings (c0 :: cs)) as [embs|e]; [ | auto ].
  intros Hc.
  destruct (insert_rows_tables video (c0 :: cs) embs
                               (seq 0 (length (c0 :: cs)))
                               (db_insert_video (stored_video video) d))
    as (_ & _ & _ & Hrows & _).
  destruct (Hrows c Hc) as [Hold|(i & Hi & ->)]; [ now left | right ].
  apply in_seq in Hi. cbn [chunk_row chunk_video_id chunk_id chunk_text
                                     embedding].
  split; [ reflexivity | ]. split; [ lia | ].
  rewrite Nat2Z.id. split; [ reflexivity | eauto ].
Qed.

End ChunkRows.

(** X8.  ingestVideos and the chunks it writes.  After a run, whether it
    returned or threw, a row of the chunk table either was in the table
    before the run or belongs to a video of the file: its number is the
    position of its text among the chunks of that video that are not
    blank, its text is not blank and has at most [CHUNK_SIZE] code
    units, and its embedding has gone through the conversion to 32
    bits. *)
Theorem ingestion_new_chunks `{Services} (inputPath : string)
        (forceReprocess : bool) (w : World) (c : VideoChunk) :
  let w' := snd (Ingestion.ingestVideos inputPath forceReprocess w) in
  In c (video_chunks (db w')) ->
  In c (video_chunks (db w))
  \/ (exists (videos_ : list Video) (video : Video),
         file_videos inputPath = Ok videos_
         /\ In video videos_
         /\ chunk_video_id c = video_id video
         /\ (0 <= chunk_id c < Z.of_nat (length (valid_chunks video)))%Z
         /\ nth (Z.to_nat (chunk_id c)) (valid_chunks video) ""
            = chunk_text c
         /\ Text.trim (chunk_text c) <> ""
         /\ String.length (chunk_text c) <= Ingest.CHUNK_SIZE
         /\ exists e, embedding c = map fround e).
Proof.
  cbn zeta. revert c.
  apply ingestVideos_inv
    with (Inv := fun d =>
                   forall c, In c (video_chunks d) ->
                     In c (video_chunks (db w))
                     \/ (exists videos_ video,
                            file_videos inputPath = Ok videos_
                            /\ In video videos_
                            /\ chunk_video_id c = video_id video
                            /\ (0 <= chunk_id c
                                < Z.of_nat (length (valid_chunks video)))%Z
                            /\ nth (Z.to_nat (chunk_id c))
                                   (valid_chunks video) "" = chunk_text c
                            /\ Text.trim (chunk_text c) <> ""
                            /\ String.length (chunk_text c)
                               <= Ingest.CHUNK_SIZE
                            /\ exists e, embedding c = map fround e)).
  - auto.
  - intros videos_ x d Efile Hx Hd c Hc.
    apply db_after_video_chunks in Hc.
    destruct Hc as [Hold|(Hid & Hrange & Hnth & Hemb)]; [ now apply Hd | ].
    right. exists videos_, x.
    assert (Hin : In (chunk_text c) (valid_chunks x)).
    { rewrite <- Hnth. apply nth_In. lia. }
    destruct (valid_chunks_spec x _ Hin) as [Hblank Hlen].
    repeat split; try assumption; lia.
Qed.

(** ** What a run stores for a video *)

Lemma find_filter {A : Type} (p : A -> bool) (l : list A) :
  find p l = hd_error (filter p l).
Proof.
  induction l as [|x l IH]; cbn; [ reflexivity | ].
  destruct (p x); [ reflexivity | exact IH ].
Qed.

Lemma filter_ext_in_list {A : Type} (p q : A -> bool) (l : list A) :
  (forall x, In x l -> p x = q x) -> filter p l = filter q l.
Proof.
  induction l as [|x l IH]; intros Hpq; cbn; [ reflexivity | ].
  rewrite (Hpq x (or_introl eq_refl)), IH; [ reflexivity | ].
  intros y Hy. apply Hpq. now right.
Qed.

(** A list that is in the order of a comparator is left as it is by
    [sort]. *)
Lemma sort_sorted {A : Type} (cmp : A -> A -> Q) (l : list A) :
  StronglySorted (fun a b => Qle_bool (cmp a b) 0 = true) l ->
  Js.sort cmp l = l.
Proof.
  induction 1 as [|x l Hl IH Hx]; [ reflexivity | ].
  change (Js.sort cmp (x :: l)) with (Js.sort_insert cmp x (Js.sort cmp l)).
  rewrite IH. destruct l as [|y l']; [ reflexivity | ].
  cbn. inversion Hx as [|? ? Hxy _]; subst. now rewrite Hxy.
Qed.

Lemma nth_seq_list {A : Type} (l : list A) (d : A) :
  map (fun i => nth i l d) (seq 0 (length l)) = l.
Proof.
  induction l as [|x l IH]; cbn; [ reflexivity | ].
  f_equal. rewrite <- seq_shift, map_map. exact IH.
Qed.

(** The video rows under an identifier after a row with that identifier
    has been written: that row alone. *)
Lemma video_rows_insert (v : Video) (d : Database) :
  video_rows (video_id v) (db_insert_video v d) = [v].
Proof.
  unfold video_rows, db_insert_video, Table.insert_or_replace. cbn [videos].
  rewrite filter_app. cbn. rewrite String.eqb_refl.
  replace (filter _ (filter _ (videos d))) with (@nil Video);
    [ reflexivity | ].
  induction (videos d) as [|x l IH]; cbn; [ reflexivity | ].
  unfold Table.same_video at 1.
  destruct (String.eqb (video_id x) (video_id v)) eqn:E; cbn;
    [ exact IH | ].
  now rewrite E.
Qed.

Section StoredRows.

Context `{Services}.

Lemma chunk_rows_insert (video : Video) (chunks_ : list string)
      (embeddings : list Embedding) (a : nat) (d : Database) :
  chunk_rows (video_id video)
             (db_insert_chunk (chunk_row video chunks_ embeddings a) d)
  = filter (outside a 1) (chunk_rows (video_id video) d)
    ++ [chunk_row video chunks_ embeddings a].
Proof.
  unfold chunk_rows, db_insert_chunk, Table.insert_or_replace.
  cbn [video_chunks]. rewrite filter_app. cbn [filter chunk_row
                                                     chunk_video_id].
  rewrite String.eqb_refl. f_equal.
  induction (video_chunks d) as [|x l IH]; cbn; [ reflexivity | ].
  unfold Table.same_chunk at 1. cbn [chunk_row chunk_video_id chunk_id].
  destruct (String.eqb (chunk_video_id x) (video_id video)) eqn:E;
    cbn [andb negb].
  - assert (Eo : outside a 1 x = negb (chunk_id x =? Z.of_nat a)%Z).
    { unfold outside. f_equal.
      destruct (Z.eqb_spec (chunk_id x) (Z.of_nat a)) as [->|Hne].
      - rewrite Z.leb_refl. cbn. apply Z.ltb_lt. lia.
      - destruct (Z.leb_spec (Z.of_nat a) (chunk_id x)); cbn;
          [ | reflexivity ].
        apply Z.ltb_ge. lia. }
    destruct (chunk_id x =? Z.of_nat a)%Z eqn:Ea; cbn.
    + rewrite Eo, IH. reflexivity.
    + rewrite E. cbn. rewrite Eo. cbn. now rewrite IH.
  - cbn. rewrite E. exact IH.
Qed.

(** The rows of a video after its chunks [a, a + n) have been written:
    the rows that were there under other numbers, then the new rows in
    their order. *)
Lemma chunk_rows_inserted (video : Video) (chunks_ : list string)
      (embeddings : list Embedding) (n : nat) :
  forall a d,
    chunk_rows (video_id video)
               (fold_left
                  (fun d i =>
                     db_insert_chunk (chunk_row video chunks_ embeddings i) d)
                  (seq a n) d)
    = filter (outside a n) (chunk_rows (video_id video) d)
      ++ map (chunk_row video chunks_ embeddings) (seq a n).
Proof.
  induction n as [|n IH]; intros a d; cbn [seq fold_left map].
  - rewrite app_nil_r. symmetry. apply filter_all.
    apply Forall_forall. intros x _. unfold outside.
    rewrite Nat.add_0_r.
    destruct (Z.leb_spec (Z.of_nat a) (chunk_id x)); cbn; [ | reflexivity ].
    apply negb_true_iff, Z.ltb_ge. lia.
  - rewrite IH, chunk_rows_insert, filter_app. cbn [filter].
    assert (Hnew : outside (S a) n (chunk_row video chunks_ embeddings a)
                   = true).
    { unfold outside. cbn [chunk_row chunk_id].
      apply negb_true_iff, andb_false_iff. left. apply Z.leb_gt. lia. }
    rewrite Hnew, <- app_assoc. cbn [app]. f_equal.
    rewrite <- filter_andb. apply filter_ext_in_list. intros x _.
    unfold outside.
    destruct (Z.leb_spec (Z.of_nat a) (chunk_id x)),
             (Z.ltb_spec (chunk_id x) (Z.of_nat (a + S n))),
             (Z.leb_spec (Z.of_nat (S a)) (chunk_id x)),
             (Z.ltb_spec (chunk_id x) (Z.of_nat (S a + n))),
             (Z.ltb_spec (chunk_id x) (Z.of_nat (a + 1)));
      cbn; try reflexivity; lia.
Qed.

(** The rows of a video that has been processed without an error. *)
Lemma db_after_video_rows (forceReprocess : bool) (existing : list string)
      (video : Video) (d : Database) :
  passed_over forceReprocess existing video = false ->
  (valid_chunks video = []
   \/ exists embs, generateEmbeddings (valid_chunks video) = Ok embs) ->
  let d' := db_after_video forceReprocess existing video d in
  video_rows (video_id video) d' = [stored_video video]
  /\ exists embs,
      chunk_rows (video_id video) d'
      = filter (outside 0 (length (valid_chunks video)))
               (chunk_rows (video_id video) d)
        ++ map (chunk_row video (valid_chunks video) embs)
               (seq 0 (length (valid_chunks video))).
Proof.
  intros Hp Hok. unfold db_after_video. rewrite Hp.
  pose proof (video_rows_insert (stored_video video) d) as Hv.
  cbn [stored_video video_id] in Hv.
  assert (Hnone : chunk_rows (video_id video)
                             (db_insert_video (stored_video video) d)
                  = filter (outside 0 0) (chunk_rows (video_id video) d)
                    ++ map (chunk_row video [] []) (seq 0 0)).
  { exact (chunk_rows_inserted video [] [] 0 0
                               (db_insert_video (stored_video video) d)). }
  destruct (valid_chunks video) as [|c0 cs] eqn:Ev.
  { cbn zeta. split; [ exact Hv | ]. exists []. exact Hnone. }
  destruct Hok as [Hnil|[embs Hemb]]; [ discriminate | ].
  rewrite Hemb. cbn zeta. split.
  - unfold video_rows.
    destruct (insert_rows_tables video (c0 :: cs) embs
                                 (seq 0 (length (c0 :: cs)))
                                 (db_insert_video (stored_video video) d))
      as (Hvid & _).
    rewrite Hvid. exact Hv.
  - exists embs. rewrite chunk_rows_inserted. reflexivity.
Qed.

(** The videos of the file with other identifiers leave the rows under
    an identifier as they are. *)
Lemma ingest_others_rows (forceReprocess : bool) (existing : list string)
      (videos_ : list Video) (id : string) (c : Z * Z) (w : World) :
  ~ In id (map video_id videos_) ->
  let w' := snd (for_each videos_
                          (Ingestion.ingest_video forceReprocess existing)
                          c w) in
  video_rows id (db w') = video_rows id (db w)
  /\ chunk_rows id (db w') = chunk_rows id (db w).
Proof.
  intros Hid.
  apply for_each_db_inv
    with (f := db_after_video forceReprocess existing)
         (Inv := fun d => video_rows id d = video_rows id (db w)
                          /\ chunk_rows id d = chunk_rows id (db w)).
  - intros x s w0 _. apply ingest_video_run.
  - intros x d Hx [Hv Hc].
    destruct (db_after_video_other forceReprocess existing x d)
      as (_ & _ & Hother & _).
    destruct (Hother id) as [-> ->]; [ | auto ].
    intros ->. apply Hid. now apply in_map.
  - auto.
Qed.

(** The rows of a video of the file after a loop that has returned,
    when no other video of the file has its identifier. *)
Lemma ingest_loop_rows (forceReprocess : bool) (existing : list string)
      (videos_ : list Video) (video : Video) (c c' : Z * Z) (w w' : World) :
  for_each videos_ (Ingestion.ingest_video forceReprocess existing) c w
  = (Ok c', w') ->
  NoDup (map video_id videos_) ->
  In video videos_ ->
  passed_over forceReprocess existing video = false ->
  video_rows (video_id video) (db w') = [stored_video video]
  /\ exists embs,
      chunk_rows (video_id video) (db w')
      = filter (outside 0 (length (valid_chunks video)))
               (chunk_rows (video_id video) (db w))
        ++ map (chunk_row video (valid_chunks video) embs)
               (seq 0 (length (valid_chunks video))).
Proof.
  intros Hrun Hnd Hin Hp.
  apply in_split in Hin. destruct Hin as (pre & post & ->).
  rewrite map_app in Hnd. cbn [map] in Hnd.
  pose proof (NoDup_remove_2 _ _ _ Hnd) as Hnot.
  apply for_each_app_ok in Hrun.
  destruct Hrun as (s1 & w1 & Hpre & Hrest).
  cbn [for_each] in Hrest. unfold bind in Hrest.
  destruct (Ingestion.ingest_video forceReprocess existing video s1 w1)
    as [[s2|e] w2] eqn:Ebody; [ | discriminate ].
  destruct (ingest_video_run forceReprocess existing video s1 w1)
    as (Hdb & _ & _ & _ & Hres).
  rewrite Ebody in Hdb, Hres. cbn [fst snd] in Hdb, Hres. rewrite Hp in Hres.
  assert (Hok : valid_chunks video = []
                \/ exists embs, generateEmbeddings (valid_chunks video)
                                = Ok embs).
  { destruct (valid_chunks video) as [|c0 cs]; [ now left | right ].
    destruct (generateEmbeddings (c0 :: cs)) as [embs|e];
      [ eauto | discriminate ]. }
  destruct (db_after_video_rows forceReprocess existing video (db w1) Hp Hok)
    as (Hv & embs & Hc).
  rewrite <- Hdb in Hv, Hc.
  destruct (@ingest_others_rows forceReprocess existing pre (video_id video)
                                c w) as (Hv1 & Hc1).
  { intros Hi. apply Hnot. apply in_or_app. now left. }
  rewrite Hpre in Hv1, Hc1. cbn [snd] in Hv1, Hc1.
  destruct (@ingest_others_rows forceReprocess existing post (video_id video)
                                s2 w2) as (Hv2 & Hc2).
  { intros Hi. apply Hnot. apply in_or_app. now right. }
  rewrite Hrest in Hv2, Hc2. cbn [snd] in Hv2, Hc2.
  split; [ congruence | ]. exists embs. rewrite Hc2, Hc, Hc1. reflexivity.
Qed.

End StoredRows.

Lemma sorted_map_seq {A : Type} (R : A -> A -> Prop) (f : nat -> A)
      (n : nat) :
  (forall i j, i < j -> R (f i) (f j)) ->
  forall a, StronglySorted R (map f (seq a n)).
Proof.
  intros HR. induction n as [|n IH]; intros a; cbn; constructor.
  - apply IH.
  - apply Forall_forall. intros y Hy. apply in_map_iff in Hy.
    destruct Hy as (j & <- & Hj). apply in_seq in Hj. apply HR. lia.
Qed.

Section IngestionResults.

Context `{Services}.

(** The run as its loop: a run that has read the file ends as the loop
    over the videos ends. *)
Lemma ingestVideos_loop (inputPath : string) (forceReprocess : bool)
      (w : World) (videos_ : list Video) :
  file_videos inputPath = Ok videos_ ->
  exists w1,
    db w1 = db w
    /\ let r := for_each videos_
                         (Ingestion.ingest_video
                            forceReprocess (map video_id (videos (db w))))
                         (0%Z, 0%Z) w1 in
       db (snd (Ingestion.ingestVideos inputPath forceReprocess w))
       = db (snd r)
       /\ fst (Ingestion.ingestVideos inputPath forceReprocess w)
          = match fst r with
            | Ok _ => Ok tt
            | Throw e => Throw e
            end.
Proof.
  intros Efile.
  pose proof (ingestVideos_db inputPath forceReprocess w) as R.
  rewrite Efile in R. destruct R as (w1 & Hdb1 & _ & _ & _ & Hdb & Hfst & _).
  exists w1. auto.
Qed.

(** What the two lookups return for a video whose rows are those that a
    run writes. *)
Lemma lookups_of_rows (video : Video) (embs : list Embedding) (w : World) :
  video_rows (video_id video) (db w) = [stored_video video] ->
  chunk_rows (video_id video) (db w)
  = map (chunk_row video (valid_chunks video) embs)
        (seq 0 (length (valid_chunks video))) ->
  Table.getVideo (video_id video) w = (Ok (Some (stored_video video)), w)
  /\ Table.getChunksForVideo (video_id video) w
     = (Ok (valid_chunks video), w).
Proof.
  intros Hv Hc. unfold Table.getVideo, Table.getChunksForVideo, DB.read.
  split.
  - rewrite find_filter. fold (video_rows (video_id video) (db w)).
    now rewrite Hv.
  - fold (chunk_rows (video_id video) (db w)). rewrite Hc.
    rewrite sort_sorted.
    + rewrite map_map. cbn [chunk_row chunk_text].
      now rewrite nth_seq_list.
    + apply sorted_map_seq. intros i j Hij. cbn [chunk_row chunk_id].
      apply Qle_bool_iff. unfold Qle. cbn. lia.
Qed.

Lemma filter_outside_nil (a n : nat) : filter (outside a n) [] = [].
Proof. reflexivity. Qed.

(** A loop in which every video is passed over returns, changes
    nothing in the database and counts every video as passed over. *)
Lemma ingest_all_passed (forceReprocess : bool) (existing : list string)
      (videos_ : list Video) :
  (forall x, In x videos_ ->
             passed_over forceReprocess existing x = true) ->
  forall p s w,
    exists w',
      for_each videos_ (Ingestion.ingest_video forceReprocess existing)
               (p, s) w
      = (Ok (p, (s + Z.of_nat (length videos_))%Z), w')
      /\ db w' = db w.
Proof.
  induction videos_ as [|x l IH]; intros Hall p s w.
  - exists w. cbn. rewrite Z.add_0_r. auto.
  - cbn [for_each]. unfold bind.
    destruct (ingest_video_run forceReprocess existing x (p, s) w)
      as (Hdb & _ & _ & _ & Hres).
    unfold db_after_video, counts_after_video in *.
    rewrite (Hall x (or_introl eq_refl)) in *.
    destruct (Ingestion.ingest_video forceReprocess existing x (p, s) w)
      as [r w1].
    cbn [fst snd] in *. subst r.
    destruct (IH (fun y Hy => Hall y (or_intror Hy)) p (s + 1)%Z w1)
      as (w' & Hrun & Hdb').
    exists w'. rewrite Hrun. split; [ | congruence ].
    do 2 f_equal. f_equal. cbn [length]. lia.
Qed.

(** After a loop that has returned, every video of the file is in the
    table. *)
Lemma ingest_loop_ids (forceReprocess : bool) (existing : list string)
      (videos_ : list Video) (c c' : Z * Z) (w w' : World) :
  for_each videos_ (Ingestion.ingest_video forceReprocess existing) c w
  = (Ok c', w') ->
  (forall id, In id existing -> In id (map video_id (videos (db w)))) ->
  forall x, In x videos_ -> In (video_id x) (map video_id (videos (db w'))).
Proof.
  intros Hrun Hex x Hx.
  assert (Hgrow : forall l id s w0,
             In id (map video_id (videos (db w0))) ->
             In id (map video_id
                        (videos (db (snd (for_each
                                            l
                                            (Ingestion.ingest_video
                                               forceReprocess existing)
                                            s w0)))))).
  { intros l id s w0.
    apply for_each_db_inv
      with (f := db_after_video forceReprocess existing)
           (Inv := fun d => In id (map video_id (videos d))).
    - intros y s' w1 _. apply ingest_video_run.
    - intros y d _ Hd. now apply db_after_video_ids. }
  apply in_split in Hx. destruct Hx as (pre & post & ->).
  apply for_each_app_ok in Hrun. destruct Hrun as (s1 & w1 & Hpre & Hrest).
  cbn [for_each] in Hrest. unfold bind in Hrest.
  destruct (Ingestion.ingest_video forceReprocess existing x s1 w1)
    as [[s2|e] w2] eqn:Ebody; [ | discriminate ].
  destruct (ingest_video_run forceReprocess existing x s1 w1)
    as (Hdb & _).
  rewrite Ebody in Hdb. cbn [snd] in Hdb.
  pose proof (Hgrow post (video_id x) s2 w2) as Hpost.
  rewrite Hrest in Hpost. cbn [snd] in Hpost. apply Hpost.
  rewrite Hdb.
  destruct (db_after_video_ids forceReprocess existing x (db w1))
    as (Hg & Hnew & _).
  destruct (passed_over forceReprocess existing x) eqn:Ep.
  - apply Hg. pose proof (Hgrow pre (video_id x) c w) as Hp.
    rewrite Hpre in Hp. cbn [snd] in Hp. apply Hp, Hex.
    unfold passed_over in Ep. apply andb_true_iff in Ep.
    now apply existsb_eqb_In.
  - now apply Hnew.
Qed.

(** The first video at which a loop throws. *)
Lemma for_each_throw {A S : Type} (l : list A) (body : A -> S -> M S) :
  forall s w e w',
    for_each l body s w = (Throw e, w') ->
    exists l1 x l2 s1 w1,
      l = l1 ++ x :: l2
      /\ for_each l1 body s w = (Ok s1, w1)
      /\ body x s1 w1 = (Throw e, w').
Proof.
  induction l as [|x l IH]; intros s w e w'; cbn [for_each].
  - discriminate.
  - unfold bind. destruct (body x s w) as [[s1|e1] w1] eqn:Ex.
    + intros Hrest. destruct (IH s1 w1 e w' Hrest)
        as (l1 & y & l2 & s2 & w2 & -> & Hl1 & Hy).
      exists (x :: l1), y, l2, s2, w2. split; [ reflexivity | ].
      split; [ | exact Hy ]. cbn [for_each]. unfold bind. now rewrite Ex.
    + intros E. inversion E; subst. exists [], x, l, s, w. auto.
Qed.

End IngestionResults.

(** X9.  ingestVideos, then the lookups.  Let a run return, on a file in
    which no two videos have the same identifier.  For a video of the
    file that the run did not pass over and that had no chunk in the
    table, [getVideo] then returns the video with its intro and its
    address filled in, and [getChunksForVideo] returns the chunks of its
    transcript that are not blank, in their order. *)
Theorem ingestion_round_trip `{Services} (inputPath : string)
        (forceReprocess : bool) (w w' : World) (videos_ : list Video)
        (video : Video) :
  Ingestion.ingestVideos inputPath forceReprocess w = (Ok tt, w') ->
  file_videos inputPath = Ok videos_ ->
  NoDup (map video_id videos_) ->
  In video videos_ ->
  forceReprocess = true
  \/ ~ In (video_id video) (map video_id (videos (db w))) ->
  chunk_rows (video_id video) (db w) = [] ->
  Table.getVideo (video_id video) w' = (Ok (Some (stored_video video)), w')
  /\ Table.getChunksForVideo (video_id video) w'
     = (Ok (valid_chunks video), w').
Proof.
  intros Hrun Efile Hnd Hin Hfresh Hnone.
  destruct (ingestVideos_loop inputPath forceReprocess w Efile)
    as (w1 & Hdb1 & Hdb & Hfst).
  rewrite Hrun in Hdb, Hfst. cbn [fst snd] in Hdb, Hfst.
  destruct (for_each videos_ _ _ w1) as [[c'|e] w2] eqn:Eloop;
    cbn [fst snd] in *; [ | discriminate ].
  assert (Hp : passed_over forceReprocess (map video_id (videos (db w)))
                           video = false).
  { unfold passed_over. destruct Hfresh as [->|Hnot]; [ reflexivity | ].
    apply andb_false_iff. right.
    destruct (existsb _ _) eqn:E; [ | reflexivity ].
    apply existsb_eqb_In in E. contradiction. }
  destruct (@ingest_loop_rows _ _ _ _ _ _ _ _ _ Eloop Hnd Hin Hp)
    as (Hv & embs & Hc).
  rewrite Hdb1, Hnone, filter_outside_nil in Hc. cbn [app] in Hc.
  rewrite <- Hdb in Hv, Hc.
  now apply lookups_of_rows with (embs := embs).
Qed.

(** X10.  ingestVideos deletes no chunk.  A row of the chunk table whose
    number is not the position of a chunk of its video in the file (the
    chunks that are not blank, counted from 0) is still in the table
    after a run, whether the run returns or throws: a video that is
    processed again with fewer chunks keeps the later chunks of its
    earlier transcript. *)
Theorem ingestion_keeps_stale_chunks `{Services} (inputPath : string)
        (forceReprocess : bool) (w : World) (r : VideoChunk) :
  In r (video_chunks (db w)) ->
  (forall videos_ video,
      file_videos inputPath = Ok videos_ -> In video videos_ ->
      chunk_video_id r = video_id video ->
      outside 0 (length (valid_chunks video)) r = true) ->
  In r (video_chunks
          (db (snd (Ingestion.ingestVideos inputPath forceReprocess w)))).
Proof.
  intros Hr Hout.
  apply ingestVideos_inv with (Inv := fun d => In r (video_chunks d));
    [ exact Hr | ].
  intros videos_ x d Efile Hx Hd.
  assert (Hrows : forall d',
             chunk_rows (chunk_video_id r) d'
             = chunk_rows (chunk_video_id r) d
             \/ (chunk_video_id r = video_id x
                 /\ exists embs,
                     chunk_rows (chunk_video_id r) d'
                     = filter (outside 0 (length (valid_chunks x)))
                              (chunk_rows (chunk_video_id r) d)
                       ++ map (chunk_row x (valid_chunks x) embs)
                              (seq 0 (length (valid_chunks x)))) ->
             In r (video_chunks d')).
  { intros d' Hd'.
    assert (Hin : In r (chunk_rows (chunk_video_id r) d))
      by (apply filter_In; split; [ exact Hd | apply String.eqb_refl ]).
    assert (Hin' : In r (chunk_rows (chunk_video_id r) d')).
    { destruct Hd' as [->|(Eid & embs & ->)]; [ exact Hin | ].
      apply in_or_app. left. apply filter_In. split; [ exact Hin | ].
      now apply (Hout videos_ x). }
    now apply filter_In in Hin'. }
  apply Hrows.
  destruct (String.eqb_spec (chunk_video_id r) (video_id x)) as [Eid|Nid].
  - destruct (passed_over forceReprocess
                          (map video_id (videos (db w))) x) eqn:Ep.
    + left. unfold db_after_video. now rewrite Ep.
    + destruct (valid_chunks x) as [|c0 cs] eqn:Ev.
      * left. unfold db_after_video. rewrite Ep, Ev. reflexivity.
      * destruct (generateEmbeddings (c0 :: cs)) as [embs|e] eqn:Eg.
        -- right. split; [ exact Eid | ].
           destruct (@db_after_video_rows
                       _ forceReprocess (map video_id (videos (db w))) x d Ep)
             as (_ & embs' & Hc).
           { right. rewrite Ev. eauto. }
           rewrite Eid, Ev in *. eauto.
        -- left. unfold db_after_video. rewrite Ep, Ev, Eg. reflexivity.
  - left.
    destruct (db_after_video_other
                forceReprocess (map video_id (videos (db w))) x d)
      as (_ & _ & Hother & _).
    now destruct (Hother (chunk_video_id r) Nid).
Qed.

(** X11.  ingestVideos twice.  After a run without reprocessing that has
    returned, a second run on the same file returns too, passes every
    video over and leaves the database as the first run left it. *)
Theorem ingestion_rerun `{Services} (inputPath : string) (w w1 : World) :
  Ingestion.ingestVideos inputPath false w = (Ok tt, w1) ->
  exists (w2 : World) (videos_ : list Video) (logs : list LogLine),
    Ingestion.ingestVideos inputPath false w1 = (Ok tt, w2)
    /\ db w2 = db w1
    /\ file_videos inputPath = Ok videos_
    /\ console w2
       = console w1 ++ logs
         ++ ingestion_summary (length videos_) 0
                              (Z.of_nat (length videos_)).
Proof.
  intros Hrun.
  destruct (file_videos inputPath) as [videos_|e] eqn:Efile.
  2: { rewrite ingestVideos_unfold, Efile in Hrun. discriminate. }
  destruct (ingestVideos_loop inputPath false w Efile)
    as (wa & Hdba & Hdb & Hfst).
  rewrite Hrun in Hdb, Hfst. cbn [fst snd] in Hdb, Hfst.
  destruct (for_each videos_ _ _ wa) as [[c'|e] wb] eqn:Eloop;
    cbn [fst snd] in *; [ | discriminate ].
  assert (Hids : forall x, In x videos_ ->
                   In (video_id x) (map video_id (videos (db w1)))).
  { rewrite Hdb. eapply ingest_loop_ids; [ exact Eloop | ].
    intros id Hid. now rewrite Hdba. }
  pose proof (ingestVideos_db inputPath false w1) as R.
  rewrite Efile in R.
  destruct R as (wc & Hdbc & _ & _ & [logs1 Hl1] & Hdb2 & Hfst2 & Hcon2).
  destruct (@ingest_all_passed _ false (map video_id (videos (db w1)))
                               videos_) with (p := 0%Z) (s := 0%Z) (w := wc)
    as (wd & Hrun2 & Hdbd).
  { intros x Hx. unfold passed_over. cbn [negb andb].
    apply existsb_eqb_In. now apply Hids. }
  rewrite Hrun2 in Hdb2, Hfst2, Hcon2. cbn [fst snd] in *.
  destruct (ingest_videos_quiet false (map video_id (videos (db w1)))
                                videos_ (0%Z, 0%Z) wc)
    as (_ & _ & logs2 & Hl2).
  rewrite Hrun2 in Hl2. cbn [snd] in Hl2.
  destruct (Ingestion.ingestVideos inputPath false w1) as [r w2].
  cbn [fst snd] in *. subst r.
  exists w2, videos_, (logs1 ++ logs2).
  split; [ reflexivity | ]. split; [ congruence | ].
  split; [ reflexivity | ].
  rewrite (Hcon2 _ _ eq_refl), Hl2, Hl1, <- !app_assoc. reflexivity.
Qed.

(** X12.  ingestVideos, when the embeddings fail.  Let a run throw after it
    has read a file in which no two videos have the same identifier.
    Then the embeddings of one video of the file could not be made; the
    row of that video has been written, and its chunks in the table are
    those from before the run.  A second run without reprocessing
    passes that video over: its row and its chunks stay as they are. *)
Theorem ingestion_failure `{Services} (inputPath : string)
        (forceReprocess : bool) (w w1 : World) (e : string)
        (videos_ : list Video) :
  Ingestion.ingestVideos inputPath forceReprocess w = (Throw e, w1) ->
  file_videos inputPath = Ok videos_ ->
  NoDup (map video_id videos_) ->
  exists video : Video,
    In video videos_
    /\ generateEmbeddings (valid_chunks video) = Throw e
    /\ Table.getVideo (video_id video) w1
       = (Ok (Some (stored_video video)), w1)
    /\ chunk_rows (video_id video) (db w1)
       = chunk_rows (video_id video) (db w)
    /\ let w2 := snd (Ingestion.ingestVideos inputPath false w1) in
       video_rows (video_id video) (db w2) = [stored_video video]
       /\ chunk_rows (video_id video) (db w2)
          = chunk_rows (video_id video) (db w).
Proof.
  intros Hrun Efile Hnd.
  destruct (ingestVideos_loop inputPath forceReprocess w Efile)
    as (wa & Hdba & Hdb & Hfst).
  rewrite Hrun in Hdb, Hfst. cbn [fst snd] in Hdb, Hfst.
  set (existing := map video_id (videos (db w))) in *.
  destruct (for_each videos_ _ _ wa) as [[c'|e'] wb] eqn:Eloop;
    cbn [fst snd] in *; [ discriminate | ].
  inversion Hfst; subst e'. clear Hfst.
  apply for_each_throw in Eloop.
  destruct Eloop as (pre & x & post & s1 & wp & -> & Hpre & Hx).
  rewrite map_app in Hnd. cbn [map] in Hnd.
  pose proof (NoDup_remove_2 _ _ _ Hnd) as Hnot.
  destruct (ingest_video_run forceReprocess existing x s1 wp)
    as (Hdbx & _ & _ & _ & Hres).
  rewrite Hx in Hdbx, Hres. cbn [fst snd] in Hdbx, Hres.
  unfold db_after_video in Hdbx.
  destruct (passed_over forceReprocess existing x); [ discriminate | ].
  destruct (valid_chunks x) as [|c0 cs] eqn:Ev; [ discriminate | ].
  destruct (generateEmbeddings (c0 :: cs)) as [embs|e'] eqn:Eg;
    [ discriminate | ].
  inversion Hres; subst e'. clear Hres.
  destruct (@ingest_others_rows _ forceReprocess existing pre (video_id x)
                                (0%Z, 0%Z) wa) as (_ & Hc1).
  { intros Hi. apply Hnot. apply in_or_app. now left. }
  rewrite Hpre in Hc1. cbn [snd] in Hc1.
  assert (Hv1 : video_rows (video_id x) (db w1) = [stored_video x]).
  { rewrite Hdb, Hdbx.
    exact (video_rows_insert (stored_video x) (db wp)). }
  assert (Hc : chunk_rows (video_id x) (db w1)
               = chunk_rows (video_id x) (db w)).
  { rewrite Hdb, Hdbx. unfold chunk_rows in *. cbn [db_insert_video
                                                      video_chunks].
    rewrite Hc1. now rewrite Hdba. }
  exists x. split; [ apply in_or_app; right; now left | ].
  split; [ now rewrite Ev | ]. split.
  { unfold Table.getVideo, DB.read. rewrite find_filter.
    fold (video_rows (video_id x) (db w1)). now rewrite Hv1. }
  split; [ exact Hc | ].
  destruct (ingestVideos_keeps_rows inputPath false w1) as (_ & _ & Hkeep).
  destruct (Hkeep eq_refl (video_id x)) as [Hkv Hkc].
  { assert (Hin : In (stored_video x) (video_rows (video_id x) (db w1)))
      by (rewrite Hv1; now left).
    apply filter_In in Hin. destruct Hin as [Hin _].
    change (video_id x) with (video_id (stored_video x)).
    now apply in_map. }
  cbn zeta. split; congruence.
Qed.

(** ** db.ts: inserts and lookups *)

(** X13.  insertTrend, insertVideo and the lookups.  After [insertTrend],
    [getTrend] at the identifier of the trend returns that trend, and
    at any other identifier what it returned before; no two rows of the
    table share an identifier if none did before, the table has at most
    one row more, and the other tables are as they were.  The same holds
    of [insertVideo] and [getVideo]. *)
Theorem insert_then_lookup (w : World) :
  (forall t : Trend,
      let w' := snd (Table.insertTrend t w) in
      DB.getTrend (trend_id t) w' = (Ok (Some t), w')
      /\ (forall id, id <> trend_id t ->
                     fst (DB.getTrend id w') = fst (DB.getTrend id w))
      /\ (NoDup (map trend_id (trends (db w))) ->
          NoDup (map trend_id (trends (db w'))))
      /\ length (trends (db w')) <= S (length (trends (db w)))
      /\ videos (db w') = videos (db w)
      /\ video_chunks (db w') = video_chunks (db w)
      /\ recommendations (db w') = recommendations (db w))
  /\ (forall v : Video,
         let w' := snd (Table.insertVideo v w) in
         Table.getVideo (video_id v) w' = (Ok (Some v), w')
         /\ (forall id, id <> video_id v ->
                        fst (Table.getVideo id w')
                        = fst (Table.getVideo id w))
         /\ (NoDup (map video_id (videos (db w))) ->
             NoDup (map video_id (videos (db w'))))
         /\ length (videos (db w')) <= S (length (videos (db w)))
         /\ trends (db w') = trends (db w)
         /\ video_chunks (db w') = video_chunks (db w)
         /\ recommendations (db w') = recommendations (db w)).
Proof.
  split.
  - intros t. cbn zeta.
    unfold Table.insertTrend, DB.getTrend, DB.write, DB.read.
    cbn [fst snd db trends videos video_chunks recommendations].
    split; [ f_equal; f_equal; apply (find_insert_same trend_id) | ].
    split; [ intros id Hid; f_equal;
             now apply (find_insert_other trend_id) | ].
    split; [ apply (table_insert_NoDup trend_id Table.same_trend
                                       same_trend_spec) | ].
    split; [ apply table_insert_length | auto ].
  - intros v. cbn zeta.
    unfold Table.insertVideo, Table.getVideo, DB.write, DB.read.
    cbn [fst snd db trends videos video_chunks recommendations].
    split; [ f_equal; f_equal; apply (find_insert_same video_id) | ].
    split; [ intros id Hid; f_equal;
             now apply (find_insert_other video_id) | ].
    split; [ apply (table_insert_NoDup video_id Table.same_video
                                       same_video_spec) | ].
    split; [ apply table_insert_length | auto ].
Qed.

(** ** server.ts: the other handlers *)

Lemma trimEnd_idem (s : string) : Text.trimEnd (Text.trimEnd s) = Text.trimEnd s.
Proof.
  induction s as [|c s IH]; [ reflexivity | ].
  cbn [Text.trimEnd].
  destruct (Text.trimEnd s) as [|a t] eqn:Et.
  - destruct (Text.is_space c) eqn:Ec; [ reflexivity | ].
    cbn. now rewrite Ec.
  - cbn [Text.trimEnd] in *. rewrite IH. reflexivity.
Qed.

Lemma trimStart_head (s : string) :
  match Text.trimStart s with
  | EmptyString => True
  | String c _ => Text.is_space c = false
  end.
Proof.
  induction s as [|c s IH]; cbn; [ exact I | ].
  destruct (Text.is_space c) eqn:Ec; [ exact IH | exact Ec ].
Qed.

Lemma trimEnd_head (c : ascii) (s : string) :
  Text.is_space c = false ->
  exists t, Text.trimEnd (String c s) = String c t.
Proof.
  intros Hc. cbn [Text.trimEnd].
  destruct (Text.trimEnd s); [ rewrite Hc | ]; eauto.
Qed.

Lemma trim_idem (s : string) : Text.trim (Text.trim s) = Text.trim s.
Proof.
  unfold Text.trim.
  pose proof (trimStart_head s) as Hh.
  destruct (Text.trimStart s) as [|c u]; [ reflexivity | ].
  destruct (@trimEnd_head c u Hh) as [t Et].
  assert (Es : Text.trimStart (Text.trimEnd (String c u))
               = Text.trimEnd (String c u)).
  { rewrite Et. cbn. now rewrite Hh. }
  rewrite Es. apply trimEnd_idem.
Qed.

(** The answers of POST /api/add-manual-trend, by their kind. *)
Lemma manual_trend_reply `{Services} (body : JValue) (w : World) :
  exists (reply : Reply) (w' : World),
    Api.add_manual_trend body w = (Ok reply, w')
    /\ match reply with
       | ReplyError status _ =>
           w' = w
           /\ (status = 400 \/ status = 500)
           /\ (status = 400 <->
               exists v, get_prop body "title" = Ok v
                         /\ (Api.truthy v = false
                             \/ exists s, v = JStr s /\ Text.trim s = ""))
       | ReplyTrend t =>
           exists s,
             get_prop body "title" = Ok (JStr s)
             /\ title t = Text.trim s
             /\ title t <> ""
             /\ Text.trim (title t) = title t
             /\ summary t <> ""
             /\ keywords t = Trends.extractKeywords s
             /\ source t = "manual"
             /\ db w' = db_insert_trend t (db w)
             /\ DB.getTrend (trend_id t) w' = (Ok (Some t), w')
       | _ => False
       end.
Proof.
  assert (Hprop : forall k1 k2 v, get_prop body k1 = Ok v ->
                                  exists v', get_prop body k2 = Ok v').
  { intros k1 k2 v. destruct body; cbn; try discriminate; eauto. }
  unfold Api.add_manual_trend, try_catch, bind at 1, lift at 1.
  destruct (get_prop body "title") as [tv|e] eqn:Et.
  2: { cbn. eexists; eexists. split; [ reflexivity | ].
       split; [ reflexivity | ]. split; [ now right | ].
       split; [ discriminate | intros (v & Hv & _); discriminate ]. }
  destruct (Hprop "title" "description" tv Et) as [dv Ed].
  unfold bind at 1, lift at 1. rewrite Ed.
  destruct (Api.truthy tv) eqn:Etruthy.
  2: { cbn. eexists; eexists. split; [ reflexivity | ].
       split; [ reflexivity | ]. split; [ now left | ].
       split; [ intros _; exists tv; auto | reflexivity ]. }
  cbn [negb]. unfold bind at 1.
  destruct tv as [| |b|q|s|items|fields]; cbn in Etruthy;
    try discriminate;
    try (cbn; eexists; eexists; split; [ reflexivity | ];
         split; [ reflexivity | ]; split; [ now right | ];
         split; [ discriminate | ];
         intros (v & Hv & [Hf|(s0 & Hs & _)]); injection Hv as <-;
         [ cbn in Hf; congruence | discriminate ]).
  unfold bind at 1, lift at 1. cbn [Api.call_trim ret].
  destruct (String.eqb_spec (Text.trim s) "") as [Eblank|Nblank].
  { cbn. eexists; eexists. split; [ reflexivity | ].
    split; [ reflexivity | ]. split; [ now left | ].
    split; [ intros _; exists (JStr s); eauto | reflexivity ]. }
  assert (Hnot400 : forall status : nat,
             status = 500 ->
             (status = 400 <->
              exists v, Ok (JStr s) = Ok v
                        /\ (Api.truthy v = false
                            \/ exists s0, v = JStr s0 /\ Text.trim s0 = ""))).
  { intros status ->. split; [ discriminate | ].
    intros (v & Hv & [Hf|(s0 & Hs & Hb)]); injection Hv as <-.
    - cbn in Hf. congruence.
    - injection Hs as <-. contradiction. }
  assert (Hdone : forall (summary_ : string) (w' : World),
    summary_ <> "" ->
    let trend := {| trend_id := Trends.generateTrendId (Date_now 0) s;
                    title := Text.trim s;
                    summary := summary_;
                    keywords := Trends.extractKeywords s;
                    source := "manual";
                    created_at := Date_toISOString 0 |} in
    db w' = db_insert_trend trend (db w) ->
    exists s0,
      Ok (JStr s) = Ok (JStr s0)
      /\ title trend = Text.trim s0
      /\ title trend <> ""
      /\ Text.trim (title trend) = title trend
      /\ summary trend <> ""
      /\ keywords trend = Trends.extractKeywords s0
      /\ source trend = "manual"
      /\ db w' = db_insert_trend trend (db w)
      /\ DB.getTrend (trend_id trend) w' = (Ok (Some trend), w')).
  { intros summary_ w' Hsum trend Hdb.
    exists s. split; [ reflexivity | ]. split; [ reflexivity | ].
    split; [ exact Nblank | ]. split; [ apply trim_idem | ].
    split; [ exact Hsum | ]. split; [ reflexivity | ].
    split; [ reflexivity | ]. split; [ exact Hdb | ].
    unfold DB.getTrend, DB.read. rewrite Hdb. cbn [db_insert_trend trends].
    f_equal. f_equal. apply (find_insert_same trend_id). }
  cbn [negb].
  destruct (Api.truthy dv) eqn:Edt.
  2: { unfold bind, DB.new, log, Table.insertTrend, DB.write, DB.close, ret.
       cbn [fst snd]. eexists; eexists. split; [ reflexivity | ].
       now apply Hdone. }
  destruct dv as [| |b|q|d|items|fields]; cbn in Edt; try discriminate;
    try (cbn; eexists; eexists; split; [ reflexivity | ];
         split; [ reflexivity | ]; split; [ now right | ];
         now apply Hnot400).
  unfold bind, lift, DB.new, log, Table.insertTrend, DB.write, DB.close, ret.
  cbn [Api.call_trim fst snd].
  destruct (String.eqb_spec (Text.trim d) "") as [Ed0|Nd0]; cbn [negb];
    eexists; eexists; (split; [ reflexivity | ]); now apply Hdone.
Qed.

(** The trend that the handler builds from a title and a description. *)
Lemma manual_trend_stored `{Services} (body : JValue) (w : World)
      (s : string) (dv : JValue) :
  get_prop body "title" = Ok (JStr s) ->
  Text.trim s <> "" ->
  get_prop body "description" = Ok dv ->
  Api.truthy dv = false \/ (exists d, dv = JStr d) ->
  exists w',
    Api.add_manual_trend body w = (Ok (ReplyTrend (manual_trend s dv)), w')
    /\ db w' = db_insert_trend (manual_trend s dv) (db w).
Proof.
  intros Et Nblank Ed Hd.
  unfold Api.add_manual_trend, try_catch, bind at 1, lift at 1.
  rewrite Et. unfold bind at 1, lift at 1. rewrite Ed.
  assert (Es : Api.truthy (JStr s) = true).
  { cbn. destruct s; [ now contradiction Nblank | reflexivity ]. }
  rewrite Es. cbn [negb]. unfold bind at 1.
  unfold bind at 1, lift at 1. cbn [Api.call_trim ret].
  destruct (String.eqb_spec (Text.trim s) "") as [E|_]; [ contradiction | ].
  unfold manual_trend.
  destruct (Api.truthy dv) eqn:Edt.
  - destruct Hd as [Hd|[d ->]]; [ discriminate | ].
    unfold bind, lift, DB.new, log, Table.insertTrend, DB.write, DB.close,
      ret.
    cbn [Api.call_trim fst snd].
    destruct (String.eqb (Text.trim d) ""); cbn [negb];
      eexists; (split; [ reflexivity | reflexivity ]).
  - unfold bind, DB.new, log, Table.insertTrend, DB.write, DB.close, ret.
    cbn [fst snd].
    assert (Esum : match dv with
                   | JStr d => if String.eqb (Text.trim d) ""
                               then Text.trim s else Text.trim d
                   | _ => Text.trim s
                   end = Text.trim s).
    { destruct dv as [| |b|q|d|items|fields]; try reflexivity.
      cbn in Edt. destruct d; [ reflexivity | discriminate ]. }
    rewrite Esum. eexists; (split; [ reflexivity | reflexivity ]).
Qed.

(** A description that counts as true and is not a string has no
    [trim]. *)
Lemma manual_trend_refused `{Services} (body : JValue) (w : World)
      (s : string) (dv : JValue) :
  get_prop body "title" = Ok (JStr s) ->
  Text.trim s <> "" ->
  get_prop body "description" = Ok dv ->
  Api.truthy dv = true ->
  (forall d, dv <> JStr d) ->
  Api.add_manual_trend body w
  = (Ok (ReplyError 500 "description.trim is not a function"), w).
Proof.
  intros Et Nblank Ed Edt Hd.
  unfold Api.add_manual_trend, try_catch, bind at 1, lift at 1.
  rewrite Et. unfold bind at 1, lift at 1. rewrite Ed.
  assert (Es : Api.truthy (JStr s) = true).
  { cbn. destruct s; [ now contradiction Nblank | reflexivity ]. }
  rewrite Es. cbn [negb]. unfold bind at 1.
  unfold bind at 1, lift at 1. cbn [Api.call_trim ret].
  destruct (String.eqb_spec (Text.trim s) "") as [E|_]; [ contradiction | ].
  rewrite Edt.
  destruct dv as [| |b|q|d|items|fields]; cbn in Edt; try discriminate;
    try reflexivity.
  now contradiction (Hd d).
Qed.

(** X14.  POST /api/add-manual-trend.  The handler always answers, and
    the request decides which of three answers it gives.  It stores a
    trend and answers with it exactly when the title is a string that is
    not blank and the description counts as false or is a string: the
    trend is then [manual_trend], whose title is the trimmed title, whose
    summary is the trimmed description, or the trimmed title when the
    description is missing or blank, and whose source is [manual];
    [getTrend] at its identifier returns it.  It answers with status 400
    exactly when the title is missing, counts as false, or is a string of
    white space; and with status 500 in the remaining cases: no body, a
    title of another kind, or a description of another kind that counts
    as true.  With status 400 or 500 nothing is written. *)
Theorem manual_trend_checked `{Services} (body : JValue) (w : World) :
  exists (reply : Reply) (w' : World),
    Api.add_manual_trend body w = (Ok reply, w')
    /\ match reply with
       | ReplyError status _ =>
           w' = w
           /\ (status = 400 \/ status = 500)
           /\ (status = 400 <->
               exists v, get_prop body "title" = Ok v
                         /\ (Api.truthy v = false
                             \/ exists s, v = JStr s /\ Text.trim s = ""))
       | ReplyTrend t =>
           exists s,
             get_prop body "title" = Ok (JStr s)
             /\ title t = Text.trim s
             /\ title t <> ""
             /\ Text.trim (title t) = title t
             /\ summary t <> ""
             /\ keywords t = Trends.extractKeywords s
             /\ source t = "manual"
             /\ db w' = db_insert_trend t (db w)
             /\ DB.getTrend (trend_id t) w' = (Ok (Some t), w')
             /\ exists dv,
                 get_prop body "description" = Ok dv
                 /\ (Api.truthy dv = false \/ exists d, dv = JStr d)
                 /\ t = manual_trend s dv
       | _ => False
       end
    /\ (forall (s : string) (dv : JValue),
           get_prop body "title" = Ok (JStr s) ->
           Text.trim s <> "" ->
           get_prop body "description" = Ok dv ->
           Api.truthy dv = false \/ (exists d, dv = JStr d) ->
           reply = ReplyTrend (manual_trend s dv)
           /\ db w' = db_insert_trend (manual_trend s dv) (db w)).
Proof.
  destruct (manual_trend_reply body w) as (reply & w' & Hrun & Hreply).
  exists reply, w'. split; [ exact Hrun | ]. split.
  - destruct reply; try exact Hreply.
    destruct Hreply as (s & Et & H1 & H2 & H3 & H4 & H5 & H6 & H7 & H8).
    exists s. repeat (split; [ assumption | ]).
    assert (Hdv : exists dv, get_prop body "description" = Ok dv)
      by (destruct body; cbn in *; try discriminate; eauto).
    destruct Hdv as [dv Ed]. exists dv. split; [ exact Ed | ].
    assert (Nblank : Text.trim s <> "") by (now rewrite <- H1).
    assert (Hd : Api.truthy dv = false \/ exists d, dv = JStr d).
    { destruct (Api.truthy dv) eqn:Edt; [ | now left ].
      destruct dv as [| |b|q|d|items|fields];
        try (cbn in Edt; discriminate); try (right; eauto; fail);
        rewrite (manual_trend_refused body w Et Nblank Ed Edt) in Hrun;
        try discriminate; intros d0; discriminate. }
    split; [ exact Hd | ].
    destruct (manual_trend_stored body w Et Nblank Ed Hd)
      as (w2 & Hrun2 & _).
    rewrite Hrun in Hrun2. now injection Hrun2.
  - intros s dv Et Nblank Ed Hd.
    destruct (manual_trend_stored body w Et Nblank Ed Hd)
      as (w2 & Hrun2 & Hdb).
    rewrite Hrun in Hrun2. injection Hrun2 as -> ->. auto.
Qed.

(** A request with a title and no description, on the store of the
    sample: the trend is stored under the title, which is its summary
    too. *)
Lemma manual_trend_checked_witness :
  let body := JObj [("title", JStr "  Gold at a record high ")] in
  let w := Scenario.world Sample.store in
  exists (t : Trend) (w' : World),
    @Api.add_manual_trend Sample.services body w = (Ok (ReplyTrend t), w')
    /\ title t = "Gold at a record high"
    /\ summary t = "Gold at a record high"
    /\ source t = "manual"
    /\ In t (trends (db w'))
    /\ length (trends (db w')) = 2.
Proof.
  intros body w.
  destruct (@manual_trend_checked Sample.services body w)
    as (reply & w' & Hrun & _ & Hstore).
  destruct (Hstore "  Gold at a record high " JUndefined)
    as [-> Hdb]; [ reflexivity | discriminate | reflexivity | now left | ].
  eexists; exists w'. split; [ exact Hrun | ].
  rewrite Hdb. vm_compute. intuition.
Defined.

(** Sorting with a comparator that decides a total preorder gives a
    list in that order. *)
Lemma sort_by_order {A : Type} (cmp : A -> A -> Q) (R : A -> A -> Prop)
      (l : list A) :
  (forall x y, Qle_bool (cmp x y) 0 = true -> R x y) ->
  (forall x y, Qle_bool (cmp x y) 0 = false -> R y x) ->
  (forall x y z, R x y -> R y z -> R x z) ->
  StronglySorted R (Js.sort cmp l).
Proof.
  intros Hle Hgt Htrans.
  assert (Hins : forall x l0, StronglySorted R l0 ->
                              StronglySorted R (Js.sort_insert cmp x l0)).
  { intros x l0. induction 1 as [|y l0 Hl0 IH Hy]; cbn.
    - repeat constructor.
    - destruct (Qle_bool (cmp x y) 0) eqn:E.
      + constructor; [ now constructor | ].
        constructor; [ now apply Hle | ].
        eapply Forall_impl; [ | exact Hy ].
        intros z Hz. eapply Htrans; [ apply Hle; exact E | exact Hz ].
      + constructor; [ exact IH | ].
        eapply Permutation_Forall; [ symmetry; apply sort_insert_perm | ].
        constructor; [ now apply Hgt | exact Hy ]. }
  induction l as [|x l IH]; [ constructor | ].
  change (Js.sort cmp (x :: l)) with (Js.sort_insert cmp x (Js.sort cmp l)).
  now apply Hins.
Qed.

Lemma recommendations_ranked (rows : list Recommendation) :
  StronglySorted ranks_before (Js.sort Table.by_scores rows).
Proof.
  apply sort_by_order.
  - intros x y. unfold Table.by_scores, ranks_before.
    destruct (Qeq_bool (rec_semantic_relevance x)
                       (rec_semantic_relevance y)) eqn:E;
      intros Hc; apply Qle_bool_iff in Hc.
    + apply Qeq_bool_iff in E. right. split; [ now symmetry | Lqa.lra ].
    + left. apply Qeq_bool_neq in E.
      destruct (Qlt_le_dec (rec_semantic_relevance y)
                           (rec_semantic_relevance x)) as [L|G];
        [ exact L | ].
      exfalso. apply E. Lqa.lra.
  - intros x y. unfold Table.by_scores, ranks_before.
    destruct (Qeq_bool (rec_semantic_relevance x)
                       (rec_semantic_relevance y)) eqn:E;
      intros Hc.
    + apply Qeq_bool_iff in E. right. split; [ exact E | ].
      destruct (Qlt_le_dec (rec_intro_support y) (rec_intro_support x))
        as [L|G]; [ | exact G ].
      assert (Qle_bool (rec_intro_support y - rec_intro_support x) 0 = true)
        by (apply Qle_bool_iff; Lqa.lra).
      congruence.
    + left.
      destruct (Qlt_le_dec (rec_semantic_relevance x)
                           (rec_semantic_relevance y)) as [L|G];
        [ exact L | ].
      assert (Qle_bool (rec_semantic_relevance y
                        - rec_semantic_relevance x) 0 = true)
        by (apply Qle_bool_iff; Lqa.lra).
      congruence.
  - intros x y z. unfold ranks_before.
    intros [L1|[E1 L1]] [L2|[E2 L2]].
    + left. Lqa.lra.
    + left. Lqa.lra.
    + left. Lqa.lra.
    + right. split; Lqa.lra.
Qed.

(** [map], for a function that reads the database and may throw. *)
Lemma map_M_reads {A B : Type} (f : A -> M B)
      (g : A -> Database -> result B) (l : list A) (w : World) :
  (forall x w0, f x w0 = (g x (db w0), w0)) ->
  exists r,
    Api.map_M f l w = (r, w)
    /\ match r with
       | Ok ys => Forall2 (fun x y => g x (db w) = Ok y) l ys
       | Throw e => exists x, In x l /\ g x (db w) = Throw e
       end.
Proof.
  intros Hf. induction l as [|x l IH]; cbn [Api.map_M].
  - exists (Ok []). split; [ reflexivity | constructor ].
  - unfold bind at 1. rewrite Hf.
    destruct (g x (db w)) as [y|e] eqn:Ex.
    + unfold bind at 1. destruct IH as ([ys|e] & Hrun & Hrest); rewrite Hrun.
      * exists (Ok (y :: ys)). split; [ reflexivity | ].
        constructor; assumption.
      * exists (Throw e). split; [ reflexivity | ].
        destruct Hrest as (x' & Hx' & Ex'). exists x'. split; [ now right | ].
        exact Ex'.
    + exists (Throw e). split; [ reflexivity | ].
      exists x. split; [ now left | exact Ex ].
Qed.

(** X15.  GET /api/recommendations.  The handler always answers and changes
    nothing but the console.  Its answer lists the rows of the table of
    recommendations, each once, by decreasing relevance and then by
    decreasing intro support; every entry has the scores and the note of
    its row, its titles and thumbnails parsed, and the trend and the
    video that the lookups find.  When every row refers to a trend and
    a video of the database, every entry has both.  The answer is an
    error with status 500 only when the titles or the thumbnails of a
    row cannot be parsed. *)
Theorem recommendations_listing `{Providers} (w : World) :
  exists (reply : Reply) (w' : World),
    Api.get_recommendations w = (Ok reply, w')
    /\ db w' = db w
    /\ response w' = response w
    /\ chat_requests w' = chat_requests w
    /\ match reply with
       | ReplyRecommendations output =>
           exists rows : list Recommendation,
             Permutation rows (recommendations (db w))
             /\ StronglySorted ranks_before rows
             /\ Forall2 (output_of (db w)) rows output
             /\ (referential_integrity (db w) ->
                 Forall (fun o => exists t v, ro_trend o = Some t
                                              /\ ro_video o = Some v)
                        output)
       | ReplyError status error =>
           status = 500
           /\ exists r, In r (recommendations (db w))
                        /\ (JSON_parse (rec_titles r) = Throw error
                            \/ JSON_parse (rec_thumbnails r) = Throw error)
       | _ => False
       end.
Proof.
  set (g := fun (rec : Recommendation) (d : Database) =>
              match JSON_parse (rec_titles rec) with
              | Throw e => Throw e
              | Ok titles_ =>
                  match JSON_parse (rec_thumbnails rec) with
                  | Throw e => Throw e
                  | Ok thumbnails_ =>
                      Ok {| ro_trend :=
                              find (fun t => String.eqb (trend_id t)
                                                        (rec_trend_id rec))
                                   (trends d);
                            ro_video :=
                              find (fun v => String.eqb (video_id v)
                                                        (rec_video_id rec))
                                   (videos d);
                            ro_scores := (rec_semantic_relevance rec,
                                          rec_intro_support rec,
                                          rec_honesty_risk rec);
                            ro_packaging := (titles_, thumbnails_,
                                             rec_notes rec) |}
                  end
              end).
  unfold Api.get_recommendations, try_catch, bind at 1 2 3, DB.new, log,
    Table.getAllRecommendations, DB.read.
  cbn [fst snd db].
  match goal with
  | |- context [ Api.map_M ?f ?l ?w1 ] =>
      destruct (@map_M_reads _ _ f g l w1) as (r & Hrun & Hres)
  end.
  { intros x w0. unfold bind, DB.getTrend, Table.getVideo, DB.read, lift, ret.
    unfold g. cbn [fst snd].
    destruct (JSON_parse (rec_titles x)); [ | reflexivity ].
    destruct (JSON_parse (rec_thumbnails x)); reflexivity. }
  rewrite Hrun. cbn [db] in Hres.
  destruct r as [output|e].
  - unfold bind, DB.close, ret. cbn [fst snd].
    eexists; eexists. split; [ reflexivity | ]. cbn [db response chat_requests].
    split; [ reflexivity | ]. split; [ reflexivity | ].
    split; [ reflexivity | ].
    exists (Js.sort Table.by_scores (recommendations (db w))).
    split; [ apply sort_perm | ].
    split; [ apply recommendations_ranked | ].
    assert (Hout : Forall2 (output_of (db w))
                           (Js.sort Table.by_scores (recommendations (db w)))
                           output).
    { eapply Forall2_impl; [ | exact Hres ].
      intros rec o Ho. unfold g in Ho. unfold output_of.
      destruct (JSON_parse (rec_titles rec)); [ | discriminate ].
      destruct (JSON_parse (rec_thumbnails rec)); [ | discriminate ].
      injection Ho as <-. cbn. auto 10. }
    split; [ exact Hout | ].
    intros Hri.
    assert (Hall : forall rows outs,
               Forall2 (output_of (db w)) rows outs ->
               (forall rec, In rec rows ->
                            In rec (recommendations (db w))) ->
               Forall (fun o => exists t v, ro_trend o = Some t
                                            /\ ro_video o = Some v) outs).
    { induction 1 as [|rec o rows outs Ho Hrest IH]; intros Hin;
        constructor.
      - destruct (Hri rec (Hin rec (or_introl eq_refl)))
          as ((t & Ht & Et) & (v & Hv & Ev)).
        destruct Ho as (Hot & Hov & _). rewrite Hot, Hov.
        destruct (find (fun t0 => String.eqb (trend_id t0)
                                             (rec_trend_id rec))
                       (trends (db w))) as [t'|] eqn:Ft.
        2: { exfalso. eapply find_none in Ft; [ | exact Ht ].
             rewrite Et, String.eqb_refl in Ft. discriminate. }
        destruct (find (fun v0 => String.eqb (video_id v0)
                                             (rec_video_id rec))
                       (videos (db w))) as [v'|] eqn:Fv.
        2: { exfalso. eapply find_none in Fv; [ | exact Hv ].
             rewrite Ev, String.eqb_refl in Fv. discriminate. }
        eauto.
      - apply IH. intros rec' Hr'. apply Hin. now right. }
    apply (Hall _ _ Hout). intros rec. apply sort_In.
  - cbn. eexists; eexists. split; [ reflexivity | ].
    cbn [db response chat_requests].
    split; [ reflexivity | ]. split; [ reflexivity | ].
    split; [ reflexivity | ]. split; [ reflexivity | ].
    destruct Hres as (x & Hx & Ex). exists x.
    split; [ now apply sort_In in Hx | ].
    unfold g in Ex.
    destruct (JSON_parse (rec_titles x)); [ | left; congruence ].
    destruct (JSON_parse (rec_thumbnails x)); [ discriminate | right ].
    congruence.
Qed.
(** ** matcher.ts, server.ts and youtube.ts: the cost of a run *)

Lemma spent_bind {A B : Type} (count : World -> nat) (m : M A)
      (k : A -> M B) (n1 n2 : nat) (w : World) :
  spent count n1 w (snd (m w)) ->
  (forall a w1, m w = (Ok a, w1) -> spent count n2 w1 (snd (k a w1))) ->
  spent count (n1 + n2) w (snd (bind m k w)).
Proof.
  unfold spent, bind. intros Hm Hk.
  destruct (m w) as [[a|e] w1]; cbn [snd] in *; [ | lia ].
  specialize (Hk a w1 eq_refl). lia.
Qed.

Lemma spent_silent {A : Type} (m : M A) (w : World) :
  silent m -> spent evaluations 0 w (snd (m w)).
Proof.
  intros Hm. destruct (Hm w) as (_ & Hq & _).
  unfold spent, evaluations. rewrite Hq. lia.
Qed.

Lemma spent_keeps {A : Type} (m : M A) (w : World) :
  keeps_topics m -> spent topic_queries 0 w (snd (m w)).
Proof.
  intros Hm. unfold spent, topic_queries. rewrite (Hm w). lia.
Qed.

Lemma spent_le (count : World -> nat) (n n' : nat) (w w' : World) :
  n <= n' -> spent count n w w' -> spent count n' w w'.
Proof. unfold spent. lia. Qed.

Lemma spent_for_each {A S : Type} (count : World -> nat) (l : list A)
      (body : A -> S -> M S) (n : nat) :
  (forall x s w, In x l -> spent count n w (snd (body x s w))) ->
  forall s w, spent count (n * length l) w (snd (for_each l body s w)).
Proof.
  induction l as [|x l IH]; intros Hbody s w; cbn [for_each length].
  - unfold spent. cbn. lia.
  - eapply spent_le; [ | apply spent_bind with (n1 := n)
                                               (n2 := n * length l) ].
    + lia.
    + apply Hbody. now left.
    + intros s1 w1 _. apply IH. intros y s' w' Hy. apply Hbody. now right.
Qed.

Lemma keeps_ret {A : Type} (a : A) : keeps_topics (ret a).
Proof. intros w. reflexivity. Qed.

Lemma keeps_lift {A : Type} (r : result A) : keeps_topics (lift r).
Proof. intros w. reflexivity. Qed.

Lemma keeps_log (text : string) (args : list LogArg) :
  keeps_topics (log text args).
Proof. intros w. reflexivity. Qed.

Lemma keeps_log_error (text : string) (args : list LogArg) :
  keeps_topics (log_error text args).
Proof. intros w. reflexivity. Qed.

Lemma keeps_sendEvent (e : Event) : keeps_topics (sendEvent e).
Proof. intros w. reflexivity. Qed.

Lemma keeps_read {A : Type} (f : Database -> A) : keeps_topics (DB.read f).
Proof. intros w. reflexivity. Qed.

Lemma keeps_write (f : Database -> Database) : keeps_topics (DB.write f).
Proof. intros w. reflexivity. Qed.

Lemma keeps_bind {A B : Type} (m : M A) (k : A -> M B) :
  keeps_topics m -> (forall a, keeps_topics (k a)) ->
  keeps_topics (bind m k).
Proof.
  intros Hm Hk w. unfold bind. specialize (Hm w).
  destruct (m w) as [[a|e] w1]; cbn [snd] in *; [ | exact Hm ].
  now rewrite (Hk a w1).
Qed.

Lemma keeps_try_catch {A : Type} (m : M A) (h : string -> M A) :
  keeps_topics m -> (forall e, keeps_topics (h e)) ->
  keeps_topics (try_catch m h).
Proof.
  intros Hm Hh w. unfold try_catch. specialize (Hm w).
  destruct (m w) as [[a|e] w1]; cbn [snd] in *; [ exact Hm | ].
  now rewrite (Hh e w1).
Qed.

Lemma keeps_for_each {A S : Type} (l : list A) (body : A -> S -> M S) :
  (forall x s, keeps_topics (body x s)) ->
  forall s, keeps_topics (for_each l body s).
Proof.
  intros Hbody. induction l as [|x l IH]; intros s; cbn [for_each].
  - apply keeps_ret.
  - apply keeps_bind; auto.
Qed.

Section Cost.

Context `{Providers}.

Lemma ranked_candidates_length (n : nat) (emb : Embedding)
      (allChunks : list VideoChunk) (allVideos : list Video) :
  length (ranked_candidates n emb allChunks allVideos) <= n.
Proof. unfold ranked_candidates, slice0. rewrite length_firstn. lia. Qed.

Lemma matcher_process_candidate_spent (trend : Trend)
      (candidate : CandidateVideo) (c : Z * Z) (w : World) :
  spent evaluations 1 w (snd (Matcher.process_candidate trend candidate c w)).
Proof.
  destruct c as [total acc].
  destruct (matcher_process_candidate_run trend candidate total acc w)
    as (e & w1 & w' & _ & _ & Hm & _ & Hreq & _).
  unfold spent, evaluations.
  destruct (verdict_outcome _ _ _); destruct Hm as [Hrun _];
    rewrite Hrun; cbn [snd]; rewrite Hreq, length_app; cbn; lia.
Qed.

Lemma server_process_candidate_spent (trend : Trend)
      (candidate : CandidateVideo) (c : Z * Z * list MatchResult)
      (w : World) :
  spent evaluations 1 w (snd (Server.process_candidate trend candidate c w)).
Proof.
  destruct c as [[total acc] matched].
  destruct (server_process_candidate_run trend candidate total acc matched w)
    as (e & w1 & w' & _ & _ & Hm & Hreq & _).
  unfold spent, evaluations.
  destruct (verdict_outcome _ _ _); destruct Hm as [Hrun _];
    rewrite Hrun; cbn [snd]; rewrite Hreq, length_app; cbn; lia.
Qed.

Lemma keeps_matcher_process_candidate (trend : Trend)
      (candidate : CandidateVideo) (c : Z * Z) :
  keeps_topics (Matcher.process_candidate trend candidate c).
Proof.
  destruct c as [total acc]. intros w.
  destruct (matcher_process_candidate_run trend candidate total acc w)
    as (e & w1 & w' & _ & _ & Hm & _ & _ & Htopic & _).
  destruct (verdict_outcome _ _ _); destruct Hm as [Hrun _];
    rewrite Hrun; exact Htopic.
Qed.

Lemma keeps_server_process_candidate (trend : Trend)
      (candidate : CandidateVideo) (c : Z * Z * list MatchResult) :
  keeps_topics (Server.process_candidate trend candidate c).
Proof.
  destruct c as [[total acc] matched]. intros w.
  destruct (server_process_candidate_run trend candidate total acc matched w)
    as (e & w1 & w' & _ & _ & Hm & _ & Htopic & _).
  destruct (verdict_outcome _ _ _); destruct Hm as [Hrun _];
    rewrite Hrun; exact Htopic.
Qed.

Lemma keeps_matcher_getCandidateVideos (trend : Trend)
      (allVideos : list Video) :
  keeps_topics (Matcher.getCandidateVideos trend allVideos).
Proof.
  intros w. rewrite matcher_getCandidateVideos_run.
  destruct (generateEmbedding _); reflexivity.
Qed.

Lemma keeps_server_getCandidateVideos (trend : Trend)
      (allVideos : list Video) :
  keeps_topics (Server.getCandidateVideos trend allVideos).
Proof.
  intros w. pose proof (server_getCandidateVideos_run trend allVideos w) as R.
  destruct (generateEmbedding _).
  - destruct R as (w' & -> & _ & (_ & _ & Htopic & _) & _). exact Htopic.
  - now rewrite R.
Qed.

Lemma matcher_process_trend_spent (videos_ : list Video) (trend : Trend)
      (c : Z * Z) (w : World) :
  spent evaluations 3 w (snd (Matcher.process_trend videos_ trend c w)).
Proof.
  unfold Matcher.process_trend.
  change 3 with (0 + (0 + (0 + (3 + (0 + 0))))).
  apply spent_bind; [ apply spent_silent, silent_log | intros _ w1 _ ].
  apply spent_bind;
    [ apply spent_silent, silent_matcher_getCandidateVideos | ].
  intros candidates w2 Hc.
  assert (Hlen : length candidates <= 3).
  { rewrite matcher_getCandidateVideos_run in Hc.
    destruct (generateEmbedding _); [ | discriminate ].
    injection Hc as <- _. apply ranked_candidates_length. }
  apply spent_bind; [ apply spent_silent, silent_log | intros _ w3 _ ].
  apply spent_bind.
  - eapply spent_le; [ | apply spent_for_each with (n := 1) ].
    + lia.
    + intros x s w0 _. apply matcher_process_candidate_spent.
  - intros c' w4 _.
    apply spent_bind; [ apply spent_silent, silent_log | intros _ w5 _ ].
    apply spent_silent, silent_ret.
Qed.

Lemma keeps_matcher_process_trend (videos_ : list Video) (trend : Trend)
      (c : Z * Z) :
  keeps_topics (Matcher.process_trend videos_ trend c).
Proof.
  unfold Matcher.process_trend.
  apply keeps_bind; [ apply keeps_log | intros _ ].
  apply keeps_bind; [ apply keeps_matcher_getCandidateVideos | intros cs ].
  apply keeps_bind; [ apply keeps_log | intros _ ].
  apply keeps_bind;
    [ apply keeps_for_each; intros x s;
      apply keeps_matcher_process_candidate | intros c' ].
  apply keeps_bind; [ apply keeps_log | intros _ ].
  apply keeps_ret.
Qed.

Lemma server_process_trend_spent (allVideos : list Video)
      (trendId : string) (st : Server.Counters) (w : World) :
  spent evaluations 3 w (snd (Server.process_trend allVideos trendId st w)).
Proof.
  unfold Server.process_trend.
  change 3 with (0 + (0 + (0 + (0 + (0 + 3))))).
  apply spent_bind; [ apply spent_silent, silent_read | ].
  intros [trend|] w1 _;
    [ | eapply spent_le; [ | apply spent_silent, silent_ret ]; lia ].
  apply spent_bind; [ apply spent_silent, silent_sendEvent | ].
  intros _ w2 _.
  apply spent_bind; [ apply spent_silent, silent_fetch_youtube | ].
  intros ys w3 _.
  apply spent_bind;
    [ apply spent_silent, silent_server_getCandidateVideos | ].
  intros candidates w4 Hc.
  assert (Hlen : length candidates <= 3).
  { pose proof (server_getCandidateVideos_run trend allVideos w3) as R.
    destruct (generateEmbedding _).
    - destruct R as (w' & R & _). rewrite R in Hc.
      injection Hc as <- _. apply ranked_candidates_length.
    - rewrite R in Hc. discriminate. }
  apply spent_bind; [ apply spent_silent, silent_sendEvent | ].
  intros _ w5 _.
  change 3 with (3 + 0).
  apply spent_bind.
  - eapply spent_le; [ | apply spent_for_each with (n := 1) ].
    + lia.
    + intros x s w0 _. apply server_process_candidate_spent.
  - intros [[total acc] matched] w6 _. apply spent_silent, silent_ret.
Qed.

(** One selected identifier costs one request for a search query at
    most, and none when no key of the YouTube Data API is configured. *)
Lemma server_process_trend_topics (allVideos : list Video)
      (trendId : string) (st : Server.Counters) (w : World) :
  let configured :=
    negb (String.eqb YOUTUBE_API_KEY ""
          || String.eqb YOUTUBE_API_KEY "your_youtube_api_key_here") in
  spent topic_queries (if configured then 1 else 0) w
        (snd (Server.process_trend allVideos trendId st w)).
Proof.
  intros configured.
  unfold Server.process_trend.
  replace (if configured then 1 else 0)
    with (0 + (0 + ((if configured then 1 else 0) + (0 + (0 + (0 + 0))))))
    by lia.
  apply spent_bind; [ apply spent_keeps, keeps_read | ].
  intros [trend|] w1 _;
    [ | eapply spent_le; [ | apply spent_keeps, keeps_ret ]; lia ].
  apply spent_bind; [ apply spent_keeps, keeps_sendEvent | ].
  intros _ w2 _.
  apply spent_bind.
  { destruct (fetch_youtube_run trend w2)
      as (ys & logs & topics & Hrun & Htopics & Hkey).
    rewrite Hrun. unfold spent, topic_queries. cbn. rewrite length_app.
    subst configured.
    destruct (String.eqb YOUTUBE_API_KEY "") eqn:E1;
      [ apply String.eqb_eq in E1;
        destruct Hkey as [-> _]; [ now left | cbn; lia ] | ].
    destruct (String.eqb YOUTUBE_API_KEY "your_youtube_api_key_here")
      eqn:E2;
      [ apply String.eqb_eq in E2;
        destruct Hkey as [-> _]; [ now right | cbn; lia ] | ].
    destruct Htopics as [->| ->]; cbn; lia. }
  intros ys w3 _.
  apply spent_bind;
    [ apply spent_keeps, keeps_server_getCandidateVideos | ].
  intros candidates w4 _.
  apply spent_bind; [ apply spent_keeps, keeps_sendEvent | ].
  intros _ w5 _.
  apply spent_bind.
  - apply spent_keeps, keeps_for_each. intros x s.
    apply keeps_server_process_candidate.
  - intros [[total acc] matched] w6 _. apply spent_keeps, keeps_ret.
Qed.

Ltac keeps_tac :=
  repeat first
    [ apply keeps_ret | apply keeps_lift | apply keeps_log
    | apply keeps_log_error | apply keeps_sendEvent
    | apply keeps_read | apply keeps_write
    | apply keeps_matcher_process_trend
    | apply keeps_server_getCandidateVideos
    | apply keeps_server_process_candidate
    | apply keeps_for_each; intros ? ?
    | apply keeps_bind; [ | intros ? ]
    | apply keeps_try_catch; [ | intros ? ]
    | match goal with
      | |- keeps_topics (if ?b then _ else _) => destruct b
      | |- keeps_topics (match ?x with _ => _ end) => destruct x
      end ].

Lemma keeps_matchTrendsToVideos : keeps_topics Matcher.matchTrendsToVideos.
Proof.
  unfold Matcher.matchTrendsToVideos, DB.new, DB.getAllTrends,
    DB.getAllVideos, DB.clearRecommendations, DB.close.
  keeps_tac.
Qed.

(** Without a key of the YouTube Data API the lookup asks for
    nothing. *)
Lemma keeps_fetch_youtube (trend : Trend) :
  YOUTUBE_API_KEY = "" \/ YOUTUBE_API_KEY = "your_youtube_api_key_here" ->
  keeps_topics (Server.fetch_youtube trend).
Proof.
  intros Hkey w.
  destruct (fetch_youtube_run trend w)
    as (ys & logs & topics & Hrun & _ & Hk).
  rewrite Hrun. cbn. destruct (Hk Hkey) as [-> _]. apply app_nil_r.
Qed.

Lemma keeps_match_selected (trendIds : option (list string)) :
  YOUTUBE_API_KEY = "" \/ YOUTUBE_API_KEY = "your_youtube_api_key_here" ->
  keeps_topics (Server.match_selected trendIds).
Proof.
  intros Hkey.
  unfold Server.match_selected, Server.process_trend, DB.new,
    DB.getAllVideos, DB.getTrend, DB.clearRecommendations, DB.close.
  apply keeps_try_catch; [ | intros e; apply keeps_sendEvent ].
  destruct trendIds as [[|trendId trendIds]|]; try apply keeps_sendEvent.
  apply keeps_bind; [ apply keeps_log | intros _ ].
  apply keeps_bind; [ apply keeps_read | intros allVideos ].
  apply keeps_bind; [ apply keeps_write | intros _ ].
  apply keeps_bind; [ apply keeps_sendEvent | intros _ ].
  apply keeps_bind; [ | intros st; keeps_tac ].
  apply keeps_for_each. intros x st.
  apply keeps_bind; [ apply keeps_read | intros [trend|] ];
    [ | apply keeps_ret ].
  apply keeps_bind; [ apply keeps_sendEvent | intros _ ].
  apply keeps_bind; [ now apply keeps_fetch_youtube | intros ys ].
  keeps_tac.
Qed.

Lemma server_run_spent (trendIds : list string) (w : World) :
  let w' := snd (Server.match_selected (Some trendIds) w) in
  length (chat_requests w')
  <= length (chat_requests w) + 3 * length trendIds
  /\ length (topic_requests w')
     <= length (topic_requests w) + length trendIds.
Proof.
  destruct trendIds as [|trendId trendIds]; [ cbn; lia | ].
  cbn zeta. rewrite server_run_unfold. unfold try_catch.
  set (ids := trendId :: trendIds).
  assert (Hb : spent evaluations (3 * length ids)
                     (server_loop_start w)
                     (snd (server_loop (videos (db w)) ids
                                       (server_loop_start w)))).
  { unfold server_loop.
    replace (3 * length ids) with (0 + (3 * length ids + 0)) by lia.
    apply spent_bind; [ apply spent_silent, silent_sendEvent | ].
    intros _ w1 _. apply spent_bind.
    - apply spent_for_each. intros x s w0 _.
      apply server_process_trend_spent.
    - intros st w2 _. apply spent_silent. unfold DB.close.
      apply silent_bind; [ apply silent_ret | intros _ ].
      apply silent_sendEvent. }
  set (configured :=
         negb (String.eqb YOUTUBE_API_KEY ""
               || String.eqb YOUTUBE_API_KEY
                             "your_youtube_api_key_here")).
  assert (Ht : spent topic_queries
                     ((if configured then 1 else 0) * length ids)
                     (server_loop_start w)
                     (snd (server_loop (videos (db w)) ids
                                       (server_loop_start w)))).
  { unfold server_loop.
    replace ((if configured then 1 else 0) * length ids)
      with (0 + ((if configured then 1 else 0) * length ids + 0)) by lia.
    apply spent_bind; [ apply spent_keeps, keeps_sendEvent | ].
    intros _ w1 _. apply spent_bind.
    - apply spent_for_each. intros x s w0 _.
      apply server_process_trend_topics.
    - intros st w2 _. apply spent_keeps. unfold DB.close.
      apply keeps_bind; [ apply keeps_ret | intros _ ].
      apply keeps_sendEvent. }
  unfold spent, evaluations, topic_queries in Hb, Ht.
  cbn [chat_requests topic_requests server_loop_start] in Hb, Ht.
  assert (Hone : (if configured then 1 else 0) * length ids <= length ids)
    by (destruct configured; lia).
  set (k := (if configured then 1 else 0) * length ids) in *.
  clearbody k.
  destruct (server_loop _ _ _) as [[u|e] w'];
    cbn [snd sendEvent chat_requests topic_requests] in *; lia.
Qed.

End Cost.

(** X16.  The cost of a run.  A run of the command-line matcher sends
    at most three requests for an evaluation for each trend of the
    table, and asks for no search query.  A run of the handler of the
    server sends, for each selected identifier, at most three requests
    for an evaluation and at most one request for a search query of
    the YouTube lookup: four requests to the chat model at most, and
    three when no key of the YouTube Data API is configured.  This
    holds whether the run returns or is aborted; a request without a
    selection sends nothing. *)
Theorem requests_bounded `{Providers} (w : World) :
  (let w' := snd (Matcher.matchTrendsToVideos w) in
   length (chat_requests w')
   <= length (chat_requests w) + 3 * length (trends (db w))
   /\ topic_requests w' = topic_requests w)
  /\ (forall trendIds : list string,
         let w' := snd (Server.match_selected (Some trendIds) w) in
         length (chat_requests w')
         <= length (chat_requests w) + 3 * length trendIds
         /\ length (topic_requests w')
            <= length (topic_requests w) + length trendIds
         /\ length (chat_requests w') + length (topic_requests w')
            <= length (chat_requests w) + length (topic_requests w)
               + 4 * length trendIds
         /\ (YOUTUBE_API_KEY = ""
             \/ YOUTUBE_API_KEY = "your_youtube_api_key_here" ->
             topic_requests w' = topic_requests w))
  /\ (let w' := snd (Server.match_selected None w) in
      chat_requests w' = chat_requests w
      /\ topic_requests w' = topic_requests w).
Proof.
  split; [ | split ].
  - cbn zeta. split; [ | apply keeps_matchTrendsToVideos ].
    destruct (matcher_run_unfold w) as [Hearly Hrun].
    destruct (trends (db w)) as [|t ts] eqn:Et.
    { destruct Hearly as (_ & _ & ->); [ now left | lia ]. }
    destruct (videos (db w)) as [|v vs] eqn:Ev.
    { destruct Hearly as (_ & _ & ->); [ now right | lia ]. }
    rewrite Hrun by discriminate.
    set (w0 := matcher_loop_start w _ _).
    assert (Hb : spent evaluations (3 * length (all_trends (db w)) + 0) w0
                       (snd (matcher_loop (all_trends (db w)) (v :: vs)
                                          w0))).
    { unfold matcher_loop. apply spent_bind.
      - apply spent_for_each. intros x s w1 _.
        apply matcher_process_trend_spent.
      - intros [total acc] w1 _. apply spent_silent.
        unfold DB.close.
        apply silent_bind; [ apply silent_ret | intros _ ].
        repeat (apply silent_bind; [ apply silent_log | intros _ ]).
        apply silent_log. }
    assert (Hlen : length (all_trends (db w)) = length (t :: ts))
      by (unfold all_trends; now rewrite sort_length, Et).
    unfold spent, evaluations in Hb. rewrite Hlen in Hb.
    change (chat_requests w0) with (chat_requests w) in Hb.
    lia.
  - intros trendIds. cbn zeta.
    destruct (server_run_spent trendIds w) as [Hb Ht].
    repeat split; try lia.
    intros Hkey. now apply keeps_match_selected.
  - cbn. auto.
Qed.


(** ** matcher.ts and server.ts: what a run leaves in the table *)

Section LoopInvariants.

Context `{Providers}.

(** A property of worlds that silent steps cannot break and that the
    evaluation of a candidate keeps is kept by the loops of both
    variants. *)
Lemma matcher_loop_keeps (Inv : World -> Prop) (ts : list Trend)
      (vs : list Video) :
  stable Inv ->
  (forall trend candidate c,
      hoare Inv (Matcher.process_candidate trend candidate c)
            (fun _ => Inv) Inv) ->
  hoare Inv (matcher_loop ts vs) (fun _ => Inv) Inv.
Proof.
  intros Hst Hcand. unfold matcher_loop.
  apply hoare_bind with (R := fun _ => Inv).
  { apply hoare_for_each with (I := fun _ => Inv) (E := Inv).
    intros trend c _. unfold Matcher.process_trend.
    apply hoare_bind with (R := fun _ => Inv);
      [ apply hoare_silent; [ apply silent_log | exact Hst ] | intros _ ].
    apply hoare_bind with (R := fun _ => Inv);
      [ apply hoare_silent;
        [ apply silent_matcher_getCandidateVideos | exact Hst ]
      | intros candidates ].
    apply hoare_bind with (R := fun _ => Inv);
      [ apply hoare_silent; [ apply silent_log | exact Hst ] | intros _ ].
    apply hoare_bind with (R := fun _ => Inv).
    { apply hoare_for_each with (I := fun _ => Inv) (E := Inv).
      intros x s _. apply Hcand. }
    intros c'.
    apply hoare_bind with (R := fun _ => Inv);
      [ apply hoare_silent; [ apply silent_log | exact Hst ] | intros _ ].
    apply hoare_ret. auto. }
  intros [total acc].
  apply hoare_silent; [ | exact Hst ].
  unfold DB.close.
  repeat (apply silent_bind; [ first [ apply silent_ret | apply silent_log ]
                             | intros _ ]).
  apply silent_log.
Qed.

Lemma server_loop_keeps (Inv : World -> Prop) (allVideos : list Video)
      (trendIds : list string) :
  stable Inv ->
  (forall trend candidate c,
      hoare Inv (Server.process_candidate trend candidate c)
            (fun _ => Inv) Inv) ->
  hoare Inv (try_catch (server_loop allVideos trendIds)
                       (fun error => sendEvent (EvError error)))
        (fun _ => Inv) Inv.
Proof.
  intros Hst Hcand.
  assert (Hloop : hoare Inv (server_loop allVideos trendIds)
                        (fun _ => Inv) Inv).
  { unfold server_loop.
    apply hoare_bind with (R := fun _ => Inv);
      [ apply hoare_silent; [ apply silent_sendEvent | exact Hst ]
      | intros _ ].
    apply hoare_bind with (R := fun _ => Inv).
    { apply hoare_for_each with (I := fun _ => Inv) (E := Inv).
      intros trendId st _. unfold Server.process_trend.
      apply hoare_bind with (R := fun _ => Inv);
        [ apply hoare_silent; [ apply silent_read | exact Hst ] | ].
      intros [trend|]; [ | apply hoare_ret; auto ].
      apply hoare_bind with (R := fun _ => Inv);
        [ apply hoare_silent; [ apply silent_sendEvent | exact Hst ]
        | intros _ ].
      apply hoare_bind with (R := fun _ => Inv);
        [ apply hoare_silent; [ apply silent_fetch_youtube | exact Hst ]
        | intros ys ].
      apply hoare_bind with (R := fun _ => Inv);
        [ apply hoare_silent;
          [ apply silent_server_getCandidateVideos | exact Hst ]
        | intros candidates ].
      apply hoare_bind with (R := fun _ => Inv);
        [ apply hoare_silent; [ apply silent_sendEvent | exact Hst ]
        | intros _ ].
      apply hoare_bind with (R := fun _ => Inv).
      { apply hoare_for_each with (I := fun _ => Inv) (E := Inv).
        intros x s _. apply Hcand. }
      intros [[total acc] matched]. apply hoare_ret. auto. }
    intros st.
    apply hoare_silent; [ | exact Hst ].
    unfold DB.close.
    apply silent_bind; [ apply silent_ret | intros _ ].
    apply silent_sendEvent. }
  intros w Hw. unfold try_catch. specialize (Hloop w Hw).
  destruct (server_loop allVideos trendIds w) as [[u|e] w1];
    [ exact Hloop | ].
  cbn. eapply Hst; [ exact Hloop | reflexivity | reflexivity | ].
  apply (silent_sendEvent (EvError e) w1).
Qed.

Lemma stable_rows_pass : stable rows_pass.
Proof. intros w w' Hw D _ _. unfold rows_pass in *. now rewrite D. Qed.

Lemma rows_pass_insert (rec : Recommendation) (w w' : World) :
  rows_pass w -> passes_gate rec -> db w' = db_insert rec (db w) ->
  rows_pass w'.
Proof.
  intros Hw Hrec D r Hr. rewrite D in Hr. cbn in Hr.
  apply insert_or_replace_In in Hr. destruct Hr as [->|Hr]; auto.
Qed.

Lemma matcher_candidate_rows_pass (trend : Trend)
      (candidate : CandidateVideo) (c : Z * Z) :
  hoare rows_pass (Matcher.process_candidate trend candidate c)
        (fun _ => rows_pass) rows_pass.
Proof.
  destruct c as [total acc]. intros w Hw.
  destruct (matcher_process_candidate_run trend candidate total acc w)
    as (e & w1 & w' & _ & _ & Hm & _).
  unfold verdict_outcome in Hm.
  destruct (Matcher.accepted e) eqn:Ea.
  - destruct (insert_outcome _ (db w)) as [d|msg] eqn:Eo;
      destruct Hm as [Hrun Hdb]; rewrite Hrun.
    + apply insert_outcome_Ok in Eo.
      destruct Eo as (row & Erow & -> & _).
      destruct (bound_row_fields _ Erow) as (_ & _ & E1 & E2 & E3 & _).
      eapply rows_pass_insert; [ exact Hw | | exact Hdb ].
      apply gate_iff_matcher in Ea. destruct Ea as (_ & A & B & C).
      unfold passes_gate. rewrite E1, E2, E3. cbn.
      repeat split; assumption.
    + unfold rows_pass in *. now rewrite Hdb.
  - destruct Hm as [Hrun Hdb]. rewrite Hrun.
    unfold rows_pass in *. now rewrite Hdb.
Qed.

Lemma server_candidate_rows_pass (trend : Trend)
      (candidate : CandidateVideo) (c : Z * Z * list MatchResult) :
  hoare rows_pass (Server.process_candidate trend candidate c)
        (fun _ => rows_pass) rows_pass.
Proof.
  destruct c as [[total acc] matched]. intros w Hw.
  destruct (server_process_candidate_run trend candidate total acc matched w)
    as (e & w1 & w' & _ & _ & Hm & _).
  unfold verdict_outcome in Hm.
  destruct (Server.accepted e) eqn:Ea.
  - destruct (insert_outcome _ (db w)) as [d|msg] eqn:Eo;
      destruct Hm as (Hrun & Hdb & _); rewrite Hrun.
    + apply insert_outcome_Ok in Eo.
      destruct Eo as (row & Erow & -> & _).
      destruct (bound_row_fields _ Erow) as (_ & _ & E1 & E2 & E3 & _).
      eapply rows_pass_insert; [ exact Hw | | exact Hdb ].
      apply gate_iff_server in Ea. destruct Ea as (_ & A & B & C).
      unfold passes_gate. rewrite E1, E2, E3. cbn.
      repeat split; assumption.
    + unfold rows_pass in *. now rewrite Hdb.
  - destruct Hm as (Hrun & Hdb & _). rewrite Hrun.
    unfold rows_pass in *. now rewrite Hdb.
Qed.

End LoopInvariants.

(** X17.  What a run leaves in the table.  After a run of the command-line
    matcher over a corpus that has trends and videos, and after a run of
    the handler of the server at a selection that is not empty, whether
    the run returned or was aborted, every row of the table of
    recommendations has a semantic relevance and an intro support of at
    least 0.65 and an honesty risk of at most 0.30. *)
Theorem recommendations_pass_gate `{Providers} (w : World) :
  (trends (db w) <> [] -> videos (db w) <> [] ->
   forall r, In r (recommendations (db (snd (Matcher.matchTrendsToVideos w))))
             -> passes_gate r)
  /\ (forall trendId trendIds r,
         In r (recommendations
                 (db (snd (Server.match_selected
                             (Some (trendId :: trendIds)) w)))) ->
         passes_gate r).
Proof.
  split.
  - intros Ht Hv.
    destruct (matcher_run_unfold w) as [_ Hrun]. rewrite (Hrun Ht Hv).
    pose proof (@matcher_loop_keeps _ rows_pass (all_trends (db w))
                                    (videos (db w)) stable_rows_pass
                                    matcher_candidate_rows_pass) as Hh.
    specialize (Hh (matcher_loop_start w (length (all_trends (db w)))
                                       (length (videos (db w))))).
    destruct (matcher_loop _ _ _) as [[u|e] w']; apply Hh; intros r [].
  - intros trendId trendIds. rewrite server_run_unfold.
    pose proof (@server_loop_keeps _ rows_pass (videos (db w))
                                   (trendId :: trendIds) stable_rows_pass
                                   server_candidate_rows_pass) as Hh.
    specialize (Hh (server_loop_start w)).
    destruct (try_catch _ _ _) as [[u|e] w']; apply Hh; intros r [].
Qed.

(** ** server.ts: the events of a run and its summary *)

Lemma count_events_app (p : Event -> bool) (l1 l2 : list Event) :
  count_events p (l1 ++ l2) = (count_events p l1 + count_events p l2)%Z.
Proof.
  unfold count_events. rewrite filter_app, length_app. lia.
Qed.

Lemma count_events_plain (evs : list Event) :
  Forall (fun e => is_accepted e = false /\ is_rejected e = false) evs ->
  count_events is_accepted evs = 0%Z /\ count_events is_rejected evs = 0%Z.
Proof.
  unfold count_events.
  induction 1 as [|e evs [Ha Hr] _ [IHa IHr]]; cbn; [ auto | ].
  rewrite Ha, Hr. auto.
Qed.

Lemma plain_ret {A : Type} (a : A) : plain (ret a).
Proof. intros w. exists []. cbn. rewrite app_nil_r. auto. Qed.

Lemma plain_lift {A : Type} (r : result A) : plain (lift r).
Proof. intros w. exists []. cbn. rewrite app_nil_r. auto. Qed.

Lemma plain_log (text : string) (args : list LogArg) : plain (log text args).
Proof. intros w. exists []. cbn. rewrite app_nil_r. auto. Qed.

Lemma plain_log_error (text : string) (args : list LogArg) :
  plain (log_error text args).
Proof. intros w. exists []. cbn. rewrite app_nil_r. auto. Qed.

Lemma plain_read {A : Type} (f : Database -> A) : plain (DB.read f).
Proof. intros w. exists []. cbn. rewrite app_nil_r. auto. Qed.

Lemma plain_sendEvent (e : Event) :
  is_accepted e = false -> is_rejected e = false -> plain (sendEvent e).
Proof. intros Ha Hr w. exists [e]. cbn. auto. Qed.

Lemma plain_bind {A B : Type} (m : M A) (k : A -> M B) :
  plain m -> (forall a, plain (k a)) -> plain (bind m k).
Proof.
  intros Hm Hk w. unfold bind. destruct (Hm w) as (evs & He & Hp).
  destruct (m w) as [[a|e] w1]; cbn [snd] in *; [ | eauto ].
  destruct (Hk a w1) as (evs' & He' & Hp').
  exists (evs ++ evs'). rewrite He', He, app_assoc.
  split; [ reflexivity | now apply Forall_app ].
Qed.

Lemma plain_try_catch {A : Type} (m : M A) (h : string -> M A) :
  plain m -> (forall e, plain (h e)) -> plain (try_catch m h).
Proof.
  intros Hm Hh w. unfold try_catch. destruct (Hm w) as (evs & He & Hp).
  destruct (m w) as [[a|e] w1]; cbn [snd] in *; [ eauto | ].
  destruct (Hh e w1) as (evs' & He' & Hp').
  exists (evs ++ evs'). rewrite He', He, app_assoc.
  split; [ reflexivity | now apply Forall_app ].
Qed.

Lemma hoare_plain {A : Type} (w0 : World) (total acc : Z) (m : M A) :
  plain m ->
  hoare (verdicts w0 total acc) m (fun _ => verdicts w0 total acc)
        (fun _ => True).
Proof.
  intros Hm w (evs & He & Ha & Hr). destruct (Hm w) as (evs' & He' & Hp).
  destruct (m w) as [[a|e] w1]; cbn [snd] in *; [ | exact I ].
  destruct (count_events_plain Hp) as [Ha' Hr'].
  exists (evs ++ evs'). rewrite He', He, app_assoc.
  rewrite !count_events_app. split; [ reflexivity | lia ].
Qed.

Section Verdicts.

Context `{Providers}.

Lemma plain_fetch_youtube (trend : Trend) :
  plain (Server.fetch_youtube trend).
Proof.
  intros w.
  destruct (fetch_youtube_run trend w) as (ys & logs & topics & Hrun & _).
  rewrite Hrun. cbn [snd response].
  eexists. split; [ reflexivity | ].
  repeat constructor; destruct (0 <? length ys); reflexivity.
Qed.

Lemma plain_server_getCandidateVideos (trend : Trend)
      (allVideos : list Video) :
  plain (Server.getCandidateVideos trend allVideos).
Proof.
  intros w. exists []. rewrite app_nil_r. split; [ | constructor ].
  pose proof (server_getCandidateVideos_run trend allVideos w) as R.
  destruct (generateEmbedding _).
  - destruct R as (w' & -> & _ & (Hr & _) & _). exact Hr.
  - now rewrite R.
Qed.

(** One candidate: one verdict, and one more matched video exactly when
    the verdict is an acceptance. *)
Lemma server_process_candidate_verdict (w0 : World) (trend : Trend)
      (candidate : CandidateVideo) (acc0 total acc : Z)
      (matched : list MatchResult) :
  hoare (fun w => verdicts w0 total acc w
                  /\ (acc0 + Z.of_nat (length matched) = acc)%Z)
        (Server.process_candidate trend candidate (total, acc, matched))
        (fun st w => verdicts w0 (fst (fst st)) (snd (fst st)) w
                     /\ (acc0 + Z.of_nat (length (snd st))
                         = snd (fst st))%Z)
        (fun _ => True).
Proof.
  intros w [(evs & He & Ha & Hr) Hm].
  destruct (server_process_candidate_run trend candidate total acc matched w)
    as (e & w1 & w' & _ & _ & Ho & _).
  destruct (verdict_outcome _ _ _) as [d|msg];
    destruct Ho as (Hrun & _ & Hresp); rewrite Hrun; [ | exact I ].
  cbn [fst snd].
  destruct (Server.accepted e).
  - split.
    + eexists. rewrite Hresp, He, <- app_assoc. split; [ reflexivity | ].
      rewrite !count_events_app. cbn. unfold count_events in *. lia.
    + rewrite length_app. cbn. lia.
  - split; [ | exact Hm ].
    eexists. rewrite Hresp, He, <- app_assoc. split; [ reflexivity | ].
    rewrite !count_events_app. cbn. unfold count_events in *. lia.
Qed.

Lemma matched_total_app (results : list TrendRecommendations)
      (r : TrendRecommendations) :
  matched_total (results ++ [r])
  = (matched_total results + Z.of_nat (length (tr_matchedVideos r)))%Z.
Proof.
  unfold matched_total. rewrite map_app, concat_app, length_app. cbn.
  rewrite app_nil_r. lia.
Qed.

(** One selected identifier. *)
Lemma server_process_trend_verdicts (w0 : World) (allVideos : list Video)
      (trendId : string) (st : Server.Counters) :
  hoare (fun w => verdicts w0 (Server.totalEvaluations st)
                           (Server.acceptedCount st) w
                  /\ matched_total (Server.trendResults st)
                     = Server.acceptedCount st)
        (Server.process_trend allVideos trendId st)
        (fun st' w => verdicts w0 (Server.totalEvaluations st')
                               (Server.acceptedCount st') w
                      /\ matched_total (Server.trendResults st')
                         = Server.acceptedCount st')
        (fun _ => True).
Proof.
  set (V := verdicts w0 (Server.totalEvaluations st)
                     (Server.acceptedCount st)).
  set (F := matched_total (Server.trendResults st)
            = Server.acceptedCount st).
  assert (Hstep : forall (A : Type) (m : M A),
             plain m ->
             hoare (fun w => V w /\ F) m (fun _ w => V w /\ F)
                   (fun _ => True)).
  { intros A m Hm w [Hv Hf].
    pose proof (@hoare_plain A w0 _ _ m Hm w Hv) as Hh.
    destruct (m w) as [[a|e] w1]; auto. }
  unfold Server.process_trend.
  apply hoare_bind with (R := fun _ w => V w /\ F);
    [ apply Hstep, plain_read | ].
  intros [trend|]; [ | apply hoare_ret; auto ].
  apply hoare_bind with (R := fun _ w => V w /\ F);
    [ apply Hstep; now apply plain_sendEvent | intros _ ].
  apply hoare_bind with (R := fun _ w => V w /\ F);
    [ apply Hstep, plain_fetch_youtube | intros ys ].
  apply hoare_bind with (R := fun _ w => V w /\ F);
    [ apply Hstep, plain_server_getCandidateVideos | intros candidates ].
  apply hoare_bind with (R := fun _ w => V w /\ F);
    [ apply Hstep; now apply plain_sendEvent | intros _ ].
  apply hoare_bind
    with (R := fun s w =>
                 (verdicts w0 (fst (fst s)) (snd (fst s)) w
                  /\ (Server.acceptedCount st + Z.of_nat (length (snd s))
                      = snd (fst s))%Z)
                 /\ F).
  { intros w [Hv Hf].
    pose proof (@hoare_for_each
                  _ _ candidates (Server.process_candidate trend)
                  (fun s w => verdicts w0 (fst (fst s)) (snd (fst s)) w
                              /\ (Server.acceptedCount st
                                  + Z.of_nat (length (snd s))
                                  = snd (fst s))%Z)
                  (fun _ => True)) as Hloop.
    specialize (Hloop ltac:(intros x [[t a] m] _;
                            apply server_process_candidate_verdict)).
    specialize (Hloop (Server.totalEvaluations st, Server.acceptedCount st,
                       @nil MatchResult) w).
    cbn [fst snd length] in Hloop.
    assert (Hz : (Server.acceptedCount st + Z.of_nat 0
                  = Server.acceptedCount st)%Z) by (cbn; lia).
    specialize (Hloop (conj Hv Hz)).
    destruct (for_each _ _ _ w) as [[s|e] w1]; auto. }
  intros [[total acc] matched]. apply hoare_ret.
  intros w [[Hv Hm] Hf]. cbn [fst snd] in *. cbn.
  split; [ exact Hv | ]. rewrite matched_total_app. cbn.
  unfold F in Hf. lia.
Qed.

End Verdicts.

(** X18.  The events of a run and its summary.  A run of the handler of the
    server at a selection that is not empty ends its response with the
    [complete] event or with an [error] event.  The accepted count of
    the [complete] event is the number of [accepted] events that the run
    has written and the number of matched videos in its results; the
    rejected count is the number of [rejected] events. *)
Theorem progress_matches_summary `{Providers} (trendId : string)
        (trendIds : list string) (w : World) :
  exists (w' : World) (evs : list Event) (last : Event),
    Server.match_selected (Some (trendId :: trendIds)) w = (Ok tt, w')
    /\ response w' = response w ++ evs ++ [last]
    /\ match last with
       | EvComplete total acc rejected results =>
           count_events is_accepted evs = acc
           /\ count_events is_rejected evs = rejected
           /\ matched_total results = acc
           /\ (acc + rejected = total)%Z
       | EvError _ => True
       | _ => False
       end.
Proof.
  set (w1 := server_loop_start w).
  assert (Hh : hoare (fun w0 => w0 = w1)
                     (server_loop (videos (db w)) (trendId :: trendIds))
                     (fun _ w' =>
                        exists evs total acc res,
                          response w' = response w ++ evs
                                        ++ [EvComplete total acc
                                                       (total - acc) res]
                          /\ count_events is_accepted evs = acc
                          /\ count_events is_rejected evs = (total - acc)%Z
                          /\ matched_total res = acc)
                     (fun _ => True)).
  { unfold server_loop.
    apply hoare_bind with (R := fun _ w0 => verdicts w 0 0 w0).
    { intros w0 ->. cbn. exists [EvStart (S (length trendIds))].
      split; [ reflexivity | ]. cbn. auto. }
    intros _.
    apply hoare_bind
      with (R := fun st w0 =>
                   verdicts w (Server.totalEvaluations st)
                            (Server.acceptedCount st) w0
                   /\ matched_total (Server.trendResults st)
                      = Server.acceptedCount st).
    { intros w0 Hv.
      pose proof (@hoare_for_each
                    _ _ (trendId :: trendIds)
                    (Server.process_trend (videos (db w)))
                    (fun st w0 =>
                       verdicts w (Server.totalEvaluations st)
                                (Server.acceptedCount st) w0
                       /\ matched_total (Server.trendResults st)
                          = Server.acceptedCount st)
                    (fun _ => True)) as Hloop.
      specialize (Hloop ltac:(intros x s _;
                              apply server_process_trend_verdicts)).
      specialize (Hloop {| Server.totalEvaluations := 0;
                           Server.acceptedCount := 0;
                           Server.trendResults := [] |} w0
                        (conj Hv eq_refl)).
      destruct (for_each _ _ _ w0) as [[s|e] w2]; [ exact Hloop | exact I ]. }
    intros st.
    apply hoare_bind
      with (R := fun _ w0 =>
                   verdicts w (Server.totalEvaluations st)
                            (Server.acceptedCount st) w0
                   /\ matched_total (Server.trendResults st)
                      = Server.acceptedCount st).
    { intros w0 Hw0. exact Hw0. }
    intros _ w0 [(evs & He & Ha & Hr) Hm]. cbn.
    exists evs, (Server.totalEvaluations st), (Server.acceptedCount st),
      (Server.trendResults st).
    rewrite He, <- app_assoc. auto. }
  destruct (server_summary (Some (trendId :: trendIds)) w)
    as (w' & evs & last & Hrun & Hresp & _).
  exists w', evs, last. split; [ exact Hrun | ]. split; [ exact Hresp | ].
  rewrite server_run_unfold in Hrun. unfold try_catch in Hrun.
  fold w1 in Hrun. specialize (Hh w1 eq_refl).
  destruct (server_loop (videos (db w)) (trendId :: trendIds) w1)
    as [[u|e] w2].
  - injection Hrun as _ <-.
    destruct Hh as (evs' & total & acc & res & He & Ha & Hr & Hm).
    rewrite Hresp in He. apply app_inv_head in He.
    apply app_inj_tail in He. destruct He as [-> ->].
    repeat split; try assumption. lia.
  - cbn in Hrun. injection Hrun as <-. cbn [response] in Hresp.
    rewrite app_assoc in Hresp. apply app_inj_tail in Hresp.
    destruct Hresp as [_ <-]. exact I.
Qed.

(** ** Runs with nothing to process *)

(** X19.  Nothing to process.  When the table of trends is empty, or the
    table of videos is, the command-line matcher writes its hint to the
    console and returns; the handler of the server answers a request
    without a selection with status 400.  In neither case is a request
    sent to the model, for an evaluation or for a search topic, and the database stays as it was: the
    recommendations of an earlier run are not cleared. *)
Theorem nothing_to_process `{Providers} (w : World) :
  (trends (db w) = [] ->
   Matcher.matchTrendsToVideos w
   = (Ok tt,
      with_console
        w [console_log "Starting trend-to-video matching..." [];
           console_log "Database path: " [LStr DB.DB_PATH];
           console_log "No trends found. Run npm run trends first." []]))
  /\ (trends (db w) <> [] -> videos (db w) = [] ->
      Matcher.matchTrendsToVideos w
      = (Ok tt,
         with_console
           w [console_log "Starting trend-to-video matching..." [];
              console_log "Database path: " [LStr DB.DB_PATH];
              console_log "No videos found. Run npm run ingest first." []]))
  /\ (forall trendIds,
         trendIds = None \/ trendIds = Some [] ->
         Server.match_selected trendIds w
         = (Ok tt,
            {| db := db w;
               console := console w;
               response := response w ++ [Status400 "No trends selected"];
               chat_requests := chat_requests w;
               topic_requests := topic_requests w |})).
Proof.
  split; [ | split ].
  - intros Ht. unfold Matcher.matchTrendsToVideos, bind, log, DB.new, log,
      DB.getAllTrends, DB.getAllVideos, DB.read, DB.close, ret.
    cbn [fst snd db]. rewrite Ht. cbn.
    unfold with_console. cbn. now rewrite <- !app_assoc.
  - intros Ht Hv. unfold Matcher.matchTrendsToVideos, bind, log, DB.new, log,
      DB.getAllTrends, DB.getAllVideos, DB.read, DB.close, ret.
    cbn [fst snd db]. rewrite Hv.
    destruct (length (Js.sort _ (trends (db w))) =? 0) eqn:E.
    + apply Nat.eqb_eq, sort_nil_inv in E. contradiction.
    + cbn. unfold with_console. cbn. now rewrite <- !app_assoc.
  - intros trendIds [->| ->]; reflexivity.
Qed.

(** ** The ingestion on the sample *)

(** A first run over the two videos of the sample file returns, and
    counts both as processed. *)
Lemma ingestion_counts_witness :
  let w := Scenario.world Scenario.corpus in
  let w' := snd (@Ingestion.ingestVideos Sample.services "videos.json"
                                         false w) in
  @Ingestion.ingestVideos Sample.services "videos.json" false w = (Ok tt, w')
  /\ exists (videos_ : list Video) (logs : list LogLine)
            (processed skipped : Z),
      @file_videos Sample.services "videos.json" = Ok videos_
      /\ console w' = console w ++ logs
                      ++ ingestion_summary (length videos_) processed skipped
      /\ skipped
         = Z.of_nat (length (filter (fun v =>
                                       negb false
                                       && existsb (String.eqb (video_id v))
                                                  (map video_id
                                                       (videos (db w))))
                                    videos_))
      /\ (processed + skipped = Z.of_nat (length videos_))%Z
      /\ (0 <= processed)%Z
      /\ (false = true -> skipped = 0%Z).
Proof.
  intros w w'.
  assert (Hrun : @Ingestion.ingestVideos Sample.services "videos.json"
                                         false w = (Ok tt, w'))
    by (vm_compute; reflexivity).
  split; [ exact Hrun | ].
  exact (@ingestion_counts Sample.services "videos.json" false w w' Hrun).
Defined.

(** The store of the sample respects the foreign key, and so does the
    store after a run that reprocesses. *)
Lemma ingestion_chunk_integrity_witness :
  let w := Scenario.world Sample.store in
  chunk_integrity (db w)
  /\ chunk_integrity
       (db (snd (@Ingestion.ingestVideos Sample.services "videos.json"
                                         true w))).
Proof.
  intros w.
  assert (Hw : chunk_integrity (db w)).
  { intros c [<-|[]]. exists Sample.S1. split; [ left | ]; reflexivity. }
  split; [ exact Hw | ].
  exact (@ingestion_chunk_integrity Sample.services "videos.json" true w Hw).
Defined.

(** The chunk that a run writes for S1. *)
Lemma ingestion_new_chunks_witness :
  let w := Scenario.world Sample.store in
  let w' := snd (@Ingestion.ingestVideos Sample.services "videos.json"
                                         true w) in
  let c := {| chunk_video_id := "S1"; chunk_id := 0;
              chunk_text := "The budget  explained in plain words";
              embedding := [36%Q; 0.5%Q] |} in
  In c (video_chunks (db w'))
  /\ Text.trim (chunk_text c) <> ""
  /\ String.length (chunk_text c) <= Ingest.CHUNK_SIZE.
Proof.
  intros w w' c.
  assert (Hin : In c (video_chunks (db w')))
    by (vm_compute; right; left; reflexivity).
  split; [ exact Hin | ].
  destruct (@ingestion_new_chunks Sample.services "videos.json" true w c Hin)
    as [Hold|(videos_ & video & _ & _ & _ & _ & _ & Htrim & Hlen & _)].
  - exfalso. destruct Hold as [E|[]]. discriminate E.
  - split; assumption.
Defined.

(** After a run over the sample file, S1 is read back with its intro
    and its one chunk. *)
Lemma ingestion_round_trip_witness :
  let w := Scenario.world Scenario.corpus in
  let w' := snd (@Ingestion.ingestVideos Sample.services "videos.json"
                                         false w) in
  Table.getVideo "S1" w'
  = (Ok (Some (@stored_video Sample.S1)), w')
  /\ Table.getChunksForVideo "S1" w'
     = (Ok ["The budget  explained in plain words"], w').
Proof.
  intros w w'.
  assert (Hrun : @Ingestion.ingestVideos Sample.services "videos.json"
                                         false w = (Ok tt, w'))
    by (vm_compute; reflexivity).
  assert (Hnd : NoDup (map video_id [Sample.S1; Sample.S2])).
  { repeat constructor; cbn; intuition discriminate. }
  assert (Hfresh : false = true
                   \/ ~ In (video_id Sample.S1)
                           (map video_id (videos (db w)))).
  { right. cbn. intuition discriminate. }
  exact (@ingestion_round_trip Sample.services "videos.json" false w w'
           [Sample.S1; Sample.S2] Sample.S1 Hrun eq_refl Hnd
           (or_introl eq_refl) Hfresh eq_refl).
Defined.

(** The chunk number 7 of S1 survives a run that reprocesses S1: the
    transcript has one chunk now. *)
Lemma ingestion_keeps_stale_chunks_witness :
  let w := Scenario.world Sample.store in
  In Sample.stale (video_chunks (db w))
  /\ In Sample.stale
        (video_chunks
           (db (snd (@Ingestion.ingestVideos Sample.services "videos.json"
                                             true w)))).
Proof.
  intros w.
  assert (Hin : In Sample.stale (video_chunks (db w)))
    by (left; reflexivity).
  split; [ exact Hin | ].
  apply (@ingestion_keeps_stale_chunks Sample.services "videos.json" true w
           Sample.stale Hin).
  intros videos_ video Efile Hv _.
  injection Efile as <-.
  destruct Hv as [<-|[<-|[]]]; vm_compute; reflexivity.
Defined.

(** A second run over the sample file passes over both videos. *)
Lemma ingestion_rerun_witness :
  let w := Scenario.world Scenario.corpus in
  let w1 := snd (@Ingestion.ingestVideos Sample.services "videos.json"
                                         false w) in
  @Ingestion.ingestVideos Sample.services "videos.json" false w = (Ok tt, w1)
  /\ exists (w2 : World) (videos_ : list Video) (logs : list LogLine),
      @Ingestion.ingestVideos Sample.services "videos.json" false w1
      = (Ok tt, w2)
      /\ db w2 = db w1
      /\ @file_videos Sample.services "videos.json" = Ok videos_
      /\ console w2
         = console w1 ++ logs
           ++ ingestion_summary (length videos_) 0
                                (Z.of_nat (length videos_)).
Proof.
  intros w w1.
  assert (Hrun : @Ingestion.ingestVideos Sample.services "videos.json"
                                         false w = (Ok tt, w1))
    by (vm_compute; reflexivity).
  split; [ exact Hrun | ].
  exact (@ingestion_rerun Sample.services "videos.json" w w1 Hrun).
Defined.

(** With the embedding provider refusing, the run stops at S1: its row
    is written, its chunks are as before. *)
Lemma ingestion_failure_witness :
  let w := Scenario.world Sample.store in
  let w1 := snd (@Ingestion.ingestVideos Sample.services_rate_limited
                                         "videos.json" true w) in
  @Ingestion.ingestVideos Sample.services_rate_limited "videos.json" true w
  = (Throw "429 rate limit exceeded", w1)
  /\ exists video : Video,
      In video [Sample.S1; Sample.S2]
      /\ Table.getVideo (video_id video) w1
         = (Ok (Some (@stored_video video)), w1)
      /\ chunk_rows (video_id video) (db w1)
         = chunk_rows (video_id video) (db w).
Proof.
  intros w w1.
  assert (Hrun : @Ingestion.ingestVideos Sample.services_rate_limited
                                         "videos.json" true w
                 = (Throw "429 rate limit exceeded", w1))
    by (vm_compute; reflexivity).
  assert (Hnd : NoDup (map video_id [Sample.S1; Sample.S2])).
  { repeat constructor; cbn; intuition discriminate. }
  split; [ exact Hrun | ].
  destruct (@ingestion_failure Sample.services_rate_limited "videos.json"
              true w w1 "429 rate limit exceeded" [Sample.S1; Sample.S2]
              Hrun eq_refl Hnd)
    as (video & Hin & _ & Hget & Hrows & _).
  exists video. auto.
Defined.

(** ** The acceptance gate and the table of recommendations *)

Lemma persisted_db_insert (row : Recommendation) (d : Database) :
  persisted row d (db_insert row d).
Proof.
  unfold persisted, db_insert, DB.insert_or_replace. cbn.
  split; [ apply in_or_app; right; now left | ].
  split; [ | split; [ | auto ] ].
  - intros r Hr Et Ev. apply in_app_or in Hr. destruct Hr as [Hr|[Hr|[]]];
      [ | now symmetry ].
    apply filter_In in Hr. destruct Hr as [_ Hk].
    unfold DB.same_key in Hk. rewrite Et, Ev, !String.eqb_refl in Hk.
    discriminate.
  - intros r Hne. split.
    + intros Hr. apply in_app_or in Hr. destruct Hr as [Hr|[Hr|[]]].
      * apply filter_In in Hr. tauto.
      * subst r. destruct Hne as [Hne|Hne]; now contradiction Hne.
    + intros Hr. apply in_or_app. left. apply filter_In.
      split; [ exact Hr | ].
      unfold DB.same_key.
      destruct (String.eqb_spec (rec_trend_id r) (rec_trend_id row));
        destruct (String.eqb_spec (rec_video_id r) (rec_video_id row));
        try reflexivity.
      destruct Hne; contradiction.
Qed.

Section Gate.

Context `{Providers}.

Lemma stringify_defined (v : JValue) :
  v <> JUndefined -> stringify v = Some (JSON_stringify v).
Proof. destruct v; intros Hv; try reflexivity. now contradiction Hv. Qed.

Lemma references_exist_In (trend : Trend) (v : Video) (d : Database) :
  In trend (trends d) -> In v (videos d) ->
  DB.references_exist (trend_id trend) (video_id v) d = true.
Proof.
  intros Ht Hv. unfold DB.references_exist. apply andb_true_iff. split.
  - apply existsb_exists. exists trend. split; [ exact Ht | ].
    apply String.eqb_refl.
  - apply existsb_exists. exists v. split; [ exact Hv | ].
    apply String.eqb_refl.
Qed.

Lemma references_exist_map (t v : string) (d : Database) :
  DB.references_exist t v d = true
  <-> In t (map trend_id (trends d)) /\ In v (map video_id (videos d)).
Proof.
  unfold DB.references_exist. rewrite andb_true_iff, !existsb_exists.
  split.
  - intros [(x & Hx & Ex) (y & Hy & Ey)]. apply String.eqb_eq in Ex, Ey.
    subst. split; now apply in_map.
  - intros [Ht Hv]. apply in_map_iff in Ht, Hv.
    destruct Ht as (x & <- & Hx). destruct Hv as (y & <- & Hy).
    split; eexists; (split; [ eassumption | apply String.eqb_refl ]).
Qed.

(** The insertion of a row whose packaging is complete and whose trend
    and video are in their tables. *)
Lemma insert_outcome_storable (rec : NewRecommendation) (d : Database)
      (t th note : string) :
  new_titles rec = Some t ->
  new_thumbnails rec = Some th ->
  new_notes rec = JStr note ->
  DB.references_exist (new_trend_id rec) (new_video_id rec) d = true ->
  insert_outcome rec d
  = Ok (db_insert {| rec_trend_id := new_trend_id rec;
                     rec_video_id := new_video_id rec;
                     rec_semantic_relevance := new_semantic_relevance rec;
                     rec_intro_support := new_intro_support rec;
                     rec_honesty_risk := new_honesty_risk rec;
                     rec_titles := t;
                     rec_thumbnails := th;
                     rec_notes := JStr note |} d).
Proof.
  intros Et Eth En Er. unfold insert_outcome, bound_row.
  rewrite Et, Eth, En, Er. reflexivity.
Qed.

(** The insertion of a row that the table refuses. *)
Lemma insert_outcome_refused (rec : NewRecommendation) (d : Database) :
  new_titles rec = None \/ new_thumbnails rec = None
  \/ new_notes rec = JUndefined \/ new_notes rec = JNull
  \/ (exists b, new_notes rec = JBool b)
  \/ DB.references_exist (new_trend_id rec) (new_video_id rec) d = false ->
  exists msg, insert_outcome rec d = Throw msg.
Proof.
  unfold insert_outcome, bound_row.
  intros Hc.
  destruct (DB.bind_parameter (new_notes rec)) as [[note|]|e] eqn:Eb;
    [ | | eauto ].
  - destruct (new_titles rec) as [t|] eqn:Et; [ | cbn; eauto ].
    destruct (new_thumbnails rec) as [th|] eqn:Eth; [ | cbn; eauto ].
    cbn.
    destruct (DB.references_exist _ _ d) eqn:Er; [ | eauto ].
    destruct Hc as [Hc|[Hc|[Hc|[Hc|[[b Hc]|Hc]]]]]; try discriminate;
      rewrite Hc in Eb; discriminate.
  - destruct (new_titles rec) as [t|]; [ | cbn; eauto ].
    destruct (new_thumbnails rec) as [th|]; cbn; eauto.
Qed.

End Gate.

(** X20.  The acceptance gate and what it persists.  For the evaluation
    [e] produced for a trend and a candidate, in the command-line
    matcher and in the server handler alike: the gate accepts exactly
    when [allowed] is true, the semantic relevance and the intro support
    are at least 0.65 and the honesty risk is at most 0.30.  When it
    does not accept, the iteration returns, the evaluation counter has
    gone up by one, the accepted counter and the database are as they
    were.  When it accepts and the row can be stored (the notes of [e]
    are a string, its titles and thumbnails are present, the trend and
    the video are in their tables), the iteration returns, both counters
    have gone up by one, and the row is persisted: it is in the table
    with the identifiers, the scores and the packaging of [e], no other
    row has its pair of identifiers, and the rows of the other pairs are
    untouched.  When it accepts and the insertion throws, which it does
    when titles, thumbnails or notes are missing, the notes are a
    boolean, or the trend or the video is not in its table, the
    iteration throws the same error and the database is as it was. *)
Theorem acceptance_gate `{Providers} (trend : Trend)
        (candidate : CandidateVideo) (total acc : Z)
        (matched : list MatchResult) (w : World) :
  (exists (e : LLMEvaluation) (w1 : World),
      Matcher.evaluateWithLLM
        trend (video candidate)
        (slice0 Matcher.TOP_CHUNKS_FOR_LLM (topChunks candidate)) w
      = (Ok e, w1)
      /\ (Matcher.accepted e = true <-> gate_conditions e)
      /\ (Matcher.accepted e = false ->
          exists w',
            Matcher.process_candidate trend candidate (total, acc) w
            = (Ok ((total + 1)%Z, acc), w')
            /\ db w' = db w)
      /\ (Matcher.accepted e = true ->
          forall note,
            notes e = JStr note ->
            titles e <> JUndefined ->
            thumbnails e <> JUndefined ->
            In trend (trends (db w)) ->
            In (video candidate) (videos (db w)) ->
            exists w',
              Matcher.process_candidate trend candidate (total, acc) w
              = (Ok ((total + 1)%Z, (acc + 1)%Z), w')
              /\ persisted (stored_row trend candidate e note)
                           (db w) (db w'))
      /\ (Matcher.accepted e = true ->
          titles e = JUndefined \/ thumbnails e = JUndefined
          \/ notes e = JUndefined \/ notes e = JNull
          \/ (exists b, notes e = JBool b)
          \/ ~ In (trend_id trend) (map trend_id (trends (db w)))
          \/ ~ In (video_id (video candidate))
                  (map video_id (videos (db w))) ->
          exists msg w',
            Matcher.process_candidate trend candidate (total, acc) w
            = (Throw msg, w')
            /\ db w' = db w))
  /\ (exists (e : LLMEvaluation) (w1 : World),
         Server.evaluateWithLLM
           trend (video candidate)
           (slice0 Server.TOP_CHUNKS_FOR_LLM (topChunks candidate)) w
         = (Ok e, w1)
         /\ (Server.accepted e = true <-> gate_conditions e)
         /\ (Server.accepted e = false ->
             exists w',
               Server.process_candidate trend candidate
                                        (total, acc, matched) w
               = (Ok ((total + 1)%Z, acc, matched), w')
               /\ db w' = db w)
         /\ (Server.accepted e = true ->
             forall note,
               notes e = JStr note ->
               titles e <> JUndefined ->
               thumbnails e <> JUndefined ->
               In trend (trends (db w)) ->
               In (video candidate) (videos (db w)) ->
               exists w',
                 Server.process_candidate trend candidate
                                          (total, acc, matched) w
                 = (Ok ((total + 1)%Z, (acc + 1)%Z,
                        matched ++ [Server.make_result trend candidate e]),
                    w')
                 /\ persisted (stored_row trend candidate e note)
                              (db w) (db w'))
         /\ (Server.accepted e = true ->
             titles e = JUndefined \/ thumbnails e = JUndefined
             \/ notes e = JUndefined \/ notes e = JNull
             \/ (exists b, notes e = JBool b)
             \/ ~ In (trend_id trend) (map trend_id (trends (db w)))
             \/ ~ In (video_id (video candidate))
                     (map video_id (videos (db w))) ->
             exists msg w',
               Server.process_candidate trend candidate
                                        (total, acc, matched) w
               = (Throw msg, w')
               /\ db w' = db w)).
Proof.
  assert (Hrefused :
            forall (rec : NewRecommendation) (e : LLMEvaluation),
              new_titles rec = stringify (titles e) ->
              new_thumbnails rec = stringify (thumbnails e) ->
              new_notes rec = notes e ->
              new_trend_id rec = trend_id trend ->
              new_video_id rec = video_id (video candidate) ->
              titles e = JUndefined \/ thumbnails e = JUndefined
              \/ notes e = JUndefined \/ notes e = JNull
              \/ (exists b, notes e = JBool b)
              \/ ~ In (trend_id trend) (map trend_id (trends (db w)))
              \/ ~ In (video_id (video candidate))
                      (map video_id (videos (db w))) ->
              exists msg, insert_outcome rec (db w) = Throw msg).
  { intros rec e E1 E2 E3 E4 E5 Hc. apply insert_outcome_refused.
    rewrite E1, E2, E3, E4, E5.
    destruct Hc as [Hc|[Hc|[Hc|[Hc|[Hc|Hc]]]]];
      [ left; now rewrite Hc
      | right; left; now rewrite Hc
      | tauto | tauto | tauto | ].
    do 5 right.
    destruct (DB.references_exist _ _ (db w)) eqn:Er; [ | reflexivity ].
    apply references_exist_map in Er. tauto. }
  assert (Hstorable :
            forall (rec : NewRecommendation) (e : LLMEvaluation)
                   (note : string),
              new_titles rec = stringify (titles e) ->
              new_thumbnails rec = stringify (thumbnails e) ->
              new_notes rec = notes e ->
              new_trend_id rec = trend_id trend ->
              new_video_id rec = video_id (video candidate) ->
              new_semantic_relevance rec = semantic_relevance e ->
              new_intro_support rec = intro_support e ->
              new_honesty_risk rec = honesty_risk e ->
              notes e = JStr note ->
              titles e <> JUndefined ->
              thumbnails e <> JUndefined ->
              In trend (trends (db w)) ->
              In (video candidate) (videos (db w)) ->
              insert_outcome rec (db w)
              = Ok (db_insert (stored_row trend candidate e note) (db w))).
  { intros rec e note E1 E2 E3 E4 E5 E6 E7 E8 Hn Ht Hth Hin Hiv.
    rewrite (@insert_outcome_storable _ rec (db w)
               (JSON_stringify (titles e)) (JSON_stringify (thumbnails e))
               note).
    - unfold stored_row. now rewrite E4, E5, E6, E7, E8.
    - rewrite E1. now apply stringify_defined.
    - rewrite E2. now apply stringify_defined.
    - now rewrite E3.
    - rewrite E4, E5. now apply references_exist_In. }
  split.
  - destruct (matcher_process_candidate_run trend candidate total acc w)
      as (e & w1 & w' & Hev & _ & Hm & _).
    exists e, w1. split; [ exact Hev | ].
    split; [ apply gate_iff_matcher | ].
    unfold verdict_outcome in Hm.
    split; [ | split ].
    + intros Ea. rewrite Ea in Hm. exists w'. exact Hm.
    + intros Ea note Hn Ht Hth Hin Hiv. rewrite Ea in Hm.
      rewrite (Hstorable (Matcher.make_recommendation trend candidate e)
                         e note) in Hm by (reflexivity || assumption).
      destruct Hm as [Hrun Hd]. exists w'. split; [ exact Hrun | ].
      rewrite Hd. apply persisted_db_insert.
    + intros Ea Hc. rewrite Ea in Hm.
      destruct (Hrefused (Matcher.make_recommendation trend candidate e) e)
        as [msg Hmsg]; try reflexivity; [ exact Hc | ].
      rewrite Hmsg in Hm. exists msg, w'. exact Hm.
  - destruct (server_process_candidate_run trend candidate total acc
                                           matched w)
      as (e & w1 & w' & Hev & _ & Hm & _).
    exists e, w1. split; [ exact Hev | ].
    split; [ apply gate_iff_server | ].
    unfold verdict_outcome in Hm.
    split; [ | split ].
    + intros Ea. rewrite Ea in Hm. exists w'.
      destruct Hm as (Hrun & Hd & _). split; [ exact Hrun | exact Hd ].
    + intros Ea note Hn Ht Hth Hin Hiv. rewrite Ea in Hm.
      rewrite (Hstorable (Server.make_recommendation trend candidate e)
                         e note) in Hm by (reflexivity || assumption).
      destruct Hm as (Hrun & Hd & _). exists w'. split; [ exact Hrun | ].
      rewrite Hd. apply persisted_db_insert.
    + intros Ea Hc. rewrite Ea in Hm.
      destruct (Hrefused (Server.make_recommendation trend candidate e) e)
        as [msg Hmsg]; try reflexivity; [ exact Hc | ].
      rewrite Hmsg in Hm. exists msg, w'.
      destruct Hm as (Hrun & Hd & _). split; [ exact Hrun | exact Hd ].
Qed.

(** On the scenario the pair of T1 and V1 is accepted and stored. *)
Lemma acceptance_gate_witness :
  let w := Scenario.world Scenario.corpus in
  let c := Scenario.candidate Scenario.V1 in
  exists w',
    @Matcher.process_candidate Scenario.providers Scenario.T1 c (0, 0)%Z w
    = (Ok (1, 1)%Z, w')
    /\ exists row,
        In row (recommendations (db w'))
        /\ rec_key row = ("T1", "V1")
        /\ rec_notes row = JStr "ok".
Proof.
  intros w c.
  destruct (@acceptance_gate Scenario.providers Scenario.T1 c 0 0 [] w)
    as [(e & w1 & Hev & _ & _ & Hst & _) _].
  vm_compute in Hev. injection Hev as <- <-.
  destruct (Hst eq_refl "ok") as (w' & Hrun & Hin & _);
    [ reflexivity | discriminate | discriminate
    | now left | now left | ].
  exists w'. split; [ exact Hrun | ].
  eexists. split; [ exact Hin | ]. split; reflexivity.
Defined.

(** ** server.ts: the repair cascade *)

(** X21.  The repair cascade of the server.  In the server variant of
    [evaluateWithLLM], for every answer of the model, the parsing strategies are tried in this order, and the first
    that succeeds decides: the answer as it is; the answer cut down to
    what lies between its first opening brace and its last closing brace
    (for an object wrapped in prose that has no brace of its own, that
    is the object); the answer repaired by [jsonrepair].  The value
    parsed goes on to the structure check, which returns it as the
    evaluation or replaces it by the sentinel.  When all three
    strategies fail the sentinel is returned with the note
    [JSON parse failed] and the message of the first parse error. *)
Theorem repair_cascade_server `{Providers} (trend : Trend) (video : Video)
        (topChunks : list string) (w : World) :
  let checked := fun v => match validate v with
                          | Ok e => e
                          | Throw msg =>
                              conservative_rejection (evaluation_failed msg)
                          end in
  exists (e : LLMEvaluation) (w' : World),
    Server.evaluateWithLLM trend video topChunks w = (Ok e, w')
    /\ (forall c, chat_completion trend video topChunks = Ok c ->
          let content := content_or_default c in
          (e = match first_success parse_strategies content with
               | Some v => checked v
               | None =>
                   conservative_rejection
                     ("JSON parse failed: " ++ parse_error content)%string
               end)
          /\ (forall v, JSON_parse content = Ok v -> e = checked v)
          /\ (forall m1 v,
                 JSON_parse content = Throw m1 ->
                 JSON_parse (Server.brace_cleanup content) = Ok v ->
                 e = checked v)
          /\ (forall m1 m2 repaired v,
                 JSON_parse content = Throw m1 ->
                 JSON_parse (Server.brace_cleanup content) = Throw m2 ->
                 jsonrepair content = Ok repaired ->
                 JSON_parse repaired = Ok v ->
                 e = checked v)
          /\ (forall m1 m2,
                 JSON_parse content = Throw m1 ->
                 JSON_parse (Server.brace_cleanup content) = Throw m2 ->
                 (forall repaired, jsonrepair content = Ok repaired ->
                                   exists m3, JSON_parse repaired = Throw m3) ->
                 e = conservative_rejection
                       ("JSON parse failed: " ++ m1)%string)
          /\ (forall pre mid post,
                 content = (pre ++ "{" ++ mid ++ "}" ++ post)%string ->
                 indexOf pre "{" = (-1)%Z ->
                 indexOf post "}" = (-1)%Z ->
                 Server.brace_cleanup content = ("{" ++ mid ++ "}")%string)).
Proof.
  intros checked.
  destruct (server_evaluateWithLLM_run trend video topChunks w)
    as (e & w' & Hrun & _ & _ & He).
  exists e, w'. split; [ exact Hrun | ].
  intros c Ec content. rewrite Ec in He. fold content in He.
  assert (Hfs : e = match first_success parse_strategies content with
                    | Some v => checked v
                    | None =>
                        conservative_rejection
                          ("JSON parse failed: " ++ parse_error content)%string
                    end).
  { rewrite He. destruct (first_success parse_strategies content);
      reflexivity. }
  split; [ exact Hfs | ].
  unfold first_success, parse_strategies, result_to_option, parse_error
    in Hfs.
  repeat split.
  - intros v E1. now rewrite E1 in Hfs.
  - intros m1 v E1 E2. now rewrite E1, E2 in Hfs.
  - intros m1 m2 repaired v E1 E2 E3 E4. now rewrite E1, E2, E3, E4 in Hfs.
  - intros m1 m2 E1 E2 E3. rewrite E1, E2 in Hfs.
    destruct (jsonrepair content) as [repaired|m3]; [ | exact Hfs ].
    destruct (E3 repaired eq_refl) as [m3 E4]. now rewrite E4 in Hfs.
  - intros pre mid post -> Hpre Hpost.
    now apply brace_cleanup_wrapped.
Qed.


(** ** youtube.ts: the lookup of suggestions *)

(** What a computation returns, whatever the world it starts from. *)
Lemma returns_ret {A : Type} (R : A -> Prop) (a : A) :
  R a -> hoare (fun _ => True) (ret a) (fun x _ => R x) (fun _ => True).
Proof. intros Ha w _. exact Ha. Qed.

Lemma returns_bind {A B : Type} (R : B -> Prop) (m : M A) (k : A -> M B) :
  (forall a, hoare (fun _ => True) (k a) (fun x _ => R x) (fun _ => True)) ->
  hoare (fun _ => True) (bind m k) (fun x _ => R x) (fun _ => True).
Proof.
  intros Hk w _. unfold bind. destruct (m w) as [[a|e] w1]; [ | exact I ].
  now apply Hk.
Qed.

Lemma returns_bind_lift {A B : Type} (R : B -> Prop) (r : result A)
      (k : A -> M B) :
  (forall a, r = Ok a ->
             hoare (fun _ => True) (k a) (fun x _ => R x) (fun _ => True)) ->
  hoare (fun _ => True) (bind (lift r) k) (fun x _ => R x) (fun _ => True).
Proof.
  intros Hk w _. unfold bind, lift. destruct r as [a|e]; [ | exact I ].
  now apply Hk.
Qed.

Lemma returns_try_catch {A : Type} (R : A -> Prop) (m : M A)
      (h : string -> M A) :
  hoare (fun _ => True) m (fun x _ => R x) (fun _ => True) ->
  (forall e, hoare (fun _ => True) (h e) (fun x _ => R x) (fun _ => True)) ->
  hoare (fun _ => True) (try_catch m h) (fun x _ => R x) (fun _ => True).
Proof.
  intros Hm Hh w _. unfold try_catch. specialize (Hm w I).
  destruct (m w) as [[a|e] w1]; [ exact Hm | ].
  now apply Hh.
Qed.

Section Lookup.

Context `{Providers}.

(** The list returned is empty, or the suggestions of the videos
    endpoint in the order of their views, cut at [maxResults]. *)
Lemma getYouTubeTitleSuggestions_returns (query youtubeApiKey
                                          openaiApiKey : string)
      (maxResults : nat) :
  hoare (fun _ => True)
        (YouTube.getYouTubeTitleSuggestions query youtubeApiKey
                                            openaiApiKey maxResults)
        (fun ys _ =>
           ys = []
           \/ exists (ids : string)
                     (stats : list YouTubeVideoSuggestion),
               fetch_stats ids = Ok (Json (Ok stats))
               /\ ys = slice0 maxResults
                         (Js.sort (fun a b => inject_Z (yt_views b)
                                              - inject_Z (yt_views a))%Q
                                  stats))
        (fun _ => True).
Proof.
  unfold YouTube.getYouTubeTitleSuggestions.
  apply returns_try_catch.
  - repeat first
      [ apply returns_ret; now left
      | solve [ apply returns_ret; right; subst; eauto ]
      | apply returns_bind_lift; intros ? ?
      | apply returns_bind; intro
      | match goal with
        | |- context [ match ?x with _ => _ end ] => destruct x
        end ].
  - intros e. apply returns_bind. intros _. apply returns_ret. now left.
Qed.

End Lookup.

(** X22.  [getYouTubeTitleSuggestions].  The lookup never throws: what
    goes wrong in it is written to the console and gives the empty
    list.  It returns at most [maxResults] suggestions, by decreasing
    number of views: the list is empty, or it is the answer of the
    videos endpoint, sorted by views and cut.  It writes to the console
    and to nothing else; it sends at most one request to the chat model,
    for the search query of the headline, and it sends none and returns
    the empty list, with one warning on the console, when the key of the
    YouTube Data API is empty or is the placeholder. *)
Theorem youtube_suggestions `{Providers} (query youtubeApiKey
                                          openaiApiKey : string)
        (maxResults : nat) (w : World) :
  exists (ys : list YouTubeVideoSuggestion) (w' : World),
    YouTube.getYouTubeTitleSuggestions query youtubeApiKey openaiApiKey
                                       maxResults w
    = (Ok ys, w')
    /\ length ys <= maxResults
    /\ StronglySorted (fun a b => (yt_views b <= yt_views a)%Z) ys
    /\ (ys = []
        \/ exists (ids : string) (stats : list YouTubeVideoSuggestion),
            fetch_stats ids = Ok (Json (Ok stats))
            /\ Permutation (ys ++ skipn maxResults
                                    (Js.sort (fun a b =>
                                                inject_Z (yt_views b)
                                                - inject_Z (yt_views a))%Q
                                             stats))
                           stats)
    /\ db w' = db w
    /\ response w' = response w
    /\ chat_requests w' = chat_requests w
    /\ (exists logs, console w' = console w ++ logs)
    /\ (exists topics,
           topic_requests w' = topic_requests w ++ topics
           /\ (topics = [] \/ topics = [query]))
    /\ (youtubeApiKey = "" \/ youtubeApiKey = "your_youtube_api_key_here" ->
        ys = []
        /\ w' = with_console
                  w [console_warn
                       "YouTube API key not configured - skipping YouTube suggestions"
                       []]).
Proof.
  destruct (getYouTubeTitleSuggestions_run query youtubeApiKey openaiApiKey
                                           maxResults w)
    as (ys & w' & logs & topics & Hrun & Hw & Hc & Hkey).
  pose proof (@getYouTubeTitleSuggestions_returns
                _ query youtubeApiKey openaiApiKey maxResults w I)
    as Hshape.
  rewrite Hrun in Hshape.
  exists ys, w'. split; [ exact Hrun | ].
  assert (Hsorted : forall stats,
             StronglySorted (fun a b => (yt_views b <= yt_views a)%Z)
               (slice0 maxResults
                  (Js.sort (fun a b => inject_Z (yt_views b)
                                       - inject_Z (yt_views a))%Q stats))).
  { intros stats.
    assert (Hs : StronglySorted
                   (descending (fun s => inject_Z (yt_views s)))
                   (firstn maxResults
                      (Js.sort (fun a b => inject_Z (yt_views b)
                                           - inject_Z (yt_views a))%Q
                               stats)))
      by apply firstn_descending, sort_descending.
    unfold slice0.
    eapply StronglySorted_ind
      with (P := StronglySorted (fun a b => (yt_views b <= yt_views a)%Z));
      [ constructor | | exact Hs ].
    intros a l _ IH Ha. constructor; [ exact IH | ].
    eapply Forall_impl; [ | exact Ha ].
    intros b Hb. unfold descending in Hb. now rewrite <- Zle_Qle in Hb. }
  split; [ | split; [ | split ] ].
  - destruct Hshape as [->|(ids & stats & _ & ->)]; [ cbn; lia | ].
    unfold slice0. rewrite length_firstn. lia.
  - destruct Hshape as [->|(ids & stats & _ & ->)]; [ constructor | ].
    apply Hsorted.
  - destruct Hshape as [->|(ids & stats & Hs & ->)]; [ now left | ].
    right. exists ids, stats. split; [ exact Hs | ].
    unfold slice0. rewrite firstn_skipn. apply sort_perm.
  - subst w'. cbn [db response chat_requests console topic_requests].
    do 3 (split; [ reflexivity | ]).
    split; [ eauto | ]. split; [ eauto | ].
    intros Hk. destruct (Hkey Hk) as [-> ->]. split; [ reflexivity | ].
    assert (Eb : String.eqb youtubeApiKey ""
                 || String.eqb youtubeApiKey "your_youtube_api_key_here"
                 = true).
    { destruct Hk as [->| ->]; reflexivity. }
    unfold YouTube.getYouTubeTitleSuggestions in Hrun.
    rewrite Eb in Hrun.
    assert (Hcons := f_equal (fun p => console (snd p)) Hrun).
    cbn in Hcons. apply app_inv_head in Hcons. subst logs.
    unfold with_console. now rewrite app_nil_r.
Qed.

(** With a key, the lookup of a headline on the scenario asks the model
    for the search query and returns the two videos, the one with more
    views first. *)
Lemma youtube_suggestions_witness :
  exists w',
    @YouTube.getYouTubeTitleSuggestions
      Scenario.providers_with_youtube "AI layoffs - Mint" "yt-key" "sk-test"
      10 (Scenario.world Scenario.corpus)
    = (Ok [Scenario.suggestion; Scenario.suggestion_small], w')
    /\ topic_requests w' = ["AI layoffs - Mint"]
    /\ length (console w') = 5.
Proof.
  destruct (@youtube_suggestions
              Scenario.providers_with_youtube "AI layoffs - Mint" "yt-key"
              "sk-test" 10 (Scenario.world Scenario.corpus))
    as (ys & w' & Hrun & _).
  exists w'. rewrite Hrun.
  vm_compute in Hrun. injection Hrun as <- <-.
  repeat split.
Defined.
